(** * Schumann Resonance Lab v2.6.0: the audio engine of [app.js]

  A shallow embedding of the parts of [app.js] that the specification
  talks about, followed by the properties proved of them:

  - the reverb wet-gain compensation ([getAudioBufferRms],
    [getCompensatedIrWetGain]);
  - the chord-loop ranking ([scoreChordLoop], [sortChordLoops]);
  - the audio graph life cycle ([startGraph], [stopCurrentAudio],
    [createBandSplitEchoCluster]);
  - the per-band best-phase store and the guided two-tier scan
    ([handleMarkStrongest], [startTwoTierScan], [runScanPhase],
    [stopExplore]).

  Modelling conventions.
  - A JavaScript number is an exact rational ([Qc], with Leibniz
    equality), or an exact real where [Math.sqrt] is involved.  Where a
    statement is about the digits a computation leaves, the computation
    is embedded a second time with each operation rounded to the nearest
    IEEE-754 double ([Double], [Rounded]).
  - The page's DOM elements looked up by id at load time exist, so a
    guard such as [if (phaseRange)] takes its true branch.
  - Asynchronous loads (samples, impulse responses, chord loops) are
    inputs of the model: a load has either completed before the graph
    is built or it has not. *)

From Stdlib Require Import ZArith QArith Qcanon Qround Qabs Qpower Reals Psatz.
From Stdlib Require Import List String Ascii.
From Stdlib Require Import Sorting.Sorted Sorting.Permutation OrdersEx.
From stdpp Require Import base list gmap strings.
From Equations Require Import Equations.

Set Default Proof Using "Type".

(** ** JavaScript numbers as exact rationals *)

Module JsNum.

(** A decimal literal such as [7.83] is written [dec 783 100]. *)
Definition dec (n : Z) (d : positive) : Qc := Q2Qc (n # d).

Definition ofZ (n : Z) : Qc := Q2Qc (inject_Z n).

(** Truncation towards zero, the integer part used by [%]. *)
Definition trunc (x : Qc) : Z := Z.quot (Qnum (this x)) (Zpos (Qden (this x))).

(** [x % y]: the remainder has the sign of the dividend. *)
Definition js_mod (x y : Qc) : Qc := (x - y * ofZ (trunc (x / y)))%Qc.

(** [x.toFixed(0)], read back as a number: the nearest integer, the
    larger one (in absolute value) on a tie. *)
Definition toFixed0 (x : Qc) : Qc :=
  if decide (x < 0)%Qc
  then ofZ (- Qfloor (this (- x + dec 1 2)%Qc))
  else ofZ (Qfloor (this (x + dec 1 2)%Qc)).

(** [Math.max] and [Math.min] on finite numbers. *)
Definition max (x y : Qc) : Qc := if decide (x < y)%Qc then y else x.
Definition min (x y : Qc) : Qc := if decide (y < x)%Qc then y else x.

End JsNum.

(** ** [Array.prototype.sort] with a comparator

  The sort is stable (ECMAScript 2019): [a] is placed before [b] when
  [cmp a b < 0], and elements that compare equal keep their order.  It is
  modelled as a stable insertion sort. *)

Section JsSort.
Context {A : Type} (cmp : A -> A -> Z).

Fixpoint js_insert (x : A) (l : list A) : list A :=
  match l with
  | [] => [x]
  | y :: l' => if (cmp x y <=? 0)%Z then x :: y :: l' else y :: js_insert x l'
  end.

Fixpoint js_sort (l : list A) : list A :=
  match l with
  | [] => []
  | x :: l' => js_insert x (js_sort l')
  end.
End JsSort.

(** ** Reverb wet-gain compensation (app.js, lines 424-450) *)

Module Reverb.
Local Open Scope R_scope.

(** A sample or an accumulated value: a real number, or one of the
    non-finite doubles ([NaN], [Infinity], [-Infinity]), which the code
    only ever tells apart from the finite ones ([Number.isFinite]). *)
Inductive jsnum : Type :=
| Finite (x : R)
| NonFinite.

(** An [AudioBuffer]: one list of samples per channel. *)
Definition AudioBuffer : Type := list (list jsnum).

(** [sum += v * v] *)
Definition addSquare (sum v : jsnum) : jsnum :=
  match sum, v with
  | Finite s, Finite x => Finite (s + x * x)
  | _, _ => NonFinite
  end.

(** The inner loop over one channel: [(sum, count)] is threaded. *)
Definition channelLoop (acc : jsnum * nat) (data : list jsnum) : jsnum * nat :=
  fold_left (fun a v => (addSquare (fst a) v, S (snd a))) data acc.

Definition getAudioBufferRms (buffer : option AudioBuffer) : jsnum :=
  match buffer with
  | None => Finite 0
  | Some b =>
      let channels := length b in
      if Nat.eqb channels 0 then Finite 0
      else
        let '(sum, count) := fold_left channelLoop b (Finite 0, 0%nat) in
        if Nat.eqb count 0 then Finite 0
        else match sum with
             | Finite s => Finite (sqrt (s / INR count))
             | NonFinite => NonFinite
             end
  end.

Definition getCompensatedIrWetGain (name : string) (buffer : option AudioBuffer) : R :=
  let baseWet := if String.eqb name "temple" then 0.42 else 0.58 in
  match getAudioBufferRms buffer with
  | NonFinite => baseWet
  | Finite rms =>
      if Rle_dec rms 0 then baseWet
      else
        let targetRms := 0.12 in
        let comp := Rmax 0.05 (Rmin 1.5 (targetRms / rms)) in
        Rmax 0.03 (Rmin 0.95 (baseWet * comp))
  end.

(** The words of the specification, to compare the code with. *)

Definition clamp (x lo hi : R) : R :=
  if Rlt_dec x lo then lo else if Rlt_dec hi x then hi else x.

Definition baseWet (space : string) : R :=
  if String.eqb space "temple" then 0.42 else 0.58.

Definition isFinite (v : jsnum) : bool :=
  match v with Finite _ => true | NonFinite => false end.

Definition allFinite (samples : list jsnum) : bool := forallb isFinite samples.

Fixpoint sumSquares (samples : list jsnum) : R :=
  match samples with
  | [] => 0
  | Finite x :: l => x * x + sumSquares l
  | NonFinite :: l => sumSquares l
  end.

(** Root mean square over all channels and samples. *)
Definition rootMeanSquare (b : AudioBuffer) : R :=
  sqrt (sumSquares (concat b) / INR (length (concat b))).

End Reverb.

(** ** Chord-loop ranking (app.js, lines 305-359) *)

Module Chords.

(** A manifest entry; an absent or empty property is the empty string. *)
Record ChordLoop : Type := mkLoop { name : string; file : string }.

(** [assets/chords/preferences.json]; a property that is not an array is
    [None]. *)
Record Preferences : Type := mkPrefs {
  favoriteKeywords : option (list string);
  meditationKeywords : option (list string);
  avoidKeywords : option (list string);
  bpmRange : option (list Z)
}.

(** [toLowerCase], on the ASCII letters. *)
Definition lowerAscii (c : ascii) : ascii :=
  let n := nat_of_ascii c in
  if (65 <=? n)%nat && (n <=? 90)%nat then ascii_of_nat (n + 32) else c.

Fixpoint toLowerCase (s : string) : string :=
  match s with
  | EmptyString => EmptyString
  | String c r => String (lowerAscii c) (toLowerCase r)
  end.

(** [text.includes(k)] *)
Fixpoint includes (text k : string) : bool :=
  String.prefix k text ||
  match text with
  | EmptyString => false
  | String _ r => includes r k
  end.

Definition isDigit (c : ascii) : bool :=
  let n := nat_of_ascii c in (48 <=? n)%nat && (n <=? 57)%nat.

(** The last group of the tempo pattern, [([^0-9]|$)]. *)
Definition endOfNumber (s : string) : bool :=
  match s with
  | EmptyString => true
  | String c _ => negb (isDigit c)
  end.

(** [(\d{2,3})([^0-9]|$)] at the head of [s]: three digits are tried
    before two. *)
Definition digits23 (s : string) : option string :=
  match s with
  | String a (String b r) =>
      if isDigit a && isDigit b then
        match r with
        | String c r' =>
            if isDigit c && endOfNumber r' then Some (String a (String b (String c EmptyString)))
            else if endOfNumber r then Some (String a (String b EmptyString))
            else None
        | EmptyString => Some (String a (String b EmptyString))
        end
      else None
  | _ => None
  end.

(** [text.match(/(^|[^0-9])(\d{2,3})([^0-9]|$)/)], second group: the
    leftmost match; at each position [^] is tried before [[^0-9]]. *)
Fixpoint bpmSearch (atStart : bool) (s : string) : option string :=
  match (if atStart then digits23 s else None) with
  | Some d => Some d
  | None =>
      match s with
      | EmptyString => None
      | String c r =>
          match (if isDigit c then None else digits23 r) with
          | Some d => Some d
          | None => bpmSearch false r
          end
      end
  end.

(** [parseInt(digits, 10)] on a string of decimal digits. *)
Definition parseInt10 (digits : string) : Z :=
  fold_left (fun acc c => (10 * acc + Z.of_nat (nat_of_ascii c - 48))%Z)
            (list_ascii_of_string digits) 0%Z.

(** [keys.forEach((k) => { if (k && text.includes(String(k).toLowerCase())) score += w; })] *)
Definition addKeywordMatches (w : Z) (text : string) (keys : list string) (score : Z) : Z :=
  fold_left (fun sc k =>
               if negb (String.eqb k "") && includes text (toLowerCase k)
               then (sc + w)%Z else sc)
            keys score.

Definition basePos : list string :=
  ["minor"; "min"; "m_"; "sus"; "maj7"; "add9"; "pad"; "drone"; "soft"; "warm"]%string.

Definition baseNeg : list string :=
  ["drum"; "perc"; "stacc"; "pluck"; "arp"; "lead"]%string.

(** [Array.isArray(chordPreferences && chordPreferences.field) ? ... : dflt] *)
Definition prefArray {B : Type} (prefs : option Preferences)
    (field : Preferences -> option (list B)) (dflt : list B) : list B :=
  match prefs with
  | Some p => match field p with Some l => l | None => dflt end
  | None => dflt
  end.

(** [if (Number.isFinite(bpm)) { ... }]: a comparison with a missing
    bound ([undefined]) is false. *)
Definition addTempo (range : list Z) (bpm : option Z) (score : Z) : Z :=
  match bpm with
  | None => score
  | Some b =>
      let inRange :=
        match range !! 0%nat, range !! 1%nat with
        | Some lo, Some hi => (lo <=? b)%Z && (b <=? hi)%Z
        | _, _ => false
        end in
      let score := if inRange then (score + 12)%Z else score in
      if (155 <? b)%Z then (score - 8)%Z else score
  end.

Definition loopText (loop : ChordLoop) : string :=
  toLowerCase (name loop ++ " " ++ file loop)%string.

Definition scoreChordLoop (chordPreferences : option Preferences) (loop : ChordLoop) : Z :=
  let text := loopText loop in
  let score := 0%Z in
  let bpm := parseInt10 <$> bpmSearch true text in
  let range := prefArray chordPreferences bpmRange [110; 140]%Z in
  let score := addTempo range bpm score in
  let score := addKeywordMatches 6 text basePos score in
  let score := addKeywordMatches (-8) text baseNeg score in
  let favorites := prefArray chordPreferences favoriteKeywords [] in
  let score := addKeywordMatches 45 text favorites score in
  let medKeys := prefArray chordPreferences meditationKeywords [] in
  let score := addKeywordMatches 14 text medKeys score in
  let avoidKeys := prefArray chordPreferences avoidKeywords [] in
  let score := addKeywordMatches (-18) text avoidKeys score in
  score.

(** [String(a.loop.name || a.loop.file)] *)
Definition sortName (loop : ChordLoop) : string :=
  if String.eqb (name loop) "" then file loop else name loop.

Section Sorting.
(** [String.prototype.localeCompare] is the host's collation; it is a
    parameter of the model. *)
Variable localeCompare : string -> string -> Z.
Variable chordPreferences : option Preferences.

Definition compareScored (a b : ChordLoop * Z) : Z :=
  if negb (snd b =? snd a)%Z then (snd b - snd a)%Z
  else localeCompare (sortName (fst a)) (sortName (fst b)).

Definition sortChordLoops (loops : list ChordLoop) : list (ChordLoop * Z) :=
  let withScore := map (fun loop => (loop, scoreChordLoop chordPreferences loop)) loops in
  js_sort compareScored withScore.
End Sorting.

End Chords.

(** ** Event handlers: state and exceptions

    A handler runs on the mutable globals of the page and may raise an
    exception; the mutations made before the exception stay. *)

Inductive result (A : Type) : Type :=
| Ok (a : A)
| Throw.
Arguments Ok {A} a.
Arguments Throw {A}.

Definition Js (S A : Type) : Type := S -> result A * S.

#[global] Instance Js_ret (S : Type) : MRet (Js S) :=
  fun A a s => (Ok a, s).

#[global] Instance Js_bind (S : Type) : MBind (Js S) :=
  fun A B k m s =>
    match m s with
    | (Ok a, s') => k a s'
    | (Throw, s') => (Throw, s')
    end.

Definition throw {S A : Type} : Js S A := fun s => (Throw, s).

(** [try { m } catch { h }] *)
Definition tryCatch {S : Type} (m h : Js S unit) : Js S unit :=
  fun s => match m s with
           | (Ok a, s') => (Ok a, s')
           | (Throw, s') => h s'
           end.

Definition skip {S : Type} : Js S unit := mret tt.

Definition gets {S A : Type} (f : S -> A) : Js S A := fun s => (Ok (f s), s).

Definition modify {S : Type} (f : S -> S) : Js S unit := fun s => (Ok tt, f s).

(** [if (b) { m }] *)
Definition when {S : Type} (b : bool) (m : Js S unit) : Js S unit :=
  if b then m else skip.

(** [l.forEach(f)] *)
Fixpoint forEach {S A : Type} (l : list A) (f : A -> Js S unit) : Js S unit :=
  match l with
  | [] => skip
  | x :: l' => f x ;; forEach l' f
  end.

(** The state a handler leaves behind, and whether it returned. *)
Definition exec {S A : Type} (m : Js S A) (s : S) : S := snd (m s).

Definition returns {S A : Type} (m : Js S A) (s : S) : bool :=
  match fst (m s) with Ok _ => true | Throw => false end.

(** [m] returns normally from every state. *)
Definition NoThrow {S A : Type} (m : Js S A) : Prop :=
  forall s, exists a, fst (m s) = Ok a.

(** ** The audio graph (app.js, lines 166-266 and 1193-1861) *)

Module Audio.

Inductive NodeKind : Type :=
| Oscillator | BufferSource | ConstantSource
| MediaElement | MediaElementSource
| Gain | Analyser | Convolver | StereoPanner | Delay | BiquadFilter.

(** A Web Audio node (or an [<audio>] element): its kind, the value of its
    main parameter (frequency, gain, pan, delay time or offset), and which
    of [start()] (for an element: [play()]), [stop()] and [disconnect()]
    have been called on it. *)
Record Node : Type := mkNode {
  kind : NodeKind;
  value : Qc;
  started : bool;
  stopped : bool;
  disconnected : bool
}.

(** The kinds that have [start()] and [stop()]. *)
Definition isScheduledSource (k : NodeKind) : bool :=
  match k with
  | Oscillator | BufferSource | ConstantSource => true
  | _ => false
  end.

(** The globals of the engine.  A global that holds a node or a timer
    is an entry of [globals] under its name, [null] being absent; a node
    is its index in [nodes], the nodes created so far; [timers] are the
    pending [setInterval] and [requestAnimationFrame] callbacks. *)
Record AudioState : Type := mkAudio {
  audioCtx : bool;
  nodes : list Node;
  timers : gset nat;
  nextTimer : nat;
  globals : gmap string nat;
  extraNodes : list nat;
  motionPanners : list nat;
  chordOscs : list nat;
  chordIndex : nat;
  birdsIsSample : bool;
  wavesIsSample : bool
}.

(** What a build reads from the page and from the asset loads. *)
Record Controls : Type := mkControls {
  stimulationMode : string;
  selectedIR : string;
  chordInstrument : string;
  chordLoops : bool;           (* chordManifest[chordInstrument] is there *)
  selectedChordLoop : bool;    (* a loop file is selected *)
  oceanSampleBuffer : bool;
  rainSampleBuffer : bool;
  birdsSampleBuffer : bool;
  wavesSampleBuffer : bool;
  mediaSourceFails : bool;     (* createMediaElementSource raises *)
  volumeRange : Qc;
  depthRange : Qc;
  toneMixRange : Qc;
  oceanRange : Qc;
  rainRange : Qc;
  birdsRange : Qc;
  wavesRange : Qc;
  scopeCanvas : bool;          (* the canvas and its 2d context exist *)
  random : Qc                  (* the value of Math.random() in this build *)
}.

Definition baseOsc : string := "baseOsc".
Definition baseGain : string := "baseGain".
Definition masterGain : string := "masterGain".
Definition oceanSource : string := "oceanSource".
Definition oceanGain : string := "oceanGain".
Definition rainSource : string := "rainSource".
Definition rainGain : string := "rainGain".
Definition wavesSource : string := "wavesSource".
Definition wavesGain : string := "wavesGain".
Definition birdsSource : string := "birdsSource".
Definition birdsGain : string := "birdsGain".
Definition birdsStreamEl : string := "birdsStreamEl".
Definition wavesStreamEl : string := "wavesStreamEl".
Definition analyser : string := "analyser".
Definition motionLfo : string := "motionLfo".
Definition motionGainNode : string := "motionGainNode".
Definition chordBufferSource : string := "chordBufferSource".
Definition birdsPatternTimer : string := "birdsPatternTimer".
Definition wavesPatternTimer : string := "wavesPatternTimer".
Definition chordTimer : string := "chordTimer".
Definition scopeAnimId : string := "scopeAnimId".

Definition initial : AudioState :=
  mkAudio false [] ∅ 1 ∅ [] [] [] 0 false false.

(** *** Field updates *)

Definition setAudioCtx (v : bool) (s : AudioState) : AudioState :=
  mkAudio v (nodes s) (timers s) (nextTimer s) (globals s) (extraNodes s)
          (motionPanners s) (chordOscs s) (chordIndex s) (birdsIsSample s) (wavesIsSample s).

Definition setNodes (v : list Node) (s : AudioState) : AudioState :=
  mkAudio (audioCtx s) v (timers s) (nextTimer s) (globals s) (extraNodes s)
          (motionPanners s) (chordOscs s) (chordIndex s) (birdsIsSample s) (wavesIsSample s).

Definition setTimers (v : gset nat) (n : nat) (s : AudioState) : AudioState :=
  mkAudio (audioCtx s) (nodes s) v n (globals s) (extraNodes s)
          (motionPanners s) (chordOscs s) (chordIndex s) (birdsIsSample s) (wavesIsSample s).

Definition setGlobals (v : gmap string nat) (s : AudioState) : AudioState :=
  mkAudio (audioCtx s) (nodes s) (timers s) (nextTimer s) v (extraNodes s)
          (motionPanners s) (chordOscs s) (chordIndex s) (birdsIsSample s) (wavesIsSample s).

Definition setExtraNodes (v : list nat) (s : AudioState) : AudioState :=
  mkAudio (audioCtx s) (nodes s) (timers s) (nextTimer s) (globals s) v
          (motionPanners s) (chordOscs s) (chordIndex s) (birdsIsSample s) (wavesIsSample s).

Definition setMotionPanners (v : list nat) (s : AudioState) : AudioState :=
  mkAudio (audioCtx s) (nodes s) (timers s) (nextTimer s) (globals s) (extraNodes s)
          v (chordOscs s) (chordIndex s) (birdsIsSample s) (wavesIsSample s).

Definition setChordOscs (v : list nat) (s : AudioState) : AudioState :=
  mkAudio (audioCtx s) (nodes s) (timers s) (nextTimer s) (globals s) (extraNodes s)
          (motionPanners s) v (chordIndex s) (birdsIsSample s) (wavesIsSample s).

Definition setChordIndex (v : nat) (s : AudioState) : AudioState :=
  mkAudio (audioCtx s) (nodes s) (timers s) (nextTimer s) (globals s) (extraNodes s)
          (motionPanners s) (chordOscs s) v (birdsIsSample s) (wavesIsSample s).

Definition setBirdsIsSample (v : bool) (s : AudioState) : AudioState :=
  mkAudio (audioCtx s) (nodes s) (timers s) (nextTimer s) (globals s) (extraNodes s)
          (motionPanners s) (chordOscs s) (chordIndex s) v (wavesIsSample s).

Definition setWavesIsSample (v : bool) (s : AudioState) : AudioState :=
  mkAudio (audioCtx s) (nodes s) (timers s) (nextTimer s) (globals s) (extraNodes s)
          (motionPanners s) (chordOscs s) (chordIndex s) (birdsIsSample s) v.

(** *** Primitive operations of the host *)

Abbreviation Cmd := (Js AudioState).

(** [audioCtx.createX()], with the initial value of the main parameter. *)
Definition create (k : NodeKind) (v : Qc) : Cmd nat :=
  fun s => (Ok (length (nodes s)), setNodes (nodes s ++ [mkNode k v false false false]) s).

Definition updNode (id : nat) (f : Node -> Node) : Cmd unit :=
  modify (fun s => setNodes (alter f id (nodes s)) s).

(** [node.param.value = v] *)
Definition setValue (id : nat) (v : Qc) : Cmd unit :=
  updNode id (fun n => mkNode (kind n) v (started n) (stopped n) (disconnected n)).

(** [node.start()]: an [InvalidStateError] when called a second time. *)
Definition start (id : nat) : Cmd unit :=
  fun s => match nodes s !! id with
           | Some n =>
               if isScheduledSource (kind n) && negb (started n)
               then updNode id (fun n => mkNode (kind n) (value n) true (stopped n) (disconnected n)) s
               else (Throw, s)
           | None => (Throw, s)
           end.

(** [el.play().catch(() => {})] *)
Definition play (id : nat) : Cmd unit :=
  updNode id (fun n => mkNode (kind n) (value n) true (stopped n) (disconnected n)).

(** [node.stop()]: a [TypeError] on a node that has no such method, an
    [InvalidStateError] on a source that was not started. *)
Definition stop (id : nat) : Cmd unit :=
  fun s => match nodes s !! id with
           | Some n =>
               if isScheduledSource (kind n) && started n
               then updNode id (fun n => mkNode (kind n) (value n) (started n) true (disconnected n)) s
               else (Throw, s)
           | None => (Throw, s)
           end.

(** [node.disconnect()] *)
Definition disconnect (id : nat) : Cmd unit :=
  fun s => match nodes s !! id with
           | Some n =>
               match kind n with
               | MediaElement => (Throw, s)
               | _ => updNode id (fun n => mkNode (kind n) (value n) (started n) (stopped n) true) s
               end
           | None => (Throw, s)
           end.

(** [setInterval(f, ms)] and [requestAnimationFrame(f)] *)
Definition setInterval : Cmd nat :=
  fun s => (Ok (nextTimer s), setTimers ({[nextTimer s]} ∪ timers s) (S (nextTimer s)) s).

(** [clearInterval(id)] and [cancelAnimationFrame(id)] *)
Definition clearInterval (id : nat) : Cmd unit :=
  modify (fun s => setTimers (timers s ∖ {[id]}) (nextTimer s) s).

Definition getG (x : string) : Cmd (option nat) := gets (fun s => globals s !! x).

(** [x = v], with [None] for [null] *)
Definition setG (x : string) (v : option nat) : Cmd unit :=
  modify (fun s => setGlobals (match v with
                               | Some id => <[x := id]> (globals s)
                               | None => delete x (globals s)
                               end) s).

(** [l.push(a, b, ...)] *)
Definition pushExtra (ids : list nat) : Cmd unit :=
  modify (fun s => setExtraNodes (extraNodes s ++ ids) s).

Definition pushMotionPanner (id : nat) : Cmd unit :=
  modify (fun s => setMotionPanners (motionPanners s ++ [id]) s).

Definition pushChordOscs (ids : list nat) : Cmd unit :=
  modify (fun s => setChordOscs (chordOscs s ++ ids) s).

(** [try { node.stop(); } catch {} try { node.disconnect(); } catch {}] *)
Definition stopAndDisconnect (id : nat) : Cmd unit :=
  tryCatch (stop id) skip ;; tryCatch (disconnect id) skip.

(** [if (x) { clearInterval(x); x = null; }] *)
Definition cancelTimer (x : string) : Cmd unit :=
  t ← getG x;
  match t with
  | Some id => clearInterval id ;; setG x None
  | None => skip
  end.

(** [a.connect(x)] for a global [x]: a [TypeError] when [x] is [null]. *)
Definition connectTo (x : string) : Cmd unit :=
  d ← getG x;
  match d with
  | Some _ => skip
  | None => throw
  end.

(** [x.param.value = v] for a global [x] *)
Definition setValueG (x : string) (v : Qc) : Cmd unit :=
  d ← getG x;
  match d with
  | Some id => setValue id v
  | None => throw
  end.

(** [if (x) x.param.value = v] *)
Definition setValueIfG (x : string) (v : Qc) : Cmd unit :=
  d ← getG x;
  match d with
  | Some id => setValue id v
  | None => skip
  end.

(** [x.start()] for a global [x] *)
Definition startG (x : string) : Cmd unit :=
  d ← getG x;
  match d with
  | Some id => start id
  | None => throw
  end.

(** *** Chord accompaniment (lines 166-266 and 401-422) *)

Definition stopChordBuffer : Cmd unit :=
  src ← getG chordBufferSource;
  match src with
  | Some id => stopAndDisconnect id ;; setG chordBufferSource None
  | None => skip
  end.

Definition stopChordProgression : Cmd unit :=
  cancelTimer chordTimer ;;
  oscs ← gets chordOscs;
  forEach oscs stopAndDisconnect ;;
  modify (setChordOscs []) ;;
  stopChordBuffer.

Definition chords : list (list Qc) :=
  [ [Q2Qc 1; Q2Qc (5 # 4); Q2Qc (3 # 2)];
    [Q2Qc (9 # 8); Q2Qc (11 # 8); Q2Qc (5 # 3)];
    [Q2Qc (4 # 3); Q2Qc (5 # 3); Q2Qc 2] ].

Definition chordGainValue (instrument : string) : Qc :=
  if String.eqb instrument "synth" then Q2Qc 0.09
  else if String.eqb instrument "guitar" then Q2Qc 0.16
  else Q2Qc 0.10.

(** The callback of the 30-second chord timer. *)
Definition playChord (c : Controls) (audibleHz : Qc) : Cmd unit :=
  oscs ← gets chordOscs;
  forEach oscs stopAndDisconnect ;;
  modify (setChordOscs []) ;;
  idx ← gets chordIndex;
  let multipliers := default [] (chords !! (idx `mod` length chords)%nat) in
  chordPan ← create StereoPanner 0;
  pushMotionPanner chordPan ;;
  pushExtra [chordPan] ;;
  forEach multipliers (fun mult =>
    osc ← create Oscillator (audibleHz * mult);
    g ← create Gain (chordGainValue (chordInstrument c));
    connectTo masterGain ;;
    start osc ;;
    pushChordOscs [osc; g]) ;;
  modify (fun s => setChordIndex (S (chordIndex s)) s).

(** [startChordLoop], up to its [await]. *)
Definition startChordLoop (c : Controls) : Cmd unit :=
  stopChordBuffer.

(** [startChordLoop], from its [await] on, when the loop has been
    decoded. *)
Definition startChordLoopLoaded : Cmd unit :=
  src ← create BufferSource 0;
  g ← create Gain (Q2Qc 0.3);
  loopPan ← create StereoPanner 0;
  pushMotionPanner loopPan ;;
  pushExtra [loopPan] ;;
  connectTo masterGain ;;
  start src ;;
  setG chordBufferSource (Some src).

Definition startChordProgression (c : Controls) (audibleHz : Qc) : Cmd unit :=
  stopChordProgression ;;
  stopChordBuffer ;;
  ctx ← gets audioCtx;
  if negb ctx || String.eqb (chordInstrument c) "none" then skip
  else if chordLoops c && selectedChordLoop c then startChordLoop c
  else
    modify (setChordIndex 0) ;;
    playChord c audibleHz ;;
    t ← setInterval;
    setG chordTimer (Some t).

(** *** Soundscape patterns and scope (lines 1193-1397)

    The chirp oscillators of the birds pattern stop themselves 0.4 s
    after their scheduled start and are held in no variable; they are not
    part of [nodes]. *)

Definition startBirdsPattern (level : Qc) : Cmd unit :=
  cancelTimer birdsPatternTimer ;;
  ctx ← gets audioCtx;
  mg ← getG masterGain;
  if negb ctx || negb (bool_decide (is_Some mg)) || bool_decide (level ≤ 0)%Qc then skip
  else
    t ← setInterval;
    setG birdsPatternTimer (Some t).

Definition startWavesPattern (level : Qc) : Cmd unit :=
  cancelTimer wavesPatternTimer ;;
  ctx ← gets audioCtx;
  wg ← getG wavesGain;
  if negb ctx || negb (bool_decide (is_Some wg)) || bool_decide (level ≤ 0)%Qc
  then setValueIfG wavesGain 0
  else
    t ← setInterval;
    setG wavesPatternTimer (Some t).

Definition updateSoundscapes (c : Controls) : Cmd unit :=
  setValueIfG oceanGain (oceanRange c * Q2Qc 0.6) ;;
  setValueIfG rainGain (rainRange c * Q2Qc 0.6) ;;
  bg ← getG birdsGain;
  bs ← gets birdsIsSample;
  match bg, bs with
  | Some id, true => setValue id (birdsRange c * Q2Qc 0.6) ;; cancelTimer birdsPatternTimer
  | _, _ => startBirdsPattern (birdsRange c)
  end ;;
  wg ← getG wavesGain;
  ws ← gets wavesIsSample;
  match wg, ws with
  | Some id, true => setValue id (wavesRange c * Q2Qc 0.6) ;; cancelTimer wavesPatternTimer
  | _, _ => setValueIfG wavesGain 0 ;; startWavesPattern (wavesRange c)
  end.

Definition initScope (c : Controls) : Cmd unit :=
  if negb (scopeCanvas c) then skip
  else
    an ← getG analyser;
    match an with
    | None => skip
    | Some _ =>
        old ← getG scopeAnimId;
        match old with Some id => clearInterval id | None => skip end ;;
        t ← setInterval;
        setG scopeAnimId (Some t)
    end.

(** *** Teardown (lines 1400-1458) *)

Definition safeStop (x : string) : Cmd unit :=
  node ← getG x;
  match node with
  | Some id => stopAndDisconnect id
  | None => skip
  end.

Definition stopCurrentAudio : Cmd unit :=
  safeStop baseOsc ;;
  safeStop oceanSource ;;
  safeStop rainSource ;;
  safeStop wavesSource ;;
  extra ← gets extraNodes;
  forEach extra stopAndDisconnect ;;
  modify (setExtraNodes []) ;;
  safeStop motionLfo ;;
  safeStop motionGainNode ;;
  setG motionLfo None ;;
  setG motionGainNode None ;;
  panners ← gets motionPanners;
  forEach panners (fun p => tryCatch (disconnect p) skip) ;;
  modify (setMotionPanners []) ;;
  stopChordProgression ;;
  cancelTimer birdsPatternTimer ;;
  cancelTimer wavesPatternTimer ;;
  cancelTimer scopeAnimId ;;
  setG analyser None ;;
  setG baseOsc None ;;
  setG baseGain None ;;
  setG masterGain None ;;
  setG oceanSource None ;;
  setG oceanGain None ;;
  setG rainSource None ;;
  setG rainGain None ;;
  setG wavesSource None ;;
  setG wavesGain None.

(** *** Mode synthesis (lines 1465-1521 and 1607-1668) *)

Record EchoOptions : Type := mkEchoOptions {
  centerGainScale : Qc;
  echoGainScale : Qc;
  leftDelaySec : Qc;
  rightDelaySec : Qc;
  toneMix : Qc;
  splitMin : Qc;
  splitMax : Qc
}.

(** [splitMin + Math.random() * (splitMax - splitMin)], and the two
    offsets, in exact arithmetic; [Rounded.randFrac], [Rounded.leftDiff]
    and [Rounded.rightDiff] below are the same computations in doubles. *)
Definition randFrac (o : EchoOptions) (rnd : Qc) : Qc :=
  (splitMin o + rnd * (splitMax o - splitMin o))%Qc.

Definition leftDiff (o : EchoOptions) (rnd freqHz : Qc) : Qc :=
  (freqHz * randFrac o rnd)%Qc.

Definition rightDiff (o : EchoOptions) (rnd freqHz : Qc) : Qc :=
  (freqHz * (1 - randFrac o rnd))%Qc.

Definition createBandSplitEchoCluster (rnd audibleHz freqHz depthVal : Qc)
    (o : EchoOptions) : Cmd unit :=
  ctx ← gets audioCtx;
  mg ← getG masterGain;
  bg ← getG baseGain;
  bo ← getG baseOsc;
  match ctx, mg, bg, bo with
  | true, Some _, Some bgId, Some _ =>
      setValue bgId (depthVal * centerGainScale o * toneMix o) ;;
      leftEchoOsc ← create Oscillator (audibleHz + leftDiff o rnd freqHz);
      rightEchoOsc ← create Oscillator (audibleHz - rightDiff o rnd freqHz);
      leftDelay ← create Delay (leftDelaySec o);
      rightDelay ← create Delay (rightDelaySec o);
      leftGain ← create Gain (depthVal * echoGainScale o * toneMix o);
      rightGain ← create Gain (depthVal * echoGainScale o * toneMix o);
      leftPan ← create StereoPanner (-1);
      rightPan ← create StereoPanner 1;
      start leftEchoOsc ;;
      start rightEchoOsc ;;
      pushExtra [leftEchoOsc; rightEchoOsc; leftDelay; rightDelay;
                 leftGain; rightGain; leftPan; rightPan]
  | _, _, _, _ => skip
  end.

(** The options [startGraph] passes; the split bounds are the defaults of
    [createBandSplitEchoCluster]. *)
Definition spatialEchoOptions (toneMix : Qc) : EchoOptions :=
  mkEchoOptions (Q2Qc 0.21) (Q2Qc 0.26) (Q2Qc 0.11) (Q2Qc 0.14) toneMix
                (Q2Qc 0.35) (Q2Qc 0.65).

(** The branch on [stimulationMode] in [startGraph]. *)
Definition createStimulation (c : Controls) (audibleHz freqHz depthVal toneMix : Qc)
    : Cmd unit :=
  if String.eqb (stimulationMode c) "am" then
    modOsc ← create Oscillator freqHz;
    modGain ← create Gain (depthVal * Q2Qc 0.3 * toneMix);
    offset ← create ConstantSource (depthVal * Q2Qc 0.3 * toneMix);
    start offset ;;
    start modOsc ;;
    pushExtra [modOsc; modGain; offset]
  else if String.eqb (stimulationMode c) "binaural" then
    setValueG baseGain 0 ;;
    let halfDiff := (freqHz / Q2Qc 2)%Qc in
    leftOsc ← create Oscillator (audibleHz + halfDiff);
    rightOsc ← create Oscillator (audibleHz - halfDiff);
    leftGain ← create Gain (depthVal * Q2Qc 0.6 * toneMix);
    rightGain ← create Gain (depthVal * Q2Qc 0.6 * toneMix);
    leftPan ← create StereoPanner (-1);
    rightPan ← create StereoPanner 1;
    start leftOsc ;;
    start rightOsc ;;
    pushExtra [leftOsc; rightOsc; leftGain; rightGain; leftPan; rightPan]
  else if String.eqb (stimulationMode c) "ambient" then
    setValueG baseGain 0
  else
    createBandSplitEchoCluster (random c) audibleHz freqHz depthVal
                               (spatialEchoOptions toneMix).

(** *** Building the graph (lines 979-994, 1069-1077, 1178-1191, 1523-1861) *)

Definition ensureAudio : Cmd unit := modify (setAudioCtx true).

Definition mapBandToAudible (freqHz : Qc) : Qc := (Q2Qc 200 + freqHz * Q2Qc 3)%Qc.

Definition getToneMix (c : Controls) : Qc :=
  JsNum.max 0 (JsNum.min 1 (toneMixRange c)).

(** [new Audio(url)] and [createMediaElementSource(el)]; the element is
    returned. *)
Definition createMediaLoopSource (c : Controls) : Cmd nat :=
  ensureAudio ;;
  el ← create MediaElement 0;
  if mediaSourceFails c then throw
  else
    src ← create MediaElementSource 0;
    mret el.

Definition startGraph (c : Controls) (freqHz : Qc) : Cmd unit :=
  stopCurrentAudio ;;
  ensureAudio ;;
  let audibleHz := mapBandToAudible freqHz in
  mg ← create Gain (volumeRange c);
  setG masterGain (Some mg) ;;
  an ← create Analyser 0;
  setG analyser (Some an) ;;
  when (negb (String.eqb (selectedIR c) "") && negb (String.eqb (selectedIR c) "none"))
    (conv ← create Convolver 0;
     wetGain ← create Gain 0;
     pushExtra [conv; wetGain]) ;;
  panners ← gets motionPanners;
  forEach panners (fun p => tryCatch (disconnect p) skip) ;;
  modify (setMotionPanners []) ;;
  let motionHz := JsNum.max (Q2Qc 0.03) (JsNum.min (Q2Qc 0.12) (freqHz / Q2Qc 128)) in
  lfo ← create Oscillator motionHz;
  setG motionLfo (Some lfo) ;;
  mgn ← create Gain (Q2Qc 0.35);
  setG motionGainNode (Some mgn) ;;
  start lfo ;;
  pushExtra [lfo; mgn] ;;
  let depthVal := depthRange c in
  let toneMix := getToneMix c in
  bo ← create Oscillator audibleHz;
  setG baseOsc (Some bo) ;;
  bg ← create Gain (depthVal * Q2Qc 0.6 * toneMix);
  setG baseGain (Some bg) ;;
  connectTo masterGain ;;
  createStimulation c audibleHz freqHz depthVal toneMix ;;
  (* ocean *)
  os ← create BufferSource 0;
  setG oceanSource (Some os) ;;
  oceanFilter ← create BiquadFilter (Q2Qc 600);
  og ← create Gain 0;
  setG oceanGain (Some og) ;;
  oceanPan ← create StereoPanner 0;
  connectTo masterGain ;;
  pushMotionPanner oceanPan ;;
  pushExtra [oceanPan] ;;
  (* rain *)
  rs ← create BufferSource 0;
  setG rainSource (Some rs) ;;
  rainFilter ← create BiquadFilter (Q2Qc 2000);
  rg ← create Gain 0;
  setG rainGain (Some rg) ;;
  rainPan ← create StereoPanner 0;
  connectTo masterGain ;;
  pushMotionPanner rainPan ;;
  pushExtra [rainPan] ;;
  (* birds *)
  bgn ← create Gain 0;
  setG birdsGain (Some bgn) ;;
  birdsPan ← create StereoPanner 0;
  connectTo masterGain ;;
  pushMotionPanner birdsPan ;;
  pushExtra [birdsPan] ;;
  modify (setBirdsIsSample false) ;;
  (if birdsSampleBuffer c then
     modify (setBirdsIsSample true) ;;
     bs ← create BufferSource 0;
     setG birdsSource (Some bs)
   else
     tryCatch (el ← createMediaLoopSource c;
               setG birdsStreamEl (Some el) ;;
               modify (setBirdsIsSample true))
              (modify (setBirdsIsSample false))) ;;
  (* waves *)
  wavesFilter ← create BiquadFilter (Q2Qc 450);
  wg ← create Gain 0;
  setG wavesGain (Some wg) ;;
  modify (setWavesIsSample false) ;;
  (if wavesSampleBuffer c then
     modify (setWavesIsSample true) ;;
     ws ← create BufferSource 0;
     setG wavesSource (Some ws)
   else
     tryCatch (el ← createMediaLoopSource c;
               setG wavesStreamEl (Some el) ;;
               modify (setWavesIsSample true))
              (modify (setWavesIsSample false) ;;
               ws ← create BufferSource 0;
               setG wavesSource (Some ws))) ;;
  wavesPan ← create StereoPanner 0;
  connectTo masterGain ;;
  pushMotionPanner wavesPan ;;
  pushExtra [wavesPan] ;;
  (* ambience taps of Ambient Echo *)
  when (String.eqb (stimulationMode c) "ambient")
    (leftDelay ← create Delay (Q2Qc 0.20);
     rightDelay ← create Delay (Q2Qc 0.25);
     leftGain ← create Gain (depthRange c * Q2Qc 0.3);
     rightGain ← create Gain (depthRange c * Q2Qc 0.3);
     leftPan ← create StereoPanner (-1);
     rightPan ← create StereoPanner 1;
     connectTo masterGain ;;
     pushExtra [leftDelay; rightDelay; leftGain; rightGain; leftPan; rightPan]) ;;
  (* start sources *)
  startG baseOsc ;;
  startG oceanSource ;;
  startG rainSource ;;
  ws ← getG wavesSource;
  match ws with Some id => start id | None => skip end ;;
  bs ← getG birdsSource;
  match bs with Some id => start id | None => skip end ;;
  wel ← getG wavesStreamEl;
  match wel with Some id => play id | None => skip end ;;
  bel ← getG birdsStreamEl;
  match bel with Some id => play id | None => skip end ;;
  updateSoundscapes c ;;
  startChordProgression c audibleHz ;;
  initScope c.

(** [updateCarrierLabel] (lines 1880-1890), for the carrier slider at
    [hz]; the band select is at [band]. *)
Definition updateCarrierLabel (c : Controls) (hz band : Qc) : Cmd unit :=
  bo ← getG baseOsc;
  ctx ← gets audioCtx;
  match bo, ctx with
  | Some id, true => setValue id hz ;; startGraph c band
  | _, _ => skip
  end.

(** *** Observations on a graph *)

(** A source that is running: started, and neither stopped nor
    disconnected since. *)
Definition isLive (n : Node) : bool :=
  match kind n with
  | Oscillator | BufferSource | ConstantSource | MediaElement =>
      started n && negb (stopped n) && negb (disconnected n)
  | _ => false
  end.

Definition liveNodes (s : AudioState) : list nat :=
  List.filter (fun id => match nodes s !! id with
                         | Some n => isLive n
                         | None => false
                         end) (seq 0 (length (nodes s))).

(** The frequencies of the oscillators a build has registered in
    [extraNodes], in the order of their registration. *)
Definition extraOscillators (s : AudioState) : list Qc :=
  omap (fun id => match nodes s !! id with
                  | Some n => match kind n with Oscillator => Some (value n) | _ => None end
                  | None => None
                  end) (extraNodes s).

End Audio.

(** ** The best-phase store and the guided scan (app.js, lines 580-702 and 1928-2322) *)

Module App.

Record PhaseRecord : Type := mkRecord { phase : Qc; count : Z }.

(** The globals of the page that the handlers below read and write.
    [scanCounts] is a sparse array: an index that was never written is
    absent. *)
Record State : Type := mkState {
  audio : Audio.AudioState;   (* the audio engine *)
  controls : Audio.Controls;   (* the controls a build reads *)
  bandKey : string;   (* freqSelect.value *)
  bandHz : Qc;   (* parseFloat(freqSelect.value) || 7.83 *)
  bestPhaseByBand : gmap string PhaseRecord;
  localStorage : gmap string PhaseRecord;   (* the item 'bestPhaseHistory' *)
  phaseRange : Qc;   (* phaseRange.value, as a number *)
  phaseRangeDisabled : bool;   (* phaseRange.disabled *)
  sweepIsRunning : bool;
  sweepAnimId : option nat;
  scanning : bool;
  scanTier : Z;
  scanPhases : list Qc;
  scanCounts : gmap nat Z;
  scanIndex : nat;
  scanTimeoutId : option nat;
  countdownInterval : option nat;
  countdownRemaining : Z;
  pending : gset nat;   (* pending setTimeout, setInterval and requestAnimationFrame callbacks *)
  nextId : nat
}.

(** *** Field updates *)

Definition setAudio (v : Audio.AudioState) (s : State) : State :=
  mkState v (controls s) (bandKey s) (bandHz s) (bestPhaseByBand s) (localStorage s)
          (phaseRange s) (phaseRangeDisabled s) (sweepIsRunning s) (sweepAnimId s)
          (scanning s) (scanTier s) (scanPhases s) (scanCounts s) (scanIndex s)
          (scanTimeoutId s) (countdownInterval s) (countdownRemaining s) (pending s)
          (nextId s).

Definition setBestPhaseByBand (v : gmap string PhaseRecord) (s : State) : State :=
  mkState (audio s) (controls s) (bandKey s) (bandHz s) v (localStorage s)
          (phaseRange s) (phaseRangeDisabled s) (sweepIsRunning s) (sweepAnimId s)
          (scanning s) (scanTier s) (scanPhases s) (scanCounts s) (scanIndex s)
          (scanTimeoutId s) (countdownInterval s) (countdownRemaining s) (pending s)
          (nextId s).

Definition setLocalStorage (v : gmap string PhaseRecord) (s : State) : State :=
  mkState (audio s) (controls s) (bandKey s) (bandHz s) (bestPhaseByBand s) v
          (phaseRange s) (phaseRangeDisabled s) (sweepIsRunning s) (sweepAnimId s)
          (scanning s) (scanTier s) (scanPhases s) (scanCounts s) (scanIndex s)
          (scanTimeoutId s) (countdownInterval s) (countdownRemaining s) (pending s)
          (nextId s).

Definition setPhaseRange (v : Qc) (s : State) : State :=
  mkState (audio s) (controls s) (bandKey s) (bandHz s) (bestPhaseByBand s)
          (localStorage s) v (phaseRangeDisabled s) (sweepIsRunning s) (sweepAnimId s)
          (scanning s) (scanTier s) (scanPhases s) (scanCounts s) (scanIndex s)
          (scanTimeoutId s) (countdownInterval s) (countdownRemaining s) (pending s)
          (nextId s).

Definition setPhaseRangeDisabled (v : bool) (s : State) : State :=
  mkState (audio s) (controls s) (bandKey s) (bandHz s) (bestPhaseByBand s)
          (localStorage s) (phaseRange s) v (sweepIsRunning s) (sweepAnimId s)
          (scanning s) (scanTier s) (scanPhases s) (scanCounts s) (scanIndex s)
          (scanTimeoutId s) (countdownInterval s) (countdownRemaining s) (pending s)
          (nextId s).

Definition setSweepIsRunning (v : bool) (s : State) : State :=
  mkState (audio s) (controls s) (bandKey s) (bandHz s) (bestPhaseByBand s)
          (localStorage s) (phaseRange s) (phaseRangeDisabled s) v (sweepAnimId s)
          (scanning s) (scanTier s) (scanPhases s) (scanCounts s) (scanIndex s)
          (scanTimeoutId s) (countdownInterval s) (countdownRemaining s) (pending s)
          (nextId s).

Definition setSweepAnimId (v : option nat) (s : State) : State :=
  mkState (audio s) (controls s) (bandKey s) (bandHz s) (bestPhaseByBand s)
          (localStorage s) (phaseRange s) (phaseRangeDisabled s) (sweepIsRunning s) v
          (scanning s) (scanTier s) (scanPhases s) (scanCounts s) (scanIndex s)
          (scanTimeoutId s) (countdownInterval s) (countdownRemaining s) (pending s)
          (nextId s).

Definition setScanning (v : bool) (s : State) : State :=
  mkState (audio s) (controls s) (bandKey s) (bandHz s) (bestPhaseByBand s)
          (localStorage s) (phaseRange s) (phaseRangeDisabled s) (sweepIsRunning s)
          (sweepAnimId s) v (scanTier s) (scanPhases s) (scanCounts s) (scanIndex s)
          (scanTimeoutId s) (countdownInterval s) (countdownRemaining s) (pending s)
          (nextId s).

Definition setScanTier (v : Z) (s : State) : State :=
  mkState (audio s) (controls s) (bandKey s) (bandHz s) (bestPhaseByBand s)
          (localStorage s) (phaseRange s) (phaseRangeDisabled s) (sweepIsRunning s)
          (sweepAnimId s) (scanning s) v (scanPhases s) (scanCounts s) (scanIndex s)
          (scanTimeoutId s) (countdownInterval s) (countdownRemaining s) (pending s)
          (nextId s).

Definition setScanPhases (v : list Qc) (s : State) : State :=
  mkState (audio s) (controls s) (bandKey s) (bandHz s) (bestPhaseByBand s)
          (localStorage s) (phaseRange s) (phaseRangeDisabled s) (sweepIsRunning s)
          (sweepAnimId s) (scanning s) (scanTier s) v (scanCounts s) (scanIndex s)
          (scanTimeoutId s) (countdownInterval s) (countdownRemaining s) (pending s)
          (nextId s).

Definition setScanCounts (v : gmap nat Z) (s : State) : State :=
  mkState (audio s) (controls s) (bandKey s) (bandHz s) (bestPhaseByBand s)
          (localStorage s) (phaseRange s) (phaseRangeDisabled s) (sweepIsRunning s)
          (sweepAnimId s) (scanning s) (scanTier s) (scanPhases s) v (scanIndex s)
          (scanTimeoutId s) (countdownInterval s) (countdownRemaining s) (pending s)
          (nextId s).

Definition setScanIndex (v : nat) (s : State) : State :=
  mkState (audio s) (controls s) (bandKey s) (bandHz s) (bestPhaseByBand s)
          (localStorage s) (phaseRange s) (phaseRangeDisabled s) (sweepIsRunning s)
          (sweepAnimId s) (scanning s) (scanTier s) (scanPhases s) (scanCounts s) v
          (scanTimeoutId s) (countdownInterval s) (countdownRemaining s) (pending s)
          (nextId s).

Definition setScanTimeoutId (v : option nat) (s : State) : State :=
  mkState (audio s) (controls s) (bandKey s) (bandHz s) (bestPhaseByBand s)
          (localStorage s) (phaseRange s) (phaseRangeDisabled s) (sweepIsRunning s)
          (sweepAnimId s) (scanning s) (scanTier s) (scanPhases s) (scanCounts s)
          (scanIndex s) v (countdownInterval s) (countdownRemaining s) (pending s)
          (nextId s).

Definition setCountdownInterval (v : option nat) (s : State) : State :=
  mkState (audio s) (controls s) (bandKey s) (bandHz s) (bestPhaseByBand s)
          (localStorage s) (phaseRange s) (phaseRangeDisabled s) (sweepIsRunning s)
          (sweepAnimId s) (scanning s) (scanTier s) (scanPhases s) (scanCounts s)
          (scanIndex s) (scanTimeoutId s) v (countdownRemaining s) (pending s)
          (nextId s).

Definition setCountdownRemaining (v : Z) (s : State) : State :=
  mkState (audio s) (controls s) (bandKey s) (bandHz s) (bestPhaseByBand s)
          (localStorage s) (phaseRange s) (phaseRangeDisabled s) (sweepIsRunning s)
          (sweepAnimId s) (scanning s) (scanTier s) (scanPhases s) (scanCounts s)
          (scanIndex s) (scanTimeoutId s) (countdownInterval s) v (pending s) (nextId s).

Definition setPending (p : gset nat) (n : nat) (s : State) : State :=
  mkState (audio s) (controls s) (bandKey s) (bandHz s) (bestPhaseByBand s)
          (localStorage s) (phaseRange s) (phaseRangeDisabled s) (sweepIsRunning s)
          (sweepAnimId s) (scanning s) (scanTier s) (scanPhases s) (scanCounts s)
          (scanIndex s) (scanTimeoutId s) (countdownInterval s) (countdownRemaining s) p
          n.

Abbreviation Cmd := (Js State).

(** A handler of the audio engine, run on the page's state. *)
Definition liftAudio {A : Type} (m : Js Audio.AudioState A) : Cmd A :=
  fun s => (fst (m (audio s)), setAudio (snd (m (audio s))) s).

(** [setTimeout], [setInterval], [requestAnimationFrame] *)
Definition setTimer : Cmd nat :=
  fun s => (Ok (nextId s), setPending ({[nextId s]} ∪ pending s) (S (nextId s)) s).

(** [clearTimeout(x)], [clearInterval(x)], [cancelAnimationFrame(x)] for
    the value [x] of a global; clearing [null] or a timer that is no
    longer pending does nothing. *)
Definition clearTimer (x : option nat) : Cmd unit :=
  match x with
  | Some id => modify (fun s => setPending (pending s ∖ {[id]}) (nextId s) s)
  | None => skip
  end.

(** *** Persistence (lines 592-606 and the load at lines 2589-2595) *)

(** [JSON.parse] of a [JSON.stringify] gives the records back. *)
Definition loadPhaseHistory : Cmd (gmap string PhaseRecord) := gets localStorage.

Definition savePhaseHistory : Cmd unit :=
  modify (fun s => setLocalStorage (bestPhaseByBand s) s).

(** [Object.keys(loaded).forEach((k) => { bestPhaseByBand[k] = loaded[k]; })] *)
Definition loadOnStartup : Cmd unit :=
  loaded ← loadPhaseHistory;
  modify (fun s => setBestPhaseByBand (loaded ∪ bestPhaseByBand s) s).

Definition getExploreBandKey : Cmd string := gets bandKey.

(** *** Marking (lines 1958-1994) *)

Definition handleMarkStrongest : Cmd unit :=
  phase ← gets phaseRange;
  sc ← gets scanning;
  when sc
    (modify (fun s => setScanCounts
               (<[scanIndex s := (default 0 (scanCounts s !! scanIndex s) + 1)%Z]> (scanCounts s)) s)) ;;
  key ← getExploreBandKey;
  current ← gets (fun s => bestPhaseByBand s !! key);
  match current with
  | None =>
      modify (fun s => setBestPhaseByBand (<[key := mkRecord phase 1]> (bestPhaseByBand s)) s)
  | Some current =>
      let count := (count current + 1)%Z in
      let avg := (App.phase current + (phase - App.phase current) / JsNum.ofZ count)%Qc in
      modify (fun s => setBestPhaseByBand (<[key := mkRecord avg count]> (bestPhaseByBand s)) s)
  end ;;
  savePhaseHistory.

Definition clearBestPhaseForBand (key : string) : Cmd unit :=
  modify (fun s => setBestPhaseByBand (delete key (bestPhaseByBand s)) s).

(** [handleClearHistory], once confirmed (lines 941-956) *)
Definition handleClearHistory : Cmd unit :=
  modify (setBestPhaseByBand ∅) ;;
  modify (setLocalStorage ∅).

(** *** Autosweep (lines 1997-2035)

    A frame of the sweep reads the clock; [frac] is the fraction of the
    sweep period that has elapsed, [0 <= frac < 1]. *)

Definition sweepStep (frac : Qc) : Cmd unit :=
  running ← gets sweepIsRunning;
  if negb running then skip
  else
    modify (setPhaseRange (JsNum.toFixed0 (frac * Q2Qc 360))) ;;
    t ← setTimer;
    modify (setSweepAnimId (Some t)).

Definition startAutosweep : Cmd unit :=
  running ← gets sweepIsRunning;
  if (running : bool) then skip
  else
    modify (setSweepIsRunning true) ;;
    sweepStep 0.

Definition stopAutosweep : Cmd unit :=
  running ← gets sweepIsRunning;
  if negb running then skip
  else
    modify (setSweepIsRunning false) ;;
    id ← gets sweepAnimId;
    match id with
    | Some _ => clearTimer id ;; modify (setSweepAnimId None)
    | None => skip
    end.

(** The callback of a pending animation frame. *)
Definition sweepFrame (frac : Qc) : Cmd unit :=
  id ← gets sweepAnimId;
  p ← gets pending;
  match id with
  | Some t =>
      if bool_decide (t ∈ p) then clearTimer id ;; sweepStep frac else skip
  | None => skip
  end.

(** *** The dwell countdown (lines 689-702) *)

Definition startCountdown (duration : Z) : Cmd unit :=
  old ← gets countdownInterval;
  clearTimer old ;;
  modify (setCountdownRemaining ((duration + 999) / 1000)%Z) ;;
  t ← setTimer;
  modify (setCountdownInterval (Some t)).

(** The callback of the countdown interval. *)
Definition countdownTick : Cmd unit :=
  id ← gets countdownInterval;
  p ← gets pending;
  match id with
  | Some t =>
      if bool_decide (t ∈ p) then
        modify (fun s => setCountdownRemaining (Z.max 0 (countdownRemaining s - 1)) s) ;;
        r ← gets countdownRemaining;
        when (r <=? 0)%Z (clearTimer id)
      else skip
  | None => skip
  end.

(** *** The two-tier scan (lines 2059-2227) *)

(** [scanPhases.map((p, i) => ({ phase: p, count: scanCounts[i] || 0 }))]
    sorted by [(a, b) => b.count - a.count] *)
Definition scanResults (phases : list Qc) (counts : gmap nat Z) : list (Qc * Z) :=
  js_sort (fun a b => (snd b - snd a)%Z)
          (imap (fun i p => (p, default 0%Z (counts !! i))) phases).

Definition tier1Phases : list Qc :=
  map JsNum.ofZ [0; 60; 120; 180; 240; 300; 360]%Z.

(** The phases of the second tier, from the phases and the mark counts
    that [scanPhases] and [scanCounts] hold at that point. *)
Definition tier2Phases (phases : list Qc) (counts : gmap nat Z) : list Qc :=
  let results := scanResults phases counts in
  let p1 := match results !! 0%nat with Some r => fst r | None => Q2Qc 0 end in
  let p2 := match results !! 1%nat with Some r => fst r | None => Q2Qc 360 end in
  let p12 := if decide (p2 < p1)%Qc then (p2, p1) else (p1, p2) in
  let p1 := fst p12 in
  let p2 := snd p12 in
  let p2 := if decide (p1 = p2) then JsNum.js_mod (p1 + Q2Qc 120) (Q2Qc 360) else p2 in
  let span := JsNum.js_mod (p2 - p1 + Q2Qc 360) (Q2Qc 360) in
  let step := (span / Q2Qc 6)%Qc in
  map (fun i => JsNum.js_mod (p1 + step * JsNum.ofZ i + Q2Qc 360) (Q2Qc 360))
      [0; 1; 2; 3; 4; 5; 6]%Z.

(** [if (scanIndex === 0 && scanPhases.length === 0) { ... }] *)
Definition computePhases (s : State) : State :=
  if Nat.eqb (scanIndex s) 0 && Nat.eqb (length (scanPhases s)) 0 then
    if (scanTier s =? 1)%Z then setScanPhases tier1Phases s
    else if (scanTier s =? 2)%Z then
      setScanPhases (tier2Phases (scanPhases s) (scanCounts s)) s
    else s
  else s.

(** [scanTier = 2; scanIndex = 0; scanCounts = []; scanPhases = [];] *)
Definition nextTier (s : State) : State :=
  setScanPhases [] (setScanCounts ∅ (setScanIndex 0 (setScanTier 2 s))).

(** The end of the second tier.  With no candidate at all [best] would be
    [undefined] and [best.toFixed] raises; a tier has seven. *)
Definition completeScan : Cmd unit :=
  phases ← gets scanPhases;
  counts ← gets scanCounts;
  let results := scanResults phases counts in
  match (match results !! 0%nat with Some r => Some (fst r) | None => phases !! 0%nat end) with
  | None => throw
  | Some best =>
      key ← getExploreBandKey;
      current ← gets (fun s => bestPhaseByBand s !! key);
      match current with
      | None =>
          modify (fun s => setBestPhaseByBand (<[key := mkRecord best 1]> (bestPhaseByBand s)) s)
      | Some current =>
          (* Overwrite previous value with new measurement *)
          modify (fun s => setBestPhaseByBand
                             (<[key := mkRecord best (count current)]> (bestPhaseByBand s)) s)
      end ;;
      savePhaseHistory ;;
      modify (setPhaseRange (JsNum.toFixed0 best)) ;;
      modify (setScanning false) ;;
      modify (setScanTier 0) ;;
      modify (setScanPhases []) ;;
      modify (setScanCounts ∅) ;;
      modify (setScanIndex 0) ;;
      modify (setPhaseRangeDisabled false) ;;
      ci ← gets countdownInterval;
      clearTimer ci
  end.

(** The end of [runScanPhase]: present the candidate at [scanIndex] and
    schedule the advance. *)
Definition presentCandidate : Cmd unit :=
  tier ← gets scanTier;
  let dwell := if (tier =? 1)%Z then 3000%Z else 5000%Z in
  let fade := if (tier =? 1)%Z then 1000%Z else 3000%Z in
  target ← gets (fun s => scanPhases s !! scanIndex s);
  match target with
  | None => throw
  | Some target =>
      modify (setPhaseRange (JsNum.toFixed0 target)) ;;
      startCountdown dwell ;;
      t ← setTimer;
      modify (setScanTimeoutId (Some t))
  end.

(** A value together with the fact that it is the value of [x]. *)
Definition inspect {A : Type} (x : A) : {y : A | x = y} := exist _ x eq_refl.

(** The recursion of [runScanPhase] is from the first tier into the second. *)
Definition tierMeasure (s : State) : nat :=
  if (scanTier s =? 1)%Z then 1 else 0.

#[derive(eliminator=no)]
Equations? runScanPhase (s : State) : result unit * State by wf (tierMeasure s) lt :=
runScanPhase s with scanning s := {
  | false := (Ok tt, s)
  | true with (length (scanPhases (computePhases s)) <=? scanIndex (computePhases s))%nat := {
    | false := presentCandidate (computePhases s)
    | true with inspect (scanTier (computePhases s) =? 1)%Z := {
      | exist _ true tier1 := runScanPhase (nextTier (computePhases s))
      | exist _ false _ := completeScan (computePhases s) } } }.
Proof.
  assert (scanTier (computePhases s) = scanTier s) as E.
  { unfold computePhases.
    repeat match goal with |- context [if ?b then _ else _] => destruct b end;
      reflexivity. }
  rewrite E in tier1. unfold tierMeasure. rewrite tier1.
  change (0 < 1)%nat. lia.
Qed.

(** The callback of the timer set by [runScanPhase]. *)
Definition scanTimeout : Cmd unit :=
  id ← gets scanTimeoutId;
  p ← gets pending;
  match id with
  | Some t =>
      if bool_decide (t ∈ p) then
        clearTimer id ;;
        modify (fun s => setScanIndex (S (scanIndex s)) s) ;;
        runScanPhase
      else skip
  | None => skip
  end.

(** *** Explore (lines 2289-2322) *)

Definition startExplore : Cmd unit :=
  c ← gets controls;
  hz ← gets bandHz;
  liftAudio (Audio.startGraph c hz).

Definition startTwoTierScan : Cmd unit :=
  sc ← gets scanning;
  if (sc : bool) then skip
  else
    startExplore ;;
    modify (setScanning true) ;;
    modify (setScanTier 1) ;;
    modify (setScanIndex 0) ;;
    modify (setScanCounts ∅) ;;
    modify (setScanPhases []) ;;
    stopAutosweep ;;
    modify (setPhaseRangeDisabled true) ;;
    runScanPhase.

Definition stopExplore : Cmd unit :=
  liftAudio Audio.stopCurrentAudio ;;
  stopAutosweep ;;
  sc ← gets scanning;
  when sc
    (modify (setScanning false) ;;
     st ← gets scanTimeoutId;
     clearTimer st ;;
     ci ← gets countdownInterval;
     clearTimer ci ;;
     modify (setScanTier 0) ;;
     modify (setScanPhases []) ;;
     modify (setScanCounts ∅) ;;
     modify (setScanIndex 0) ;;
     modify (setPhaseRangeDisabled false)).

(** *** Events of a session *)

Inductive Event : Type :=
| ExplorePlay                 (* click on Start: [startTwoTierScan] *)
| ExploreStop                 (* click on Stop: [stopExplore] *)
| MarkStrongest               (* click on Mark: [handleMarkStrongest] *)
| ScanTimeout                 (* the phase-advance timer fires *)
| CountdownTick               (* the countdown interval fires *)
| PhaseInput (v : Qc)         (* the user moves the phase slider to [v] *)
| SweepToggle                 (* click on the autosweep toggle *)
| SweepFrame (frac : Qc)      (* an animation frame of the sweep *)
| ClearBestPhase              (* click on Clear for the selected band *)
| ClearHistory.               (* click on Clear all history, confirmed *)

Definition handle (e : Event) : Cmd unit :=
  match e with
  | ExplorePlay => startTwoTierScan
  | ExploreStop => stopExplore
  | MarkStrongest => handleMarkStrongest
  | ScanTimeout => scanTimeout
  | CountdownTick => countdownTick
  | PhaseInput v =>
      d ← gets phaseRangeDisabled;
      if (d : bool) then skip else modify (setPhaseRange v)
  | SweepToggle =>
      running ← gets sweepIsRunning;
      if (running : bool) then stopAutosweep else startAutosweep
  | SweepFrame frac => sweepFrame frac
  | ClearBestPhase => key ← getExploreBandKey; clearBestPhaseForBand key
  | ClearHistory => handleClearHistory
  end.

Definition step (s : State) (e : Event) : State := exec (handle e) s.

Definition run (s : State) (es : list Event) : State := fold_left step es s.

(** The page after its script has run, with [stored] in local storage. *)
Definition loaded (c : Audio.Controls) (key : string) (hz : Qc)
    (stored : gmap string PhaseRecord) : State :=
  exec loadOnStartup
       (mkState Audio.initial c key hz ∅ stored 0 false false None
                false 0 [] ∅ 0 None None 0 ∅ 1).

End App.

(** ** Asset discovery (app.js, lines 1036-1050) *)

Module Assets.

(** [s.endsWith(suffix)] *)
Fixpoint endsWith (s suffix : string) : bool :=
  String.eqb s suffix ||
  match s with
  | EmptyString => false
  | String _ r => endsWith r suffix
  end.

(** [/\.(wav|mp3|ogg)$/i.test(f)] *)
Definition isAudioFile (f : string) : bool :=
  let lower := Chords.toLowerCase f in
  endsWith lower ".wav" || endsWith lower ".mp3" || endsWith lower ".ogg".

(** The score [pickBestMatch] gives a file, for the lower-case keyword
    [k]. *)
Definition matchScore (k f : string) : Z :=
  let lower := Chords.toLowerCase f in
  let score := 0%Z in
  let score := if Chords.includes lower k then (score + 100)%Z else score in
  let score := if endsWith lower ".wav" then (score + 10)%Z else score in
  let score := if Chords.includes lower "48k" then (score + 2)%Z else score in
  let score := if Chords.includes lower "24" then (score + 1)%Z else score in
  score.

(** [keyword] is [''] for a missing keyword. *)
Definition pickBestMatch (files : list string) (keyword : string) : option string :=
  let k := Chords.toLowerCase keyword in
  let audioFiles := List.filter isAudioFile files in
  let scored := js_sort (fun a b => (snd b - snd a)%Z)
                        (map (fun f => (f, matchScore k f)) audioFiles) in
  match scored with
  | [] => None
  | best :: _ => Some (fst best)
  end.

End Assets.

(** ** The chord-loop selector (app.js, lines 361-369 and 502-575) *)

Module ChordMenu.
Import Chords.

Definition getLoopCategory (entry : ChordLoop) : string :=
  let file := toLowerCase (file entry) in
  if includes file "user_reference__" then "Reference / Favorites"
  else if includes file "mammoth_synth_chords__" then "Mammoth Synth Chords"
  else if includes file "schumann_app_audio_samples__" then "Schumann App Audio Samples"
  else if includes file "ck2_" then "Cool Keys"
  else "Other".

Definition groupOrder : list string :=
  [ "Reference / Favorites"; "Mammoth Synth Chords"; "Schumann App Audio Samples";
    "Cool Keys"; "Other" ]%string.

(** A child of the [<select>]: an [<option>] with its value and text, or
    an [<optgroup>] with its label and options. *)
Inductive Child : Type :=
| BareOption (value text : string)
| Group (label : string) (options : list (string * string)).

(** [chordLoopRow], [chordLoopSelect] and the global [selectedChordLoop]. *)
Record LoopUI : Type := mkLoopUI {
  rowHidden : bool;                    (* chordLoopRow.hidden *)
  selectDisabled : bool;               (* chordLoopSelect.disabled *)
  children : list Child;               (* the content of chordLoopSelect *)
  selectedChordLoop : option string    (* [None] for [null] *)
}.

Definition optionsOf (c : Child) : list (string * string) :=
  match c with
  | BareOption value text => [(value, text)]
  | Group _ options => options
  end.

(** [chordLoopSelect.options], in tree order. *)
Definition allOptions (l : list Child) : list (string * string) :=
  concat (map optionsOf l).

(** [chordLoopSelect.value] when no option has been chosen: the value of
    the first option, [''] without options. *)
Definition selectValue (l : list Child) : string :=
  match allOptions l with
  | [] => ""
  | o :: _ => fst o
  end.

Section Menu.
Variable localeCompare : string -> string -> Z.
Variable chordPreferences : option Preferences.

(** [rankedLoops.slice(0, Math.min(8, rankedLoops.length))] *)
Definition topRecommended (rankedLoops : list (ChordLoop * Z)) : list (ChordLoop * Z) :=
  take (Nat.min 8 (length rankedLoops)) rankedLoops.

Definition recommendedOptions (top : list (ChordLoop * Z)) : list (string * string) :=
  imap (fun idx e =>
          (file (fst e),
           if Nat.eqb idx 0 then ("Top pick: " ++ sortName (fst e))%string
           else sortName (fst e)))
       top.

(** The loops that [rankedLoops.forEach] files under a category: those
    whose file is not in [topSet], in ranking order. *)
Definition remainingLoops (topSet : list string) (rankedLoops : list (ChordLoop * Z))
    : list ChordLoop :=
  List.filter (fun loop => negb (existsb (String.eqb (file loop)) topSet))
              (map fst rankedLoops).

(** The [<optgroup>] of one category of [groupOrder], if it has entries:
    [grouped.get(category)] holds the remaining loops of that category. *)
Definition categoryGroup (rest : list ChordLoop) (category : string) : list Child :=
  let entries := List.filter (fun loop => String.eqb (getLoopCategory loop) category) rest in
  match entries with
  | [] => []
  | _ => [Group category (map (fun entry => (file entry, sortName entry)) entries)]
  end.

(** [chordManifest] is [None] when it was not loaded; an instrument whose
    entry is not an array is absent from it. *)
Definition updateChordLoopUI (chordManifest : option (gmap string (list ChordLoop)))
    (chordInstrument : string) (ui : LoopUI) : LoopUI :=
  let hidden := mkLoopUI true false (children ui) None in
  match chordManifest with
  | None => hidden
  | Some manifest =>
      if String.eqb chordInstrument "" || String.eqb chordInstrument "none" then hidden
      else
        match manifest !! chordInstrument with
        | None | Some [] =>
            if String.eqb chordInstrument "guitar" then
              mkLoopUI false true
                [BareOption "" "No guitar loops installed (using synth fallback)"] None
            else hidden
        | Some loops =>
            let rankedLoops := sortChordLoops localeCompare chordPreferences loops in
            let previousSelection : option string := None in
            let top := topRecommended rankedLoops in
            let topSet := map (fun e => file (fst e)) top in
            let rest := remainingLoops topSet rankedLoops in
            let content :=
              Group "Recommended" (recommendedOptions top)
              :: concat (map (categoryGroup rest) groupOrder) in
            mkLoopUI false false content (Some (selectValue content))
        end
  end.
End Menu.

End ChordMenu.

(** ** The breathing visual (app.js, lines 976 and 1321-1360) *)

Module Breath.

Definition BREATH_MULTIPLIERS : list Z := [16; 24; 32; 40; 48; 64; 80; 96; 112; 128]%Z.

(** What [updateBreathAnimation] writes: the value of both sliders, the
    multiplier, the cycle in seconds and the phase offset in
    milliseconds. *)
Record BreathView : Type := mkBreathView {
  sliderValue : Z;
  multiplier : option Z;
  sec : Qc;
  phaseMs : Qc
}.

(** [getCurrentBandHz]: [parsed] is [parseFloat(freqSelect.value)], [None]
    when it is not a finite number. *)
Definition getCurrentBandHz (parsed : option Qc) : Qc :=
  match parsed with
  | Some val => val
  | None => Q2Qc 7.83
  end.

(** [raw] is [parseInt(breathSeconds.value, 10)], [None] for [NaN]. *)
Definition updateBreathAnimation (raw : option Z) (band : option Qc) (phaseDeg : Qc)
    : BreathView :=
  let idx := match raw with Some i => i | None => 5%Z end in
  let idx := Z.max 0 (Z.min (Z.of_nat (length BREATH_MULTIPLIERS) - 1) idx) in
  let multiplier := BREATH_MULTIPLIERS !! Z.to_nat idx in
  let bandHz := getCurrentBandHz band in
  let period := if decide (0 < bandHz)%Qc then (1 / bandHz)%Qc else 0%Qc in
  let sec := (period * JsNum.ofZ (default 0%Z multiplier))%Qc in
  let phaseMs :=
    if decide (0 < bandHz)%Qc then (phaseDeg / Q2Qc 360 * (Q2Qc 1000 / bandHz))%Qc
    else 0%Qc in
  mkBreathView idx multiplier sec phaseMs.

End Breath.

(** ** Callbacks and events of the audio engine (app.js, lines 203-234,
    1374-1397, 1880-1910 and the listeners at lines 2365-2517) *)

Module Engine.
Import Audio.

(** The callback of the chord interval; it runs while the interval held
    in [chordTimer] is pending.  [audibleHz] is the carrier the
    progression was started with. *)
Definition chordTick (c : Controls) (audibleHz : Qc) : Cmd unit :=
  id ← getG chordTimer;
  p ← gets timers;
  match id with
  | Some t => if bool_decide (t ∈ p) then playChord c audibleHz else skip
  | None => skip
  end.

(** [drawScope], the callback of the animation frame held in
    [scopeAnimId]: the frame has fired and is no longer pending; [ready]
    is the value of [scopeCtx && analyser && scopeData]. *)
Definition drawScope (ready : bool) : Cmd unit :=
  id ← getG scopeAnimId;
  p ← gets timers;
  match id with
  | Some t =>
      if bool_decide (t ∈ p) then
        clearInterval t ;;
        if ready then
          t' ← setInterval;
          setG scopeAnimId (Some t')
        else skip
      else skip
  | None => skip
  end.

(** [updateVolumeLabel] (lines 1903-1910) *)
Definition updateVolumeLabel (c : Controls) : Cmd unit :=
  mg ← getG masterGain;
  ctx ← gets audioCtx;
  match mg, ctx with
  | Some id, true => setValue id (volumeRange c)
  | _, _ => skip
  end.

(** What happens to the engine: a build (Start on either tab, or a
    restart by a control while the graph runs), a teardown (Stop), a
    soundscape slider, the carrier and the volume slider, a tick of the
    chord interval, a decoded chord loop, a frame of the scope.  Each
    event comes with the controls as they are when it happens. *)
Inductive EngineEvent : Type :=
| Build (c : Controls) (freqHz : Qc)
| Teardown
| Soundscape (c : Controls)
| Carrier (c : Controls) (hz band : Qc)
| Volume (c : Controls)
| ChordTick (c : Controls) (audibleHz : Qc)
| LoopDecoded
| ScopeFrame (ready : bool).

Definition engineHandle (e : EngineEvent) : Cmd unit :=
  match e with
  | Build c freqHz => startGraph c freqHz
  | Teardown => stopCurrentAudio
  | Soundscape c => updateSoundscapes c
  | Carrier c hz band => updateCarrierLabel c hz band
  | Volume c => updateVolumeLabel c
  | ChordTick c audibleHz => chordTick c audibleHz
  | LoopDecoded => startChordLoopLoaded
  | ScopeFrame ready => drawScope ready
  end.

Definition engineStep (s : AudioState) (e : EngineEvent) : AudioState :=
  exec (engineHandle e) s.

Definition engineRun (s : AudioState) (es : list EngineEvent) : AudioState :=
  fold_left engineStep es s.

(** The variables that hold timers. *)
Definition timerNames : list string :=
  [birdsPatternTimer; wavesPatternTimer; chordTimer; scopeAnimId].

(** Every pending timer is held in one of the timer variables. *)
Definition TimersHeld (s : AudioState) : Prop :=
  forall t, t ∈ timers s -> exists x, x ∈ timerNames /\ globals s !! x = Some t.

(** Every pending timer is held in a timer variable that is not in [X]. *)
Definition HeldOutside (X : list string) (s : AudioState) : Prop :=
  forall t, t ∈ timers s ->
            exists x, x ∈ timerNames /\ (x ∉ X) /\ globals s !! x = Some t.

(** From a state that satisfies [P], the handler [m] ends in a state
    that satisfies [Q], whether it returns or raises. *)
Definition Leads {S A : Type} (P Q : S -> Prop) (m : Js S A) : Prop :=
  forall s, P s -> Q (snd (m s)).

(** What the timers and the timer variables are. *)
Definition timerView (s : AudioState) : gset nat * list (option nat) :=
  (timers s, map (fun x => globals s !! x) timerNames).

(** [m] leaves the timers and the timer variables as they are. *)
Definition Silent {A : Type} (m : Cmd A) : Prop :=
  forall s, timerView (snd (m s)) = timerView s.

End Engine.

(** *** Nodes through a teardown *)

Module Teardown.
Import Audio.

(** The variables whose node [stopCurrentAudio] or [stopChordBuffer]
    stops and disconnects. *)
Definition stoppedNames : list string :=
  [baseOsc; oceanSource; rainSource; wavesSource; motionLfo; motionGainNode;
   chordBufferSource].

(** The node [id] is registered for teardown: it is in [extraNodes] or
    [chordOscs], or one of [stoppedNames] holds it. *)
Definition Registered (s : AudioState) (id : nat) : Prop :=
  id ∈ extraNodes s \/ id ∈ chordOscs s \/
  exists x, x ∈ stoppedNames /\ globals s !! x = Some id.

(** From [s] to [s'] the nodes keep their kind and whether they have
    been started; a node that was stopped or disconnected stays so; no
    node is added. *)
Definition Mono (s s' : AudioState) : Prop :=
  length (nodes s') = length (nodes s) /\
  forall id n, nodes s !! id = Some n ->
    exists n', nodes s' !! id = Some n' /\ kind n' = kind n /\ started n' = started n /\
               (stopped n = true -> stopped n' = true) /\
               (disconnected n = true -> disconnected n' = true).

Definition MonoCmd {A : Type} (m : Cmd A) : Prop := forall s, Mono s (snd (m s)).

(** [m] leaves the observation [f] of the state as it is. *)
Definition Fixes {A T : Type} (f : AudioState -> T) (m : Cmd A) : Prop :=
  forall s, f (snd (m s)) = f s.

(** The node [id] has been through [stop()] and [disconnect()]: it is
    disconnected, unless it is an [<audio>] element, and it is stopped if
    it is a source that was started. *)
Definition Gone (id : nat) (s : AudioState) : Prop :=
  exists n, nodes s !! id = Some n /\
            (kind n <> MediaElement -> disconnected n = true) /\
            (isScheduledSource (kind n) = true -> started n = true -> stopped n = true).

(** The node [id] exists and the observation [f] of the state is [v]. *)
Definition Awaits {T : Type} (id : nat) (f : AudioState -> T) (v : T) (s : AudioState) : Prop :=
  id < length (nodes s) /\ f s = v.

(** [s1] is [s] up to the nodes, the timers and the variable [x]. *)
Definition SameBut (x : string) (s s1 : AudioState) : Prop :=
  audioCtx s1 = audioCtx s /\
  birdsIsSample s1 = birdsIsSample s /\ wavesIsSample s1 = wavesIsSample s /\
  forall y, y <> x -> globals s1 !! y = globals s !! y.

End Teardown.

(** ** The fine-tune sweep (app.js, lines 2234-2256) *)

Module FineTune.
Import App.

(** [(basePhase - 30 + 60 * t + 360) % 360] *)
Definition fineTuneDeg (basePhase t : Qc) : Qc :=
  JsNum.js_mod (basePhase - Q2Qc 30 + Q2Qc 60 * t + Q2Qc 360) (Q2Qc 360).

(** The [step] of the fine-tune sweep; [t] is the fraction
    [(elapsed % 20) / 20] of the 20-second period. *)
Definition fineTuneStep (basePhase t : Qc) : Cmd unit :=
  running ← gets sweepIsRunning;
  if negb running then skip
  else
    modify (setPhaseRange (JsNum.toFixed0 (fineTuneDeg basePhase t))) ;;
    id ← setTimer;
    modify (setSweepAnimId (Some id)).

(** [t0] is the fraction at the first call of [step], right after
    [startTime] is taken. *)
Definition startFineTuneSweep (t0 : Qc) : Cmd unit :=
  key ← getExploreBandKey;
  info ← gets (fun s => bestPhaseByBand s !! key);
  match info with
  | None => skip
  | Some info =>
      let basePhase := phase info in
      stopAutosweep ;;
      modify (setSweepIsRunning true) ;;
      fineTuneStep basePhase t0
  end.

(** The callback of a pending animation frame of the fine-tune sweep. *)
Definition fineTuneFrame (basePhase t : Qc) : Cmd unit :=
  id ← gets sweepAnimId;
  p ← gets pending;
  match id with
  | Some f =>
      if bool_decide (f ∈ p) then clearTimer id ;; fineTuneStep basePhase t else skip
  | None => skip
  end.

End FineTune.

(** ** The journal (app.js, lines 772-850 and 915-972) *)

Module Journal.

Record Entry : Type := mkEntry {
  timestamp : Z;
  intention : string;
  thoughts : string;
  gratitude : string;
  integration : string
}.

(** The white space that [trim] removes, among the ASCII characters:
    tab, line feed, vertical tab, form feed, carriage return, space. *)
Definition isSpace (c : ascii) : bool :=
  let n := nat_of_ascii c in ((9 <=? n)%nat && (n <=? 13)%nat) || (n =? 32)%nat.

Fixpoint trimStart (s : string) : string :=
  match s with
  | EmptyString => EmptyString
  | String c r => if isSpace c then trimStart r else s
  end.

Fixpoint trimEnd (s : string) : string :=
  match s with
  | EmptyString => EmptyString
  | String c r =>
      match trimEnd r with
      | EmptyString => if isSpace c then EmptyString else String c EmptyString
      | r' => String c r'
      end
  end.

(** [s.trim()] *)
Definition trim (s : string) : string := trimEnd (trimStart s).

(** What [journalEntriesContainer] shows: a message, or one card for
    each entry, with the time stamp of the entry and its labelled lines. *)
Inductive View : Type :=
| Message (text : string)
| Cards (cards : list (Z * list (string * string))).

(** The journal tab.  [journalEntries] is the list in the local-storage
    item of that name, the empty list when there is no item. *)
Record State : Type := mkState {
  journalEntries : list Entry;
  intentionNote : string;
  thoughtsNote : string;
  gratitudeNote : string;
  integrationNote : string;
  saveJournalStatus : string;
  container : View
}.

Definition loadJournalEntries (s : State) : list Entry := journalEntries s.

Definition saveJournalEntries (list : list Entry) (s : State) : State :=
  mkState list (intentionNote s) (thoughtsNote s) (gratitudeNote s) (integrationNote s)
          (saveJournalStatus s) (container s).

Definition setContainer (v : View) (s : State) : State :=
  mkState (journalEntries s) (intentionNote s) (thoughtsNote s) (gratitudeNote s)
          (integrationNote s) (saveJournalStatus s) v.

Definition setStatus (v : string) (s : State) : State :=
  mkState (journalEntries s) (intentionNote s) (thoughtsNote s) (gratitudeNote s)
          (integrationNote s) v (container s).

Definition setFields (i t g n : string) (s : State) : State :=
  mkState (journalEntries s) i t g n (saveJournalStatus s) (container s).

(** [if (entry.field) html += ...]: the lines of a card. *)
Definition line (label text : string) : list (string * string) :=
  if String.eqb text "" then [] else [(label, text)].

Definition card (entry : Entry) : Z * list (string * string) :=
  (timestamp entry,
   line "Intention:" (intention entry) ++ line "Thoughts:" (thoughts entry) ++
   line "Gratitude:" (gratitude entry) ++ line "Integration:" (integration entry)).

Definition renderJournalEntries (s : State) : State :=
  let entries := loadJournalEntries s in
  match entries with
  | [] => setContainer (Message "No journal entries yet.") s
  | _ => setContainer (Cards (map card entries)) s
  end.

(** [handleSaveJournalEntry]; [now] is [Date.now()]. *)
Definition handleSaveJournalEntry (now : Z) (s : State) : State :=
  let intention := trim (intentionNote s) in
  let thoughts := trim (thoughtsNote s) in
  let gratitude := trim (gratitudeNote s) in
  let integration := trim (integrationNote s) in
  if String.eqb intention "" && String.eqb thoughts "" && String.eqb gratitude "" &&
     String.eqb integration ""
  then setStatus "Please enter at least one field." s
  else
    let entries := loadJournalEntries s in
    let entries := entries ++ [mkEntry now intention thoughts gratitude integration] in
    let s := saveJournalEntries entries s in
    let s := setFields "" "" "" "" s in
    let s := setStatus "Journal entry saved." s in
    renderJournalEntries s.

(** [handleClearJournal]; [confirmed] is the answer to the dialog. *)
Definition handleClearJournal (confirmed : bool) (s : State) : State :=
  if negb confirmed then s
  else renderJournalEntries (saveJournalEntries [] s).

Definition handleClearJournalFields (s : State) : State :=
  setStatus "" (setFields "" "" "" "" s).

Definition handleHideJournalEntries (s : State) : State :=
  setContainer (Message "Journal entries hidden.") s.

(** What the user does on the journal tab. *)
Inductive JournalEvent : Type :=
| Type_ (i t g n : string)        (* the four fields are edited *)
| Save (now : Z)
| ClearFields
| Hide
| Clear (confirmed : bool).

Definition journalStep (s : State) (e : JournalEvent) : State :=
  match e with
  | Type_ i t g n => setFields i t g n s
  | Save now => handleSaveJournalEntry now s
  | ClearFields => handleClearJournalFields s
  | Hide => handleHideJournalEntries s
  | Clear confirmed => handleClearJournal confirmed s
  end.

Definition journalRun (s : State) (es : list JournalEvent) : State :=
  fold_left journalStep es s.

(** The tab when the script has run (line 2609), with [stored] in local
    storage. *)
Definition opened (stored : list Entry) : State :=
  renderJournalEntries (mkState stored "" "" "" "" "" (Message "")).

(** A text without white space at either end. *)
Definition Trimmed (s : string) : Prop := trim s = s.

Definition blank (s : string) : bool := forallb isSpace (list_ascii_of_string s).

(** An entry as [handleSaveJournalEntry] writes them: the fields are
    trimmed and one of them is not empty. *)
Definition EntryOk (e : Entry) : Prop :=
  Trimmed (intention e) /\ Trimmed (thoughts e) /\ Trimmed (gratitude e) /\
  Trimmed (integration e) /\
  (intention e <> "" \/ thoughts e <> "" \/ gratitude e <> "" \/ integration e <> "")%string.

(** What the container shows is the stored list as rendered, or the
    note that the list is hidden. *)
Definition InSync (s : State) : Prop :=
  container s = Message "Journal entries hidden." \/
  container s = container (renderJournalEntries s).

End Journal.

(** ** The noise buffer (app.js, lines 1158-1175)

    Samples are real numbers; the rounding of the arithmetic and of the
    [Float32Array] is left out. *)

Module Noise.
Local Open Scope R_scope.

(** The three one-pole filters of the loop. *)
Record Filter : Type := mkFilter { b0 : R; b1 : R; b2 : R }.

(** One turn of the loop; [u] is the value of [Math.random()]. *)
Definition noiseStep (f : Filter) (u : R) : Filter * R :=
  let white := u * 2 - 1 in
  let b0 := 0.997 * b0 f + white * 0.029591 in
  let b1 := 0.985 * b1 f + white * 0.032534 in
  let b2 := 0.950 * b2 f + white * 0.048056 in
  (mkFilter b0 b1 b2, (b0 + b1 + b2) * 0.3).

Fixpoint noiseLoop (f : Filter) (randoms : list R) : list R :=
  match randoms with
  | [] => []
  | u :: rest => let (f', x) := noiseStep f u in x :: noiseLoop f' rest
  end.

(** [createNoiseBuffer]: [noiseBuffer] is the cached buffer, [randoms]
    the values [Math.random()] gives in the loop, one for each of the
    [ctx.sampleRate * 2] samples. *)
Definition createNoiseBuffer (noiseBuffer : option (list R)) (randoms : list R) : list R :=
  match noiseBuffer with
  | Some buffer => buffer
  | None => noiseLoop (mkFilter 0 0 0) randoms
  end.

(** [Math.random()] is in [0, 1). *)
Definition isRandom (u : R) : Prop := 0 <= u < 1.

(** The filters stay within the sums of their geometric series. *)
Definition Bounded (f : Filter) : Prop :=
  Rabs (b0 f) * 0.003 <= 0.029591 /\
  Rabs (b1 f) * 0.015 <= 0.032534 /\
  Rabs (b2 f) * 0.050 <= 0.048056.

End Noise.

(** ** Meditation sessions (app.js, lines 2259-2286 and 2324-2350) *)

Module Meditate.
Import App.

(** What [medTimerDisplay] shows: the infinity sign, or minutes and
    seconds, the seconds padded to two digits. *)
Inductive Display : Type :=
| Infinity
| Clock (minutes seconds : Z).

(** The page with the state of the Meditate tab.  The timeouts of the
    session timer are kept apart from the timers of the Explore tab. *)
Record MedState : Type := mkMed {
  explore : State;           (* the Explore tab and the engine *)
  medBandKey : string;        (* medFreqSelect.value *)
  medBandHz : Qc;             (* parseFloat(medFreqSelect.value) || 7.83 *)
  sessionMinutes : option Z;  (* parseInt(sessionMinutes.value, 10); None is NaN *)
  medPlayDisabled : bool;     (* medPlay.disabled *)
  medTimerId : option nat;
  medEndTime : Z;
  medTimerDisplay : Display;
  medPending : gset nat;      (* the pending timeouts of the session timer *)
  medNextId : nat
}.

Definition setPage (v : State) (s : MedState) : MedState :=
  mkMed v (medBandKey s) (medBandHz s) (sessionMinutes s) (medPlayDisabled s) (medTimerId s)
        (medEndTime s) (medTimerDisplay s) (medPending s) (medNextId s).

Definition setMedBand (key : string) (hz : Qc) (s : MedState) : MedState :=
  mkMed (explore s) key hz (sessionMinutes s) (medPlayDisabled s) (medTimerId s)
        (medEndTime s) (medTimerDisplay s) (medPending s) (medNextId s).

Definition setSessionMinutes (v : option Z) (s : MedState) : MedState :=
  mkMed (explore s) (medBandKey s) (medBandHz s) v (medPlayDisabled s) (medTimerId s)
        (medEndTime s) (medTimerDisplay s) (medPending s) (medNextId s).

Definition setMedPlayDisabled (v : bool) (s : MedState) : MedState :=
  mkMed (explore s) (medBandKey s) (medBandHz s) (sessionMinutes s) v (medTimerId s)
        (medEndTime s) (medTimerDisplay s) (medPending s) (medNextId s).

Definition setMedTimerId (v : option nat) (s : MedState) : MedState :=
  mkMed (explore s) (medBandKey s) (medBandHz s) (sessionMinutes s) (medPlayDisabled s) v
        (medEndTime s) (medTimerDisplay s) (medPending s) (medNextId s).

Definition setMedEndTime (v : Z) (s : MedState) : MedState :=
  mkMed (explore s) (medBandKey s) (medBandHz s) (sessionMinutes s) (medPlayDisabled s)
        (medTimerId s) v (medTimerDisplay s) (medPending s) (medNextId s).

Definition setMedTimerDisplay (v : Display) (s : MedState) : MedState :=
  mkMed (explore s) (medBandKey s) (medBandHz s) (sessionMinutes s) (medPlayDisabled s)
        (medTimerId s) (medEndTime s) v (medPending s) (medNextId s).

Definition setMedPending (p : gset nat) (n : nat) (s : MedState) : MedState :=
  mkMed (explore s) (medBandKey s) (medBandHz s) (sessionMinutes s) (medPlayDisabled s)
        (medTimerId s) (medEndTime s) (medTimerDisplay s) p n.

Abbreviation MedCmd := (Js MedState).

(** A handler of the Explore tab or of the engine, run on the page. *)
Definition liftPage {A : Type} (m : Cmd A) : MedCmd A :=
  fun s => (fst (m (explore s)), setPage (snd (m (explore s))) s).

(** [setTimeout(tick, 1000)] *)
Definition setMedTimeout : MedCmd nat :=
  fun s => (Ok (medNextId s),
            setMedPending ({[medNextId s]} ∪ medPending s) (S (medNextId s)) s).

(** [if (medTimerId) clearTimeout(medTimerId); medTimerId = null;
    medTimerDisplay.textContent = '∞';] *)
Definition clearMedTimer : MedCmd unit :=
  id ← gets medTimerId;
  match id with
  | Some t => modify (fun s => setMedPending (medPending s ∖ {[t]}) (medNextId s) s)
  | None => skip
  end ;;
  modify (setMedTimerId None) ;;
  modify (setMedTimerDisplay Infinity).

Definition stopMeditation : MedCmd unit :=
  liftPage (liftAudio Audio.stopCurrentAudio) ;;
  liftPage stopAutosweep ;;
  clearMedTimer ;;
  modify (setMedPlayDisabled false).

(** The [tick] of the session timer; [now] is [Date.now()]. *)
Definition tick (now : Z) : MedCmd unit :=
  endTime ← gets medEndTime;
  let remaining := (endTime - now)%Z in
  if (remaining <=? 0)%Z then
    modify (setMedTimerDisplay (Clock 0 0)) ;;
    stopMeditation
  else
    let totalSec := (remaining / 1000)%Z in
    let m := (totalSec / 60)%Z in
    let s := (totalSec mod 60)%Z in
    modify (setMedTimerDisplay (Clock m s)) ;;
    t ← setMedTimeout;
    modify (setMedTimerId (Some t)).

(** [startMedTimer(mins)]; [now] and [now'] are the two readings of
    [Date.now()], in [startMedTimer] and in the first [tick]. *)
Definition startMedTimer (mins now now' : Z) : MedCmd unit :=
  if (mins =? 0)%Z || (mins <=? 0)%Z then modify (setMedTimerDisplay Infinity)
  else
    modify (setMedEndTime (now + mins * 60 * 1000)) ;;
    tick now'.

Definition startMeditation (now now' : Z) : MedCmd unit :=
  c ← gets (fun s => controls (explore s));
  bandHz ← gets medBandHz;
  liftPage (liftAudio (Audio.startGraph c bandHz)) ;;
  key ← gets medBandKey;
  info ← gets (fun s => bestPhaseByBand (explore s) !! key);
  match info with
  | Some info => liftPage (modify (setPhaseRange (JsNum.toFixed0 (phase info))))
  | None => skip
  end ;;
  modify (setMedPlayDisabled true) ;;
  v ← gets sessionMinutes;
  let mins := match v with
              | Some 0%Z | None => 20%Z
              | Some n => n
              end in
  startMedTimer mins now now'.

(** What happens on the page: a click on the Start of the Meditate tab,
    which a disabled button does not take, or on its Stop; a pending
    timeout of the session timer firing; an event of the Explore tab; a
    new band or session length chosen; and the page being left. *)
Inductive MedEvent : Type :=
| MedPlay (now now' : Z)
| MedStop
| MedTick (t : nat) (now : Z)
| OnPage (e : Event)
| MedBand (key : string) (hz : Qc)
| Minutes (v : option Z)
| BeforeUnload.

Definition medHandle (e : MedEvent) : MedCmd unit :=
  match e with
  | MedPlay now now' =>
      d ← gets medPlayDisabled;
      if (d : bool) then skip else startMeditation now now'
  | MedStop => stopMeditation
  | MedTick t now =>
      p ← gets medPending;
      if bool_decide (t ∈ p) then
        modify (fun s => setMedPending (medPending s ∖ {[t]}) (medNextId s) s) ;;
        tick now
      else skip
  | OnPage e => liftPage (handle e)
  | MedBand key hz => modify (setMedBand key hz)
  | Minutes v => modify (setSessionMinutes v)
  | BeforeUnload =>
      liftPage stopExplore ;;
      stopMeditation ;;
      liftPage (liftAudio Audio.stopCurrentAudio)
  end.

Definition medStep (s : MedState) (e : MedEvent) : MedState := exec (medHandle e) s.

Definition medRun (s : MedState) (es : list MedEvent) : MedState := fold_left medStep es s.

(** The page when its script has run. *)
Definition medLoaded (p : State) (key : string) (hz : Qc) (mins : option Z) : MedState :=
  mkMed p key hz mins false None 0 Infinity ∅ 1.

(** No session timer without a session, and at most the one held in
    [medTimerId] with one. *)
Definition MedTimerOk (s : MedState) : Prop :=
  (forall t, t ∈ medPending s -> medTimerId s = Some t /\ medPlayDisabled s = true) /\
  (forall t, t ∈ medPending s -> t < medNextId s).

End Meditate.

(** ** The clock of the sweeps (app.js, lines 2003-2010 and 2242-2248) *)

Module Sweep.

(** [(elapsed % duration) / duration] with
    [elapsed = (now - startTime) / 1000]: the fraction of the sweep
    period that has elapsed at a frame. *)
Definition sweepFraction (startTime now duration : Qc) : Qc :=
  let elapsed := ((now - startTime) / Q2Qc 1000)%Qc in
  (JsNum.js_mod elapsed duration / duration)%Qc.

(** What a frame of the autosweep writes to the phase slider. *)
Definition autosweepPhase (startTime now duration : Qc) : Qc :=
  let frac := sweepFraction startTime now duration in
  let deg := (frac * Q2Qc 360)%Qc in
  JsNum.toFixed0 deg.

End Sweep.

(** ** Binary64 rounding

    JavaScript numbers are IEEE 754 doubles.  The engine above carries
    them as exact rationals; where a statement is about the digits a
    computation leaves, the computation is embedded again with every
    operation rounded to the nearest double, ties to even.  Values beyond
    the largest finite double are outside this model: the statements
    bound their operands. *)

Module Double.

(** [2^e] *)
Definition pow2 (e : Z) : Q := Qpower 2 e.

(** The nearest integer, the even one on a tie. *)
Definition roundEven (q : Q) : Z :=
  let f := Qfloor q in
  match Qcompare (q - inject_Z f) (1 # 2) with
  | Lt => f
  | Gt => (f + 1)%Z
  | Eq => if Z.even f then f else (f + 1)%Z
  end.

(** [floor (log2 |q|)], for [q] other than 0. *)
Definition ilog2 (q : Q) : Z :=
  let e0 := (Z.log2 (Z.abs (Qnum q)) - Z.log2 (Zpos (Qden q)))%Z in
  if Qle_bool (pow2 e0) (Qabs q) then e0 else (e0 - 1)%Z.

(** The exponent of the last place of the double nearest to [q]: 52
    places below the leading bit, and never below [2^-1074], the spacing
    of the subnormal doubles. *)
Definition ulpExp (q : Q) : Z := Z.max (ilog2 q - 52) (-1074).

Definition roundQ (q : Q) : Q :=
  if Qeq_bool q 0 then 0
  else inject_Z (roundEven (q / pow2 (ulpExp q))) * pow2 (ulpExp q).

(** The double nearest to [x]. *)
Definition fl (x : Qc) : Qc := Q2Qc (roundQ x).

(** The double a decimal literal of the source denotes. *)
Definition lit (q : Q) : Qc := fl (Q2Qc q).

Definition add (x y : Qc) : Qc := fl (x + y).
Definition sub (x y : Qc) : Qc := fl (x - y).
Definition mul (x y : Qc) : Qc := fl (x * y).
Definition div (x y : Qc) : Qc := fl (x / y).

(** The unit roundoff [2^-53] and half the spacing of the subnormals. *)
Definition eps : Qc := Q2Qc (pow2 (-53)).
Definition eta : Qc := Q2Qc (pow2 (-1075)).

End Double.

(** ** The computations the numerical statements are about, in doubles *)

Module Rounded.
Import Audio Double.

(** The options [startGraph] passes for Spatial Echo, as the doubles the
    literals denote. *)
Definition spatialEchoOptions (toneMix : Qc) : EchoOptions :=
  mkEchoOptions (lit 0.21) (lit 0.26) (lit 0.11) (lit 0.14) toneMix (lit 0.35) (lit 0.65).

(** [createBandSplitEchoCluster], lines 1478-1480; [rnd] is the double
    [Math.random()] returns. *)
Definition randFrac (o : EchoOptions) (rnd : Qc) : Qc :=
  add (splitMin o) (mul rnd (sub (splitMax o) (splitMin o))).

Definition leftDiff (o : EchoOptions) (rnd freqHz : Qc) : Qc :=
  mul freqHz (randFrac o rnd).

Definition rightDiff (o : EchoOptions) (rnd freqHz : Qc) : Qc :=
  mul freqHz (sub 1 (randFrac o rnd)).

(** The Binaural branch of [startGraph], lines 1634-1640: the values
    assigned to the frequencies of the two oscillators. *)
Definition halfDiff (freqHz : Qc) : Qc := div freqHz (Q2Qc 2).

Definition leftFrequency (audibleHz freqHz : Qc) : Qc := add audibleHz (halfDiff freqHz).

Definition rightFrequency (audibleHz freqHz : Qc) : Qc := sub audibleHz (halfDiff freqHz).

(** [updateBreathAnimation], lines 1340-1341 and 1356. *)
Definition period (bandHz : Qc) : Qc :=
  if decide (0 < bandHz)%Qc then div 1 bandHz else 0%Qc.

Definition sec (bandHz : Qc) (multiplier : Z) : Qc := mul (period bandHz) (JsNum.ofZ multiplier).

Definition phaseMs (bandHz phaseDeg : Qc) : Qc :=
  if decide (0 < bandHz)%Qc
  then mul (div phaseDeg (Q2Qc 360)) (div (Q2Qc 1000) bandHz)
  else 0%Qc.

End Rounded.

(** ** The collation of [localeCompare]

    [String.prototype.localeCompare] without arguments compares in the
    default locale of the host.  This is the comparison of an engine
    whose default locale collates by the root collation of CLDR, as the
    English locales do, on ASCII strings: control characters are ignored;
    white space comes before punctuation, punctuation before symbols,
    symbols before digits and digits before letters; letters compare
    without regard to case first, and between strings that are otherwise
    alike the lower-case letter comes first. *)

Module Locale.

Definition quotationMark : ascii := ascii_of_nat 34.

(** The characters that stand before the letters, in their order. *)
Definition beforeLetters : string :=
  String (ascii_of_nat 9) (String (ascii_of_nat 10) (String (ascii_of_nat 11)
    (String (ascii_of_nat 12) (String (ascii_of_nat 13) " "))))
  +:+ "_-,;:!?.'" +:+ String quotationMark "()[]{}@*/\&#%`^+<=>|~$"
  +:+ "0123456789".

Fixpoint indexOf (c : ascii) (s : string) : option nat :=
  match s with
  | EmptyString => None
  | String d rest => if Ascii.eqb c d then Some 0%nat else option_map S (indexOf c rest)
  end.

Definition isUpper (c : ascii) : bool :=
  (65 <=? nat_of_ascii c)%nat && (nat_of_ascii c <=? 90)%nat.

Definition isLower (c : ascii) : bool :=
  (97 <=? nat_of_ascii c)%nat && (nat_of_ascii c <=? 122)%nat.

(** The primary weight of a character; a control character has none.  A
    byte outside ASCII is given its own code, above every letter. *)
Definition primary (c : ascii) : option nat :=
  let n := nat_of_ascii c in
  if isUpper c then Some (100 + (n - 65))%nat
  else if isLower c then Some (100 + (n - 97))%nat
  else match indexOf c beforeLetters with
       | Some i => Some (1 + i)%nat
       | None => if (n <? 128)%nat then None else Some n
       end.

(** The weight on the level of case. *)
Definition tertiary (c : ascii) : nat := if isUpper c then 2%nat else 1%nat.

Fixpoint primaries (s : string) : string :=
  match s with
  | EmptyString => EmptyString
  | String c rest =>
      match primary c with
      | Some w => String (ascii_of_nat w) (primaries rest)
      | None => primaries rest
      end
  end.

Fixpoint tertiaries (s : string) : string :=
  match s with
  | EmptyString => EmptyString
  | String c rest =>
      match primary c with
      | Some _ => String (ascii_of_nat (tertiary c)) (tertiaries rest)
      | None => tertiaries rest
      end
  end.

(** The sort key: the primary weights, a separator below every weight,
    the weights of case. *)
Definition sortKey (s : string) : string :=
  primaries s +:+ String (ascii_of_nat 0) (tertiaries s).

Definition localeCompare (a b : string) : Z :=
  match String_as_OT.compare (sortKey a) (sortKey b) with
  | Lt => (-1)%Z
  | Eq => 0%Z
  | Gt => 1%Z
  end.

End Locale.

(** ** Sample sessions and the vocabulary of the statements *)

Module Samples.
Import App.

(** A page in Binaural mode, no reverb, no chords, the birds and waves
    samples decoded. *)
Definition binauralControls : Audio.Controls :=
  Audio.mkControls "binaural" "none" "none" false false false false true true false
    (Q2Qc 0.5) (Q2Qc 0.7) (Q2Qc 1) 0 0 0 0 true (Q2Qc 0.5).

(** The page at the 7.83 Hz band, with [stored] in local storage. *)
Definition page (stored : gmap string PhaseRecord) : State :=
  loaded binauralControls "7.83" (Q2Qc 7.83) stored.

(** A mark issued while the live phase is [v]. *)
Definition markAt (s : State) (v : Qc) : State :=
  step (setPhaseRange v s) MarkStrongest.

(** The incremental-mean update of the specification:
    [phase' = phase + (newMark - phase) / (count + 1)]. *)
Definition incrementalMean (r : PhaseRecord) (newMark : Qc) : PhaseRecord :=
  mkRecord (phase r + (newMark - phase r) / JsNum.ofZ (count r + 1))%Qc (count r + 1).

(** A record as a fraction in lowest terms and a count. *)
Definition recordView (r : PhaseRecord) : Q * Z := (this (phase r), count r).

(** The stored record of a user who has marked three times, at a mean of
    100 degrees. *)
Definition threeMarksAt100 : gmap string PhaseRecord :=
  {[ "7.83"%string := mkRecord (Q2Qc 100) 3 ]}.

(** A scan started on [page stored] and left to run, without a mark, up
    to the last candidate of the second tier. *)
Definition atLastCandidate (stored : gmap string PhaseRecord) : State :=
  run (page stored) (ExplorePlay :: replicate 13 ScanTimeout).

(** A scan on the page with nothing stored, marked twice at the second
    candidate (60 degrees) and once at the third (120 degrees), at the last
    candidate of the first tier. *)
Definition tier1Marked : State :=
  run (page ∅)
      [ExplorePlay; ScanTimeout; MarkStrongest; MarkStrongest; ScanTimeout; MarkStrongest;
       ScanTimeout; ScanTimeout; ScanTimeout; ScanTimeout].

(** The range of the phase slider, 0 to 360 degrees, both included. *)
Definition InRange (x : Qc) : Prop := (Q2Qc 0 <= x)%Qc /\ (x <= Q2Qc 360)%Qc.

Definition RecordOk (r : PhaseRecord) : Prop := InRange (phase r) /\ (1 <= count r)%Z.

Definition StoreOk (m : gmap string PhaseRecord) : Prop :=
  forall k r, m !! k = Some r -> RecordOk r.

(** The invariant of a session: the records in memory and in local
    storage, the live phase and the candidates of the scan. *)
Definition Inv (s : State) : Prop :=
  StoreOk (bestPhaseByBand s) /\ StoreOk (localStorage s) /\
  InRange (phaseRange s) /\ Forall InRange (scanPhases s).

(** The slider is moved within its range, and a sweep frame is taken at
    a fraction of the sweep period. *)
Definition validEvent (e : Event) : Prop :=
  match e with
  | PhaseInput v => InRange v
  | SweepFrame frac => (Q2Qc 0 <= frac)%Qc /\ (frac < Q2Qc 1)%Qc
  | _ => True
  end.

(** Events that neither mark, nor clear records, nor start a scan. *)
Definition quiet (e : Event) : bool :=
  match e with
  | MarkStrongest | ClearBestPhase | ClearHistory | ExplorePlay => false
  | _ => true
  end.

(** [s'] has the records, the live phase and the scan of [s]. *)
Definition Untouched (s s' : State) : Prop :=
  bestPhaseByBand s' = bestPhaseByBand s /\ localStorage s' = localStorage s /\
  bandKey s' = bandKey s /\ phaseRange s' = phaseRange s /\
  scanning s' = scanning s /\ scanTier s' = scanTier s /\
  scanPhases s' = scanPhases s /\ scanCounts s' = scanCounts s /\
  scanIndex s' = scanIndex s.

(** The scan of [atLastCandidate], in the middle of its second tier: at
    the candidate of index 3. *)
Definition midTier2 (stored : gmap string PhaseRecord) : State :=
  run (step (page stored) ExplorePlay) (replicate 10 ScanTimeout).

(** A scan on the page with nothing stored, at the last candidate of the
    first tier, 360 degrees. *)
Definition atCandidate360 : State :=
  run (page ∅) (ExplorePlay :: replicate 6 ScanTimeout).

(** A page in Ambient Echo mode, and one in Spatial Echo mode (the mode
    pill of Spatial Echo carries a mode other than am, binaural and
    ambient). *)
Definition ambientControls : Audio.Controls :=
  Audio.mkControls "ambient" "none" "none" false false false false true true false
    (Q2Qc 0.5) (Q2Qc 0.7) (Q2Qc 1) 0 0 0 0 true (Q2Qc 0.5).

Definition spatialControls : Audio.Controls :=
  Audio.mkControls "both" "none" "none" false false false false true true false
    (Q2Qc 0.5) (Q2Qc 0.7) (Q2Qc 1) 0 0 0 0 true (Q2Qc 0.25).

(** The birds and the waves streamed from [<audio>] elements. *)
Definition streamedControls : Audio.Controls :=
  Audio.mkControls "am" "none" "none" false false false false false false false
    (Q2Qc 0.5) (Q2Qc 0.7) (Q2Qc 1) 0 0 0 0 true (Q2Qc 0.5).

(** The graph of a first build at 7.83 Hz. *)
Definition built (c : Audio.Controls) : Audio.AudioState :=
  exec (Audio.startGraph c (Q2Qc 7.83)) Audio.initial.

(** A node as its kind and the calls made on it. *)
Definition nodeView (n : Audio.Node) : Audio.NodeKind * Q * bool * bool * bool :=
  (Audio.kind n, this (Audio.value n), Audio.started n, Audio.stopped n,
   Audio.disconnected n).

(** The graph has a pair of registered oscillators detuned from the
    carrier of [band] by offsets that sum to [band]. *)
Definition HasEchoPair (band : Qc) (g : Audio.AudioState) : Prop :=
  exists leftOffset rightOffset : Qc,
    (leftOffset + rightOffset = band)%Qc /\
    In (Audio.mapBandToAudible band + leftOffset)%Qc (Audio.extraOscillators g) /\
    In (Audio.mapBandToAudible band - rightOffset)%Qc (Audio.extraOscillators g).

(** A graph that has its master gain, base oscillator and base gain, as
    [startGraph] has made them when it comes to the stimulation mode. *)
Definition carrierOnly : Audio.AudioState :=
  Audio.mkAudio true
    [ Audio.mkNode Audio.Gain (Q2Qc 0.5) false false false;
      Audio.mkNode Audio.Oscillator (Q2Qc 223.49) false false false;
      Audio.mkNode Audio.Gain (Q2Qc 0.42) false false false ]
    ∅ 1
    {[ Audio.masterGain := 0%nat; Audio.baseOsc := 1%nat; Audio.baseGain := 2%nat ]}
    [] [] [] 0 false false.

(** [node.param.value = v] on a node. *)
Definition withValue (v : Qc) (n : Audio.Node) : Audio.Node :=
  Audio.mkNode (Audio.kind n) v (Audio.started n) (Audio.stopped n) (Audio.disconnected n).

(** *** Chord ranking *)

(** The number of keywords of [keys] that count for [text]: the non-empty
    ones whose lower-case form occurs in it. *)
Definition keywordMatches (text : string) (keys : list string) : Z :=
  Z.of_nat (length (List.filter
                      (fun k => negb (String.eqb k "") && Chords.includes text (Chords.toLowerCase k))
                      keys)).

Definition favoriteMatches (prefs : option Chords.Preferences) (loop : Chords.ChordLoop) : Z :=
  keywordMatches (Chords.loopText loop) (Chords.prefArray prefs Chords.favoriteKeywords []).

Definition meditationMatches (prefs : option Chords.Preferences) (loop : Chords.ChordLoop) : Z :=
  keywordMatches (Chords.loopText loop) (Chords.prefArray prefs Chords.meditationKeywords []).

Definition avoidMatches (prefs : option Chords.Preferences) (loop : Chords.ChordLoop) : Z :=
  keywordMatches (Chords.loopText loop) (Chords.prefArray prefs Chords.avoidKeywords []).

(** The part of the score that comes from the tempo in the name. *)
Definition tempoScore (prefs : option Chords.Preferences) (loop : Chords.ChordLoop) : Z :=
  Chords.addTempo (Chords.prefArray prefs Chords.bpmRange [110; 140]%Z)
                  (Chords.parseInt10 <$> Chords.bpmSearch true (Chords.loopText loop)) 0.

(** The part of the score that comes from the built-in keywords. *)
Definition baseScore (loop : Chords.ChordLoop) : Z :=
  (6 * keywordMatches (Chords.loopText loop) Chords.basePos
   - 8 * keywordMatches (Chords.loopText loop) Chords.baseNeg)%Z.

(** [x] may stand before [y] in the ranking: its score is higher, or the
    scores are equal and its name does not collate after the name of [y]. *)
Definition rankedBefore (collate : string -> string -> Z) (x y : Chords.ChordLoop * Z) : Prop :=
  (snd y < snd x)%Z \/
  (snd x = snd y /\ (collate (Chords.sortName (fst x)) (Chords.sortName (fst y)) <= 0)%Z).

(** A collation: the sign of [collate a b] is opposite to that of
    [collate b a], and not-after is transitive. *)
Definition Collation (collate : string -> string -> Z) : Prop :=
  (forall a b, (0 < collate a b)%Z -> (collate b a <= 0)%Z) /\
  (forall a b c, (collate a b <= 0)%Z -> (collate b c <= 0)%Z -> (collate a c <= 0)%Z).

(** A case-insensitive lexicographic comparison of ASCII names. *)
Definition caseInsensitiveCompare (a b : string) : Z :=
  match String_as_OT.compare (Chords.toLowerCase a) (Chords.toLowerCase b) with
  | Lt => (-1)%Z
  | Eq => 0%Z
  | Gt => 1%Z
  end.

Definition samplePreferences : option Chords.Preferences :=
  Some (Chords.mkPrefs (Some ["dorian"]) (Some ["calm"]) (Some ["bright"]) (Some [60; 100]%Z)).

Definition favoriteLoop : Chords.ChordLoop := Chords.mkLoop "Dorian Glow 90" "glow_a_90.wav".
Definition meditationLoop : Chords.ChordLoop := Chords.mkLoop "Calm Glow 90" "glow_b_90.wav".

Definition sampleManifest : list Chords.ChordLoop :=
  [ Chords.mkLoop "" "zither_90.wav"; meditationLoop; Chords.mkLoop "alto Glow 90" "glow_c_90.wav";
    favoriteLoop; Chords.mkLoop "Bright Lead 160" "lead_160.wav";
    Chords.mkLoop "Bell Glow 90" "glow_d_90.wav" ].

(** *** Sessions: persistence, timers and the shape of a scan *)

(** What is in memory is in local storage. *)
Definition Persisted (s : State) : Prop := bestPhaseByBand s ⊆ localStorage s.

(** The timers of the page.  The pending ones and the ones held in
    [sweepAnimId], [scanTimeoutId] and [countdownInterval] were handed out
    before [nextId]; the three variables hold different timers; and every
    pending timer is the animation frame of a running sweep, or the
    advance timer or the countdown of a running scan. *)
Definition TimersOk (s : State) : Prop :=
  (forall t, t ∈ pending s -> (t < nextId s)%nat) /\
  (forall t, sweepAnimId s = Some t \/ scanTimeoutId s = Some t \/ countdownInterval s = Some t ->
             (t < nextId s)%nat) /\
  (forall t, sweepAnimId s = Some t ->
             scanTimeoutId s <> Some t /\ countdownInterval s <> Some t) /\
  (forall t, scanTimeoutId s = Some t -> countdownInterval s <> Some t) /\
  (forall t, t ∈ pending s ->
             (sweepIsRunning s = true /\ sweepAnimId s = Some t) \/
             (scanning s = true /\ (scanTimeoutId s = Some t \/ countdownInterval s = Some t))).

(** A running scan is in its first tier on the candidates 0, 60, ..., 360
    or in its second tier on seven candidates at 0; it is at one of the
    seven, the slider is disabled and the advance timer is pending.
    Without a scan the scan variables are at rest and the slider is
    enabled. *)
Definition ScanShape (s : State) : Prop :=
  if scanning s then
    ((scanTier s = 1%Z /\ scanPhases s = tier1Phases) \/
     (scanTier s = 2%Z /\ scanPhases s = replicate 7 (Q2Qc 0))) /\
    (scanIndex s < 7)%nat /\
    phaseRangeDisabled s = true /\
    (exists t, scanTimeoutId s = Some t /\ t ∈ pending s)
  else
    scanTier s = 0%Z /\ scanPhases s = [] /\ scanCounts s = ∅ /\ scanIndex s = 0%nat /\
    phaseRangeDisabled s = false.

Definition Session (s : State) : Prop := Persisted s /\ TimersOk s /\ ScanShape s.

(** How far a scan has come: the number of candidates presented before
    the current one. *)
Definition position (s : State) : nat :=
  (if (scanTier s =? 1)%Z then 0 else 7) + scanIndex s.

(** The events of an undisturbed scan: marks, countdown ticks and
    advances. *)
Definition scanEvent (e : Event) : bool :=
  match e with
  | MarkStrongest | CountdownTick | ScanTimeout => true
  | _ => false
  end.

Definition isAdvance (e : Event) : bool :=
  match e with ScanTimeout => true | _ => false end.

Definition isMark (e : Event) : bool :=
  match e with MarkStrongest => true | _ => false end.

Definition advances (es : list Event) : nat := length (List.filter isAdvance es).

Definition marks (es : list Event) : nat := length (List.filter isMark es).

(** The mark count of a record after [m] more marks; no record stays no
    record without marks. *)
Definition markedCount (r : option PhaseRecord) (m : nat) : option Z :=
  match r, m with
  | Some r, _ => Some (count r + Z.of_nat m)%Z
  | None, O => None
  | None, S _ => Some (Z.of_nat m)
  end.

(** A selector that shows an earlier choice, and a manifest with the
    sample loops under the piano. *)
Definition staleLoopUI : ChordMenu.LoopUI :=
  ChordMenu.mkLoopUI false false [ChordMenu.BareOption "old.wav" "Old"] (Some "old.wav").

Definition pianoManifest : gmap string (list Chords.ChordLoop) :=
  {[ "piano"%string := sampleManifest ]}.

(** *** Tempo and case of the chord-loop names *)

Definition allDigits (s : string) : bool :=
  forallb Chords.isDigit (list_ascii_of_string s).

Fixpoint lastChar (s : string) : option ascii :=
  match s with
  | EmptyString => None
  | String c EmptyString => Some c
  | String _ r => lastChar r
  end.

(** [d] stands alone in [text]: two or three digits, after the start or
    a character that is not a digit, before the end or a character that is
    not a digit. *)
Definition standsAlone (text d : string) : Prop :=
  exists pre post,
    text = (pre ++ d ++ post)%string /\
    (String.length d = 2 \/ String.length d = 3)%nat /\
    allDigits d = true /\
    (forall c, lastChar pre = Some c -> Chords.isDigit c = false) /\
    Chords.endOfNumber post = true.

(** The preferences with every keyword in lower case. *)
Definition lowerKeywords (p : Chords.Preferences) : Chords.Preferences :=
  Chords.mkPrefs (map Chords.toLowerCase <$> Chords.favoriteKeywords p)
                 (map Chords.toLowerCase <$> Chords.meditationKeywords p)
                 (map Chords.toLowerCase <$> Chords.avoidKeywords p)
                 (Chords.bpmRange p).

End Samples.

(** * Properties *)

(** ** Running a handler step by step *)

Section JsFacts.
Context {S : Type}.

Lemma run_bind {A B : Type} (m : Js S A) (k : A -> Js S B) (s : S) :
  (m ≫= k) s = match m s with
               | (Ok a, s') => k a s'
               | (Throw, s') => (Throw, s')
               end.
Proof. reflexivity. Qed.

Lemma run_ret_bind {A B : Type} (a : A) (k : A -> Js S B) (s : S) :
  (mret a ≫= k) s = k a s.
Proof. reflexivity. Qed.

Lemma run_gets_bind {A B : Type} (f : S -> A) (k : A -> Js S B) (s : S) :
  (gets f ≫= k) s = k (f s) s.
Proof. reflexivity. Qed.

Lemma run_modify_bind {B : Type} (f : S -> S) (k : unit -> Js S B) (s : S) :
  (modify f ≫= k) s = k tt (f s).
Proof. reflexivity. Qed.

Lemma run_skip_bind {B : Type} (k : unit -> Js S B) (s : S) :
  (skip ≫= k) s = k tt s.
Proof. reflexivity. Qed.

Lemma run_throw_bind {A B : Type} (k : A -> Js S B) (s : S) :
  (throw ≫= k) s = (Throw, s).
Proof. reflexivity. Qed.

Lemma run_bind_assoc {A B C : Type} (m : Js S A) (k : A -> Js S B) (h : B -> Js S C) (s : S) :
  ((m ≫= k) ≫= h) s = (m ≫= (fun a => k a ≫= h)) s.
Proof.
  unfold mbind, Js_bind. destruct (m s) as [[a|] s']; reflexivity.
Qed.

Lemma run_gets {A : Type} (f : S -> A) (s : S) : gets f s = (Ok (f s), s).
Proof. reflexivity. Qed.

Lemma run_modify (f : S -> S) (s : S) : modify f s = (Ok tt, f s).
Proof. reflexivity. Qed.

Lemma run_skip (s : S) : @skip S s = (Ok tt, s).
Proof. reflexivity. Qed.

Lemma run_when_true (m : Js S unit) : when true m = m.
Proof. reflexivity. Qed.

Lemma run_when_false (m : Js S unit) : when false m = skip.
Proof. reflexivity. Qed.

End JsFacts.

Create Rewrite HintDb js.
#[global] Hint Rewrite @run_bind_assoc @run_ret_bind @run_gets_bind @run_modify_bind
  @run_skip_bind @run_throw_bind @run_gets @run_modify @run_skip
  @run_when_true @run_when_false : js.

Ltac js_run := repeat (autorewrite with js; cbn beta iota).

Ltac js_unfold :=
  unfold mbind, Js_bind, mret, Js_ret, gets, modify, skip, when, throw, tryCatch.

(** ** Reverb wet gain *)

Section ReverbFacts.
Import Reverb.
Local Open Scope R_scope.

Lemma channelLoop_nonfinite (data : list jsnum) (c : nat) :
  channelLoop (NonFinite, c) data = (NonFinite, (c + length data)%nat).
Proof.
  revert c. induction data as [|v data IH]; intros c.
  - simpl. f_equal. lia.
  - change (channelLoop (NonFinite, c) (v :: data))
      with (channelLoop (NonFinite, S c) data).
    rewrite IH. simpl. f_equal. lia.
Qed.

Lemma channelLoop_finite (data : list jsnum) (s : R) (c : nat) :
  channelLoop (Finite s, c) data =
  (if allFinite data then Finite (s + sumSquares data) else NonFinite,
   (c + length data)%nat).
Proof.
  revert s c. induction data as [|v data IH]; intros s c.
  - simpl. f_equal; [f_equal; lra | lia].
  - destruct v as [x|].
    + change (channelLoop (Finite s, c) (Finite x :: data))
        with (channelLoop (Finite (s + x * x), S c) data).
      rewrite IH. simpl.
      f_equal; [|lia]. destruct (allFinite data); [f_equal; lra | reflexivity].
    + change (channelLoop (Finite s, c) (NonFinite :: data))
        with (channelLoop (NonFinite, S c) data).
      rewrite channelLoop_nonfinite. simpl. f_equal. lia.
Qed.

Lemma bufferLoop_nonfinite (b : AudioBuffer) (c : nat) :
  fold_left channelLoop b (NonFinite, c) = (NonFinite, (c + length (concat b))%nat).
Proof.
  revert c. induction b as [|data b IH]; intros c; simpl.
  - f_equal. lia.
  - rewrite channelLoop_nonfinite, IH, length_app. f_equal. lia.
Qed.

Lemma bufferLoop_finite (b : AudioBuffer) (s : R) (c : nat) :
  fold_left channelLoop b (Finite s, c) =
  (if allFinite (concat b) then Finite (s + sumSquares (concat b)) else NonFinite,
   (c + length (concat b))%nat).
Proof.
  revert s c. induction b as [|data b IH]; intros s c; simpl.
  - f_equal; [f_equal; lra | lia].
  - rewrite channelLoop_finite. unfold allFinite in *.
    rewrite forallb_app, length_app.
    destruct (forallb isFinite data) eqn:E; simpl.
    + rewrite IH. f_equal; [|lia].
      destruct (forallb isFinite (concat b)); [|reflexivity].
      f_equal.
      assert (sumSquares (data ++ concat b) = sumSquares data + sumSquares (concat b)) as ->.
      { clear -E. induction data as [|v data IH]; simpl; [lra|].
        simpl in E. destruct v; simpl in E; [|discriminate].
        rewrite IH by assumption. lra. }
      lra.
    + rewrite bufferLoop_nonfinite. f_equal. lia.
Qed.

Lemma sumSquares_nonneg (l : list jsnum) : 0 <= sumSquares l.
Proof.
  induction l as [|[x|] l IH]; simpl; [lra| |assumption].
  pose proof (Rle_0_sqr x) as H. unfold Rsqr in H. lra.
Qed.

(** The loop of [getAudioBufferRms] computes the root mean square. *)
Lemma getAudioBufferRms_spec (b : AudioBuffer) :
  getAudioBufferRms (Some b) =
  if Nat.eqb (length (concat b)) 0 then Finite 0
  else if allFinite (concat b) then Finite (rootMeanSquare b)
  else NonFinite.
Proof.
  unfold getAudioBufferRms.
  destruct (Nat.eqb (length b) 0) eqn:Eb.
  - apply Nat.eqb_eq in Eb. destruct b; [reflexivity | discriminate].
  - rewrite bufferLoop_finite. simpl.
    destruct (Nat.eqb (length (concat b)) 0); [reflexivity|].
    destruct (allFinite (concat b)); [|reflexivity].
    unfold rootMeanSquare. do 3 f_equal. lra.
Qed.

Lemma getAudioBufferRms_nonneg (buffer : option AudioBuffer) (x : R) :
  getAudioBufferRms buffer = Finite x -> 0 <= x.
Proof.
  destruct buffer as [b|]; [|simpl; intros [= <-]; lra].
  rewrite getAudioBufferRms_spec.
  destruct (Nat.eqb _ 0); [intros [= <-]; lra|].
  destruct (allFinite _); [|discriminate].
  intros [= <-]. apply sqrt_pos.
Qed.

(** [Math.max(lo, Math.min(hi, x))] is the clamp of [x] to [[lo, hi]]. *)
Lemma max_min_clamp (x lo hi : R) :
  lo <= hi -> Rmax lo (Rmin hi x) = clamp x lo hi.
Proof.
  intros H. unfold clamp, Rmin.
  destruct (Rle_dec hi x); unfold Rmax;
    match goal with |- context [Rle_dec ?a ?b] => destruct (Rle_dec a b) end;
    destruct (Rlt_dec x lo); try lra; destruct (Rlt_dec hi x); lra.
Qed.

Lemma clamp_bounds (x lo hi : R) : lo <= hi -> lo <= clamp x lo hi <= hi.
Proof.
  intros H. unfold clamp.
  destruct (Rlt_dec x lo); [lra|]. destruct (Rlt_dec hi x); lra.
Qed.

Lemma clamp_inside (x lo hi : R) : lo <= x <= hi -> clamp x lo hi = x.
Proof.
  intros H. unfold clamp.
  destruct (Rlt_dec x lo); [lra|]. destruct (Rlt_dec hi x); lra.
Qed.

Lemma baseWet_temple : baseWet "temple" = 0.42.
Proof. reflexivity. Qed.

Lemma baseWet_forest : baseWet "forest" = 0.58.
Proof. reflexivity. Qed.

(** C8: the compensated wet gain is
    [clamp(baseWet(space) * clamp(0.12 / rms, 0.05, 1.5), 0.03, 0.95)],
    where [rms] is the root mean square over all channels and samples and
    [baseWet] is 0.42 for Temple and 0.58 for Forest; when [rms] is zero
    or not finite the result is [baseWet(space)]; Temple with an rms of
    0.12 gives 0.42. *)
Theorem C8_compensated_wet_gain (space : string) (buffer : option AudioBuffer) :
  let rms := getAudioBufferRms buffer in
  let wet := getCompensatedIrWetGain space buffer in
  (forall b, buffer = Some b ->
     rms = if Nat.eqb (length (concat b)) 0 then Finite 0
           else if allFinite (concat b) then Finite (rootMeanSquare b)
           else NonFinite) /\
  (forall x, rms = Finite x -> 0 < x ->
     wet = clamp (baseWet space * clamp (0.12 / x) 0.05 1.5) 0.03 0.95) /\
  (forall x, rms = Finite x -> 0 <= x) /\
  (rms = Finite 0 \/ rms = NonFinite -> wet = baseWet space) /\
  baseWet "temple" = 0.42 /\
  baseWet "forest" = 0.58 /\
  (space = "temple"%string -> rms = Finite 0.12 -> wet = 0.42).
Proof.
  intros rms wet. subst rms wet.
  assert (forall x, getAudioBufferRms buffer = Finite x -> 0 < x ->
            getCompensatedIrWetGain space buffer =
            clamp (baseWet space * clamp (0.12 / x) 0.05 1.5) 0.03 0.95) as Hmain.
  { intros x Hx Hpos. unfold getCompensatedIrWetGain. rewrite Hx.
    destruct (Rle_dec x 0) as [Hle|_]; [lra|].
    cbv zeta. fold (baseWet space).
    rewrite (max_min_clamp (0.12 / x)) by lra.
    rewrite max_min_clamp by lra. reflexivity. }
  repeat apply conj.
  - intros b ->. apply getAudioBufferRms_spec.
  - exact Hmain.
  - apply getAudioBufferRms_nonneg.
  - unfold getCompensatedIrWetGain, baseWet.
    intros [-> | ->]; [|reflexivity].
    destruct (Rle_dec 0 0); [reflexivity | lra].
  - exact baseWet_temple.
  - exact baseWet_forest.
  - intros -> Hx. rewrite (Hmain 0.12 Hx) by lra.
    rewrite baseWet_temple.
    replace (0.12 / 0.12) with 1 by (field; lra).
    rewrite (clamp_inside 1) by lra.
    rewrite clamp_inside by lra. lra.
Qed.

(** A one-sample Temple impulse response at level 0.12. *)
Lemma C8_compensated_wet_gain_witness :
  getAudioBufferRms (Some [[Finite 0.12]]) = Finite 0.12 /\
  getCompensatedIrWetGain "temple" (Some [[Finite 0.12]]) = 0.42.
Proof.
  assert (getAudioBufferRms (Some [[Finite 0.12]]) = Finite 0.12) as Hrms.
  { rewrite getAudioBufferRms_spec. simpl. unfold rootMeanSquare. simpl.
    f_equal. replace ((0.12 * 0.12 + 0) / 1) with (0.12 * 0.12) by lra.
    apply sqrt_square. lra. }
  split; [exact Hrms|].
  apply (C8_compensated_wet_gain "temple" (Some [[Finite 0.12]]));
    [reflexivity | exact Hrms].
Defined.

End ReverbFacts.

(** ** The best-phase store *)

Section StoreFacts.
Import App Samples.

(** Two rationals in lowest terms are equal when their fractions are. *)
Lemma Qc_this_inj (x y : Qc) : this x = this y -> x = y.
Proof. intros H. apply Qc_is_canon. rewrite H. reflexivity. Qed.

Lemma handleMarkStrongest_run (s : State) :
  handleMarkStrongest s =
  (Ok tt,
   let m := <[bandKey s := match bestPhaseByBand s !! bandKey s with
                           | None => mkRecord (phaseRange s) 1
                           | Some r => incrementalMean r (phaseRange s)
                           end]> (bestPhaseByBand s) in
   let s1 := if scanning s
             then setScanCounts (<[scanIndex s := (default 0 (scanCounts s !! scanIndex s) + 1)%Z]>
                                   (scanCounts s)) s
             else s in
   setLocalStorage m (setBestPhaseByBand m s1)).
Proof.
  unfold handleMarkStrongest, savePhaseHistory, getExploreBandKey, incrementalMean.
  js_run.
  destruct (scanning s) eqn:Esc; js_run; cbn;
    destruct (bestPhaseByBand s !! bandKey s) as [r|] eqn:Er; js_run; reflexivity.
Qed.

Lemma markAt_run (s : State) (v : Qc) :
  bandKey (markAt s v) = bandKey s /\
  bestPhaseByBand (markAt s v) =
    <[bandKey s := match bestPhaseByBand s !! bandKey s with
                   | None => mkRecord v 1
                   | Some r => incrementalMean r v
                   end]> (bestPhaseByBand s).
Proof.
  unfold markAt, step, exec, handle. rewrite handleMarkStrongest_run. cbn.
  destruct (scanning s); split; reflexivity.
Qed.

(** C6: a mark stores [{phase: mark, count: 1}] in an empty record and
    otherwise updates the record of the selected band by the incremental
    mean [phase + (mark - phase) / (count + 1)] with the count incremented
    by one; the record is saved; marking 10, 20 and 30 from an empty record
    leaves the phase 20 with count 3. *)
Theorem C6_mark_incremental_mean (s : State) :
  let key := bandKey s in
  let s' := step s MarkStrongest in
  returns (handle MarkStrongest) s = true /\
  bestPhaseByBand s' !! key =
    Some (match bestPhaseByBand s !! key with
          | None => mkRecord (phaseRange s) 1
          | Some r =>
              mkRecord (phase r + (phaseRange s - phase r) / JsNum.ofZ (count r + 1))%Qc
                       (count r + 1)
          end) /\
  (forall k, k <> key -> bestPhaseByBand s' !! k = bestPhaseByBand s !! k) /\
  localStorage s' = bestPhaseByBand s' /\
  (bestPhaseByBand s !! key = None ->
   bestPhaseByBand (fold_left markAt [Q2Qc 10; Q2Qc 20; Q2Qc 30] s) !! key =
     Some (mkRecord (Q2Qc 20) 3)).
Proof.
  intros key s'. subst key s'.
  unfold step, exec, returns, handle. rewrite handleMarkStrongest_run. cbn.
  repeat apply conj.
  - reflexivity.
  - destruct (scanning s); cbn; rewrite lookup_insert_eq; reflexivity.
  - intros k Hk. destruct (scanning s); cbn; rewrite lookup_insert_ne by congruence;
      reflexivity.
  - destruct (scanning s); reflexivity.
  - intros Hempty.
    destruct (markAt_run s (Q2Qc 10)) as [K1 B1]. rewrite Hempty in B1.
    destruct (markAt_run (markAt s (Q2Qc 10)) (Q2Qc 20)) as [K2 B2].
    rewrite K1, B1, lookup_insert_eq in B2.
    destruct (markAt_run (markAt (markAt s (Q2Qc 10)) (Q2Qc 20)) (Q2Qc 30)) as [K3 B3].
    rewrite K2, K1, B2, lookup_insert_eq in B3.
    rewrite B3, lookup_insert_eq. unfold incrementalMean. cbn.
    do 2 f_equal; try (apply Qc_this_inj; reflexivity).
Qed.

(** The page with nothing stored, marked at 10, 20 and 30 degrees. *)
Lemma C6_mark_incremental_mean_witness :
  bestPhaseByBand (page ∅) !! "7.83"%string = None /\
  bestPhaseByBand (fold_left markAt [Q2Qc 10; Q2Qc 20; Q2Qc 30] (page ∅)) !! "7.83"%string =
    Some (mkRecord (Q2Qc 20) 3).
Proof.
  split; [reflexivity|].
  apply (C6_mark_incremental_mean (page ∅)). reflexivity.
Defined.

End StoreFacts.

(** ** The guided scan *)

Section ScanFacts.
Import App Samples.

Lemma runScanPhase_eq (s : State) :
  runScanPhase s =
  if scanning s then
    if (length (scanPhases (computePhases s)) <=? scanIndex (computePhases s))%nat then
      if (scanTier (computePhases s) =? 1)%Z
      then runScanPhase (nextTier (computePhases s))
      else completeScan (computePhases s)
    else presentCandidate (computePhases s)
  else (Ok tt, s).
Proof.
  rewrite runScanPhase_equation_1.
  destruct (scanning s); simp runScanPhase; [|reflexivity].
  destruct (length (scanPhases (computePhases s)) <=? scanIndex (computePhases s))%nat;
    simp runScanPhase; [|reflexivity].
  assert (forall b (e : (scanTier (computePhases s) =? 1)%Z = b),
             runScanPhase_unfold_clause_1_clause_2_clause_2 s (exist _ b e) =
             if b then runScanPhase (nextTier (computePhases s))
             else completeScan (computePhases s)) as H.
  { intros [] e; simp runScanPhase; reflexivity. }
  unfold inspect. rewrite H. clear H.
  destruct (scanTier (computePhases s) =? 1)%Z; [|reflexivity].
  apply runScanPhase_equation_1.
Qed.

Lemma map_this_inj (l1 l2 : list Qc) : map this l1 = map this l2 -> l1 = l2.
Proof.
  revert l2. induction l1 as [|x l1 IH]; intros [|y l2] H; try discriminate.
  - reflexivity.
  - injection H as Hx Hl. f_equal; [apply Qc_this_inj; assumption | apply IH; assumption].
Qed.

(** Called on no phases at all, [tier2Phases] yields seven times 0. *)
Lemma tier2Phases_nil (counts : gmap nat Z) :
  tier2Phases [] counts = replicate 7 (Q2Qc 0).
Proof. apply map_this_inj. vm_compute. reflexivity. Qed.

Lemma computePhases_tier (s : State) : scanTier (computePhases s) = scanTier s.
Proof.
  unfold computePhases.
  repeat match goal with |- context [if ?b then _ else _] => destruct b end; reflexivity.
Qed.

(** The head of a list sorted by descending count is its first element
    of highest count. *)
Lemma js_sort_head_first_max {A : Type} (l : list (A * Z)) :
  l <> [] ->
  exists i x,
    l !! i = Some x /\
    head (js_sort (fun a b => (snd b - snd a)%Z) l) = Some x /\
    (forall j y, l !! j = Some y -> (snd y <= snd x)%Z) /\
    (forall j y, (j < i)%nat -> l !! j = Some y -> (snd y < snd x)%Z).
Proof.
  induction l as [|x l IH]; [congruence|]. intros _.
  destruct l as [|x' l'].
  - exists 0%nat, x. cbn. repeat apply conj; try reflexivity.
    + intros [|j] y; cbn; [intros [= <-]; lia | discriminate].
    + intros j y Hj. lia.
  - destruct IH as (i & m & Hi & Hhead & Hmax & Hfirst); [congruence|].
    remember (x' :: l') as l eqn:El.
    change (js_sort _ (x :: l)) with
      (js_insert (fun a b : A * Z => (snd b - snd a)%Z) x
                 (js_sort (fun a b : A * Z => (snd b - snd a)%Z) l)).
    destruct (js_sort (fun a b : A * Z => (snd b - snd a)%Z) l) as [|y r] eqn:Es;
      [discriminate|].
    cbn in Hhead. injection Hhead as ->.
    cbn [js_insert].
    destruct (snd m - snd x <=? 0)%Z eqn:Ecmp.
    + apply Z.leb_le in Ecmp.
      exists 0%nat, x. cbn. repeat apply conj; try reflexivity.
      * intros [|j] z; cbn; [intros [= <-]; lia|].
        intros Hz. specialize (Hmax j z Hz). lia.
      * intros j z Hj. lia.
    + apply Z.leb_gt in Ecmp.
      exists (S i), m. cbn. repeat apply conj; try assumption; try reflexivity.
      * intros [|j] z; cbn; [intros [= <-]; lia|]. apply Hmax.
      * intros [|j] z Hj; cbn; [intros [= <-]; lia|]. apply Hfirst. lia.
Qed.

(** The first entry of [scanResults] is the first candidate of highest
    mark count. *)
Lemma scanResults_head (phases : list Qc) (counts : gmap nat Z) :
  phases <> [] ->
  exists i best,
    phases !! i = Some best /\
    scanResults phases counts !! 0%nat = Some (best, default 0%Z (counts !! i)) /\
    (forall j, (j < length phases)%nat ->
               (default 0 (counts !! j) <= default 0 (counts !! i))%Z) /\
    (forall j, (j < i)%nat -> (default 0 (counts !! j) < default 0 (counts !! i))%Z).
Proof.
  intros Hne.
  destruct (js_sort_head_first_max (imap (fun i p => (p, default 0%Z (counts !! i))) phases))
    as (i & x & Hi & Hhead & Hmax & Hfirst).
  { destruct phases; [congruence | discriminate]. }
  rewrite list_lookup_imap in Hi.
  destruct (phases !! i) as [best|] eqn:Ebest; [|discriminate].
  cbn in Hi. injection Hi as <-.
  exists i, best. repeat apply conj.
  - exact Ebest.
  - unfold scanResults. rewrite <- head_lookup. exact Hhead.
  - intros j Hj. destruct (lookup_lt_is_Some_2 phases j Hj) as [p Hp].
    apply (Hmax j (p, default 0%Z (counts !! j))).
    rewrite list_lookup_imap, Hp. reflexivity.
  - intros j Hj.
    assert (j < length phases)%nat as Hlen.
    { apply lookup_lt_Some in Ebest. lia. }
    destruct (lookup_lt_is_Some_2 phases j Hlen) as [p Hp].
    apply (Hfirst j (p, default 0%Z (counts !! j)) Hj).
    rewrite list_lookup_imap, Hp. reflexivity.
Qed.


(** What the end of the second tier leaves behind. *)
Lemma completeScan_run (s : State) (best : Qc) (c : Z) :
  scanResults (scanPhases s) (scanCounts s) !! 0%nat = Some (best, c) ->
  exists s',
    completeScan s = (Ok tt, s') /\
    bestPhaseByBand s' =
      <[bandKey s := mkRecord best (match bestPhaseByBand s !! bandKey s with
                                    | Some r => count r
                                    | None => 1%Z
                                    end)]> (bestPhaseByBand s) /\
    localStorage s' = bestPhaseByBand s' /\
    phaseRange s' = JsNum.toFixed0 best /\
    scanning s' = false /\ scanTier s' = 0%Z /\ scanPhases s' = [] /\
    scanCounts s' = ∅ /\ scanIndex s' = 0%nat /\
    pending s' = match countdownInterval s with
                 | Some t => pending s ∖ {[t]}
                 | None => pending s
                 end /\
    audio s' = audio s /\ bandKey s' = bandKey s.
Proof.
  intros Hhead. unfold completeScan, savePhaseHistory, getExploreBandKey.
  js_run. rewrite Hhead. cbn [fst].
  js_run.
  destruct (bestPhaseByBand s !! bandKey s) as [r|] eqn:Er; js_run; cbn;
    destruct (countdownInterval s) as [t|]; cbn; eexists; (split; [reflexivity|]);
    cbn; repeat apply conj; reflexivity.
Qed.


Lemma record_view_inj (r1 r2 : PhaseRecord) : recordView r1 = recordView r2 -> r1 = r2.
Proof.
  destruct r1 as [p1 c1], r2 as [p2 c2]. unfold recordView. cbn.
  intros [= Hp ->]. f_equal. apply Qc_this_inj. exact Hp.
Qed.

Lemma lookup_record_view (m : gmap string PhaseRecord) (k : string) (r : PhaseRecord) :
  recordView <$> (m !! k) = Some (recordView r) -> m !! k = Some r.
Proof.
  destruct (m !! k) as [r'|]; [|discriminate].
  cbn. intros H. f_equal. apply record_view_inj. congruence.
Qed.

(** The advance timer firing on the last candidate of the second tier. *)
Lemma scanTimeout_completes (t : State) (id : nat) :
  scanning t = true ->
  scanTier t = 2%Z ->
  scanTimeoutId t = Some id ->
  id ∈ pending t ->
  scanPhases t <> [] ->
  (length (scanPhases t) <= S (scanIndex t))%nat ->
  scanTimeout t =
  completeScan (setScanIndex (S (scanIndex t)) (setPending (pending t ∖ {[id]}) (nextId t) t)).
Proof.
  intros Hsc Htier Hid Hpend Hne Hlen.
  unfold scanTimeout. js_run. rewrite Hid.
  rewrite bool_decide_eq_true_2 by exact Hpend.
  unfold clearTimer. js_run.
  rewrite runScanPhase_eq. cbn [scanning setScanIndex setPending].
  rewrite Hsc.
  assert (forall u, scanPhases u <> [] -> computePhases u = u) as Hcp.
  { intros u Hu. unfold computePhases.
    destruct (scanPhases u); [congruence|]. cbn. rewrite andb_false_r. reflexivity. }
  rewrite Hcp by (cbn; exact Hne). cbn.
  rewrite Htier. cbn [Z.eqb Pos.eqb].
  replace (length (scanPhases t) <=? S (scanIndex t))%nat with true; [reflexivity|].
  symmetry. apply Nat.leb_le. exact Hlen.
Qed.

(** C1 (as amended): when the second tier ends, the first candidate of
    highest mark count is the elicited phase; it replaces the stored phase
    of the band, the stored count being kept (1 when there was no record);
    the record is saved, the transient counters are cleared, and the live
    phase is set to the elicited value rounded to a whole degree. *)
Theorem C1_completion_stores_elicited_phase (t : State) (id : nat) :
  scanning t = true ->
  scanTier t = 2%Z ->
  scanTimeoutId t = Some id ->
  id ∈ pending t ->
  scanPhases t <> [] ->
  (length (scanPhases t) <= S (scanIndex t))%nat ->
  let marks := fun j => default 0%Z (scanCounts t !! j) in
  let s' := step t ScanTimeout in
  exists i best,
    scanPhases t !! i = Some best /\
    (forall j, (j < length (scanPhases t))%nat -> (marks j <= marks i)%Z) /\
    (forall j, (j < i)%nat -> (marks j < marks i)%Z) /\
    bestPhaseByBand s' !! bandKey t =
      Some (mkRecord best (match bestPhaseByBand t !! bandKey t with
                           | Some r => count r
                           | None => 1%Z
                           end)) /\
    localStorage s' = bestPhaseByBand s' /\
    phaseRange s' = JsNum.toFixed0 best /\
    scanning s' = false /\ scanPhases s' = [] /\ scanCounts s' = ∅ /\
    scanIndex s' = 0%nat.
Proof.
  intros Hsc Htier Hid Hpend Hne Hlen marks s'. subst marks s'.
  destruct (scanResults_head (scanPhases t) (scanCounts t) Hne)
    as (i & best & Hi & Hhead & Hmax & Hfirst).
  unfold step, exec, handle.
  rewrite (scanTimeout_completes t id) by assumption.
  destruct (completeScan_run
              (setScanIndex (S (scanIndex t)) (setPending (pending t ∖ {[id]}) (nextId t) t))
              best (default 0%Z (scanCounts t !! i)) Hhead)
    as (s' & -> & Hstore & Hsaved & Hlive & Hsc' & _ & Hph & Hcnt & Hidx & _).
  cbn in Hstore. cbn [snd].
  exists i, best. repeat apply conj; try assumption.
  rewrite Hstore, lookup_insert_eq. reflexivity.
Qed.

(** A scan left to run on the page of a user with three earlier marks. *)
Lemma C1_completion_stores_elicited_phase_witness :
  exists best,
    bestPhaseByBand (step (atLastCandidate threeMarksAt100) ScanTimeout) !! "7.83"%string =
      Some (mkRecord best 3) /\
    phaseRange (step (atLastCandidate threeMarksAt100) ScanTimeout) = JsNum.toFixed0 best.
Proof.
  destruct (C1_completion_stores_elicited_phase (atLastCandidate threeMarksAt100) 28)
    as (i & best & _ & _ & _ & Hstore & _ & Hlive & _).
  - reflexivity.
  - reflexivity.
  - reflexivity.
  - apply (bool_decide_unpack _). vm_compute. exact I.
  - intros H. apply (f_equal length) in H. vm_compute in H. discriminate.
  - vm_compute. lia.
  - exists best. split; [exact Hstore | exact Hlive].
Defined.

(** C1 (as stated) fails: a scan completed on a stored record of phase
    100 and count 3 elicits 0 degrees and leaves the phase 0, not the
    incremental mean 100 + (0 - 100) / 4 = 75, and the count stays 3. *)
Lemma C1_completion_overwrites_record :
  let t := atLastCandidate threeMarksAt100 in
  let s' := step t ScanTimeout in
  bestPhaseByBand t !! "7.83"%string = Some (mkRecord (Q2Qc 100) 3) /\
  scanning t = true /\ scanTier t = 2%Z /\
  scanning s' = false /\
  phaseRange s' = Q2Qc 0 /\
  bestPhaseByBand s' !! "7.83"%string = Some (mkRecord (Q2Qc 0) 3) /\
  incrementalMean (mkRecord (Q2Qc 100) 3) (Q2Qc 0) = mkRecord (Q2Qc 75) 4 /\
  bestPhaseByBand s' !! "7.83"%string <>
    Some (incrementalMean (mkRecord (Q2Qc 100) 3) (Q2Qc 0)).
Proof.
  cbv zeta.
  assert (bestPhaseByBand (step (atLastCandidate threeMarksAt100) ScanTimeout) !! "7.83"%string
          = Some (mkRecord (Q2Qc 0) 3)) as Hs.
  { apply lookup_record_view. vm_compute. reflexivity. }
  repeat apply conj.
  - apply lookup_record_view. vm_compute. reflexivity.
  - reflexivity.
  - reflexivity.
  - reflexivity.
  - apply Qc_this_inj. vm_compute. reflexivity.
  - exact Hs.
  - apply record_view_inj. vm_compute. reflexivity.
  - rewrite Hs. intros H. apply (f_equal (fmap recordView)) in H.
    vm_compute in H. discriminate.
Qed.


Lemma presentCandidate_run (s : State) (target : Qc) :
  scanPhases s !! scanIndex s = Some target ->
  exists s',
    presentCandidate s = (Ok tt, s') /\
    phaseRange s' = JsNum.toFixed0 target /\
    scanning s' = scanning s /\ scanTier s' = scanTier s /\
    scanPhases s' = scanPhases s /\ scanCounts s' = scanCounts s /\
    scanIndex s' = scanIndex s /\
    bestPhaseByBand s' = bestPhaseByBand s /\ localStorage s' = localStorage s /\
    bandKey s' = bandKey s /\
    scanTimeoutId s' = Some (S (nextId s)) /\ S (nextId s) ∈ pending s'.
Proof.
  intros Htarget. unfold presentCandidate, startCountdown, setTimer, clearTimer.
  js_run. rewrite Htarget. js_run. cbn [countdownInterval setPhaseRange].
  destruct (countdownInterval s) as [c|]; js_unfold; cbn;
    eexists; (split; [reflexivity|]); cbn; repeat apply conj; try reflexivity;
    set_solver.
Qed.

Lemma computePhases_nonempty (s : State) : scanPhases s <> [] -> computePhases s = s.
Proof.
  intros Hs. unfold computePhases.
  destruct (scanPhases s); [congruence|]. cbn [length Nat.eqb].
  rewrite andb_false_r. reflexivity.
Qed.

Lemma runScanPhase_finished_tier1 (s : State) :
  scanning s = true ->
  scanTier s = 1%Z ->
  scanPhases s <> [] ->
  (length (scanPhases s) <= scanIndex s)%nat ->
  runScanPhase s = runScanPhase (nextTier s).
Proof.
  intros Hsc Htier Hne Hlen.
  rewrite runScanPhase_eq at 1.
  rewrite computePhases_nonempty by exact Hne.
  rewrite Hsc, Htier. change (1 =? 1)%Z with true.
  apply Nat.leb_le in Hlen. rewrite Hlen. reflexivity.
Qed.

Lemma runScanPhase_tier2_start (s : State) :
  scanning s = true ->
  scanTier s = 2%Z ->
  scanIndex s = 0%nat ->
  scanPhases s = [] ->
  runScanPhase s = presentCandidate (setScanPhases (replicate 7 (Q2Qc 0)) s).
Proof.
  intros Hsc Htier Hidx Hph.
  rewrite runScanPhase_eq.
  assert (computePhases s = setScanPhases (replicate 7 (Q2Qc 0)) s) as ->.
  { unfold computePhases. rewrite Hidx, Hph, Htier.
    cbn [length Nat.eqb andb]. change (2 =? 1)%Z with false. change (2 =? 2)%Z with true.
    cbv iota. rewrite tier2Phases_nil. reflexivity. }
  rewrite Hsc. cbn [scanPhases scanIndex setScanPhases]. rewrite Hidx. reflexivity.
Qed.

(** The advance timer firing on the last candidate of the first tier:
    the second tier is entered with seven candidates at 0 degrees,
    whatever was marked. *)
Lemma tier2_candidates_always_zero (t : State) (id : nat) :
  scanning t = true ->
  scanTier t = 1%Z ->
  scanTimeoutId t = Some id ->
  id ∈ pending t ->
  scanPhases t <> [] ->
  (length (scanPhases t) <= S (scanIndex t))%nat ->
  scanTier (step t ScanTimeout) = 2%Z /\
  scanIndex (step t ScanTimeout) = 0%nat /\
  scanPhases (step t ScanTimeout) = replicate 7 (Q2Qc 0).
Proof.
  intros Hsc Htier Hid Hpend Hne Hlen.
  unfold step, exec, handle, scanTimeout. js_run. rewrite Hid.
  rewrite bool_decide_eq_true_2 by exact Hpend.
  unfold clearTimer. js_run.
  rewrite runScanPhase_finished_tier1; try assumption.
  rewrite runScanPhase_tier2_start; try reflexivity; try assumption.
  match goal with
  | |- context [presentCandidate ?u] =>
      destruct (presentCandidate_run u (Q2Qc 0)) as (s' & -> & _ & _ & Ht & Hp & _ & Hi & _);
        [reflexivity|]
  end.
  cbn in *. repeat apply conj; assumption.
Qed.

(** C5: after two marks at 60 degrees and one at 120 degrees in the first
    tier, the second tier presents seven candidates at 0 degrees; the two
    highest counts would give the candidates 60, 70, ..., 120, which
    [tier2Phases] computes from the first tier's phases and counts, but
    [runScanPhase] empties both before it calls it. *)
Theorem C5_tier2_candidates_ignore_marks :
  let t := tier1Marked in
  let s := step t ScanTimeout in
  scanning t = true /\ scanTier t = 1%Z /\ scanIndex t = 6%nat /\
  scanPhases t = tier1Phases /\
  scanCounts t = {[ 1%nat := 2%Z; 2%nat := 1%Z ]} /\
  scanning s = true /\ scanTier s = 2%Z /\ scanIndex s = 0%nat /\
  scanPhases s = replicate 7 (Q2Qc 0) /\
  tier2Phases (scanPhases t) (scanCounts t) =
    map JsNum.ofZ [60; 70; 80; 90; 100; 110; 120]%Z.
Proof.
  cbv zeta.
  repeat apply conj;
    first [ apply map_this_inj; vm_compute; reflexivity | vm_compute; reflexivity ].
Qed.

End ScanFacts.

(** ** Bounds on phases *)

Section PhaseBounds.
Import App Samples.

Lemma ofZ_le (a b : Z) : (a <= b)%Z -> (JsNum.ofZ a <= JsNum.ofZ b)%Qc.
Proof.
  intros H. unfold JsNum.ofZ, Qcle. cbn [this Q2Qc].
  rewrite !Qred_correct. rewrite <- Zle_Qle. exact H.
Qed.

Lemma toFixed0_range (x : Qc) : InRange x -> InRange (JsNum.toFixed0 x).
Proof.
  intros [Hlo Hhi]. unfold JsNum.toFixed0.
  destruct (decide (x < 0)%Qc) as [Hneg|_].
  { exfalso. apply (Qcle_not_lt _ _ Hlo). exact Hneg. }
  assert (this (x + JsNum.dec 1 2)%Qc == this x + (1 # 2))%Q as Hsum.
  { unfold JsNum.dec. cbn [this Qcplus Q2Qc]. rewrite !Qred_correct. reflexivity. }
  rewrite (Qfloor_comp _ _ Hsum).
  unfold Qcle in Hlo, Hhi. cbn [this Q2Qc] in Hlo, Hhi.
  split.
  - change (Q2Qc 0) with (JsNum.ofZ 0). apply ofZ_le.
    change 0%Z with (Qfloor 0). apply Qfloor_resp_le.
    rewrite Qred_correct in Hlo. lra.
  - change (Q2Qc 360) with (JsNum.ofZ 360). apply ofZ_le.
    change 360%Z with (Qfloor (721 # 2)). apply Qfloor_resp_le.
    rewrite Qred_correct in Hhi. lra.
Qed.

(** A mean of two phases of the range is in the range. *)
Lemma incrementalMean_range (r : PhaseRecord) (mark : Qc) :
  RecordOk r -> InRange mark -> RecordOk (incrementalMean r mark).
Proof.
  intros [[Hlo Hhi] Hc] [Mlo Mhi]. unfold incrementalMean, RecordOk. cbn [phase count].
  split; [|lia].
  set (n := JsNum.ofZ (count r + 1)).
  assert (Q2Qc 1 <= n)%Qc as Hn.
  { change (Q2Qc 1) with (JsNum.ofZ 1). apply ofZ_le. lia. }
  assert (Q2Qc 0 < n)%Qc as Hpos.
  { eapply Qclt_le_trans; [|exact Hn]. reflexivity. }
  assert (Q2Qc 0 <= / n)%Qc as Hinv by (apply Qclt_le_weak, Qcinv_pos; exact Hpos).
  assert (/ n <= Q2Qc 1)%Qc as Hinv1.
  { apply (Qcmult_lt_0_le_reg_r _ _ n Hpos).
    rewrite Qcmult_inv_l by (intros E; rewrite E in Hpos; discriminate Hpos).
    rewrite Qcmult_1_l. exact Hn. }
  assert (Q2Qc 0 <= 1 - / n)%Qc as Hrest.
  { apply Qcle_minus_iff in Hinv1. exact Hinv1. }
  assert (phase r + (mark - phase r) / n = phase r * (1 - / n) + mark * / n)%Qc as ->.
  { unfold Qcdiv. ring. }
  split.
  - apply Qcplus_nonneg_nonneg; apply Qcmult_nonneg_nonneg; assumption.
  - apply Qcle_minus_iff.
    assert (Q2Qc 360 + - (phase r * (1 - / n) + mark * / n) =
            (Q2Qc 360 - phase r) * (1 - / n) + (Q2Qc 360 - mark) * / n)%Qc as -> by ring.
    apply Qcplus_nonneg_nonneg; apply Qcmult_nonneg_nonneg; try assumption.
    + apply Qcle_minus_iff in Hhi. exact Hhi.
    + apply Qcle_minus_iff in Mhi. exact Mhi.
Qed.

Lemma sweep_range (frac : Qc) :
  (Q2Qc 0 <= frac)%Qc -> (frac < Q2Qc 1)%Qc -> InRange (frac * Q2Qc 360)%Qc.
Proof.
  intros Hlo Hhi. split.
  - apply Qcmult_nonneg_nonneg; [exact Hlo | discriminate].
  - change (Q2Qc 360) with (Q2Qc 1 * Q2Qc 360)%Qc at 2.
    apply Qcmult_le_compat_r; [apply Qclt_le_weak; exact Hhi | discriminate].
Qed.

Lemma tier1Phases_range : Forall InRange tier1Phases.
Proof. repeat constructor; discriminate. Qed.

Lemma zeros_range : Forall InRange (replicate 7 (Q2Qc 0)).
Proof. repeat constructor; discriminate. Qed.

End PhaseBounds.

(** ** Handlers that never raise *)

Section NoThrow.
Context {S : Type}.

Lemma noThrow_ret {A : Type} (a : A) : NoThrow (mret a : Js S A).
Proof. intros s. exists a. reflexivity. Qed.

Lemma noThrow_skip : NoThrow (skip : Js S unit).
Proof. intros s. exists tt. reflexivity. Qed.

Lemma noThrow_gets {A : Type} (f : S -> A) : NoThrow (gets f).
Proof. intros s. exists (f s). reflexivity. Qed.

Lemma noThrow_modify (f : S -> S) : NoThrow (modify f).
Proof. intros s. exists tt. reflexivity. Qed.

Lemma noThrow_bind {A B : Type} (m : Js S A) (k : A -> Js S B) :
  NoThrow m -> (forall a, NoThrow (k a)) -> NoThrow (m ≫= k).
Proof.
  intros Hm Hk s. unfold mbind, Js_bind.
  destruct (Hm s) as [a Ha]. destruct (m s) as [[a'|] s']; cbn in Ha; [|discriminate].
  apply Hk.
Qed.

Lemma noThrow_tryCatch (m h : Js S unit) : NoThrow h -> NoThrow (tryCatch m h).
Proof.
  intros Hh s. unfold tryCatch. destruct (m s) as [[a|] s']; [exists a; reflexivity|].
  apply Hh.
Qed.

Lemma noThrow_when (b : bool) (m : Js S unit) : NoThrow m -> NoThrow (when b m).
Proof. intros Hm. destruct b; [exact Hm | apply noThrow_skip]. Qed.

Lemma noThrow_forEach {A : Type} (l : list A) (f : A -> Js S unit) :
  (forall x, NoThrow (f x)) -> NoThrow (forEach l f).
Proof.
  intros Hf. induction l as [|x l IH]; cbn [forEach].
  - apply noThrow_skip.
  - apply noThrow_bind; [apply Hf | intros _; exact IH].
Qed.

Lemma noThrow_run (m : Js S unit) (s : S) : NoThrow m -> m s = (Ok tt, exec m s).
Proof.
  intros Hm. destruct (Hm s) as [[] Ha]. unfold exec.
  destruct (m s) as [r s']. cbn in *. rewrite Ha. reflexivity.
Qed.

End NoThrow.

Create HintDb nothrow.
#[global] Hint Resolve noThrow_ret noThrow_skip noThrow_gets noThrow_modify
  noThrow_tryCatch noThrow_when noThrow_forEach : nothrow.

Ltac no_throw :=
  repeat first
    [ apply noThrow_bind; [|intros ?]
    | apply noThrow_forEach; intros ?
    | apply noThrow_tryCatch
    | apply noThrow_when
    | apply noThrow_ret | apply noThrow_skip | apply noThrow_gets | apply noThrow_modify
    | match goal with |- NoThrow (match ?x with _ => _ end) => destruct x end
    | solve [auto with nothrow] ].

Section AudioNoThrow.
Import Audio.

Lemma noThrow_getG (x : string) : NoThrow (getG x).
Proof. apply noThrow_gets. Qed.

Lemma noThrow_setG (x : string) (v : option nat) : NoThrow (setG x v).
Proof. apply noThrow_modify. Qed.

Lemma noThrow_clearInterval (id : nat) : NoThrow (clearInterval id).
Proof. apply noThrow_modify. Qed.

Hint Resolve noThrow_getG noThrow_setG noThrow_clearInterval : nothrow.

Lemma noThrow_cancelTimer (x : string) : NoThrow (cancelTimer x).
Proof. unfold cancelTimer. no_throw. Qed.

Lemma noThrow_stopAndDisconnect (id : nat) : NoThrow (stopAndDisconnect id).
Proof. unfold stopAndDisconnect. no_throw. Qed.

Hint Resolve noThrow_cancelTimer noThrow_stopAndDisconnect : nothrow.

Lemma noThrow_safeStop (x : string) : NoThrow (safeStop x).
Proof. unfold safeStop. no_throw. Qed.

Lemma noThrow_stopChordBuffer : NoThrow stopChordBuffer.
Proof. unfold stopChordBuffer. no_throw. Qed.

Hint Resolve noThrow_safeStop noThrow_stopChordBuffer : nothrow.

Lemma noThrow_stopChordProgression : NoThrow stopChordProgression.
Proof. unfold stopChordProgression. no_throw. Qed.

Hint Resolve noThrow_stopChordProgression : nothrow.

(** Teardown never raises, whatever the state of the graph: every step
    that can fail is inside a [try]. *)
Lemma stopCurrentAudio_noThrow : NoThrow stopCurrentAudio.
Proof. unfold stopCurrentAudio. no_throw. Qed.

End AudioNoThrow.

(** ** Sessions: what each handler leaves untouched *)

Section SessionFacts.
Import App Samples.

Lemma untouched_refl (s : State) : Untouched s s.
Proof. repeat split. Qed.

Lemma untouched_trans (s1 s2 s3 : State) :
  Untouched s1 s2 -> Untouched s2 s3 -> Untouched s1 s3.
Proof.
  unfold Untouched.
  intros (A1 & A2 & A3 & A4 & A5 & A6 & A7 & A8 & A9) (B1 & B2 & B3 & B4 & B5 & B6 & B7 & B8 & B9).
  repeat apply conj; congruence.
Qed.

Lemma untouched_inv (s s' : State) : Untouched s s' -> Inv s -> Inv s'.
Proof.
  unfold Untouched, Inv. intros (E1 & E2 & _ & E3 & _ & _ & E4 & _) H.
  rewrite E1, E2, E3, E4. exact H.
Qed.

Lemma liftAudio_run {A : Type} (m : Js Audio.AudioState A) (s : State) :
  liftAudio m s = (fst (m (audio s)), setAudio (snd (m (audio s))) s).
Proof. reflexivity. Qed.

Lemma untouched_setAudio (a : Audio.AudioState) (s : State) : Untouched s (setAudio a s).
Proof. repeat split. Qed.

Ltac js_cases :=
  repeat (cbn;
          match goal with
          | |- context [match ?x with _ => _ end] => destruct x eqn:?
          end).

Lemma stopAutosweep_run (s : State) :
  exists s', stopAutosweep s = (Ok tt, s') /\ Untouched s s' /\ audio s' = audio s /\
             scanTimeoutId s' = scanTimeoutId s /\ countdownInterval s' = countdownInterval s /\
             pending s' ⊆ pending s.
Proof.
  unfold stopAutosweep, clearTimer. js_unfold. js_cases;
    eexists; (split; [reflexivity|]); cbn; repeat split; try reflexivity; set_solver.
Qed.

Lemma countdownTick_run (s : State) :
  exists s', countdownTick s = (Ok tt, s') /\ Untouched s s'.
Proof.
  unfold countdownTick, clearTimer. js_unfold. js_cases;
    eexists; (split; [reflexivity|]); cbn; repeat split.
Qed.

Lemma sweepStep_run (frac : Qc) (s : State) :
  exists s', sweepStep frac s = (Ok tt, s') /\
             bestPhaseByBand s' = bestPhaseByBand s /\ localStorage s' = localStorage s /\
             bandKey s' = bandKey s /\
             scanning s' = scanning s /\ scanPhases s' = scanPhases s /\
             (phaseRange s' = phaseRange s \/
              phaseRange s' = JsNum.toFixed0 (frac * Q2Qc 360)).
Proof.
  unfold sweepStep, setTimer. js_unfold. js_cases;
    eexists; (split; [reflexivity|]); cbn; repeat split; auto.
Qed.


Lemma completeScan_cases (s : State) :
  (scanPhases s = [] /\ completeScan s = (Throw, s)) \/
  (exists i best s',
     scanPhases s !! i = Some best /\
     completeScan s = (Ok tt, s') /\
     bestPhaseByBand s' =
       <[bandKey s := mkRecord best (match bestPhaseByBand s !! bandKey s with
                                     | Some r => count r
                                     | None => 1%Z
                                     end)]> (bestPhaseByBand s) /\
     localStorage s' = bestPhaseByBand s' /\
     phaseRange s' = JsNum.toFixed0 best /\
     scanning s' = false /\ scanPhases s' = []).
Proof.
  destruct (scanPhases s) as [|p l] eqn:Eph.
  - left. split; [reflexivity|].
    unfold completeScan. js_run. rewrite Eph. reflexivity.
  - right.
    destruct (scanResults_head (scanPhases s) (scanCounts s)) as (i & best & Hi & Hhead & _).
    { rewrite Eph. discriminate. }
    destruct (completeScan_run s best _ Hhead)
      as (s' & Hrun & Hstore & Hsaved & Hlive & Hsc & _ & Hph & _).
    exists i, best, s'. rewrite <- Eph. repeat apply conj; assumption.
Qed.

Lemma storeOk_insert (m : gmap string PhaseRecord) (k : string) (r : PhaseRecord) :
  StoreOk m -> RecordOk r -> StoreOk (<[k := r]> m).
Proof.
  intros Hm Hr k' r'. rewrite lookup_insert. destruct (decide (k = k')).
  - intros [= <-]. exact Hr.
  - apply Hm.
Qed.

Lemma inRange_lookup (l : list Qc) (i : nat) (x : Qc) :
  Forall InRange l -> l !! i = Some x -> InRange x.
Proof. intros Hl Hi. exact (proj1 (Forall_lookup _ _) Hl i x Hi). Qed.

Lemma completeScan_inv (s : State) : Inv s -> Inv (snd (completeScan s)).
Proof.
  intros Hinv. pose proof Hinv as (Hb & Hl & Hr & Hp).
  destruct (completeScan_cases s) as [[_ ->] | (i & best & s' & Hi & -> & Hst & Hsv & Hlive & _ & Hph)].
  - exact Hinv.
  - cbn [snd]. unfold Inv. rewrite Hsv, Hst, Hlive, Hph.
    assert (InRange best) as Hbest by (eapply inRange_lookup; eassumption).
    assert (RecordOk (mkRecord best (match bestPhaseByBand s !! bandKey s with
                                     | Some r => count r
                                     | None => 1%Z
                                     end))) as Hrec.
    { split; [exact Hbest|]. cbn.
      destruct (bestPhaseByBand s !! bandKey s) as [r|] eqn:Er; [|lia].
      apply (Hb _ _ Er). }
    refine (conj _ (conj _ (conj _ _))).
    + apply storeOk_insert; assumption.
    + apply storeOk_insert; assumption.
    + apply toFixed0_range. exact Hbest.
    + constructor.
Qed.

Lemma presentCandidate_cases (s : State) :
  (scanPhases s !! scanIndex s = None /\ presentCandidate s = (Throw, s)) \/
  (exists target s',
     scanPhases s !! scanIndex s = Some target /\
     presentCandidate s = (Ok tt, s') /\
     phaseRange s' = JsNum.toFixed0 target /\
     scanning s' = scanning s /\ scanPhases s' = scanPhases s /\
     bestPhaseByBand s' = bestPhaseByBand s /\ localStorage s' = localStorage s /\
     bandKey s' = bandKey s).
Proof.
  destruct (scanPhases s !! scanIndex s) as [target|] eqn:Et.
  - right. destruct (presentCandidate_run s target Et)
      as (s' & Hrun & Hlive & Hsc & _ & Hph & _ & _ & Hb & Hl & Hk & _).
    exists target, s'. repeat apply conj; first [assumption | reflexivity].
  - left. split; [reflexivity|]. unfold presentCandidate. js_run. rewrite Et. reflexivity.
Qed.

Lemma presentCandidate_inv (s : State) : Inv s -> Inv (snd (presentCandidate s)).
Proof.
  intros Hinv. pose proof Hinv as (Hb & Hl & Hr & Hp).
  destruct (presentCandidate_cases s)
    as [[_ ->] | (target & s' & Ht & -> & Hlive & _ & Hph & Hbb & Hll & _)].
  - exact Hinv.
  - cbn [snd]. unfold Inv. rewrite Hbb, Hll, Hlive, Hph.
    refine (conj Hb (conj Hl (conj _ Hp))).
    apply toFixed0_range. eapply inRange_lookup; eassumption.
Qed.

Lemma computePhases_inv (s : State) : Inv s -> Inv (computePhases s).
Proof.
  intros Hinv. pose proof Hinv as (Hb & Hl & Hr & Hp). unfold computePhases.
  destruct (Nat.eqb (scanIndex s) 0); cbn [andb]; [|exact Hinv].
  destruct (scanPhases s) as [|p l] eqn:Eph; cbn [length Nat.eqb]; [|exact Hinv].
  destruct (scanTier s =? 1)%Z.
  - exact (conj Hb (conj Hl (conj Hr tier1Phases_range))).
  - destruct (scanTier s =? 2)%Z; [|exact Hinv].
    rewrite tier2Phases_nil. exact (conj Hb (conj Hl (conj Hr zeros_range))).
Qed.

Lemma computePhases_frame (s : State) :
  scanning (computePhases s) = scanning s /\
  bestPhaseByBand (computePhases s) = bestPhaseByBand s /\
  localStorage (computePhases s) = localStorage s /\
  bandKey (computePhases s) = bandKey s /\
  scanIndex (computePhases s) = scanIndex s.
Proof.
  unfold computePhases.
  repeat match goal with |- context [if ?b then _ else _] => destruct b end;
    repeat split.
Qed.

(** [runScanPhase] keeps the invariant. *)
Lemma runScanPhase_inv (s : State) : Inv s -> Inv (snd (runScanPhase s)).
Proof.
  intros Hinv. rewrite (runScanPhase_eq s).
  destruct (scanning s) eqn:Hsc; [|exact Hinv].
  pose proof (computePhases_inv s Hinv) as Hc.
  destruct (length (scanPhases (computePhases s)) <=? scanIndex (computePhases s))%nat;
    [|apply presentCandidate_inv; exact Hc].
  destruct (scanTier (computePhases s) =? 1)%Z eqn:Htier;
    [|apply completeScan_inv; exact Hc].
  rewrite runScanPhase_tier2_start; try reflexivity.
  - apply presentCandidate_inv.
    destruct Hc as (Hb & Hl & Hr & _).
    exact (conj Hb (conj Hl (conj Hr zeros_range))).
  - cbn. destruct (computePhases_frame s) as (-> & _). exact Hsc.
Qed.

(** A scan that is still running after [runScanPhase] has not touched
    the records. *)
Lemma runScanPhase_running (s : State) :
  scanning (snd (runScanPhase s)) = true ->
  scanning s = true /\
  bestPhaseByBand (snd (runScanPhase s)) = bestPhaseByBand s /\
  localStorage (snd (runScanPhase s)) = localStorage s /\
  bandKey (snd (runScanPhase s)) = bandKey s.
Proof.
  rewrite (runScanPhase_eq s).
  destruct (scanning s) eqn:Hsc; [|cbn; congruence].
  destruct (computePhases_frame s) as (Csc & Cb & Cl & Ck & _).
  assert (forall u, scanning u = scanning s -> bestPhaseByBand u = bestPhaseByBand s ->
                    localStorage u = localStorage s -> bandKey u = bandKey s ->
                    scanning (snd (presentCandidate u)) = true ->
                    true = true /\
                    bestPhaseByBand (snd (presentCandidate u)) = bestPhaseByBand s /\
                    localStorage (snd (presentCandidate u)) = localStorage s /\
                    bandKey (snd (presentCandidate u)) = bandKey s) as Hpresent.
  { intros u Us Ub Ul Uk.
    destruct (presentCandidate_cases u)
      as [[_ ->] | (target & s' & _ & -> & _ & _ & _ & Hbb & Hll & Hkk)]; cbn [snd].
    - intros _. repeat split; assumption.
    - intros _. rewrite Hbb, Hll, Hkk. repeat split; assumption. }
  destruct (length (scanPhases (computePhases s)) <=? scanIndex (computePhases s))%nat;
    [|apply Hpresent; assumption].
  destruct (scanTier (computePhases s) =? 1)%Z eqn:Htier.
  - rewrite runScanPhase_tier2_start; try reflexivity; [|cbn; congruence].
    apply Hpresent; cbn; assumption.
  - destruct (completeScan_cases (computePhases s))
      as [[_ ->] | (i & best & s' & _ & -> & _ & _ & _ & Hfalse & _)]; cbn [snd].
    + intros _. repeat split; assumption.
    + rewrite Hfalse. discriminate.
Qed.


Lemma stopExplore_run (s : State) :
  exists s',
    stopExplore s = (Ok tt, s') /\
    bestPhaseByBand s' = bestPhaseByBand s /\ localStorage s' = localStorage s /\
    bandKey s' = bandKey s /\ phaseRange s' = phaseRange s /\
    scanning s' = false /\
    audio s' = exec Audio.stopCurrentAudio (audio s) /\
    pending s' ⊆ pending s /\
    (scanning s = true ->
       scanTier s' = 0%Z /\ scanPhases s' = [] /\ scanCounts s' = ∅ /\
       scanIndex s' = 0%nat /\
       (forall t, scanTimeoutId s = Some t -> t ∉ pending s') /\
       (forall t, countdownInterval s = Some t -> t ∉ pending s')) /\
    (scanning s = false -> scanPhases s' = scanPhases s).
Proof.
  unfold stopExplore.
  rewrite run_bind, liftAudio_run.
  rewrite (noThrow_run _ _ stopCurrentAudio_noThrow). cbn [fst snd].
  rewrite run_bind.
  destruct (stopAutosweep_run (setAudio (exec Audio.stopCurrentAudio (audio s)) s))
    as (s1 & -> & Hu & Ha & Hst & Hci & Hp).
  destruct Hu as (U1 & U2 & U3 & U4 & U5 & U6 & U7 & U8 & U9).
  cbn in U1, U2, U3, U4, U5, U6, U7, U8, U9, Ha, Hst, Hci, Hp.
  js_run. rewrite U5.
  destruct (scanning s) eqn:Hsc.
  - rewrite run_when_true. unfold clearTimer. js_run. cbn.
    rewrite Hst.
    destruct (scanTimeoutId s) as [t1|]; js_run; cbn; rewrite Hci;
      destruct (countdownInterval s) as [t2|]; js_run; cbn;
      (eexists; split; [reflexivity|]); cbn;
      repeat apply conj;
      first [ assumption | reflexivity | discriminate
            | intros _; repeat apply conj; try reflexivity;
              intros t; first [discriminate | intros [= <-]; set_solver]
            | set_solver ].
  - rewrite run_when_false. js_run.
    eexists; split; [reflexivity|].
    repeat apply conj; try assumption; try discriminate. intros _. exact U7.
Qed.

Lemma scanTimeout_cases (s : State) :
  scanTimeout s = (Ok tt, s) \/
  exists id,
    id ∈ pending s /\
    scanTimeout s =
    runScanPhase (setScanIndex (S (scanIndex s)) (setPending (pending s ∖ {[id]}) (nextId s) s)).
Proof.
  unfold scanTimeout. js_run.
  destruct (scanTimeoutId s) as [id|]; [|left; reflexivity].
  destruct (bool_decide (id ∈ pending s)) eqn:Hp; [|left; reflexivity].
  right. exists id. split; [apply bool_decide_eq_true_1 in Hp; exact Hp|].
  unfold clearTimer. js_run. reflexivity.
Qed.

Lemma sweepFrame_run (frac : Qc) (s : State) :
  exists s', sweepFrame frac s = (Ok tt, s') /\
             bestPhaseByBand s' = bestPhaseByBand s /\ localStorage s' = localStorage s /\
             bandKey s' = bandKey s /\
             scanning s' = scanning s /\ scanPhases s' = scanPhases s /\
             (phaseRange s' = phaseRange s \/
              phaseRange s' = JsNum.toFixed0 (frac * Q2Qc 360)).
Proof.
  unfold sweepFrame. js_run.
  destruct (sweepAnimId s) as [t|];
    [|eexists; split; [reflexivity|]; repeat apply conj; auto].
  destruct (bool_decide (t ∈ pending s));
    [|eexists; split; [reflexivity|]; repeat apply conj; auto].
  unfold clearTimer. js_run.
  match goal with
  | |- context [sweepStep frac ?u] =>
      destruct (sweepStep_run frac u) as (s' & -> & H1 & H2 & H3 & H4 & H5 & H6)
  end.
  exists s'. split; [reflexivity|]. cbn in *. repeat apply conj; assumption.
Qed.

Lemma sweepToggle_run (s : State) :
  exists s', handle SweepToggle s = (Ok tt, s') /\
             bestPhaseByBand s' = bestPhaseByBand s /\ localStorage s' = localStorage s /\
             bandKey s' = bandKey s /\
             scanning s' = scanning s /\ scanPhases s' = scanPhases s /\
             (phaseRange s' = phaseRange s \/
              phaseRange s' = JsNum.toFixed0 (Q2Qc 0 * Q2Qc 360)).
Proof.
  unfold handle. js_run.
  destruct (sweepIsRunning s) eqn:Hr.
  - destruct (stopAutosweep_run s) as (s' & -> & Hu & _).
    destruct Hu as (U1 & U2 & U3 & U4 & U5 & U6 & U7 & U8 & U9).
    exists s'. split; [reflexivity|]. repeat apply conj; auto.
  - unfold startAutosweep. js_run. rewrite Hr. js_run.
    match goal with
    | |- context [sweepStep ?f ?u] =>
        destruct (sweepStep_run f u) as (s' & -> & H1 & H2 & H3 & H4 & H5 & H6)
    end.
    exists s'. split; [reflexivity|]. cbn in *. repeat apply conj; assumption.
Qed.

(** An event that neither marks, clears nor starts a scan, and after
    which a scan is running, has not touched the records. *)
Lemma step_quiet (s : State) (e : Event) :
  quiet e = true ->
  scanning (step s e) = true ->
  scanning s = true /\
  bestPhaseByBand (step s e) = bestPhaseByBand s /\
  localStorage (step s e) = localStorage s /\
  bandKey (step s e) = bandKey s.
Proof.
  unfold step, exec. destruct e; cbn [quiet]; try discriminate; intros _.
  - (* ExploreStop *)
    cbn [handle]. destruct (stopExplore_run s) as (s' & -> & _ & _ & _ & _ & Hf & _).
    cbn [snd]. rewrite Hf. discriminate.
  - (* ScanTimeout *)
    cbn [handle]. destruct (scanTimeout_cases s) as [-> | (id & _ & ->)].
    + cbn [snd]. intros H. repeat split; assumption.
    + intros H. apply runScanPhase_running in H. exact H.
  - (* CountdownTick *)
    cbn [handle]. destruct (countdownTick_run s) as (s' & -> & Hu).
    destruct Hu as (U1 & U2 & U3 & U4 & U5 & U6 & U7 & U8 & U9).
    cbn [snd]. rewrite U5. intros H. repeat split; assumption.
  - (* PhaseInput *)
    cbn [handle]. js_run. destruct (phaseRangeDisabled s); js_run; cbn;
      intros H; repeat split; assumption.
  - (* SweepToggle *)
    destruct (sweepToggle_run s) as (s' & -> & H1 & H2 & H3 & H4 & _).
    cbn [snd]. rewrite H4. intros H. repeat split; assumption.
  - (* SweepFrame *)
    cbn [handle]. destruct (sweepFrame_run frac s) as (s' & -> & H1 & H2 & H3 & H4 & _).
    cbn [snd]. rewrite H4. intros H. repeat split; assumption.
Qed.

Lemma storeOk_delete (m : gmap string PhaseRecord) (k : string) :
  StoreOk m -> StoreOk (delete k m).
Proof.
  intros Hm k' r. rewrite lookup_delete. destruct (decide (k = k')); [discriminate|].
  apply Hm.
Qed.

Lemma storeOk_empty : StoreOk ∅.
Proof. intros k r. rewrite lookup_empty. discriminate. Qed.

Lemma storeOk_union (m1 m2 : gmap string PhaseRecord) :
  StoreOk m1 -> StoreOk m2 -> StoreOk (m1 ∪ m2).
Proof.
  intros H1 H2 k r Hk. apply lookup_union_Some_raw in Hk as [Hk | [_ Hk]].
  - exact (H1 _ _ Hk).
  - exact (H2 _ _ Hk).
Qed.

Lemma startTwoTierScan_inv (s : State) : Inv s -> Inv (snd (startTwoTierScan s)).
Proof.
  intros Hinv. unfold startTwoTierScan. js_run.
  destruct (scanning s); [exact Hinv|].
  unfold startExplore. js_run.
  rewrite run_bind, liftAudio_run.
  destruct (Audio.startGraph (controls s) (bandHz s) (audio s)) as [[[]|] a']; cbn [fst snd].
  - js_run. rewrite run_bind.
    match goal with
    | |- context [stopAutosweep ?u] =>
        destruct (stopAutosweep_run u) as (s1 & Hrun & Hu & _); rewrite Hrun
    end.
    js_run. apply runScanPhase_inv.
    destruct Hu as (U1 & U2 & U3 & U4 & U5 & U6 & U7 & U8 & U9).
    cbn in U1, U2, U4, U7.
    destruct Hinv as (Hb & Hl & Hr & Hp).
    unfold Inv. cbn. rewrite U1, U2, U4, U7.
    exact (conj Hb (conj Hl (conj Hr (Forall_nil_2 _)))).
  - exact (untouched_inv _ _ (untouched_setAudio a' s) Hinv).
Qed.

(** Every event of a session keeps the invariant. *)
Lemma step_inv (s : State) (e : Event) : validEvent e -> Inv s -> Inv (step s e).
Proof.
  intros He Hinv. pose proof Hinv as (Hb & Hl & Hr & Hp).
  unfold step, exec. destruct e; cbn [handle].
  - (* ExplorePlay *) apply startTwoTierScan_inv. exact Hinv.
  - (* ExploreStop *)
    destruct (stopExplore_run s) as (s' & -> & H1 & H2 & _ & H4 & _ & _ & _ & Hon & Hoff).
    cbn [snd]. unfold Inv. rewrite H1, H2, H4.
    refine (conj Hb (conj Hl (conj Hr _))).
    destruct (scanning s).
    + destruct (Hon eq_refl) as (_ & -> & _). constructor.
    + rewrite (Hoff eq_refl). exact Hp.
  - (* MarkStrongest *)
    rewrite handleMarkStrongest_run. cbn [snd].
    assert (StoreOk (<[bandKey s := match bestPhaseByBand s !! bandKey s with
                                    | Some r => incrementalMean r (phaseRange s)
                                    | None => mkRecord (phaseRange s) 1
                                    end]> (bestPhaseByBand s))) as Hnew.
    { apply storeOk_insert; [exact Hb|].
      destruct (bestPhaseByBand s !! bandKey s) as [r|] eqn:Er.
      - apply incrementalMean_range; [exact (Hb _ _ Er) | exact Hr].
      - split; [exact Hr | cbn; lia]. }
    unfold Inv. destruct (scanning s); cbn; exact (conj Hnew (conj Hnew (conj Hr Hp))).
  - (* ScanTimeout *)
    destruct (scanTimeout_cases s) as [-> | (id & _ & ->)]; [exact Hinv|].
    apply runScanPhase_inv. exact Hinv.
  - (* CountdownTick *)
    destruct (countdownTick_run s) as (s' & -> & Hu).
    exact (untouched_inv _ _ Hu Hinv).
  - (* PhaseInput *)
    js_run. destruct (phaseRangeDisabled s); js_run; cbn [snd]; [exact Hinv|].
    exact (conj Hb (conj Hl (conj He Hp))).
  - (* SweepToggle *)
    destruct (sweepToggle_run s) as (s' & Hrun & H1 & H2 & _ & _ & H5 & H6).
    unfold handle in Hrun. rewrite Hrun. cbn [snd]. unfold Inv. rewrite H1, H2, H5.
    refine (conj Hb (conj Hl (conj _ Hp))).
    destruct H6 as [-> | ->]; [exact Hr|].
    apply toFixed0_range. split; discriminate.
  - (* SweepFrame *)
    destruct (sweepFrame_run frac s) as (s' & -> & H1 & H2 & _ & _ & H5 & H6).
    cbn [snd]. unfold Inv. rewrite H1, H2, H5.
    refine (conj Hb (conj Hl (conj _ Hp))).
    destruct H6 as [-> | ->]; [exact Hr|].
    apply toFixed0_range. destruct He as [Hlo Hhi]. apply sweep_range; assumption.
  - (* ClearBestPhase *)
    unfold clearBestPhaseForBand, getExploreBandKey. js_run. cbn [snd].
    exact (conj (storeOk_delete _ _ Hb) (conj Hl (conj Hr Hp))).
  - (* ClearHistory *)
    unfold handleClearHistory. js_run. cbn [snd].
    exact (conj storeOk_empty (conj storeOk_empty (conj Hr Hp))).
Qed.

Lemma run_inv (s : State) (es : list Event) :
  Forall validEvent es -> Inv s -> Inv (run s es).
Proof.
  intros Hes. revert s. induction Hes as [|e es He _ IH]; intros s Hinv; [exact Hinv|].
  cbn [run fold_left]. apply IH. apply step_inv; assumption.
Qed.

Lemma loaded_inv (c : Audio.Controls) (key : string) (hz : Qc)
    (stored : gmap string PhaseRecord) :
  StoreOk stored -> Inv (loaded c key hz stored).
Proof.
  intros Hs. unfold loaded, exec, loadOnStartup, loadPhaseHistory. js_run. cbn.
  refine (conj _ (conj Hs (conj _ (Forall_nil_2 _)))).
  - apply storeOk_union; [exact Hs | exact storeOk_empty].
  - split; discriminate.
Qed.


Lemma startTwoTierScan_running (s : State) :
  scanning (step s ExplorePlay) = true ->
  bestPhaseByBand (step s ExplorePlay) = bestPhaseByBand s /\
  localStorage (step s ExplorePlay) = localStorage s.
Proof.
  unfold step, exec. cbn [handle]. unfold startTwoTierScan. js_run.
  destruct (scanning s) eqn:Hsc; [cbn; auto|].
  unfold startExplore. js_run.
  rewrite run_bind, liftAudio_run.
  destruct (Audio.startGraph (controls s) (bandHz s) (audio s)) as [[[]|] a']; cbn [fst snd].
  - js_run. rewrite run_bind.
    match goal with
    | |- context [stopAutosweep ?u] =>
        destruct (stopAutosweep_run u) as (s1 & Hrun & Hu & _); rewrite Hrun
    end.
    js_run. intros H. apply runScanPhase_running in H as (_ & Hb & Hl & _).
    rewrite Hb, Hl. destruct Hu as (U1 & U2 & _). split; [exact U1 | exact U2].
  - cbn. rewrite Hsc. discriminate.
Qed.

Lemma run_quiet (es : list Event) (s : State) :
  forallb quiet es = true ->
  scanning (run s es) = true ->
  scanning s = true /\
  bestPhaseByBand (run s es) = bestPhaseByBand s /\
  localStorage (run s es) = localStorage s.
Proof.
  revert s. induction es as [|e es IH]; intros s Hq Hsc; [cbn in *; auto|].
  cbn [forallb] in Hq. apply andb_prop in Hq as [He Hes].
  change (run s (e :: es)) with (run (step s e) es) in *.
  destruct (IH (step s e) Hes Hsc) as (Hsc' & Hb & Hl).
  destruct (step_quiet s e He Hsc') as (Hs & Hb' & Hl' & _).
  rewrite Hb, Hl, Hb', Hl'. auto.
Qed.

(** C2 (as amended): aborting a scan never raises; it leaves the records
    in memory and in local storage exactly as they are at the moment of
    the abort, discards the transient scan data and cancels the pending
    advance timer and the countdown; and when no mark was issued (and no
    record cleared) since the scan was started, the records are those from
    before the scan.  A mark issued during the scan has been merged and
    saved when it was issued, and the abort does not undo it. *)
Theorem C2_abort_leaves_records (s : State) :
  let s' := step s ExploreStop in
  returns (handle ExploreStop) s = true /\
  bestPhaseByBand s' = bestPhaseByBand s /\
  localStorage s' = localStorage s /\
  scanning s' = false /\
  (scanning s = true ->
     scanTier s' = 0%Z /\ scanPhases s' = [] /\ scanCounts s' = ∅ /\
     scanIndex s' = 0%nat /\
     (forall t, scanTimeoutId s = Some t -> t ∉ pending s') /\
     (forall t, countdownInterval s = Some t -> t ∉ pending s')) /\
  (forall s0 es,
     s = run (step s0 ExplorePlay) es ->
     forallb quiet es = true ->
     scanning s = true ->
     bestPhaseByBand s' = bestPhaseByBand s0 /\ localStorage s' = localStorage s0).
Proof.
  cbv zeta.
  destruct (stopExplore_run s) as (s' & Hrun & Hb & Hl & _ & _ & Hsc & _ & _ & Hon & _).
  assert (step s ExploreStop = s') as ->.
  { unfold step, exec. cbn [handle]. rewrite Hrun. reflexivity. }
  assert (returns (handle ExploreStop) s = true) as ->.
  { unfold returns. cbn [handle]. rewrite Hrun. reflexivity. }
  repeat apply conj; try assumption; try reflexivity.
  intros s0 es -> Hq Hrunning.
  destruct (run_quiet es _ Hq Hrunning) as (Hstart & Hb' & Hl').
  destruct (startTwoTierScan_running s0 Hstart) as (Hb0 & Hl0).
  rewrite Hb, Hl, Hb', Hl', Hb0, Hl0. auto.
Qed.

(** A scan aborted in the middle of its second tier, no mark issued. *)
Lemma C2_abort_leaves_records_witness :
  scanTier (midTier2 threeMarksAt100) = 2%Z /\
  scanIndex (midTier2 threeMarksAt100) = 3%nat /\
  localStorage (step (midTier2 threeMarksAt100) ExploreStop) =
    localStorage (page threeMarksAt100) /\
  scanPhases (step (midTier2 threeMarksAt100) ExploreStop) = [].
Proof.
  destruct (C2_abort_leaves_records (midTier2 threeMarksAt100))
    as (_ & _ & _ & _ & Hon & Hquiet).
  destruct (Hquiet (page threeMarksAt100) (replicate 10 ScanTimeout))
    as (_ & Hl); [reflexivity | reflexivity | reflexivity |].
  destruct (Hon eq_refl) as (_ & Hph & _).
  repeat apply conj; [reflexivity | reflexivity | exact Hl | exact Hph].
Defined.

(** C2 (as stated) fails: a mark issued at the candidate of index 3 of the
    second tier changes the stored record from phase 100, count 3 to
    phase 75, count 4, and the abort that follows leaves it so. *)
Lemma C2_abort_keeps_marks_of_the_scan :
  let s0 := page threeMarksAt100 in
  let s := step (midTier2 threeMarksAt100) MarkStrongest in
  let s' := step s ExploreStop in
  scanning s = true /\ scanTier s = 2%Z /\ scanIndex s = 3%nat /\
  scanning s' = false /\
  localStorage s0 !! "7.83"%string = Some (mkRecord (Q2Qc 100) 3) /\
  localStorage s' !! "7.83"%string = Some (mkRecord (Q2Qc 75) 4) /\
  localStorage s' !! "7.83"%string <> localStorage s0 !! "7.83"%string.
Proof.
  cbv zeta.
  assert (localStorage (page threeMarksAt100) !! "7.83"%string
          = Some (mkRecord (Q2Qc 100) 3)) as H0.
  { apply lookup_record_view. vm_compute. reflexivity. }
  assert (localStorage (step (step (midTier2 threeMarksAt100) MarkStrongest) ExploreStop)
            !! "7.83"%string = Some (mkRecord (Q2Qc 75) 4)) as H1.
  { apply lookup_record_view. vm_compute. reflexivity. }
  repeat apply conj; try (vm_compute; reflexivity); try assumption.
  rewrite H0, H1. intros H. apply (f_equal (fmap recordView)) in H.
  vm_compute in H. discriminate.
Qed.

(** C9 (as amended): starting from stored records whose phase is within
    0 and 360 degrees, both included, and whose count is at least 1, every
    record in memory and in local storage keeps a phase within 0 and 360,
    both included, and a count of at least 1, whatever the events, as long
    as the slider is moved within its range. *)
Theorem C9_records_stay_in_range (c : Audio.Controls) (key : string) (hz : Qc)
    (stored : gmap string PhaseRecord) (es : list Event) :
  StoreOk stored ->
  Forall validEvent es ->
  let s := run (loaded c key hz stored) es in
  forall k r,
    bestPhaseByBand s !! k = Some r \/ localStorage s !! k = Some r ->
    (Q2Qc 0 <= phase r)%Qc /\ (phase r <= Q2Qc 360)%Qc /\ (1 <= count r)%Z.
Proof.
  intros Hstored Hes s k r Hk.
  destruct (run_inv _ es Hes (loaded_inv c key hz stored Hstored)) as (Hb & Hl & _).
  fold s in Hb, Hl.
  destruct Hk as [Hk | Hk]; [apply Hb in Hk | apply Hl in Hk];
    destruct Hk as [[Hlo Hhi] Hc]; auto.
Qed.

(** A scan on a stored record, marked at the candidate 360 degrees. *)
Lemma C9_records_stay_in_range_witness :
  let s := run (page threeMarksAt100)
               (ExplorePlay :: replicate 6 ScanTimeout ++ [MarkStrongest]) in
  localStorage s !! "7.83"%string = Some (mkRecord (Q2Qc 165) 4) /\
  (Q2Qc 0 <= Q2Qc 165)%Qc /\ (Q2Qc 165 <= Q2Qc 360)%Qc /\ (1 <= 4)%Z.
Proof.
  cbv zeta.
  assert (localStorage (run (page threeMarksAt100)
                            (ExplorePlay :: replicate 6 ScanTimeout ++ [MarkStrongest]))
            !! "7.83"%string = Some (mkRecord (Q2Qc 165) 4)) as Hr.
  { apply lookup_record_view. vm_compute. reflexivity. }
  split; [exact Hr|].
  apply (C9_records_stay_in_range binauralControls "7.83" (Q2Qc 7.83) threeMarksAt100
           (ExplorePlay :: replicate 6 ScanTimeout ++ [MarkStrongest])
           ltac:(intros k r'; unfold threeMarksAt100; rewrite lookup_singleton;
                 destruct (decide ("7.83"%string = k)); [|discriminate];
                 intros [= <-]; repeat split; cbn; try discriminate; lia)
           ltac:(repeat constructor)
           "7.83"%string (mkRecord (Q2Qc 165) 4)).
  right. exact Hr.
Defined.

(** C9 (as stated) fails: the first tier presents 360 degrees, and a mark
    there on an empty record stores the phase 360, which is not below
    360. *)
Lemma C9_mark_at_360_is_stored :
  let s := step atCandidate360 MarkStrongest in
  scanning atCandidate360 = true /\ scanTier atCandidate360 = 1%Z /\
  phaseRange atCandidate360 = Q2Qc 360 /\
  localStorage s !! "7.83"%string = Some (mkRecord (Q2Qc 360) 1) /\
  ~ (phase (mkRecord (Q2Qc 360) 1) < Q2Qc 360)%Qc.
Proof.
  cbv zeta.
  repeat apply conj;
    first [ apply lookup_record_view; vm_compute; reflexivity
          | apply Qc_this_inj; vm_compute; reflexivity
          | intros H; vm_compute in H; discriminate
          | vm_compute; reflexivity ].
Qed.

End SessionFacts.

(** ** Rounding to the nearest double *)

Section DoubleFacts.
Import Double.
Local Open Scope Q_scope.

Lemma pow2_pos (e : Z) : 0 < pow2 e.
Proof. unfold pow2. apply Qpower_0_lt. reflexivity. Qed.

Lemma pow2_plus (a b : Z) : pow2 (a + b) == pow2 a * pow2 b.
Proof. unfold pow2. apply Qpower_plus. discriminate. Qed.

Lemma pow2_Z (n : Z) : (0 <= n)%Z -> pow2 n == inject_Z (2 ^ n).
Proof. intros H. unfold pow2. rewrite Zpower_Qpower by exact H. reflexivity. Qed.

Lemma pow2_le (a b : Z) : (a <= b)%Z -> pow2 a <= pow2 b.
Proof. intros H. unfold pow2. apply Qpower_le_compat_l; [exact H | discriminate]. Qed.

(** Rounding to the nearest integer moves a number by at most a half. *)
Lemma roundEven_err (z : Q) : Qabs (inject_Z (roundEven z) - z) <= 1 # 2.
Proof.
  pose proof (Qfloor_le z) as Hlo. pose proof (Qlt_floor z) as Hhi.
  rewrite inject_Z_plus in Hhi. change (inject_Z 1) with 1 in Hhi.
  apply Qabs_Qle_condition. unfold roundEven.
  destruct (Qcompare_spec (z - inject_Z (Qfloor z)) (1 # 2)) as [E|E|E].
  - destruct (Z.even (Qfloor z)); rewrite ?inject_Z_plus; change (inject_Z 1) with 1;
      split; lra.
  - split; lra.
  - rewrite inject_Z_plus. change (inject_Z 1) with 1. split; lra.
Qed.

Lemma Qabs_frac (q : Q) : Qabs q == inject_Z (Z.abs (Qnum q)) / inject_Z (Zpos (Qden q)).
Proof.
  destruct q as [n d]. cbn [Qnum Qden]. rewrite <- Zabs_Qabs. apply Qmake_Qdiv.
Qed.

Lemma frac_le (A B N D : Z) :
  (0 < B)%Z -> (0 < D)%Z -> (A * D <= N * B)%Z ->
  inject_Z A / inject_Z B <= inject_Z N / inject_Z D.
Proof.
  intros HB HD H.
  assert (0 < inject_Z B) as HBq by (rewrite <- (Zlt_Qlt 0); exact HB).
  assert (0 < inject_Z D) as HDq by (rewrite <- (Zlt_Qlt 0); exact HD).
  apply Qle_shift_div_l; [exact HDq|].
  assert (inject_Z A / inject_Z B * inject_Z D == inject_Z A * inject_Z D / inject_Z B) as ->
    by (unfold Qdiv; ring).
  apply Qle_shift_div_r; [exact HBq|].
  rewrite <- !inject_Z_mult, <- Zle_Qle. exact H.
Qed.

Lemma frac_lt (A B N D : Z) :
  (0 < B)%Z -> (0 < D)%Z -> (A * D < N * B)%Z ->
  inject_Z A / inject_Z B < inject_Z N / inject_Z D.
Proof.
  intros HB HD H.
  assert (0 < inject_Z B) as HBq by (rewrite <- (Zlt_Qlt 0); exact HB).
  assert (0 < inject_Z D) as HDq by (rewrite <- (Zlt_Qlt 0); exact HD).
  apply Qlt_shift_div_l; [exact HDq|].
  assert (inject_Z A / inject_Z B * inject_Z D == inject_Z A * inject_Z D / inject_Z B) as ->
    by (unfold Qdiv; ring).
  apply Qlt_shift_div_r; [exact HBq|].
  rewrite <- !inject_Z_mult, <- Zlt_Qlt. exact H.
Qed.

(** [2^(a - b)] as a quotient of powers that are not negative. *)
Lemma pow2_minus (a b : Z) :
  (0 <= a)%Z -> (0 <= b)%Z -> pow2 (a - b) == inject_Z (2 ^ a) / inject_Z (2 ^ b).
Proof.
  intros Ha Hb. replace (a - b)%Z with (a + - b)%Z by lia.
  rewrite pow2_plus. unfold pow2 at 2. rewrite Qpower_opp. fold (pow2 b).
  rewrite !pow2_Z by lia. reflexivity.
Qed.

(** [ilog2 q] is the exponent of the leading bit of [q]. *)
Lemma ilog2_spec (q : Q) :
  ~ q == 0 -> pow2 (ilog2 q) <= Qabs q /\ Qabs q < pow2 (ilog2 q + 1).
Proof.
  intros Hq.
  set (n := Z.abs (Qnum q)). set (d := Zpos (Qden q)).
  assert (0 < n)%Z as Hn.
  { unfold n. destruct q as [[|p|p] dq]; cbn [Qnum Z.abs]; try lia.
    exfalso. apply Hq. reflexivity. }
  assert (0 < d)%Z as Hd by (unfold d; lia).
  pose proof (Z.log2_spec n Hn) as [Hn1 Hn2]. pose proof (Z.log2_spec d Hd) as [Hd1 Hd2].
  pose proof (Z.log2_nonneg n) as Ha. pose proof (Z.log2_nonneg d) as Hb.
  set (a := Z.log2 n) in *. set (b := Z.log2 d) in *.
  assert (Qabs q == inject_Z n / inject_Z d) as Habs by apply Qabs_frac.
  assert (0 < 2 ^ a)%Z as Pa by (apply Z.pow_pos_nonneg; lia).
  assert (0 < 2 ^ b)%Z as Pb by (apply Z.pow_pos_nonneg; lia).
  assert (2 ^ (b + 1) = 2 * 2 ^ b)%Z as Eb by (rewrite Z.pow_add_r by lia; lia).
  assert (2 ^ (a + 1) = 2 * 2 ^ a)%Z as Ea by (rewrite Z.pow_add_r by lia; lia).
  replace (Z.succ a) with (a + 1)%Z in Hn2 by lia.
  replace (Z.succ b) with (b + 1)%Z in Hd2 by lia.
  assert (pow2 (a - b - 1) <= Qabs q) as Hlow.
  { rewrite Habs. replace (a - b - 1)%Z with (a - (b + 1))%Z by lia.
    rewrite pow2_minus by lia. apply frac_le; nia. }
  assert (Qabs q < pow2 (a - b + 1)) as Hupp.
  { rewrite Habs. replace (a - b + 1)%Z with ((a + 1) - b)%Z by lia.
    rewrite pow2_minus by lia. apply frac_lt; nia. }
  unfold ilog2. fold n d a b.
  destruct (Qle_bool (pow2 (a - b)) (Qabs q)) eqn:Hb0.
  - apply Qle_bool_iff in Hb0. split; [exact Hb0 | exact Hupp].
  - split; [exact Hlow|].
    replace (a - b - 1 + 1)%Z with (a - b)%Z by lia.
    apply Qnot_le_lt. intros Hle. apply Qle_bool_iff in Hle. congruence.
Qed.

Lemma ulpExp_cases (q : Q) :
  (ulpExp q = ilog2 q - 52 /\ -1074 <= ilog2 q - 52)%Z \/
  (ulpExp q = -1074 /\ ilog2 q - 52 <= -1074)%Z.
Proof. unfold ulpExp. lia. Qed.

(** Rounding moves a number by at most half a unit in the last place. *)
Lemma roundQ_half_ulp (q : Q) :
  ~ q == 0 -> Qabs (roundQ q - q) <= pow2 (ulpExp q - 1).
Proof.
  intros Hq. unfold roundQ.
  destruct (Qeq_bool q 0) eqn:E; [apply Qeq_bool_iff in E; contradiction|].
  set (e := ulpExp q). pose proof (pow2_pos e) as Hp.
  set (z := q / pow2 e).
  assert (inject_Z (roundEven z) * pow2 e - q == (inject_Z (roundEven z) - z) * pow2 e) as ->.
  { unfold z. field. intros H0. rewrite H0 in Hp. revert Hp. apply Qlt_irrefl. }
  rewrite Qabs_Qmult, (Qabs_pos (pow2 e)) by (apply Qlt_le_weak, Hp).
  replace (e - 1)%Z with (-1 + e)%Z by lia. rewrite pow2_plus.
  apply Qmult_le_compat_r; [|apply Qlt_le_weak, Hp].
  change (pow2 (-1)) with (1 # 2). apply roundEven_err.
Qed.

(** The standard model of rounding: a relative error of at most [2^-53],
    or, among the subnormals, an absolute error of at most [2^-1075]. *)
Lemma roundQ_err (q : Q) :
  Qabs (roundQ q - q) <= Qabs q * pow2 (-53) + pow2 (-1075).
Proof.
  destruct (Qeq_dec q 0) as [E|Hq].
  - unfold roundQ. rewrite (proj2 (Qeq_bool_iff q 0) E).
    assert (0 - q == 0) as -> by (rewrite E; reflexivity).
    change (Qabs 0) with 0.
    pose proof (Qabs_nonneg q). pose proof (pow2_pos (-53)). pose proof (pow2_pos (-1075)).
    assert (0 <= Qabs q * pow2 (-53)) by (apply Qmult_le_0_compat; lra).
    lra.
  - eapply Qle_trans; [apply roundQ_half_ulp, Hq|].
    destruct (ilog2_spec q Hq) as [Hlo _].
    pose proof (Qabs_nonneg q) as Hn. pose proof (pow2_pos (-53)) as H53.
    pose proof (pow2_pos (-1075)) as H1075.
    destruct (ulpExp_cases q) as [[-> _]|[-> _]].
    + replace (ilog2 q - 52 - 1)%Z with (ilog2 q + -53)%Z by lia. rewrite pow2_plus.
      assert (pow2 (ilog2 q) * pow2 (-53) <= Qabs q * pow2 (-53)).
      { apply Qmult_le_compat_r; [exact Hlo | lra]. }
      lra.
    + change (-1074 - 1)%Z with (-1075)%Z.
      assert (0 <= Qabs q * pow2 (-53)) by (apply Qmult_le_0_compat; lra).
      lra.
Qed.

Lemma roundEven_comp (x y : Q) : x == y -> roundEven x = roundEven y.
Proof.
  intros E. unfold roundEven. rewrite (Qfloor_comp _ _ E).
  assert (x - inject_Z (Qfloor y) == y - inject_Z (Qfloor y)) as E' by (rewrite E; reflexivity).
  rewrite (Qcompare_comp _ _ E' _ _ (Qeq_refl (1 # 2))). reflexivity.
Qed.

Lemma roundEven_Z (n : Z) : roundEven (inject_Z n) = n.
Proof.
  unfold roundEven. rewrite Qfloor_Z.
  destruct (Qcompare_spec (inject_Z n - inject_Z n) (1 # 2)) as [E|E|E]; [exfalso|reflexivity|exfalso];
    lra.
Qed.

(** Rounding to the nearest integer keeps the order. *)
Lemma roundEven_mono (x y : Q) : x <= y -> (roundEven x <= roundEven y)%Z.
Proof.
  intros H. destruct (Z_le_gt_dec (roundEven x) (roundEven y)) as [Hle|Hgt]; [exact Hle|exfalso].
  pose proof (roundEven_err x) as Ex. pose proof (roundEven_err y) as Ey.
  apply Qabs_Qle_condition in Ex, Ey.
  assert (inject_Z (roundEven y) + 1 <= inject_Z (roundEven x)) as Hz.
  { change 1 with (inject_Z 1). rewrite <- inject_Z_plus, <- Zle_Qle. lia. }
  assert (x == y) as E by lra.
  rewrite (roundEven_comp _ _ E) in Hgt. lia.
Qed.

Lemma pow2_lt_inv (a b : Z) : pow2 a < pow2 b -> (a < b)%Z.
Proof.
  intros H. destruct (Z_lt_ge_dec a b) as [Hlt|Hge]; [exact Hlt|exfalso].
  pose proof (pow2_le b a ltac:(lia)). lra.
Qed.

Lemma ilog2_mono (x y : Q) : 0 < x -> x <= y -> (ilog2 x <= ilog2 y)%Z.
Proof.
  intros Hx Hxy.
  assert (~ x == 0) as Hx0 by lra. assert (~ y == 0) as Hy0 by lra.
  destruct (ilog2_spec x Hx0) as [Lx _]. destruct (ilog2_spec y Hy0) as [_ Uy].
  rewrite Qabs_pos in Lx, Uy by lra.
  assert (pow2 (ilog2 x) < pow2 (ilog2 y + 1)) as H by lra.
  apply pow2_lt_inv in H. lia.
Qed.

Lemma roundQ_zero : roundQ 0 == 0.
Proof. reflexivity. Qed.

(** Rounding keeps the sign. *)
Lemma roundQ_nonneg (x : Q) : 0 <= x -> 0 <= roundQ x.
Proof.
  intros Hx. unfold roundQ. destruct (Qeq_bool x 0); [lra|].
  pose proof (pow2_pos (ulpExp x)) as Hp.
  apply Qmult_le_0_compat; [|lra].
  rewrite <- (Zle_Qle 0). change 0%Z with (roundEven (inject_Z 0)) at 1 ; rewrite ?roundEven_Z.
  rewrite <- (roundEven_Z 0). apply roundEven_mono.
  change (inject_Z 0) with 0. apply Qle_shift_div_l; [exact Hp | lra].
Qed.

(** Rounding to the nearest double keeps the order of positive numbers. *)
Lemma roundQ_mono_pos (x y : Q) : 0 < x -> x <= y -> roundQ x <= roundQ y.
Proof.
  intros Hx Hxy.
  assert (~ x == 0) as Hx0 by lra. assert (~ y == 0) as Hy0 by lra.
  pose proof (ilog2_mono x y Hx Hxy) as Hlog.
  destruct (ilog2_spec x Hx0) as [Lx Ux]. destruct (ilog2_spec y Hy0) as [Ly Uy].
  rewrite Qabs_pos in Lx, Ux, Ly, Uy by lra.
  unfold roundQ.
  destruct (Qeq_bool x 0) eqn:Ex; [apply Qeq_bool_iff in Ex; contradiction|].
  destruct (Qeq_bool y 0) eqn:Ey; [apply Qeq_bool_iff in Ey; contradiction|].
  pose proof (pow2_pos (ulpExp x)) as Px. pose proof (pow2_pos (ulpExp y)) as Py.
  destruct (Z.eq_dec (ulpExp x) (ulpExp y)) as [E|Hne].
  - rewrite E in *. apply Qmult_le_compat_r; [|lra].
    rewrite <- Zle_Qle. apply roundEven_mono.
    unfold Qdiv. apply Qmult_le_compat_r; [exact Hxy|].
    apply Qlt_le_weak, Qinv_lt_0_compat, Py.
  - assert (ulpExp x < ulpExp y)%Z as Hlt by (unfold ulpExp in *; lia).
    assert (ulpExp y = ilog2 y - 52)%Z as Ey' by (unfold ulpExp in *; lia).
    assert (ilog2 x - 52 <= ulpExp x)%Z as Ex' by (unfold ulpExp; lia).
    (* the rounded [x] is at most [2^(ulpExp x + 53)] *)
    assert (inject_Z (roundEven (x / pow2 (ulpExp x))) * pow2 (ulpExp x)
            <= pow2 (ulpExp x + 53)) as Hx53.
    { replace (ulpExp x + 53)%Z with (53 + ulpExp x)%Z by lia.
      rewrite pow2_plus. apply Qmult_le_compat_r; [|lra].
      assert (pow2 53 == inject_Z (2 ^ 53)) as -> by (apply pow2_Z; lia).
      rewrite <- Zle_Qle.
      rewrite <- (roundEven_Z (2 ^ 53)). apply roundEven_mono.
      apply Qle_shift_div_r; [exact Px|].
      assert (inject_Z (2 ^ 53) == pow2 53) as -> by (symmetry; apply pow2_Z; lia).
      rewrite <- pow2_plus.
      pose proof (pow2_le (ilog2 x + 1) (53 + ulpExp x) ltac:(lia)). lra. }
    (* the rounded [y] is at least [2^(ulpExp y + 52)] *)
    assert (pow2 (ulpExp y + 52)
            <= inject_Z (roundEven (y / pow2 (ulpExp y))) * pow2 (ulpExp y)) as Hy52.
    { replace (ulpExp y + 52)%Z with (52 + ulpExp y)%Z by lia.
      rewrite pow2_plus. apply Qmult_le_compat_r; [|lra].
      assert (pow2 52 == inject_Z (2 ^ 52)) as -> by (apply pow2_Z; lia).
      rewrite <- Zle_Qle.
      rewrite <- (roundEven_Z (2 ^ 52)) at 1. apply roundEven_mono.
      apply Qle_shift_div_l; [exact Py|].
      assert (inject_Z (2 ^ 52) == pow2 52) as -> by (symmetry; apply pow2_Z; lia).
      rewrite <- pow2_plus.
      replace (52 + ulpExp y)%Z with (ilog2 y) by lia. exact Ly. }
    pose proof (pow2_le (ulpExp x + 53) (ulpExp y + 52) ltac:(lia)). lra.
Qed.

Lemma roundQ_mono_nonneg (x y : Q) : 0 <= x -> x <= y -> roundQ x <= roundQ y.
Proof.
  intros Hx Hxy. destruct (Qeq_dec x 0) as [E|Hne].
  - unfold roundQ at 1. rewrite (proj2 (Qeq_bool_iff x 0) E).
    apply roundQ_nonneg. lra.
  - apply roundQ_mono_pos; [|exact Hxy].
    destruct (Qlt_le_dec 0 x) as [H|H]; [exact H|]. exfalso. apply Hne. lra.
Qed.

End DoubleFacts.

(** ** The rounded computations *)

Section RoundedFacts.
Import Audio Double.

Ltac to_Q :=
  unfold Qcle, Qclt, Qcminus, Qcopp, Qcplus, Qcmult in *;
  cbn [this Q2Qc] in *;
  rewrite ?Qred_correct in *.

Lemma this_fl (x : Qc) : (this (fl x) == roundQ (this x))%Q.
Proof. unfold fl. cbn [this Q2Qc]. apply Qred_correct. Qed.

Lemma this_eps : (this eps == pow2 (-53))%Q.
Proof. unfold eps. cbn [this Q2Qc]. apply Qred_correct. Qed.

Lemma this_eta : (this eta == pow2 (-1075))%Q.
Proof. unfold eta. cbn [this Q2Qc]. apply Qred_correct. Qed.

(** The result of an operation on doubles is within [b * 2^-53 + 2^-1075]
    of the exact result, for any bound [b] on the size of that result. *)
Lemma fl_err (x b : Qc) :
  (- b <= x)%Qc -> (x <= b)%Qc ->
  (x - (b * eps + eta) <= fl x)%Qc /\ (fl x <= x + (b * eps + eta))%Qc.
Proof.
  intros Hlo Hhi.
  pose proof (roundQ_err (this x)) as H. apply Qabs_Qle_condition in H.
  assert (Qabs (this x) <= this b)%Q as Hb.
  { apply Qabs_Qle_condition. to_Q. split; lra. }
  pose proof (pow2_pos (-53)) as P53.
  assert (Qabs (this x) * pow2 (-53) <= this b * pow2 (-53))%Q as Hm.
  { apply Qmult_le_compat_r; [exact Hb | lra]. }
  pose proof (this_fl x) as Hf. pose proof this_eps as He. pose proof this_eta as Ht.
  generalize dependent (fl x). intros y Hf.
  generalize dependent eps. intros e He. generalize dependent eta. intros t Ht.
  to_Q. rewrite Hf, He, Ht. split; lra.
Qed.

Lemma fl_mono (x y : Qc) : (0 <= x)%Qc -> (x <= y)%Qc -> (fl x <= fl y)%Qc.
Proof.
  intros Hx Hxy. unfold Qcle. rewrite !this_fl.
  apply roundQ_mono_nonneg; [exact Hx | exact Hxy].
Qed.

Lemma eps_bounds : (0 <= eps)%Qc /\ (eps <= Q2Qc (12 # 100000000000000000))%Qc.
Proof. split; vm_compute; discriminate. Qed.

Lemma eta_bounds : (0 <= eta)%Qc /\ (eta <= Q2Qc (1 # 1000000000000000000000000000000))%Qc.
Proof. split; vm_compute; discriminate. Qed.

Lemma mul_bound (a b A B C : Qc) :
  (- A <= a)%Qc -> (a <= A)%Qc -> (- B <= b)%Qc -> (b <= B)%Qc -> (A * B <= C)%Qc ->
  (- C <= a * b)%Qc /\ (a * b <= C)%Qc.
Proof.
  intros H1 H2 H3 H4 H5. to_Q. split; nra.
Qed.

(** The doubles of the split: the bounds 0.35 and 0.65 and their
    difference. *)
Lemma split_constants :
  let A := lit 0.35 in
  let B := lit 0.65 in
  let D := sub B A in
  fl A = A /\ fl D = D /\ fl (A + D) = B /\ (0 <= D)%Qc /\
  (Q2Qc (34 # 100) <= A)%Qc /\ (B <= Q2Qc (66 # 100))%Qc.
Proof.
  cbv zeta. repeat apply conj.
  - apply Qc_is_canon. vm_compute. reflexivity.
  - apply Qc_is_canon. vm_compute. reflexivity.
  - apply Qc_is_canon. vm_compute. reflexivity.
  - vm_compute. discriminate.
  - vm_compute. discriminate.
  - vm_compute. discriminate.
Qed.

Lemma fl_zero : fl 0 = 0%Qc.
Proof. apply Qc_is_canon. vm_compute. reflexivity. Qed.

(** A fraction [A + rnd * D] taken between two doubles [A] and [B] that
    lie within 0.34 and 0.66 stays between them, and the two products of
    a band by the fraction and by its complement add up to the band
    within [10^-6]. *)
Lemma split_sum_between (A B D rnd freqHz : Qc) :
  fl A = A -> fl D = D -> fl (A + D) = B -> (0 <= D)%Qc ->
  (Q2Qc (34 # 100) <= A)%Qc -> (B <= Q2Qc (66 # 100))%Qc ->
  (0 <= rnd)%Qc -> (rnd < 1)%Qc ->
  (- Q2Qc 1000000000 <= freqHz)%Qc -> (freqHz <= Q2Qc 1000000000)%Qc ->
  let r := add A (mul rnd D) in
  let leftOffset := mul freqHz r in
  let rightOffset := mul freqHz (sub 1 r) in
  ((A <= r)%Qc /\ (r <= B)%Qc) /\
  (- Q2Qc (1 # 1000000) <= leftOffset + rightOffset - freqHz)%Qc /\
  (leftOffset + rightOffset - freqHz <= Q2Qc (1 # 1000000))%Qc.
Proof.
  intros HA HD HB HD0 HA34 HB66 Hu0 Hu1 Hf0 Hf1 r leftOffset rightOffset.
  pose proof fl_zero as H0.
  set (t := mul rnd D) in *.
  set (s := sub 1 r) in *.
  assert (r = fl (A + t)) as Hr by reflexivity.
  assert (t = fl (rnd * D)) as Ht by reflexivity.
  assert (leftOffset = fl (freqHz * r)) as Hl by reflexivity.
  assert (rightOffset = fl (freqHz * s)) as Hrr by reflexivity.
  assert (s = fl (1 - r)) as Hs by reflexivity.
  clearbody leftOffset rightOffset s. clearbody r. clearbody t.
  (* the fraction *)
  assert ((0 <= t)%Qc /\ (t <= D)%Qc) as [Ht0 Ht1].
  { rewrite Ht. split.
    - rewrite <- H0. apply fl_mono; [apply Qcle_refl|].
      apply Qcmult_nonneg_nonneg; assumption.
    - rewrite <- HD at 2. apply fl_mono.
      + apply Qcmult_nonneg_nonneg; assumption.
      + clear - Hu0 Hu1 HD0. to_Q. change (this 1%Qc) with 1%Q in *.
        change (this 0%Qc) with 0%Q in *. nra. }
  assert ((A <= r)%Qc /\ (r <= B)%Qc) as [Hr0 Hr1].
  { rewrite Hr. split.
    - rewrite <- HA at 1. apply fl_mono.
      + clear - HA34. to_Q. change (this 0%Qc) with 0%Q. lra.
      + clear - Ht0. to_Q. change (this 0%Qc) with 0%Q in *. lra.
    - rewrite <- HB. apply fl_mono.
      + clear - HA34 Ht0. to_Q. change (this 0%Qc) with 0%Q in *. lra.
      + clear - Ht1. to_Q. lra. }
  split; [split; assumption|].
  clear Hr Ht Ht0 Ht1 HA HD HB H0 HD0 t D.
  destruct eps_bounds as [He0 He1]. destruct eta_bounds as [Hn0 Hn1].
  assert ((- Q2Qc (66 # 100) <= 1 - r)%Qc /\ (1 - r <= Q2Qc (66 # 100))%Qc) as [Hs0 Hs1].
  { clear - Hr0 Hr1 HA34 HB66. to_Q. change (this 1%Qc) with 1%Q. split; lra. }
  destruct (fl_err (1 - r) (Q2Qc (66 # 100)) Hs0 Hs1) as [Es0 Es1].
  rewrite <- Hs in Es0, Es1.
  assert ((- Q2Qc (67 # 100) <= s)%Qc /\ (s <= Q2Qc (67 # 100))%Qc) as [Hs2 Hs3].
  { clear - Es0 Es1 Hs0 Hs1 He0 He1 Hn0 Hn1. generalize dependent eps. generalize dependent eta.
    intros. to_Q. change (this 1%Qc) with 1%Q in *. change (this 0%Qc) with 0%Q in *. split; lra. }
  assert ((- Q2Qc (66 # 100) <= r)%Qc /\ (r <= Q2Qc (66 # 100))%Qc) as [Hr2 Hr3].
  { clear - Hr0 Hr1 HA34 HB66. to_Q. split; lra. }
  destruct (mul_bound freqHz r _ _ (Q2Qc 660000000) Hf0 Hf1 Hr2 Hr3) as [X1 X2];
    [vm_compute; discriminate|].
  destruct (mul_bound freqHz s _ _ (Q2Qc 670000000) Hf0 Hf1 Hs2 Hs3) as [Y1 Y2];
    [vm_compute; discriminate|].
  destruct (fl_err _ _ X1 X2) as [El0 El1]. destruct (fl_err _ _ Y1 Y2) as [Er0 Er1].
  rewrite <- Hl in El0, El1. rewrite <- Hrr in Er0, Er1.
  set (d := (s - (1 - r))%Qc).
  assert ((- (Q2Qc (66 # 100) * eps + eta) <= d)%Qc /\ (d <= Q2Qc (66 # 100) * eps + eta)%Qc)
    as [Hd0 Hd1].
  { unfold d. clear - Es0 Es1. generalize dependent eps. generalize dependent eta. intros.
    to_Q. split; lra. }
  assert ((0 <= Q2Qc (66 # 100) * eps + eta)%Qc /\
          (Q2Qc (66 # 100) * eps + eta <= Q2Qc (1 # 10000000000000000))%Qc) as [Hb0 Hb1].
  { clear - He0 He1 Hn0 Hn1. generalize dependent eps. generalize dependent eta. intros.
    to_Q. change (this 0%Qc) with 0%Q in *. split; lra. }
  assert ((- Q2Qc (1 # 10000000000000000) <= d)%Qc /\ (d <= Q2Qc (1 # 10000000000000000))%Qc)
    as [Hd2 Hd3].
  { clear - Hd0 Hd1 Hb0 Hb1. generalize dependent (Q2Qc (66 # 100) * eps + eta)%Qc. intros.
    to_Q. split; lra. }
  destruct (mul_bound freqHz d _ _ (Q2Qc (1 # 10000000)) Hf0 Hf1 Hd2 Hd3) as [Z1 Z2];
    [vm_compute; discriminate|].
  assert (freqHz * r + freqHz * s - freqHz * d = freqHz)%Qc as Hid by (unfold d; ring).
  clear - El0 El1 Er0 Er1 Z1 Z2 Hid He0 He1 Hn0 Hn1.
  generalize dependent (freqHz * r)%Qc. generalize dependent (freqHz * s)%Qc.
  generalize dependent (freqHz * d)%Qc. intros x3 Z1 Z2 x2 Er0 Er1 x1 El0 El1 Hid.
  rewrite <- Hid. clear Hid.
  generalize dependent eps. generalize dependent eta. intros.
  to_Q. change (this 0%Qc) with 0%Q in *. split; lra.
Qed.

(** The same computation in exact arithmetic, from bounds [a] and [a + d]
    that the doubles [A] and [D] approximate: the rounded offsets are
    within [10^-6] of the exact ones. *)
Lemma split_near_exact (A D a d rnd freqHz : Qc) :
  fl A = A -> fl D = D -> (0 <= D)%Qc ->
  (Q2Qc (34 # 100) <= A)%Qc -> (A + D <= Q2Qc (66 # 100))%Qc ->
  (- Q2Qc (1 # 10000000000000000) <= A - a)%Qc -> (A - a <= Q2Qc (1 # 10000000000000000))%Qc ->
  (- Q2Qc (1 # 10000000000000000) <= D - d)%Qc -> (D - d <= Q2Qc (1 # 10000000000000000))%Qc ->
  (0 <= rnd)%Qc -> (rnd < 1)%Qc ->
  (- Q2Qc 1000000000 <= freqHz)%Qc -> (freqHz <= Q2Qc 1000000000)%Qc ->
  let r := add A (mul rnd D) in
  let exact := (a + rnd * d)%Qc in
  ((- Q2Qc (1 # 1000000) <= mul freqHz r - freqHz * exact)%Qc /\
   (mul freqHz r - freqHz * exact <= Q2Qc (1 # 1000000))%Qc) /\
  ((- Q2Qc (1 # 1000000) <= mul freqHz (sub 1 r) - freqHz * (1 - exact))%Qc /\
   (mul freqHz (sub 1 r) - freqHz * (1 - exact) <= Q2Qc (1 # 1000000))%Qc).
Proof.
  intros HA HD HD0 HA34 HB66 Ha0 Ha1 Hd0 Hd1 Hu0 Hu1 Hf0 Hf1 r exact.
  pose proof fl_zero as H0.
  destruct eps_bounds as [He0 He1]. destruct eta_bounds as [Hn0 Hn1].
  set (t := mul rnd D) in *.
  set (s := sub 1 r) in *.
  assert (r = fl (A + t)) as Hr by reflexivity.
  assert (t = fl (rnd * D)) as Ht by reflexivity.
  assert (s = fl (1 - r)) as Hs by reflexivity.
  unfold mul at 1 2 3 4.
  clearbody s. clearbody r. clearbody t.
  (* the rounded product [rnd * D] *)
  assert ((0 <= rnd * D)%Qc /\ (rnd * D <= D)%Qc) as [Hp0 Hp1].
  { split; [apply Qcmult_nonneg_nonneg; assumption|].
    clear - Hu0 Hu1 HD0. to_Q. change (this 1%Qc) with 1%Q in *.
    change (this 0%Qc) with 0%Q in *. nra. }
  assert ((- Q2Qc (32 # 100) <= rnd * D)%Qc /\ (rnd * D <= Q2Qc (32 # 100))%Qc) as [Hp2 Hp3].
  { clear - Hp0 Hp1 HA34 HB66. generalize dependent (rnd * D)%Qc. intros.
    to_Q. change (this 0%Qc) with 0%Q in *. split; lra. }
  destruct (fl_err _ _ Hp2 Hp3) as [Et0 Et1]. rewrite <- Ht in Et0, Et1.
  assert ((- Q2Qc (67 # 100) <= A + t)%Qc /\ (A + t <= Q2Qc (67 # 100))%Qc) as [Hq0 Hq1].
  { clear - Et0 Et1 Hp0 Hp1 HA34 HB66 He0 He1 Hn0 Hn1.
    generalize dependent (rnd * D)%Qc. generalize dependent eps. generalize dependent eta.
    intros. to_Q. change (this 0%Qc) with 0%Q in *. split; lra. }
  destruct (fl_err _ _ Hq0 Hq1) as [Er0 Er1]. rewrite <- Hr in Er0, Er1.
  (* [rnd * (D - d)] *)
  assert ((- Q2Qc 1 <= rnd)%Qc /\ (rnd <= Q2Qc 1)%Qc) as [Hu2 Hu3].
  { clear - Hu0 Hu1. to_Q. change (this 1%Qc) with 1%Q in *. change (this 0%Qc) with 0%Q in *.
    split; lra. }
  destruct (mul_bound rnd (D - d) _ _ (Q2Qc (1 # 10000000000000000)) Hu2 Hu3 Hd0 Hd1)
    as [G0 G1]; [vm_compute; discriminate|].
  set (g := (r - exact)%Qc).
  assert ((- Q2Qc (4 # 10000000000000000) <= g)%Qc /\ (g <= Q2Qc (4 # 10000000000000000))%Qc)
    as [Hg0 Hg1].
  { assert (g = (r - (A + t)) + (t - rnd * D) + rnd * (D - d) + (A - a))%Qc as ->
      by (unfold g, exact; ring).
    clear - Er0 Er1 Et0 Et1 G0 G1 Ha0 Ha1 He0 He1 Hn0 Hn1.
    generalize dependent (rnd * (D - d))%Qc. generalize dependent (rnd * D)%Qc.
    generalize dependent (A - a)%Qc.
    generalize dependent eps. generalize dependent eta.
    intros. to_Q. change (this 0%Qc) with 0%Q in *. split; lra. }
  assert ((- Q2Qc (67 # 100) <= r)%Qc /\ (r <= Q2Qc (67 # 100))%Qc) as [Hr2 Hr3].
  { clear - Er0 Er1 Hq0 Hq1 HA34 Et0 Et1 Hp0 Hp1 HB66 He0 He1 Hn0 Hn1.
    generalize dependent (rnd * D)%Qc.
    generalize dependent eps. generalize dependent eta.
    intros. to_Q. change (this 0%Qc) with 0%Q in *. split; lra. }
  assert ((Q2Qc (33 # 100) <= r)%Qc) as Hr4.
  { clear - Er0 Er1 Hq0 Hq1 HA34 Et0 Et1 Hp0 Hp1 HB66 He0 He1 Hn0 Hn1.
    generalize dependent (rnd * D)%Qc.
    generalize dependent eps. generalize dependent eta.
    intros. to_Q. change (this 0%Qc) with 0%Q in *. lra. }
  destruct (mul_bound freqHz r _ _ (Q2Qc 670000000) Hf0 Hf1 Hr2 Hr3) as [X1 X2];
    [vm_compute; discriminate|].
  destruct (fl_err _ _ X1 X2) as [El0 El1].
  destruct (mul_bound freqHz g _ _ (Q2Qc (4 # 10000000)) Hf0 Hf1 Hg0 Hg1) as [Z1 Z2];
    [vm_compute; discriminate|].
  split.
  { assert (freqHz * exact = freqHz * r - freqHz * g)%Qc as -> by (unfold g; ring).
    clear - El0 El1 Z1 Z2 He0 He1 Hn0 Hn1.
    generalize dependent (fl (freqHz * r)). generalize dependent (freqHz * r)%Qc.
    generalize dependent (freqHz * g)%Qc.
    generalize dependent eps. generalize dependent eta.
    intros. to_Q. change (this 0%Qc) with 0%Q in *. split; lra. }
  (* the complement *)
  assert ((- Q2Qc (67 # 100) <= 1 - r)%Qc /\ (1 - r <= Q2Qc (67 # 100))%Qc) as [Hs0 Hs1].
  { clear - Hr3 Hr4. to_Q. change (this 1%Qc) with 1%Q in *. split; lra. }
  destruct (fl_err _ _ Hs0 Hs1) as [Es0 Es1]. rewrite <- Hs in Es0, Es1.
  assert ((- Q2Qc (68 # 100) <= s)%Qc /\ (s <= Q2Qc (68 # 100))%Qc) as [Hs2 Hs3].
  { clear - Es0 Es1 Hs0 Hs1 He0 He1 Hn0 Hn1. generalize dependent eps. generalize dependent eta.
    intros. to_Q. change (this 1%Qc) with 1%Q in *. change (this 0%Qc) with 0%Q in *. split; lra. }
  destruct (mul_bound freqHz s _ _ (Q2Qc 680000000) Hf0 Hf1 Hs2 Hs3) as [Y1 Y2];
    [vm_compute; discriminate|].
  destruct (fl_err _ _ Y1 Y2) as [Eq0 Eq1].
  set (k := (s - (1 - exact))%Qc).
  assert ((- Q2Qc (5 # 10000000000000000) <= k)%Qc /\ (k <= Q2Qc (5 # 10000000000000000))%Qc)
    as [Hk0 Hk1].
  { assert (k = (s - (1 - r)) - g)%Qc as -> by (unfold k, g; ring).
    clear - Es0 Es1 Hg0 Hg1 He0 He1 Hn0 Hn1.
    generalize dependent g. generalize dependent eps. generalize dependent eta.
    intros. to_Q. change (this 1%Qc) with 1%Q in *. change (this 0%Qc) with 0%Q in *. split; lra. }
  destruct (mul_bound freqHz k _ _ (Q2Qc (5 # 10000000)) Hf0 Hf1 Hk0 Hk1) as [W1 W2];
    [vm_compute; discriminate|].
  assert (freqHz * (1 - exact) = freqHz * s - freqHz * k)%Qc as -> by (unfold k; ring).
  clear - Eq0 Eq1 W1 W2 He0 He1 Hn0 Hn1.
  generalize dependent (fl (freqHz * s)). generalize dependent (freqHz * s)%Qc.
  generalize dependent (freqHz * k)%Qc.
  generalize dependent eps. generalize dependent eta.
  intros. to_Q. change (this 0%Qc) with 0%Q in *. split; lra.
Qed.

(** The split of the band between the two echoes, in doubles: the
    fraction stays between the doubles 0.35 and 0.65, and the two offsets
    add up to the band within [10^-6]. *)
Lemma split_sum (toneMixV rnd freqHz : Qc) :
  (0 <= rnd)%Qc -> (rnd < 1)%Qc ->
  (- Q2Qc 1000000000 <= freqHz)%Qc -> (freqHz <= Q2Qc 1000000000)%Qc ->
  let o := Rounded.spatialEchoOptions toneMixV in
  let r := Rounded.randFrac o rnd in
  let leftOffset := Rounded.leftDiff o rnd freqHz in
  let rightOffset := Rounded.rightDiff o rnd freqHz in
  ((lit 0.35 <= r)%Qc /\ (r <= lit 0.65)%Qc) /\
  (- Q2Qc (1 # 1000000) <= leftOffset + rightOffset - freqHz)%Qc /\
  (leftOffset + rightOffset - freqHz <= Q2Qc (1 # 1000000))%Qc.
Proof.
  intros Hu0 Hu1 Hf0 Hf1.
  destruct split_constants as (HA & HD & HB & HD0 & HA34 & HB66).
  exact (split_sum_between _ _ _ rnd freqHz HA HD HB HD0 HA34 HB66 Hu0 Hu1 Hf0 Hf1).
Qed.

(** The offsets of the engine model, in exact arithmetic, are within
    [10^-6] of the offsets in doubles. *)
Lemma split_near_engine (toneMixV rnd freqHz : Qc) :
  (0 <= rnd)%Qc -> (rnd < 1)%Qc ->
  (- Q2Qc 1000000000 <= freqHz)%Qc -> (freqHz <= Q2Qc 1000000000)%Qc ->
  let o := Rounded.spatialEchoOptions toneMixV in
  let e := Audio.spatialEchoOptions toneMixV in
  ((- Q2Qc (1 # 1000000) <= Rounded.leftDiff o rnd freqHz - Audio.leftDiff e rnd freqHz)%Qc /\
   (Rounded.leftDiff o rnd freqHz - Audio.leftDiff e rnd freqHz <= Q2Qc (1 # 1000000))%Qc) /\
  ((- Q2Qc (1 # 1000000) <= Rounded.rightDiff o rnd freqHz - Audio.rightDiff e rnd freqHz)%Qc /\
   (Rounded.rightDiff o rnd freqHz - Audio.rightDiff e rnd freqHz <= Q2Qc (1 # 1000000))%Qc).
Proof.
  intros Hu0 Hu1 Hf0 Hf1.
  destruct split_constants as (HA & HD & HB & HD0 & HA34 & HB66).
  refine (split_near_exact (lit 0.35) (sub (lit 0.65) (lit 0.35)) (Q2Qc 0.35)
            (Q2Qc 0.65 - Q2Qc 0.35) rnd freqHz HA HD HD0 HA34 _ _ _ _ _ Hu0 Hu1 Hf0 Hf1);
    vm_compute; discriminate.
Qed.

(** At 7.83 Hz the two offsets of a split can miss the band by one unit
    in the last place. *)
Lemma split_sum_inexact :
  let o := Rounded.spatialEchoOptions 1 in
  let rnd := lit 0.22876222127045265 in
  let freqHz := lit 7.83 in
  Rounded.randFrac o rnd = lit 0.41862866638113577 /\
  Rounded.leftDiff o rnd freqHz = lit 3.277862457764293 /\
  Rounded.rightDiff o rnd freqHz = lit 4.552137542235706 /\
  (Rounded.leftDiff o rnd freqHz + Rounded.rightDiff o rnd freqHz < freqHz)%Qc /\
  add (Rounded.leftDiff o rnd freqHz) (Rounded.rightDiff o rnd freqHz) = lit 7.829999999999999.
Proof.
  cbv zeta. repeat apply conj; try (apply Qc_is_canon; vm_compute; reflexivity).
  vm_compute. reflexivity.
Qed.

(** At 7.83 Hz, with the carrier [200 + 7.83 * 3] the graph is built with,
    the two values a Binaural build assigns differ by a little less than
    the band. *)
Lemma binaural_beat_inexact :
  let freqHz := lit 7.83 in
  let audibleHz := add (Q2Qc 200) (mul freqHz (Q2Qc 3)) in
  audibleHz = lit 223.49 /\
  Rounded.leftFrequency audibleHz freqHz = lit 227.405 /\
  Rounded.rightFrequency audibleHz freqHz = lit 219.57500000000002 /\
  sub (Rounded.leftFrequency audibleHz freqHz) (Rounded.rightFrequency audibleHz freqHz)
  = lit 7.829999999999984.
Proof.
  cbv zeta. repeat apply conj; apply Qc_is_canon; vm_compute; reflexivity.
Qed.

(** At 14.1 Hz a breath cycle of 24 periods, multiplied back by the band,
    is a little more than 24. *)
Lemma breath_sec_inexact :
  Rounded.period (lit 14.1) = lit 0.07092198581560284 /\
  Rounded.sec (lit 14.1) 24 = lit 1.7021276595744683 /\
  mul (Rounded.sec (lit 14.1) 24) (lit 14.1) = lit 24.000000000000004.
Proof.
  repeat apply conj; apply Qc_is_canon; vm_compute; reflexivity.
Qed.

(** The two oscillators of a Binaural build, in doubles: the values
    assigned to their frequencies differ by the band within [10^-9]. *)
Lemma binaural_beat (audibleHz freqHz : Qc) :
  (- Q2Qc 20000 <= audibleHz)%Qc -> (audibleHz <= Q2Qc 20000)%Qc ->
  (- Q2Qc 1000 <= freqHz)%Qc -> (freqHz <= Q2Qc 1000)%Qc ->
  let beat := (Rounded.leftFrequency audibleHz freqHz
               - Rounded.rightFrequency audibleHz freqHz)%Qc in
  (- Q2Qc (1 # 1000000000) <= beat - freqHz)%Qc /\ (beat - freqHz <= Q2Qc (1 # 1000000000))%Qc.
Proof.
  intros Ha0 Ha1 Hf0 Hf1 beat.
  unfold beat, Rounded.leftFrequency, Rounded.rightFrequency, Rounded.halfDiff, add, sub, div.
  set (x := (freqHz / Q2Qc 2)%Qc).
  assert (Q2Qc 2 * x = freqHz)%Qc as Hx by (unfold x; field; discriminate).
  clearbody x.
  destruct eps_bounds as [He0 He1]. destruct eta_bounds as [Hn0 Hn1].
  assert ((- Q2Qc 500 <= x)%Qc /\ (x <= Q2Qc 500)%Qc) as [Hx0 Hx1].
  { clear - Hx Hf0 Hf1. rewrite <- Hx in Hf0, Hf1. to_Q. split; lra. }
  destruct (fl_err x _ Hx0 Hx1) as [Eh0 Eh1].
  set (h := fl x) in *. clearbody h.
  assert ((- Q2Qc 20501 <= audibleHz + h)%Qc /\ (audibleHz + h <= Q2Qc 20501)%Qc) as [Hl0 Hl1].
  { clear - Eh0 Eh1 Hx0 Hx1 Ha0 Ha1 He0 He1 Hn0 Hn1.
    generalize dependent eps. generalize dependent eta. intros.
    to_Q. change (this 0%Qc) with 0%Q in *. split; lra. }
  assert ((- Q2Qc 20501 <= audibleHz - h)%Qc /\ (audibleHz - h <= Q2Qc 20501)%Qc) as [Hr0 Hr1].
  { clear - Eh0 Eh1 Hx0 Hx1 Ha0 Ha1 He0 He1 Hn0 Hn1.
    generalize dependent eps. generalize dependent eta. intros.
    to_Q. change (this 0%Qc) with 0%Q in *. split; lra. }
  destruct (fl_err _ _ Hl0 Hl1) as [El0 El1]. destruct (fl_err _ _ Hr0 Hr1) as [Er0 Er1].
  rewrite <- Hx. clear - Eh0 Eh1 El0 El1 Er0 Er1 He0 He1 Hn0 Hn1.
  generalize dependent (fl (audibleHz + h)). generalize dependent (fl (audibleHz - h)).
  intros R Er0 Er1 L El0 El1.
  generalize dependent eps. generalize dependent eta. intros.
  to_Q. change (this 0%Qc) with 0%Q in *. split; lra.
Qed.

(** The breath cycle in doubles: within [10^-9] s of the multiplier
    times the band period, for a multiplier of the table and a band of at
    least a thousandth of a hertz. *)
Lemma breath_sec (bandHz : Qc) (m : Z) :
  (Q2Qc (1 # 1000) <= bandHz)%Qc -> (0 <= m <= 128)%Z ->
  let exact := (JsNum.ofZ m / bandHz)%Qc in
  (- Q2Qc (1 # 1000000000) <= Rounded.sec bandHz m - exact)%Qc /\
  (Rounded.sec bandHz m - exact <= Q2Qc (1 # 1000000000))%Qc.
Proof.
  intros Hb Hm exact. unfold exact, Rounded.sec, Rounded.period, mul, div.
  assert (0 < bandHz)%Qc as Hpos.
  { eapply Qclt_le_trans; [|exact Hb]. reflexivity. }
  destruct (decide (0 < bandHz)%Qc) as [_|Hn]; [|contradiction].
  assert (bandHz <> 0%Qc) as Hne by (intros E; apply (Qclt_not_eq _ _ Hpos); symmetry; exact E).
  set (p := (1 / bandHz)%Qc).
  assert (p * bandHz = 1)%Qc as Hp by (unfold p; field; exact Hne).
  assert (JsNum.ofZ m / bandHz = JsNum.ofZ m * p)%Qc as -> by (unfold p; field; exact Hne).
  assert ((0 <= JsNum.ofZ m)%Qc /\ (JsNum.ofZ m <= Q2Qc 128)%Qc) as [Hm0 Hm1].
  { split; [change 0%Qc with (JsNum.ofZ 0) | change (Q2Qc 128) with (JsNum.ofZ 128)];
      apply ofZ_le; lia. }
  set (M := JsNum.ofZ m) in *. clearbody M. clearbody p.
  destruct eps_bounds as [He0 He1]. destruct eta_bounds as [Hn0 Hn1].
  assert ((0 <= p)%Qc /\ (p <= Q2Qc 1000)%Qc) as [Hp0 Hp1].
  { assert (this p * this bandHz == 1)%Q as Hp'.
    { transitivity (this (p * bandHz)%Qc).
      - unfold Qcmult. cbn [this Q2Qc]. rewrite Qred_correct. reflexivity.
      - rewrite Hp. reflexivity. }
    clear - Hp' Hb Hpos. to_Q. change (this 0%Qc) with 0%Q in *.
    split; nra. }
  assert (- Q2Qc 1000 <= p)%Qc as Hp2.
  { clear - Hp0. to_Q. change (this 0%Qc) with 0%Q in *. lra. }
  destruct (fl_err p _ Hp2 Hp1) as [E0 E1].
  set (q := fl p) in *. clearbody q.
  assert ((- Q2Qc 1001 <= q)%Qc /\ (q <= Q2Qc 1001)%Qc) as [Hq0 Hq1].
  { clear - E0 E1 Hp0 Hp1 He0 He1 Hn0 Hn1. generalize dependent eps. generalize dependent eta.
    intros. to_Q. change (this 0%Qc) with 0%Q in *. split; lra. }
  assert (- Q2Qc 128 <= M)%Qc as Hm2.
  { clear - Hm0. to_Q. change (this 0%Qc) with 0%Q in *. lra. }
  destruct (mul_bound q M _ _ (Q2Qc 128128) Hq0 Hq1 Hm2 Hm1) as [X0 X1];
    [vm_compute; discriminate|].
  destruct (fl_err _ _ X0 X1) as [F0 F1].
  set (d := (q - p)%Qc).
  assert ((- Q2Qc (1 # 1000000000000) <= d)%Qc /\ (d <= Q2Qc (1 # 1000000000000))%Qc)
    as [Hd0 Hd1].
  { unfold d. clear - E0 E1 He0 He1 Hn0 Hn1. generalize dependent eps. generalize dependent eta.
    intros. to_Q. change (this 0%Qc) with 0%Q in *. split; lra. }
  destruct (mul_bound d M _ _ (Q2Qc (128 # 1000000000000)) Hd0 Hd1 Hm2 Hm1) as [Y0 Y1];
    [vm_compute; discriminate|].
  assert (q * M - d * M = M * p)%Qc as Hid by (unfold d; ring).
  rewrite <- Hid. clear - F0 F1 Y0 Y1 He0 He1 Hn0 Hn1.
  generalize dependent (fl (q * M)). generalize dependent (q * M)%Qc.
  generalize dependent (d * M)%Qc. intros y Y0 Y1 x s F0 F1.
  generalize dependent eps. generalize dependent eta. intros.
  to_Q. change (this 0%Qc) with 0%Q in *. split; lra.
Qed.

(** The phase offset in doubles: within [10^-9] ms of the fraction
    [phaseDeg / 360] of the band period, for a phase within a turn either
    way and a band of at least a thousandth of a hertz. *)
Lemma breath_phase (bandHz phaseDeg : Qc) :
  (Q2Qc (1 # 1000) <= bandHz)%Qc ->
  (- Q2Qc 360 <= phaseDeg)%Qc -> (phaseDeg <= Q2Qc 360)%Qc ->
  let exact := (phaseDeg / Q2Qc 360 * (Q2Qc 1000 / bandHz))%Qc in
  (- Q2Qc (1 # 1000000000) <= Rounded.phaseMs bandHz phaseDeg - exact)%Qc /\
  (Rounded.phaseMs bandHz phaseDeg - exact <= Q2Qc (1 # 1000000000))%Qc.
Proof.
  intros Hb Hp0 Hp1 exact. unfold exact, Rounded.phaseMs, mul, div.
  assert (0 < bandHz)%Qc as Hpos.
  { eapply Qclt_le_trans; [|exact Hb]. reflexivity. }
  destruct (decide (0 < bandHz)%Qc) as [_|Hn]; [|contradiction].
  assert (bandHz <> 0%Qc) as Hne by (intros E; apply (Qclt_not_eq _ _ Hpos); symmetry; exact E).
  set (x := (phaseDeg / Q2Qc 360)%Qc).
  set (y := (Q2Qc 1000 / bandHz)%Qc).
  assert (Q2Qc 360 * x = phaseDeg)%Qc as Hx by (unfold x; field; discriminate).
  assert (y * bandHz = Q2Qc 1000)%Qc as Hy by (unfold y; field; exact Hne).
  clearbody x y.
  destruct eps_bounds as [He0 He1]. destruct eta_bounds as [Hn0 Hn1].
  assert ((- Q2Qc 1 <= x)%Qc /\ (x <= Q2Qc 1)%Qc) as [Hx0 Hx1].
  { clear - Hx Hp0 Hp1. rewrite <- Hx in Hp0, Hp1. to_Q. split; lra. }
  assert ((0 <= y)%Qc /\ (y <= Q2Qc 1000000)%Qc) as [Hy0 Hy1].
  { assert (this y * this bandHz == 1000)%Q as Hy'.
    { transitivity (this (y * bandHz)%Qc).
      - unfold Qcmult. cbn [this Q2Qc]. rewrite Qred_correct. reflexivity.
      - rewrite Hy. reflexivity. }
    clear - Hy' Hb Hpos. to_Q. change (this 0%Qc) with 0%Q in *.
    split; nra. }
  assert (- Q2Qc 1000000 <= y)%Qc as Hy2.
  { clear - Hy0. to_Q. change (this 0%Qc) with 0%Q in *. lra. }
  destruct (fl_err x _ Hx0 Hx1) as [Ex0 Ex1]. destruct (fl_err y _ Hy2 Hy1) as [Ey0 Ey1].
  set (x' := fl x) in *. set (y' := fl y) in *. clearbody x' y'.
  set (dx := (x' - x)%Qc). set (dy := (y' - y)%Qc).
  assert ((- Q2Qc (13 # 100000000000000000) <= dx)%Qc /\ (dx <= Q2Qc (13 # 100000000000000000))%Qc)
    as [Hdx0 Hdx1].
  { unfold dx. clear - Ex0 Ex1 He0 He1 Hn0 Hn1. generalize dependent eps. generalize dependent eta.
    intros. to_Q. change (this 0%Qc) with 0%Q in *. split; lra. }
  assert ((- Q2Qc (13 # 100000000000) <= dy)%Qc /\ (dy <= Q2Qc (13 # 100000000000))%Qc)
    as [Hdy0 Hdy1].
  { unfold dy. clear - Ey0 Ey1 He0 He1 Hn0 Hn1. generalize dependent eps. generalize dependent eta.
    intros. to_Q. change (this 0%Qc) with 0%Q in *. split; lra. }
  assert ((- Q2Qc 2 <= x')%Qc /\ (x' <= Q2Qc 2)%Qc) as [Hx2 Hx3].
  { clear - Hdx0 Hdx1 Hx0 Hx1. unfold dx in *. to_Q. split; lra. }
  assert ((- Q2Qc 1000001 <= y')%Qc /\ (y' <= Q2Qc 1000001)%Qc) as [Hy3 Hy4].
  { clear - Hdy0 Hdy1 Hy2 Hy1. unfold dy in *. to_Q. split; lra. }
  destruct (mul_bound x' y' _ _ (Q2Qc 2000002) Hx2 Hx3 Hy3 Hy4) as [P0 P1];
    [vm_compute; discriminate|].
  destruct (fl_err _ _ P0 P1) as [F0 F1].
  destruct (mul_bound x' dy _ _ (Q2Qc (26 # 100000000000)) Hx2 Hx3 Hdy0 Hdy1) as [A0 A1];
    [vm_compute; discriminate|].
  destruct (mul_bound dx y _ _ (Q2Qc (13 # 100000000000)) Hdx0 Hdx1 Hy2 Hy1) as [B0 B1];
    [vm_compute; discriminate|].
  assert (x * y = x' * y' - x' * dy - dx * y)%Qc as -> by (unfold dx, dy; ring).
  clear - F0 F1 A0 A1 B0 B1 He0 He1 Hn0 Hn1.
  generalize dependent (fl (x' * y')). generalize dependent (x' * y')%Qc.
  generalize dependent (x' * dy)%Qc. generalize dependent (dx * y)%Qc.
  generalize dependent eps. generalize dependent eta.
  intros. to_Q. change (this 0%Qc) with 0%Q in *. split; lra.
Qed.

End RoundedFacts.

(** ** The audio graph *)

Section GraphFacts.
Import Audio Samples.

Lemma node_view_inj (n1 n2 : Node) : nodeView n1 = nodeView n2 -> n1 = n2.
Proof.
  destruct n1 as [k1 v1 a1 b1 c1], n2 as [k2 v2 a2 b2 c2]. unfold nodeView. cbn.
  intros [= -> Hv -> -> ->]. f_equal. apply Qc_this_inj. exact Hv.
Qed.

(** C4: a graph built with the birds sample decoded, then torn down
    twice.  Neither teardown raises and no timer is left pending, but the
    birds buffer source, started by the build, is neither stopped nor
    disconnected: it is still running after the first and after the second
    teardown, and [birdsSource] still refers to it.  With the birds and the
    waves streamed, both [<audio>] elements are left playing. *)
Theorem C4_teardown_leaves_birds_source_running :
  let g := built binauralControls in
  let g1 := exec stopCurrentAudio g in
  let g2 := exec stopCurrentAudio g1 in
  returns (startGraph binauralControls (Q2Qc 7.83)) initial = true /\
  returns stopCurrentAudio g = true /\
  returns stopCurrentAudio g1 = true /\
  g2 = g1 /\
  timers g1 = ∅ /\
  globals g1 !! birdsSource = Some 22%nat /\
  nodeView <$> nodes g1 !! 22%nat = Some (BufferSource, 0%Q, true, false, false) /\
  liveNodes g = [2; 4; 6; 7; 12; 16; 22; 25]%nat /\
  liveNodes g1 = [22]%nat /\
  liveNodes g2 = [22]%nat /\
  liveNodes (exec stopCurrentAudio (built streamedControls)) = [19; 23]%nat.
Proof.
  cbv zeta. repeat apply conj; vm_compute; reflexivity.
Qed.

(** C7: in Binaural mode at 7.83 Hz with the carrier slider at 230 Hz, the
    carrier is silenced and the two oscillators differ by the band, but
    they play at 227.405 Hz and 219.575 Hz, around the mapped carrier
    200 + 3 * 7.83 = 223.49 Hz, not at 233.915 Hz and 226.085 Hz:
    [updateCarrierLabel] sets the base oscillator to 230 Hz and then rebuilds
    the graph, and the build takes the carrier from the band alone. *)
Theorem C7_binaural_ignores_carrier_slider :
  let g := exec (updateCarrierLabel binauralControls (Q2Qc 230) (Q2Qc 7.83))
                (built binauralControls) in
  mapBandToAudible (Q2Qc 7.83) = Q2Qc 223.49 /\
  nodeView <$> (globals g !! baseGain ≫= fun id => nodes g !! id) =
    Some (Gain, 0%Q, false, false, false) /\
  extraOscillators g = [Q2Qc (783 # 12800); Q2Qc 227.405; Q2Qc 219.575] /\
  (Q2Qc 227.405 - Q2Qc 219.575 = Q2Qc 7.83)%Qc /\
  extraOscillators g <> [Q2Qc (783 # 12800); Q2Qc 233.915; Q2Qc 226.085].
Proof.
  cbv zeta.
  assert (extraOscillators
            (exec (updateCarrierLabel binauralControls (Q2Qc 230) (Q2Qc 7.83))
                  (built binauralControls))
          = [Q2Qc (783 # 12800); Q2Qc 227.405; Q2Qc 219.575]) as Hosc.
  { apply map_this_inj. vm_compute. reflexivity. }
  repeat apply conj.
  - apply Qc_this_inj. vm_compute. reflexivity.
  - vm_compute. reflexivity.
  - exact Hosc.
  - apply Qc_this_inj. vm_compute. reflexivity.
  - rewrite Hosc. intros H. apply (f_equal (map this)) in H. vm_compute in H. discriminate.
Qed.

(** C3 (as stated) fails for Ambient Echo: the only oscillator an Ambient
    Echo build registers is the stereo-motion oscillator, so the graph has
    no pair of oscillators detuned by offsets that sum to the band; a
    Spatial Echo build has one. *)
Lemma C3_ambient_echo_has_no_detuned_pair :
  returns (startGraph ambientControls (Q2Qc 7.83)) initial = true /\
  extraOscillators (built ambientControls) = [Q2Qc (783 # 12800)] /\
  HasEchoPair (Q2Qc 7.83) (built spatialControls) /\
  ~ HasEchoPair (Q2Qc 7.83) (built ambientControls).
Proof.
  assert (extraOscillators (built ambientControls) = [Q2Qc (783 # 12800)]) as Hosc.
  { apply map_this_inj. vm_compute. reflexivity. }
  repeat apply conj.
  - vm_compute. reflexivity.
  - exact Hosc.
  - exists (Q2Qc 7.83 * Q2Qc 0.425)%Qc, (Q2Qc 7.83 * (1 - Q2Qc 0.425))%Qc.
    assert (extraOscillators (built spatialControls) =
            [Q2Qc (783 # 12800);
             mapBandToAudible (Q2Qc 7.83) + Q2Qc 7.83 * Q2Qc 0.425;
             mapBandToAudible (Q2Qc 7.83) - Q2Qc 7.83 * (1 - Q2Qc 0.425)]%Qc) as ->.
    { apply map_this_inj. vm_compute. reflexivity. }
    repeat apply conj; [ring | right; left; reflexivity | right; right; left; reflexivity].
  - intros (l & r & Hsum & Hl & Hr). rewrite Hosc in Hl, Hr.
    destruct Hl as [Hl | []], Hr as [Hr | []].
    assert (l + r = Q2Qc 0)%Qc as Hzero.
    { replace l with (Q2Qc (783 # 12800) - mapBandToAudible (Q2Qc 7.83))%Qc
        by (rewrite Hl; ring).
      replace r with (mapBandToAudible (Q2Qc 7.83) - Q2Qc (783 # 12800))%Qc
        by (rewrite Hr; ring).
      ring. }
    rewrite Hzero in Hsum. apply (f_equal this) in Hsum. vm_compute in Hsum. discriminate.
Qed.


Lemma run_create_bind {B : Type} (k : NodeKind) (v : Qc) (h : nat -> Cmd B) (s : AudioState) :
  (create k v ≫= h) s =
  h (length (nodes s)) (setNodes (nodes s ++ [mkNode k v false false false]) s).
Proof. reflexivity. Qed.

(** [start] on a scheduled source that has not been started. *)
Lemma run_start_bind {B : Type} (id : nat) (h : unit -> Cmd B) (s : AudioState)
    (l r : list Node) (n : Node) :
  nodes s = l ++ n :: r ->
  id = length l ->
  isScheduledSource (kind n) = true ->
  started n = false ->
  (start id ≫= h) s =
  h tt (setNodes (l ++ mkNode (kind n) (value n) true (stopped n) (disconnected n) :: r) s).
Proof.
  intros Hn -> Hk Hs. unfold mbind, Js_bind, start.
  rewrite Hn, list_lookup_middle by reflexivity. rewrite Hk, Hs. cbn [andb negb].
  unfold updNode, modify. rewrite Hn.
  replace (length l) with (length l + 0)%nat at 1 by lia.
  rewrite alter_app_r. reflexivity.
Qed.

Lemma randFrac_bounds (toneMixV rnd : Qc) :
  (Q2Qc 0 <= rnd)%Qc -> (rnd < Q2Qc 1)%Qc ->
  (Q2Qc 0.35 <= randFrac (spatialEchoOptions toneMixV) rnd)%Qc /\
  (randFrac (spatialEchoOptions toneMixV) rnd < Q2Qc 0.65)%Qc.
Proof.
  intros Hlo Hhi. unfold randFrac, spatialEchoOptions. cbn [splitMin splitMax].
  assert (Q2Qc 0.65 - Q2Qc 0.35 = Q2Qc 0.3)%Qc as -> by (apply Qc_this_inj; reflexivity).
  split.
  - rewrite <- (Qcplus_0_r (Q2Qc 0.35)) at 1.
    apply Qcplus_le_mono_l. apply Qcmult_nonneg_nonneg; [exact Hlo | discriminate].
  - assert (Q2Qc 0.65 = Q2Qc 0.35 + Q2Qc 1 * Q2Qc 0.3)%Qc as ->
        by (apply Qc_this_inj; reflexivity).
    apply Qcplus_lt_mono_l. apply Qcmult_lt_mono_pos_r; [reflexivity | exact Hhi].
Qed.

(** C3 (as amended): the split of a Spatial Echo build, computed in
    doubles as the code computes it.  For a random number in [0, 1) and a
    band of at most [10^9] Hz either way, the split fraction lies between
    the doubles 0.35 and 0.65, the two offsets are the rounded products
    of the band by the fraction and by its complement, and their sum is
    the band within [10^-6].  The offsets the engine model carries in
    exact arithmetic are within [10^-6] of them; with those the build
    creates the two echo oscillators, [audible + leftOffset] and
    [audible - rightOffset], two delays, two gains and two panners, and
    starts the oscillators.  An Ambient Echo build silences the carrier
    and creates no node. *)
Theorem C3_spatial_echo_offsets_sum_to_band (c : Controls) (s : AudioState)
    (audibleHz freqHz depthVal toneMixV : Qc) (mg bg bo : nat) :
  audioCtx s = true ->
  globals s !! masterGain = Some mg ->
  globals s !! baseGain = Some bg ->
  globals s !! baseOsc = Some bo ->
  (Q2Qc 0 <= random c)%Qc ->
  (random c < Q2Qc 1)%Qc ->
  (- Q2Qc 1000000000 <= freqHz)%Qc ->
  (freqHz <= Q2Qc 1000000000)%Qc ->
  let o := Rounded.spatialEchoOptions toneMixV in
  let r := Rounded.randFrac o (random c) in
  let leftOffset := Rounded.leftDiff o (random c) freqHz in
  let rightOffset := Rounded.rightDiff o (random c) freqHz in
  let exactLeft := leftDiff (spatialEchoOptions toneMixV) (random c) freqHz in
  let exactRight := rightDiff (spatialEchoOptions toneMixV) (random c) freqHz in
  let build := createStimulation c audibleHz freqHz depthVal toneMixV in
  ((Double.lit 0.35 <= r)%Qc /\ (r <= Double.lit 0.65)%Qc) /\
  leftOffset = Double.mul freqHz r /\
  rightOffset = Double.mul freqHz (Double.sub 1 r) /\
  ((- Q2Qc (1 # 1000000) <= leftOffset + rightOffset - freqHz)%Qc /\
   (leftOffset + rightOffset - freqHz <= Q2Qc (1 # 1000000))%Qc) /\
  (((- Q2Qc (1 # 1000000) <= leftOffset - exactLeft)%Qc /\
    (leftOffset - exactLeft <= Q2Qc (1 # 1000000))%Qc) /\
   ((- Q2Qc (1 # 1000000) <= rightOffset - exactRight)%Qc /\
    (rightOffset - exactRight <= Q2Qc (1 # 1000000))%Qc)) /\
  (String.eqb (stimulationMode c) "am" = false ->
   String.eqb (stimulationMode c) "binaural" = false ->
   String.eqb (stimulationMode c) "ambient" = false ->
   returns build s = true /\
   nodes (exec build s) =
     alter (withValue (depthVal * Q2Qc 0.21 * toneMixV)) bg (nodes s) ++
     [ mkNode Oscillator (audibleHz + exactLeft) true false false;
       mkNode Oscillator (audibleHz - exactRight) true false false;
       mkNode Delay (Q2Qc 0.11) false false false;
       mkNode Delay (Q2Qc 0.14) false false false;
       mkNode Gain (depthVal * Q2Qc 0.26 * toneMixV) false false false;
       mkNode Gain (depthVal * Q2Qc 0.26 * toneMixV) false false false;
       mkNode StereoPanner (-1) false false false;
       mkNode StereoPanner 1 false false false ] /\
   extraNodes (exec build s) = extraNodes s ++ seq (length (nodes s)) 8) /\
  (stimulationMode c = "ambient"%string ->
   returns build s = true /\
   nodes (exec build s) = alter (withValue 0) bg (nodes s) /\
   extraNodes (exec build s) = extraNodes s).
Proof.
  intros Hctx Hmg Hbg Hbo Hlo Hhi Hf0 Hf1 o r leftOffset rightOffset exactLeft exactRight build.
  destruct (split_sum toneMixV (random c) freqHz Hlo Hhi Hf0 Hf1) as (Hr & Hsum).
  split; [exact Hr|].
  split; [reflexivity|]. split; [reflexivity|].
  split; [exact Hsum|].
  split; [exact (split_near_engine toneMixV (random c) freqHz Hlo Hhi Hf0 Hf1)|].
  split.
  - intros Ham Hbin Hamb. unfold build, createStimulation. rewrite Ham, Hbin, Hamb.
    unfold returns, exec, createBandSplitEchoCluster, getG. js_run.
    rewrite Hctx, Hmg, Hbg, Hbo.
    unfold setValue, updNode, pushExtra. js_run.
    rewrite !run_create_bind. cbn [nodes setNodes].
    set (l0 := alter _ bg (nodes s)).
    assert (length l0 = length (nodes s)) as Hlen by (unfold l0; apply length_alter).
    erewrite (run_start_bind _ _ _ l0);
      [| cbn [nodes setNodes]; rewrite <- !app_assoc; reflexivity
       | reflexivity | reflexivity | reflexivity ].
    erewrite (run_start_bind _ _ _ (l0 ++ [_]));
      [| cbn [nodes setNodes]; rewrite <- app_assoc; reflexivity
       | rewrite !length_app; reflexivity | reflexivity | reflexivity ].
    js_run. cbn [fst snd nodes setNodes setExtraNodes extraNodes kind value stopped disconnected].
    repeat apply conj.
    + reflexivity.
    + rewrite <- app_assoc. reflexivity.
    + rewrite !length_app, Hlen. cbn [length seq]. f_equal.
      repeat (f_equal; try lia).
  - intros Hamb. unfold build, createStimulation. rewrite Hamb.
    cbn [String.eqb Ascii.eqb Bool.eqb].
    unfold returns, exec, setValueG, getG. js_run. rewrite Hbg. 
    unfold setValue, updNode. js_run. repeat apply conj; reflexivity.
Qed.

(** A Spatial Echo cluster at 7.83 Hz, with the random number at 0.25. *)
Lemma C3_spatial_echo_offsets_sum_to_band_witness :
  let o := Rounded.spatialEchoOptions (Q2Qc 1) in
  let leftOffset := Rounded.leftDiff o (Q2Qc 0.25) (Q2Qc 7.83) in
  let rightOffset := Rounded.rightDiff o (Q2Qc 0.25) (Q2Qc 7.83) in
  ((- Q2Qc (1 # 1000000) <= leftOffset + rightOffset - Q2Qc 7.83)%Qc /\
   (leftOffset + rightOffset - Q2Qc 7.83 <= Q2Qc (1 # 1000000))%Qc) /\
  extraNodes (exec (createStimulation spatialControls (Q2Qc 223.49) (Q2Qc 7.83)
                                      (Q2Qc 0.7) (Q2Qc 1)) carrierOnly) =
    [3; 4; 5; 6; 7; 8; 9; 10]%nat.
Proof.
  assert (Q2Qc 0 <= random spatialControls)%Qc as Hlo by (vm_compute; discriminate).
  assert (random spatialControls < Q2Qc 1)%Qc as Hhi by (vm_compute; reflexivity).
  assert (- Q2Qc 1000000000 <= Q2Qc 7.83)%Qc as Hf0 by (vm_compute; discriminate).
  assert (Q2Qc 7.83 <= Q2Qc 1000000000)%Qc as Hf1 by (vm_compute; discriminate).
  destruct (C3_spatial_echo_offsets_sum_to_band spatialControls carrierOnly
              (Q2Qc 223.49) (Q2Qc 7.83) (Q2Qc 0.7) (Q2Qc 1) 0 2 1
              eq_refl eq_refl eq_refl eq_refl Hlo Hhi Hf0 Hf1)
    as (_ & _ & _ & Hsum & _ & Hspatial & _).
  destruct (Hspatial eq_refl eq_refl eq_refl) as (_ & _ & Hextra).
  split; [exact Hsum | exact Hextra].
Defined.

(** For every band, a Binaural build silences the carrier and starts two
    oscillators, at [audibleHz + freqHz / 2] and [audibleHz - freqHz / 2],
    panned hard left and hard right: they differ by the band exactly. *)
Lemma binaural_pair_differs_by_band (c : Controls) (s : AudioState)
    (audibleHz freqHz depthVal toneMixV : Qc) (bg : nat) :
  stimulationMode c = "binaural"%string ->
  globals s !! baseGain = Some bg ->
  let build := createStimulation c audibleHz freqHz depthVal toneMixV in
  let leftFreq := (audibleHz + freqHz / Q2Qc 2)%Qc in
  let rightFreq := (audibleHz - freqHz / Q2Qc 2)%Qc in
  (leftFreq - rightFreq = freqHz)%Qc /\
  returns build s = true /\
  nodes (exec build s) =
    alter (withValue 0) bg (nodes s) ++
    [ mkNode Oscillator leftFreq true false false;
      mkNode Oscillator rightFreq true false false;
      mkNode Gain (depthVal * Q2Qc 0.6 * toneMixV) false false false;
      mkNode Gain (depthVal * Q2Qc 0.6 * toneMixV) false false false;
      mkNode StereoPanner (-1) false false false;
      mkNode StereoPanner 1 false false false ] /\
  extraNodes (exec build s) = extraNodes s ++ seq (length (nodes s)) 6.
Proof.
  intros Hmode Hbg build leftFreq rightFreq. split.
  - unfold leftFreq, rightFreq, Qcdiv.
    assert (/ Q2Qc 2 + / Q2Qc 2 = 1)%Qc as Hhalves by (apply Qc_this_inj; vm_compute; reflexivity).
    transitivity (freqHz * (/ Q2Qc 2 + / Q2Qc 2))%Qc; [ring | rewrite Hhalves; ring].
  - unfold build, createStimulation. rewrite Hmode. cbn [String.eqb Ascii.eqb Bool.eqb].
    unfold returns, exec, setValueG, getG. js_run. rewrite Hbg.
    unfold setValue, updNode, pushExtra. js_run.
    rewrite !run_create_bind. cbn [nodes setNodes].
    set (l0 := alter _ bg (nodes s)).
    assert (length l0 = length (nodes s)) as Hlen by (unfold l0; apply length_alter).
    erewrite (run_start_bind _ _ _ l0);
      [| cbn [nodes setNodes]; rewrite <- !app_assoc; reflexivity
       | reflexivity | reflexivity | reflexivity ].
    erewrite (run_start_bind _ _ _ (l0 ++ [_]));
      [| cbn [nodes setNodes]; rewrite <- app_assoc; reflexivity
       | rewrite !length_app; reflexivity | reflexivity | reflexivity ].
    js_run. cbn [fst snd nodes setNodes setExtraNodes extraNodes kind value stopped disconnected].
    repeat apply conj.
    + reflexivity.
    + rewrite <- app_assoc. reflexivity.
    + rewrite !length_app, Hlen. cbn [length seq]. f_equal.
      repeat (f_equal; try lia).
Qed.

End GraphFacts.

(** ** Chord-loop ranking (app.js, lines 305-357) *)

Section SortFacts.
Context {A : Type} (cmp : A -> A -> Z).

Lemma js_insert_perm (x : A) (l : list A) : Permutation (js_insert cmp x l) (x :: l).
Proof.
  induction l as [|y l IH]; cbn [js_insert]; [reflexivity|].
  destruct (cmp x y <=? 0)%Z; [reflexivity|].
  rewrite IH. apply perm_swap.
Qed.

Lemma js_sort_perm (l : list A) : Permutation (js_sort cmp l) l.
Proof.
  induction l as [|x l IH]; cbn [js_sort]; [reflexivity|].
  rewrite js_insert_perm. now apply Permutation_cons.
Qed.

Hypothesis cmp_anti : forall x y, (0 < cmp x y)%Z -> (cmp y x <= 0)%Z.
Hypothesis cmp_trans :
  forall x y z, (cmp x y <= 0)%Z -> (cmp y z <= 0)%Z -> (cmp x z <= 0)%Z.

Lemma js_insert_sorted (x : A) (l : list A) :
  StronglySorted (fun a b => (cmp a b <= 0)%Z) l ->
  StronglySorted (fun a b => (cmp a b <= 0)%Z) (js_insert cmp x l).
Proof using cmp_anti cmp_trans.
  induction 1 as [|y l Hsorted IH Hall]; cbn [js_insert].
  - repeat constructor.
  - destruct (Z.leb_spec (cmp x y) 0) as [Hle | Hgt].
    + constructor; [now constructor|]. constructor; [exact Hle|].
      eapply Forall_impl; [exact Hall|]. intros z Hz. now apply (cmp_trans x y z).
    + constructor; [exact IH|].
      rewrite js_insert_perm. constructor; [now apply cmp_anti | exact Hall].
Qed.

Lemma js_sort_sorted (l : list A) :
  StronglySorted (fun a b => (cmp a b <= 0)%Z) (js_sort cmp l).
Proof using cmp_anti cmp_trans.
  induction l as [|x l IH]; cbn [js_sort]; [constructor | now apply js_insert_sorted].
Qed.
End SortFacts.

Lemma StronglySorted_weaken {A : Type} (R S : A -> A -> Prop) (l : list A) :
  (forall x y, R x y -> S x y) -> StronglySorted R l -> StronglySorted S l.
Proof.
  intros HRS. induction 1 as [|a l Hsorted IH Hall]; constructor; [exact IH|].
  eapply Forall_impl; [exact Hall|]. intros y. apply HRS.
Qed.

Lemma StronglySorted_lookup_lt {A : Type} (R : A -> A -> Prop) (l : list A) (i j : nat) (x y : A) :
  StronglySorted R l -> l !! i = Some x -> l !! j = Some y -> (i < j)%nat -> R x y.
Proof.
  intros Hsorted. revert i j. induction Hsorted as [|a l Hsorted IH Hall]; intros i j Hi Hj Hlt.
  - discriminate.
  - destruct j as [|j]; [lia|]. destruct i as [|i].
    + injection Hi as <-. cbn in Hj. rewrite Forall_forall in Hall.
      apply Hall. eapply list_elem_of_lookup_2. exact Hj.
    + cbn in Hi, Hj. apply (IH i j); [assumption | assumption | lia].
Qed.

Section ChordFacts.
Import Chords Samples.

Lemma addKeywordMatches_count (w : Z) (text : string) (keys : list string) (score : Z) :
  addKeywordMatches w text keys score = (score + w * keywordMatches text keys)%Z.
Proof.
  unfold addKeywordMatches, keywordMatches. revert score.
  induction keys as [|k keys IH]; intros score; cbn [fold_left List.filter].
  - cbn. lia.
  - rewrite IH. destruct (negb (String.eqb k "") && includes text (toLowerCase k)).
    + cbn [length]. lia.
    + reflexivity.
Qed.

Lemma addTempo_shift (range : list Z) (bpm : option Z) (score : Z) :
  addTempo range bpm score = (score + addTempo range bpm 0)%Z.
Proof.
  unfold addTempo. destruct bpm as [b|]; [|lia].
  destruct (match range !! 0%nat with
            | Some lo => match range !! 1%nat with
                         | Some hi => (lo <=? b)%Z && (b <=? hi)%Z
                         | None => false
                         end
            | None => false
            end); destruct (155 <? b)%Z; lia.
Qed.

(** The score is the sum of its five parts. *)
Lemma scoreChordLoop_parts (prefs : option Preferences) (loop : ChordLoop) :
  scoreChordLoop prefs loop =
  (tempoScore prefs loop + baseScore loop + 45 * favoriteMatches prefs loop
   + 14 * meditationMatches prefs loop - 18 * avoidMatches prefs loop)%Z.
Proof.
  unfold scoreChordLoop, tempoScore, baseScore, favoriteMatches, meditationMatches,
    avoidMatches. cbv zeta. rewrite !addKeywordMatches_count. lia.
Qed.

Lemma compareScored_ranked (collate : string -> string -> Z) (x y : ChordLoop * Z) :
  (compareScored collate x y <= 0)%Z <-> rankedBefore collate x y.
Proof.
  unfold compareScored, rankedBefore.
  destruct (Z.eqb_spec (snd y) (snd x)) as [Heq | Hne]; cbn [negb]; split.
  - intros H. right. split; [symmetry; exact Heq | exact H].
  - intros [H | [_ H]]; [lia | exact H].
  - intros H. left. lia.
  - intros [H | [H _]]; [lia | congruence].
Qed.

Lemma compareScored_anti (collate : string -> string -> Z) :
  Collation collate ->
  forall x y, (0 < compareScored collate x y)%Z -> (compareScored collate y x <= 0)%Z.
Proof.
  intros [Hanti _] x y. unfold compareScored.
  destruct (Z.eqb_spec (snd y) (snd x)) as [Heq | Hne],
           (Z.eqb_spec (snd x) (snd y)) as [Heq' | Hne']; cbn [negb]; try lia; try congruence.
  apply Hanti.
Qed.

Lemma compareScored_trans (collate : string -> string -> Z) :
  Collation collate ->
  forall x y z, (compareScored collate x y <= 0)%Z -> (compareScored collate y z <= 0)%Z ->
                (compareScored collate x z <= 0)%Z.
Proof.
  intros [_ Htrans] x y z. rewrite !compareScored_ranked. unfold rankedBefore.
  intros [Hxy | [Hxy Hn]] [Hyz | [Hyz Hm]]; try (left; lia).
  right. split; [congruence|]. eapply Htrans; eassumption.
Qed.

Lemma compare_not_after_trans (a b c : string) :
  String_as_OT.compare a b <> Gt -> String_as_OT.compare b c <> Gt ->
  String_as_OT.compare a c <> Gt.
Proof.
  intros Hab Hbc.
  destruct (String_as_OT.compare_spec a b) as [Eab | Lab | Gab]; [ | | easy ].
  { unfold String_as_OT.eq in Eab. now subst b. }
  destruct (String_as_OT.compare_spec b c) as [Ebc | Lbc | Gbc]; [ | | easy ].
  { unfold String_as_OT.eq in Ebc. subst c. unfold String_as_OT.lt in Lab. congruence. }
  assert (String_as_OT.lt a c) as Hac by (etransitivity; eassumption).
  unfold String_as_OT.lt in Hac. congruence.
Qed.

Lemma caseInsensitiveCompare_collation : Collation caseInsensitiveCompare.
Proof.
  split.
  - intros a b. unfold caseInsensitiveCompare.
    destruct (String_as_OT.compare_spec (toLowerCase a) (toLowerCase b)) as [E | L | G];
      [lia | lia |].
    intros _. unfold String_as_OT.lt in G. rewrite G. lia.
  - intros a b c Hab Hbc.
    assert (String_as_OT.compare (toLowerCase a) (toLowerCase c) <> Gt) as Hac.
    { apply (compare_not_after_trans _ (toLowerCase b)).
      - unfold caseInsensitiveCompare in Hab.
        destruct (String_as_OT.compare (toLowerCase a) (toLowerCase b));
          [discriminate | discriminate | lia].
      - unfold caseInsensitiveCompare in Hbc.
        destruct (String_as_OT.compare (toLowerCase b) (toLowerCase c));
          [discriminate | discriminate | lia]. }
    unfold caseInsensitiveCompare.
    destruct (String_as_OT.compare (toLowerCase a) (toLowerCase c)); [lia | lia | congruence].
Qed.

(** The collation of the English locales is a collation. *)
Lemma localeCompare_collation : Collation Locale.localeCompare.
Proof.
  split.
  - intros a b. unfold Locale.localeCompare.
    destruct (String_as_OT.compare_spec (Locale.sortKey a) (Locale.sortKey b)) as [E | L | G];
      [lia | lia |].
    intros _. unfold String_as_OT.lt in G. rewrite G. lia.
  - intros a b c Hab Hbc.
    assert (String_as_OT.compare (Locale.sortKey a) (Locale.sortKey c) <> Gt) as Hac.
    { apply (compare_not_after_trans _ (Locale.sortKey b)).
      - unfold Locale.localeCompare in Hab.
        destruct (String_as_OT.compare (Locale.sortKey a) (Locale.sortKey b));
          [discriminate | discriminate | lia].
      - unfold Locale.localeCompare in Hbc.
        destruct (String_as_OT.compare (Locale.sortKey b) (Locale.sortKey c));
          [discriminate | discriminate | lia]. }
    unfold Locale.localeCompare.
    destruct (String_as_OT.compare (Locale.sortKey a) (Locale.sortKey c)); [lia | lia | congruence].
Qed.

(** C10 (as stated) fails on the tie-break.  Two loops of equal score
    named [Glow1a] and [Glow_a] are ranked [Glow_a] first by the collation
    of the English locales, which puts punctuation before digits; a
    case-insensitive lexicographic comparison puts [Glow1a] first, so the
    ranking is not sorted by it.  Two loops named [Glow] and [glow] are
    ranked [glow] first, where a case-insensitive comparison finds them
    equal and leaves them in the order of the manifest. *)
Lemma C10_ties_follow_the_locale_collation :
  let view := map (fun entry : ChordLoop * Z => (sortName (fst entry), snd entry)) in
  let digit := [mkLoop "Glow1a" "one.wav"; mkLoop "Glow_a" "two.wav"] in
  let upper := [mkLoop "Glow" "one.wav"; mkLoop "glow" "two.wav"] in
  view (sortChordLoops Locale.localeCompare None digit) = [("Glow_a", 0%Z); ("Glow1a", 0%Z)] /\
  caseInsensitiveCompare "Glow_a" "Glow1a" = 1%Z /\
  view (sortChordLoops caseInsensitiveCompare None digit) = [("Glow1a", 0%Z); ("Glow_a", 0%Z)] /\
  ~ StronglySorted (rankedBefore caseInsensitiveCompare)
      (sortChordLoops Locale.localeCompare None digit) /\
  view (sortChordLoops Locale.localeCompare None upper) = [("glow", 0%Z); ("Glow", 0%Z)] /\
  caseInsensitiveCompare "Glow" "glow" = 0%Z /\
  view (sortChordLoops caseInsensitiveCompare None upper) = [("Glow", 0%Z); ("glow", 0%Z)].
Proof.
  cbv zeta. repeat apply conj; try (vm_compute; reflexivity).
  assert (sortChordLoops Locale.localeCompare None
            [mkLoop "Glow1a" "one.wav"; mkLoop "Glow_a" "two.wav"]
          = [(mkLoop "Glow_a" "two.wav", 0%Z); (mkLoop "Glow1a" "one.wav", 0%Z)]) as ->
    by (vm_compute; reflexivity).
  intros H. apply StronglySorted_inv in H as [_ H].
  apply Forall_inv in H. destruct H as [H | [_ H]].
  - cbn in H. lia.
  - vm_compute in H. apply H. reflexivity.
Qed.

(** C10 (as amended): an entry that matches a favourite keyword outscores
    an entry that matches none and is otherwise equal (same tempo part,
    same built-in part, same avoid matches) even when that entry matches
    one meditation keyword more: [45 > 14].  With any collation in the
    place of [localeCompare], [sortChordLoops] returns the scored entries
    rearranged so that each entry has a higher score than every later one,
    or the same score and a name that [localeCompare] does not put after
    it; so every occurrence of the favourite entry stands strictly ahead
    of every occurrence of the other. *)
Theorem C10_favorite_outranks_meditation
    (localeCompare : string -> string -> Z) (chordPreferences : option Preferences)
    (fav med : ChordLoop) (loops : list ChordLoop) :
  Collation localeCompare ->
  tempoScore chordPreferences fav = tempoScore chordPreferences med ->
  baseScore fav = baseScore med ->
  avoidMatches chordPreferences fav = avoidMatches chordPreferences med ->
  (1 <= favoriteMatches chordPreferences fav)%Z ->
  favoriteMatches chordPreferences med = 0%Z ->
  (meditationMatches chordPreferences med <= meditationMatches chordPreferences fav + 1)%Z ->
  let ranked := sortChordLoops localeCompare chordPreferences loops in
  (scoreChordLoop chordPreferences med < scoreChordLoop chordPreferences fav)%Z /\
  Permutation ranked (map (fun loop => (loop, scoreChordLoop chordPreferences loop)) loops) /\
  StronglySorted (rankedBefore localeCompare) ranked /\
  (forall i j sf sm, ranked !! i = Some (fav, sf) -> ranked !! j = Some (med, sm) ->
                     (i < j)%nat).
Proof.
  intros Hcollate Htempo Hbase Havoid Hfav Hnofav Hmed ranked.
  assert (scoreChordLoop chordPreferences med < scoreChordLoop chordPreferences fav)%Z
    as Hscore by (rewrite !scoreChordLoop_parts; lia).
  assert (Permutation ranked
            (map (fun loop => (loop, scoreChordLoop chordPreferences loop)) loops)) as Hperm
    by apply js_sort_perm.
  assert (StronglySorted (rankedBefore localeCompare) ranked) as Hsorted.
  { apply (StronglySorted_weaken (fun x y => (compareScored localeCompare x y <= 0)%Z)).
    - intros x y. apply compareScored_ranked.
    - apply js_sort_sorted.
      + apply compareScored_anti, Hcollate.
      + apply compareScored_trans, Hcollate. }
  assert (forall i l sc, ranked !! i = Some (l, sc) -> sc = scoreChordLoop chordPreferences l)
    as Hscored.
  { intros i l sc Hi. apply list_elem_of_lookup_2 in Hi. rewrite Hperm in Hi.
    apply list_elem_of_In, in_map_iff in Hi. destruct Hi as (l' & [= -> ->] & _). reflexivity. }
  repeat apply conj; [exact Hscore | exact Hperm | exact Hsorted |].
  intros i j sf sm Hi Hj.
  pose proof (Hscored _ _ _ Hi) as ->. pose proof (Hscored _ _ _ Hj) as ->.
  destruct (Nat.lt_trichotomy i j) as [Hlt | [-> | Hgt]]; [exact Hlt | |].
  - rewrite Hi in Hj. injection Hj as Hj _. rewrite Hj in Hscore. lia.
  - pose proof (StronglySorted_lookup_lt _ _ _ _ _ _ Hsorted Hj Hi Hgt) as [H | [H _]];
      cbn [snd] in H; lia.
Qed.

(** The sample manifest, ranked by the collation of the English locales. *)
Lemma C10_favorite_outranks_meditation_witness :
  (scoreChordLoop samplePreferences meditationLoop
   < scoreChordLoop samplePreferences favoriteLoop)%Z /\
  StronglySorted (rankedBefore Locale.localeCompare)
    (sortChordLoops Locale.localeCompare samplePreferences sampleManifest) /\
  map (fun entry => (sortName (fst entry), snd entry))
      (sortChordLoops Locale.localeCompare samplePreferences sampleManifest) =
    [ ("Dorian Glow 90", 57); ("Calm Glow 90", 26); ("alto Glow 90", 12);
      ("Bell Glow 90", 12); ("zither_90.wav", 12); ("Bright Lead 160", -34) ]%Z.
Proof.
  destruct (C10_favorite_outranks_meditation Locale.localeCompare samplePreferences
              favoriteLoop meditationLoop sampleManifest
              localeCompare_collation eq_refl eq_refl eq_refl)
    as (Hscore & _ & Hsorted & _).
  - vm_compute. discriminate.
  - reflexivity.
  - vm_compute. discriminate.
  - repeat apply conj; [exact Hscore | exact Hsorted | vm_compute; reflexivity].
Defined.

End ChordFacts.

(** ** The breathing visual *)

Section BreathFacts.
Import Breath.

Lemma multipliers_sorted : StronglySorted Z.lt BREATH_MULTIPLIERS.
Proof.
  unfold BREATH_MULTIPLIERS.
  repeat (apply SSorted_cons; [|repeat (apply List.Forall_cons; [lia|]); apply List.Forall_nil]).
  apply SSorted_nil.
Qed.

(** X1: what [updateBreathAnimation] writes.  The slider is saturated
    into 0..9: a value below 0 becomes 0, a value above 9 becomes 9, a
    value within is kept, and 5 is taken when the slider holds no number.
    The multiplier is the entry of [BREATH_MULTIPLIERS] at that index,
    between 16 and 128, and it does not decrease with the slider.  In
    exact arithmetic the breath cycle is the multiplier divided by the
    band, that many band periods, for a positive band and 0 s otherwise,
    and the phase offset in milliseconds is the same fraction of one
    band period as the phase is of 360 degrees.  Computed in doubles, for
    a band of at least 0.001 Hz, the cycle is within [10^-9] s of that
    quotient, and for a phase within 360 degrees either way the offset is
    within [10^-9] ms of that fraction. *)
Theorem X1_breath_cycle_is_whole_band_periods (raw : option Z) (band : option Qc)
    (phaseDeg : Qc) :
  let v := updateBreathAnimation raw band phaseDeg in
  let bandHz := getCurrentBandHz band in
  ((forall i, raw = Some i -> (i < 0)%Z -> sliderValue v = 0%Z) /\
   (forall i, raw = Some i -> (0 <= i <= 9)%Z -> sliderValue v = i) /\
   (forall i, raw = Some i -> (9 < i)%Z -> sliderValue v = 9%Z) /\
   (raw = None -> sliderValue v = 5%Z)) /\
  multiplier v = BREATH_MULTIPLIERS !! Z.to_nat (sliderValue v) /\
  (forall raw' m', (sliderValue v <= sliderValue (updateBreathAnimation raw' band phaseDeg))%Z ->
     multiplier (updateBreathAnimation raw' band phaseDeg) = Some m' ->
     exists m, multiplier v = Some m /\ (m <= m')%Z) /\
  (exists m, multiplier v = Some m /\ (16 <= m <= 128)%Z /\
             ((0 < bandHz)%Qc -> sec v = (JsNum.ofZ m / bandHz)%Qc) /\
             (~ (0 < bandHz)%Qc -> sec v = 0%Qc) /\
             ((Q2Qc (1 # 1000) <= bandHz)%Qc ->
              (- Q2Qc (1 # 1000000000) <= Rounded.sec bandHz m - JsNum.ofZ m / bandHz)%Qc /\
              (Rounded.sec bandHz m - JsNum.ofZ m / bandHz <= Q2Qc (1 # 1000000000))%Qc)) /\
  ((0 < bandHz)%Qc -> (phaseMs v * bandHz * Q2Qc 360 = phaseDeg * Q2Qc 1000)%Qc) /\
  (~ (0 < bandHz)%Qc -> phaseMs v = 0%Qc) /\
  ((Q2Qc (1 # 1000) <= bandHz)%Qc ->
   (- Q2Qc 360 <= phaseDeg)%Qc -> (phaseDeg <= Q2Qc 360)%Qc ->
   (- Q2Qc (1 # 1000000000) <= Rounded.phaseMs bandHz phaseDeg - phaseMs v)%Qc /\
   (Rounded.phaseMs bandHz phaseDeg - phaseMs v <= Q2Qc (1 # 1000000000))%Qc).
Proof.
  intros v bandHz.
  assert (forall r, sliderValue (updateBreathAnimation r band phaseDeg)
                    = Z.max 0 (Z.min 9 (match r with Some i => i | None => 5%Z end))) as Hslider.
  { intros r. reflexivity. }
  assert (forall r, multiplier (updateBreathAnimation r band phaseDeg)
                    = BREATH_MULTIPLIERS
                        !! Z.to_nat (sliderValue (updateBreathAnimation r band phaseDeg))) as Hmult.
  { intros r. reflexivity. }
  assert (0 <= sliderValue v <= 9)%Z as Hrange by (unfold v; rewrite Hslider; lia).
  split.
  { unfold v. rewrite Hslider. repeat apply conj.
    - intros i -> Hi. lia.
    - intros i -> Hi. lia.
    - intros i -> Hi. lia.
    - intros ->. reflexivity. }
  split; [apply Hmult|].
  split.
  { intros raw' m' Hle Hm'. rewrite Hmult in Hm'.
    destruct (lookup_lt_is_Some_2 BREATH_MULTIPLIERS (Z.to_nat (sliderValue v))) as [m Hm].
    { cbn [length BREATH_MULTIPLIERS]. lia. }
    exists m. split; [rewrite <- Hm; apply Hmult|].
    destruct (Z.eq_dec (sliderValue v) (sliderValue (updateBreathAnimation raw' band phaseDeg)))
      as [E|Hne].
    - rewrite <- E, Hm in Hm'. injection Hm' as <-. lia.
    - apply Z.lt_le_incl.
      apply (StronglySorted_lookup_lt _ _ _ _ _ _ multipliers_sorted Hm Hm'). lia. }
  split.
  - assert (sec v = (if decide (0 < bandHz)%Qc then (1 / bandHz)%Qc else 0%Qc)
                    * JsNum.ofZ (default 0%Z (multiplier v)))%Qc as Hsec by reflexivity.
    destruct (lookup_lt_is_Some_2 BREATH_MULTIPLIERS (Z.to_nat (sliderValue v))) as [m Hlook].
    { cbn [length BREATH_MULTIPLIERS]. lia. }
    assert (multiplier v = BREATH_MULTIPLIERS !! Z.to_nat (sliderValue v)) as Hm' by reflexivity.
    exists m. rewrite Hm', Hlook in *. cbn [default Datatypes.id] in Hsec.
    assert (In m BREATH_MULTIPLIERS) as Hin.
    { apply list_elem_of_In. eapply list_elem_of_lookup_2. exact Hlook. }
    assert (16 <= m <= 128)%Z as Hm by (cbn in Hin; lia).
    repeat apply conj.
    + reflexivity.
    + lia.
    + lia.
    + intros Hpos. rewrite Hsec. destruct (decide (0 < bandHz)%Qc) as [_|Hn]; [|contradiction].
      assert (bandHz <> 0)%Qc as Hnz by (intros Hz; rewrite Hz in Hpos; discriminate).
      field. exact Hnz.
    + intros Hneg. rewrite Hsec. destruct (decide (0 < bandHz)%Qc) as [Hp|_]; [contradiction|].
      ring.
    + intros Hb. apply (breath_sec bandHz m Hb). lia.
  - split; [|split].
    + intros Hpos. unfold v, updateBreathAnimation. cbn [phaseMs]. fold bandHz.
      destruct (decide (0 < bandHz)%Qc) as [_|Hn]; [|contradiction].
      assert (bandHz <> 0)%Qc as Hnz by (intros Hz; rewrite Hz in Hpos; discriminate).
      assert (Q2Qc 360 <> 0)%Qc as H360 by discriminate.
      unfold Qcdiv.
      transitivity (phaseDeg * Q2Qc 1000 * (Q2Qc 360 * / Q2Qc 360) * (bandHz * / bandHz))%Qc;
        [ring|].
      rewrite !Qcmult_inv_r by assumption. ring.
    + intros Hneg. unfold v, updateBreathAnimation. cbn [phaseMs]. fold bandHz.
      destruct (decide (0 < bandHz)%Qc) as [Hp|_]; [contradiction|]. reflexivity.
    + intros Hb Hp0 Hp1.
      assert (0 < bandHz)%Qc as Hpos by (eapply Qclt_le_trans; [|exact Hb]; reflexivity).
      assert (phaseMs v = phaseDeg / Q2Qc 360 * (Q2Qc 1000 / bandHz))%Qc as ->.
      { unfold v, updateBreathAnimation. cbn [phaseMs]. fold bandHz.
        destruct (decide (0 < bandHz)%Qc) as [_|Hn]; [reflexivity|contradiction]. }
      exact (breath_phase bandHz phaseDeg Hb Hp0 Hp1).
Qed.

End BreathFacts.

(** ** Asset discovery *)

Section AssetFacts.
Import Chords Assets.

(** An element of a filtered list comes from the list, and what the
    filter keeps before it lies before it in the filtered list as well. *)
Lemma filter_lookup_origin {A : Type} (P : A -> bool) (l : list A) (i' : nat) (x : A) :
  List.filter P l !! i' = Some x ->
  exists i, l !! i = Some x /\ P x = true /\
            forall j y, (j < i)%nat -> l !! j = Some y -> P y = true ->
                        exists j', (j' < i')%nat /\ List.filter P l !! j' = Some y.
Proof.
  revert i'. induction l as [|a l IH]; intros i' Hx; [discriminate|].
  cbn [List.filter] in Hx. destruct (P a) eqn:Pa.
  - destruct i' as [|i'].
    + injection Hx as <-. exists 0%nat. repeat apply conj; [reflexivity | exact Pa |].
      intros j y Hj. lia.
    + destruct (IH i' Hx) as (i & Hi & Px & Hbefore).
      exists (S i). repeat apply conj; [exact Hi | exact Px |].
      intros [|j] y Hj Hy Py.
      * injection Hy as <-. exists 0%nat. cbn [List.filter]. rewrite Pa. split; [lia | reflexivity].
      * destruct (Hbefore j y) as (j' & Hj' & Hy'); [lia | exact Hy | exact Py |].
        exists (S j'). cbn [List.filter]. rewrite Pa. split; [lia | exact Hy'].
  - destruct (IH i' Hx) as (i & Hi & Px & Hbefore).
    exists (S i). repeat apply conj; [exact Hi | exact Px |].
    intros [|j] y Hj Hy Py.
    + injection Hy as <-. congruence.
    + destruct (Hbefore j y) as (j' & Hj' & Hy'); [lia | exact Hy | exact Py |].
      exists j'. cbn [List.filter]. rewrite Pa. split; [lia | exact Hy'].
Qed.

Lemma filter_lookup_kept {A : Type} (P : A -> bool) (l : list A) (j : nat) (y : A) :
  l !! j = Some y -> P y = true -> exists j', List.filter P l !! j' = Some y.
Proof.
  intros Hy Py. apply list_elem_of_lookup_2 in Hy.
  apply list_elem_of_lookup_1. apply list_elem_of_In. apply filter_In.
  split; [apply list_elem_of_In; exact Hy | exact Py].
Qed.

Lemma matchScore_keyword (k f : string) :
  (if includes (toLowerCase f) k then 100 <= matchScore k f else matchScore k f <= 13)%Z.
Proof.
  unfold matchScore.
  destruct (includes (toLowerCase f) k), (endsWith (toLowerCase f) ".wav"),
    (includes (toLowerCase f) "48k"), (includes (toLowerCase f) "24"); lia.
Qed.

(** X2: [pickBestMatch] returns null exactly when no listed file has an
    audio extension (.wav, .mp3, .ogg, in any case).  Otherwise it returns
    a listed audio file of highest score, the first such in listing order;
    and when some listed audio file has the keyword in its name, so has
    the file returned. *)
Theorem X2_pickBestMatch_first_of_highest_score (files : list string) (keyword : string) :
  let k := toLowerCase keyword in
  match pickBestMatch files keyword with
  | None => Forall (fun f => isAudioFile f = false) files
  | Some best =>
      exists i,
        files !! i = Some best /\ isAudioFile best = true /\
        (forall f, In f files -> isAudioFile f = true ->
                   (matchScore k f <= matchScore k best)%Z) /\
        (forall j f, (j < i)%nat -> files !! j = Some f -> isAudioFile f = true ->
                     (matchScore k f < matchScore k best)%Z) /\
        (forall f, In f files -> isAudioFile f = true ->
                   includes (toLowerCase f) k = true ->
                   includes (toLowerCase best) k = true)
  end.
Proof.
  intros k. unfold pickBestMatch. fold k.
  set (audioFiles := List.filter isAudioFile files).
  set (scoredList := map (fun f => (f, matchScore k f)) audioFiles).
  destruct audioFiles as [|a rest] eqn:Ea.
  - cbn. apply Forall_forall. intros f Hf.
    destruct (isAudioFile f) eqn:Haudio; [|reflexivity].
    assert (In f (List.filter isAudioFile files)) as Hin
      by (apply filter_In; split; [apply list_elem_of_In; exact Hf | exact Haudio]).
    fold audioFiles in Hin. rewrite Ea in Hin. destruct Hin.
  - destruct (js_sort_head_first_max scoredList) as (i' & x & Hi' & Hhead & Hmax & Hfirst).
    { unfold scoredList. discriminate. }
    destruct (js_sort (fun a b : string * Z => (snd b - snd a)%Z) scoredList) as [|best l'];
      [discriminate|].
    cbn in Hhead. injection Hhead as ->.
    unfold scoredList in Hi'. rewrite list_lookup_fmap in Hi'.
    destruct ((a :: rest) !! i') as [bf|] eqn:Ebf; [|discriminate].
    cbn in Hi'. injection Hi' as <-. cbn [fst snd] in *.
    rewrite <- Ea in Ebf. unfold audioFiles in Ebf.
    destruct (filter_lookup_origin _ _ _ _ Ebf) as (i & Hi & Haudio & Hbefore).
    assert (forall f, In f files -> isAudioFile f = true ->
                      (matchScore k f <= matchScore k bf)%Z) as Hbest.
    { intros f Hf Hfa. apply list_elem_of_In, list_elem_of_lookup_1 in Hf.
      destruct Hf as [j Hj].
      destruct (filter_lookup_kept isAudioFile files j f Hj Hfa) as [j' Hj'].
      apply (Hmax j' (f, matchScore k f)).
      unfold scoredList. rewrite list_lookup_fmap. fold audioFiles in Hj'. rewrite Ea in Hj'.
      rewrite Hj'. reflexivity. }
    exists i. repeat apply conj.
    + exact Hi.
    + exact Haudio.
    + exact Hbest.
    + intros j f Hj Hf Hfa.
      destruct (Hbefore j f Hj Hf Hfa) as (j' & Hj' & Hf').
      apply (Hfirst j' (f, matchScore k f) Hj').
      unfold scoredList. rewrite list_lookup_fmap. fold audioFiles in Hf'. rewrite Ea in Hf'.
      rewrite Hf'. reflexivity.
    + intros f Hf Hfa Hkw. specialize (Hbest f Hf Hfa).
      pose proof (matchScore_keyword k f) as Hf1. rewrite Hkw in Hf1.
      pose proof (matchScore_keyword k bf) as Hb1.
      destruct (includes (toLowerCase bf) k); [reflexivity | lia].
Qed.

End AssetFacts.

(** ** The chord-loop selector *)

Section MenuFacts.
Import Chords ChordMenu.

(** A list split by a key, one segment for each key of a list of
    distinct keys that covers the keys of the elements, is the list
    rearranged. *)
Lemma concat_filter_skip {A : Type} (key : A -> string) (x : A) (l : list A)
    (keys : list string) :
  ~ In (key x) keys ->
  concat (map (fun k => List.filter (fun y => String.eqb (key y) k) (x :: l)) keys) =
  concat (map (fun k => List.filter (fun y => String.eqb (key y) k) l) keys).
Proof.
  induction keys as [|k keys IH]; intros Hnot; [reflexivity|].
  cbn [map concat].
  rewrite IH by (intros Hin; apply Hnot; right; exact Hin).
  f_equal. cbn [List.filter].
  destruct (String.eqb_spec (key x) k) as [Heq|Hne]; [|reflexivity].
  exfalso. apply Hnot. left. symmetry. exact Heq.
Qed.

Lemma concat_filter_perm {A : Type} (key : A -> string) (l : list A) (keys : list string) :
  NoDup keys ->
  (forall x, In x l -> In (key x) keys) ->
  Permutation (concat (map (fun k => List.filter (fun y => String.eqb (key y) k) l) keys)) l.
Proof.
  intros Hnodup. induction l as [|x l IH]; intros Hkeys.
  - clear Hnodup Hkeys. induction keys as [|k keys IHk]; [constructor | exact IHk].
  - assert (Permutation (concat (map (fun k => List.filter (fun y => String.eqb (key y) k) l) keys)) l)
      as IHl by (apply IH; intros y Hy; apply Hkeys; right; exact Hy).
    transitivity (x :: concat (map (fun k => List.filter (fun y => String.eqb (key y) k) l) keys));
      [|apply perm_skip; exact IHl].
    clear IH IHl.
    assert (In (key x) keys) as Hx by (apply Hkeys; left; reflexivity).
    clear Hkeys. induction keys as [|k keys IHk]; [destruct Hx|].
    apply NoDup_cons in Hnodup. destruct Hnodup as [Hnotin Hnodup'].
    rewrite list_elem_of_In in Hnotin.
    cbn [map concat].
    destruct (String.eqb_spec (key x) k) as [Heq|Hne].
    + rewrite concat_filter_skip by (rewrite Heq; exact Hnotin).
      assert (List.filter (fun y => String.eqb (key y) k) (x :: l) =
              x :: List.filter (fun y => String.eqb (key y) k) l) as ->.
      { cbn [List.filter]. rewrite Heq, String.eqb_refl. reflexivity. }
      reflexivity.
    + assert (List.filter (fun y => String.eqb (key y) k) (x :: l) =
              List.filter (fun y => String.eqb (key y) k) l) as ->.
      { cbn [List.filter]. destruct (String.eqb_spec (key x) k); [contradiction | reflexivity]. }
      destruct Hx as [Hx|Hx]; [congruence|].
      rewrite (IHk Hnodup' Hx). apply Permutation_sym, Permutation_middle.
Qed.

Lemma getLoopCategory_in_groupOrder (entry : ChordLoop) :
  In (getLoopCategory entry) groupOrder.
Proof.
  unfold getLoopCategory, groupOrder.
  repeat match goal with |- context [if ?b then _ else _] => destruct b end;
    cbn; tauto.
Qed.

Lemma groupOrder_NoDup : NoDup groupOrder.
Proof.
  apply NoDup_ListNoDup. unfold groupOrder.
  repeat (constructor; [cbn; intros H; repeat (destruct H as [H|H]; [discriminate|]); exact H|]).
  constructor.
Qed.

Lemma categoryGroup_options (rest : list ChordLoop) (c : string) :
  map fst (concat (map optionsOf (categoryGroup rest c))) =
  map file (List.filter (fun loop => String.eqb (getLoopCategory loop) c) rest).
Proof.
  unfold categoryGroup.
  induction (List.filter (fun loop => String.eqb (getLoopCategory loop) c) rest) as [|e es _];
    [reflexivity|].
  cbn [map concat optionsOf]. rewrite app_nil_r.
  change (map fst ((fun entry => (file entry, sortName entry)) <$> e :: es) = map file (e :: es)).
  rewrite <- list_fmap_compose. reflexivity.
Qed.

(** The option values of the category groups are the files of the
    remaining loops, category by category. *)
Lemma categoryGroup_values (rest : list ChordLoop) (categories : list string) :
  map fst (allOptions (concat (map (categoryGroup rest) categories))) =
  map file (concat (map (fun c => List.filter (fun loop => String.eqb (getLoopCategory loop) c) rest)
                        categories)).
Proof.
  induction categories as [|c cs IH]; [reflexivity|].
  cbn [map concat]. unfold allOptions in *. rewrite map_app, concat_app, !map_app, IH.
  f_equal. apply categoryGroup_options.
Qed.

Lemma recommendedOptions_values (top : list (ChordLoop * Z)) :
  map fst (recommendedOptions top) = map (fun e => file (fst e)) top.
Proof.
  unfold recommendedOptions. apply list_eq. intros i.
  rewrite !list_lookup_fmap, list_lookup_imap.
  destruct (top !! i); reflexivity.
Qed.

Lemma topRecommended_take (l : list (ChordLoop * Z)) : topRecommended l = take 8 l.
Proof.
  unfold topRecommended. destruct (Nat.min_spec 8 (length l)) as [[_ ->]|[Hle ->]];
    [reflexivity|]. rewrite !take_ge by lia. reflexivity.
Qed.

Lemma filter_none {A : Type} (P : A -> bool) (l : list A) :
  (forall x, In x l -> P x = false) -> List.filter P l = [].
Proof.
  induction l as [|a l IH]; intros H; [reflexivity|].
  cbn [List.filter]. rewrite (H a) by (left; reflexivity).
  apply IH. intros x Hx. apply H. right. exact Hx.
Qed.

Lemma filter_all {A : Type} (P : A -> bool) (l : list A) :
  (forall x, In x l -> P x = true) -> List.filter P l = l.
Proof.
  induction l as [|a l IH]; intros H; [reflexivity|].
  cbn [List.filter]. rewrite (H a) by (left; reflexivity).
  f_equal. apply IH. intros x Hx. apply H. right. exact Hx.
Qed.

Lemma existsb_eqb_In (v : string) (l : list string) :
  existsb (String.eqb v) l = true <-> In v l.
Proof.
  rewrite existsb_exists. split.
  - intros (y & Hy & Heq). apply String.eqb_eq in Heq. subst. exact Hy.
  - intros Hv. exists v. split; [exact Hv | apply String.eqb_refl].
Qed.

(** With distinct files, what lies beyond the eight recommended loops is
    what remains. *)
Lemma remainingLoops_drop (ranked : list (ChordLoop * Z)) :
  NoDup (map (fun e => file (fst e)) ranked) ->
  remainingLoops (map (fun e => file (fst e)) (take 8 ranked)) ranked =
  map fst (drop 8 ranked).
Proof.
  intros Hnodup. unfold remainingLoops.
  assert (map fst ranked = map fst (take 8 ranked) ++ map fst (drop 8 ranked)) as ->
    by (rewrite <- map_app, take_drop; reflexivity).
  rewrite List.filter_app.
  rewrite <- (take_drop 8 ranked) in Hnodup. rewrite map_app in Hnodup.
  set (top := take 8 ranked) in *. set (beyond := drop 8 ranked) in *.
  rewrite filter_none, filter_all; [reflexivity | |].
  - intros loop Hloop. apply negb_true_iff.
    destruct (existsb (String.eqb (file loop)) (map (fun e => file (fst e)) top)) eqn:E;
      [|reflexivity].
    apply existsb_eqb_In in E. exfalso.
    apply in_map_iff in Hloop. destruct Hloop as (e & <- & He).
    apply NoDup_app in Hnodup. destruct Hnodup as (_ & Hdisjoint & _).
    apply (Hdisjoint (file (fst e))).
    + apply list_elem_of_In. exact E.
    + apply list_elem_of_In. apply in_map_iff. exists e. split; [reflexivity | exact He].
  - intros loop Hloop. apply negb_false_iff. apply existsb_eqb_In.
    apply in_map_iff in Hloop. destruct Hloop as (e & <- & He).
    apply in_map_iff. exists e. split; [reflexivity | exact He].
Qed.

Lemma updateChordLoopUI_shown (localeCompare : string -> string -> Z)
    (chordPreferences : option Preferences) (manifest : gmap string (list ChordLoop))
    (chordInstrument : string) (loops : list ChordLoop) (ui : LoopUI) :
  chordInstrument <> ""%string ->
  chordInstrument <> "none"%string ->
  manifest !! chordInstrument = Some loops ->
  loops <> [] ->
  let ranked := sortChordLoops localeCompare chordPreferences loops in
  let content :=
    Group "Recommended" (recommendedOptions (take 8 ranked))
    :: concat (map (categoryGroup
                      (remainingLoops (map (fun e => file (fst e)) (take 8 ranked)) ranked))
                   groupOrder) in
  updateChordLoopUI localeCompare chordPreferences (Some manifest) chordInstrument ui =
  mkLoopUI false false content (Some (selectValue content)).
Proof.
  intros Hne Hnone Hloops Hnonempty ranked content.
  unfold updateChordLoopUI.
  destruct (String.eqb_spec chordInstrument "") as [|_]; [contradiction|].
  destruct (String.eqb_spec chordInstrument "none") as [|_]; [contradiction|].
  cbn [orb]. rewrite Hloops.
  destruct loops as [|l0 ls]; [contradiction|].
  rewrite topRecommended_take. reflexivity.
Qed.

(** X3: for an instrument that has loops in the manifest,
    [updateChordLoopUI] shows the row with the selector enabled; the
    options start with the group Recommended, which holds the eight
    best-ranked loops (all of them when there are fewer) in ranking order;
    every loop of the manifest has its file among the option values and
    every option value is the file of a loop of the manifest; when the
    files are distinct each loop is listed exactly once.  The selection is
    reset to the best-ranked loop, whatever was selected before. *)
Theorem X3_updateChordLoopUI_lists_every_loop
    (localeCompare : string -> string -> Z) (chordPreferences : option Preferences)
    (manifest : gmap string (list ChordLoop)) (chordInstrument : string)
    (loops : list ChordLoop) (ui : LoopUI) :
  chordInstrument <> ""%string ->
  chordInstrument <> "none"%string ->
  manifest !! chordInstrument = Some loops ->
  loops <> [] ->
  let ranked := sortChordLoops localeCompare chordPreferences loops in
  let ui' := updateChordLoopUI localeCompare chordPreferences (Some manifest)
                               chordInstrument ui in
  let values := map fst (allOptions (children ui')) in
  rowHidden ui' = false /\
  selectDisabled ui' = false /\
  head (children ui') = Some (Group "Recommended" (recommendedOptions (take 8 ranked))) /\
  (exists others, values = map (fun e => file (fst e)) (take 8 ranked) ++ others) /\
  (forall loop, In loop loops -> In (file loop) values) /\
  (forall v, In v values -> exists loop, In loop loops /\ file loop = v) /\
  (NoDup (map file loops) -> Permutation values (map file loops)) /\
  (exists best, head ranked = Some best /\ selectedChordLoop ui' = Some (file (fst best))).
Proof.
  intros Hne Hnone Hloops Hnonempty ranked ui' values.
  pose proof (updateChordLoopUI_shown localeCompare chordPreferences manifest chordInstrument
                loops ui Hne Hnone Hloops Hnonempty) as Hui.
  cbv zeta in Hui. fold ranked in Hui. fold ui' in Hui.
  set (topFiles := map (fun e => file (fst e)) (take 8 ranked)) in *.
  set (rest := remainingLoops topFiles ranked) in *.
  assert (Permutation ranked (map (fun loop => (loop, scoreChordLoop chordPreferences loop)) loops))
    as Hperm by apply js_sort_perm.
  assert (Permutation (map fst ranked) loops) as Hperm1.
  { rewrite Hperm, map_map. cbn [fst]. rewrite map_id. reflexivity. }
  assert (values =
          topFiles ++
          map file (concat (map (fun c => List.filter
                                            (fun loop => String.eqb (getLoopCategory loop) c) rest)
                                groupOrder))) as Hvalues.
  { unfold values. rewrite Hui. cbn [children].
    unfold allOptions. cbn [map concat optionsOf]. rewrite map_app.
    rewrite recommendedOptions_values. f_equal. apply categoryGroup_values. }
  assert (Permutation (concat (map (fun c => List.filter
                                              (fun loop => String.eqb (getLoopCategory loop) c) rest)
                                   groupOrder)) rest) as Hgroups.
  { apply concat_filter_perm; [apply groupOrder_NoDup|].
    intros x _. apply getLoopCategory_in_groupOrder. }
  assert (forall loop, In loop rest <->
                       In loop (map fst ranked) /\ ~ In (file loop) topFiles) as Hrest.
  { intros loop. unfold rest, remainingLoops. rewrite filter_In, negb_true_iff.
    rewrite <- not_true_iff_false, existsb_eqb_In. reflexivity. }
  repeat apply conj.
  - rewrite Hui. reflexivity.
  - rewrite Hui. reflexivity.
  - rewrite Hui. reflexivity.
  - eexists. exact Hvalues.
  - intros loop Hloop. rewrite Hvalues. apply in_or_app.
    destruct (in_dec string_dec (file loop) topFiles) as [Htop|Hnot]; [left; exact Htop|].
    right. apply in_map. apply (Permutation_in _ (Permutation_sym Hgroups)).
    apply Hrest. split; [|exact Hnot].
    apply (Permutation_in _ (Permutation_sym Hperm1)). exact Hloop.
  - intros v Hv. rewrite Hvalues in Hv. apply in_app_or in Hv. destruct Hv as [Hv|Hv].
    + unfold topFiles in Hv. apply in_map_iff in Hv. destruct Hv as (e & <- & He).
      exists (fst e). split; [|reflexivity].
      apply (Permutation_in _ Hperm1). apply in_map.
      apply list_elem_of_In. apply list_elem_of_In in He.
      apply elem_of_take in He. destruct He as (i & Hi & _).
      eapply list_elem_of_lookup_2. exact Hi.
    + apply in_map_iff in Hv. destruct Hv as (loop & <- & Hloop).
      exists loop. split; [|reflexivity].
      apply (Permutation_in _ Hgroups) in Hloop. apply Hrest in Hloop.
      apply (Permutation_in _ Hperm1). apply Hloop.
  - intros Hnodup. rewrite Hvalues, Hgroups.
    assert (NoDup (map (fun e => file (fst e)) ranked)) as Hnodup'.
    { rewrite <- (map_map fst file). rewrite Hperm1. exact Hnodup. }
    unfold rest, topFiles. rewrite (remainingLoops_drop ranked Hnodup').
    rewrite <- (map_map fst file (take 8 ranked)), <- map_app, <- map_app, take_drop.
    rewrite Hperm1. reflexivity.
  - destruct ranked as [|best ranked'] eqn:Eranked.
    + apply Permutation_nil in Hperm. destruct loops; [contradiction | discriminate].
    + exists best. split; [reflexivity|]. rewrite Hui. reflexivity.
Qed.

(** The sample manifest under the piano, on a selector that showed an
    earlier choice. *)
Lemma X3_updateChordLoopUI_lists_every_loop_witness :
  let ui' := updateChordLoopUI Samples.caseInsensitiveCompare Samples.samplePreferences
               (Some Samples.pianoManifest) "piano" Samples.staleLoopUI in
  selectedChordLoop ui' = Some "glow_a_90.wav"%string /\
  Permutation (map fst (allOptions (children ui'))) (map file Samples.sampleManifest).
Proof.
  cbv zeta.
  destruct (X3_updateChordLoopUI_lists_every_loop Samples.caseInsensitiveCompare
              Samples.samplePreferences Samples.pianoManifest "piano" Samples.sampleManifest
              Samples.staleLoopUI)
    as (_ & _ & _ & _ & _ & _ & Hperm & _).
  - discriminate.
  - discriminate.
  - reflexivity.
  - discriminate.
  - split; [vm_compute; reflexivity|].
    apply Hperm. apply (bool_decide_unpack _). vm_compute. exact I.
Defined.

End MenuFacts.

(** ** Sessions: persistence, timers and the course of a scan *)

Section SessionShape.
Import App Samples.

Ltac st :=
  cbn [audio controls bandKey bandHz bestPhaseByBand localStorage phaseRange
       phaseRangeDisabled sweepIsRunning sweepAnimId scanning scanTier scanPhases
       scanCounts scanIndex scanTimeoutId countdownInterval countdownRemaining pending
       nextId setAudio setBestPhaseByBand setLocalStorage setPhaseRange
       setPhaseRangeDisabled setSweepIsRunning setSweepAnimId setScanning setScanTier
       setScanPhases setScanCounts setScanIndex setScanTimeoutId setCountdownInterval
       setCountdownRemaining setPending fst snd] in *.

Ltac timers_solve :=
  repeat match goal with
         | Ht : TimersOk _ |- _ =>
             unfold TimersOk in Ht; destruct Ht as (? & ? & ? & ? & ?)
         end;
  unfold TimersOk; st;
  repeat apply conj; intros t; set_unfold; intros;
  repeat match goal with H : forall x : nat, @?P x |- _ => specialize (H t) end;
  naive_solver lia.

Lemma stopAutosweep_timers (s : State) : TimersOk s -> TimersOk (snd (stopAutosweep s)).
Proof.
  intros Ht. unfold stopAutosweep, clearTimer. js_run.
  destruct (sweepIsRunning s) eqn:Hr; cbn [negb]; js_run; [|exact Ht].
  cbn [sweepAnimId setSweepIsRunning].
  destruct (sweepAnimId s) as [a|] eqn:Ea; js_run; cbn [snd]; timers_solve.
Qed.

Lemma sweepStep_timers (frac : Qc) (s : State) :
  TimersOk s ->
  (forall t, sweepAnimId s = Some t -> t ∉ pending s) ->
  TimersOk (snd (sweepStep frac s)).
Proof.
  intros Ht Hfired. unfold sweepStep, setTimer. js_run.
  destruct (sweepIsRunning s) eqn:Hr; cbn [negb]; js_run; [|exact Ht].
  js_unfold. cbn [snd]. timers_solve.
Qed.

Lemma presentCandidate_timers (s : State) :
  TimersOk s ->
  scanning s = true ->
  (forall t, scanTimeoutId s = Some t -> t ∉ pending s) ->
  TimersOk (snd (presentCandidate s)).
Proof.
  intros Ht Hsc Hfired.
  unfold presentCandidate, startCountdown, setTimer, clearTimer. js_run.
  destruct (scanPhases s !! scanIndex s) as [target|]; [|exact Ht].
  js_run. cbn [countdownInterval setPhaseRange].
  destruct (countdownInterval s) as [c|] eqn:Ec; js_unfold; cbn [snd]; timers_solve.
Qed.

Lemma computePhases_timers (s : State) : TimersOk s -> TimersOk (computePhases s).
Proof.
  intros Ht. unfold computePhases.
  repeat match goal with |- context [if ?b then _ else _] => destruct b end; exact Ht.
Qed.

Lemma completeScan_timers (s : State) :
  TimersOk s ->
  (forall t, scanTimeoutId s = Some t -> t ∉ pending s) ->
  TimersOk (snd (completeScan s)).
Proof.
  intros Ht Hfired.
  destruct (completeScan_cases s) as [[_ ->] | (i & best & s' & Hi & Hrun & _)]; [exact Ht|].
  destruct (scanResults_head (scanPhases s) (scanCounts s)) as (i' & best' & _ & Hhead & _).
  { intros E. rewrite E in Hi. discriminate. }
  revert Hrun. unfold completeScan, savePhaseHistory, getExploreBandKey, clearTimer.
  js_run. rewrite Hhead. cbn [fst]. js_run.
  destruct (bestPhaseByBand s !! bandKey s) as [r|]; js_run; st;
    destruct (countdownInterval s) as [c|] eqn:Ec; js_run; st;
    intros [= <-]; timers_solve.
Qed.

Lemma computePhases_set (s : State) : exists l, computePhases s = setScanPhases l s.
Proof.
  unfold computePhases.
  repeat match goal with |- context [if ?b then _ else _] => destruct b end;
    try (eexists; reflexivity);
    exists (scanPhases s); destruct s; reflexivity.
Qed.

Lemma nextTier_timers (s : State) : TimersOk s -> TimersOk (nextTier s).
Proof. intros Ht. unfold nextTier. timers_solve. Qed.

Lemma setScanPhases_timers (l : list Qc) (s : State) : TimersOk s -> TimersOk (setScanPhases l s).
Proof. intros Ht. timers_solve. Qed.

Lemma runScanPhase_timers (s : State) :
  TimersOk s ->
  (forall t, scanTimeoutId s = Some t -> t ∉ pending s) ->
  TimersOk (snd (runScanPhase s)).
Proof.
  assert (forall u, (scanTier u =? 1)%Z = false -> TimersOk u ->
                    (forall t, scanTimeoutId u = Some t -> t ∉ pending u) ->
                    TimersOk (snd (runScanPhase u))) as Haux.
  { intros u Htier Ht Hfired. rewrite (runScanPhase_eq u).
    destruct (scanning u) eqn:Hsc; [|exact Ht].
    rewrite computePhases_tier, Htier.
    destruct (computePhases_set u) as [l ->].
    destruct (length (scanPhases (setScanPhases l u)) <=? scanIndex (setScanPhases l u))%nat.
    - apply completeScan_timers; [apply setScanPhases_timers; exact Ht | exact Hfired].
    - apply presentCandidate_timers; [apply setScanPhases_timers; exact Ht | exact Hsc | exact Hfired]. }
  intros Ht Hfired. destruct (scanTier s =? 1)%Z eqn:Htier; [|apply Haux; assumption].
  rewrite (runScanPhase_eq s).
  destruct (scanning s) eqn:Hsc; [|exact Ht].
  rewrite computePhases_tier, Htier.
  destruct (computePhases_set s) as [l ->].
  destruct (length (scanPhases (setScanPhases l s)) <=? scanIndex (setScanPhases l s))%nat.
  - apply Haux; [reflexivity | apply nextTier_timers, setScanPhases_timers; exact Ht | exact Hfired].
  - apply presentCandidate_timers; [apply setScanPhases_timers; exact Ht | exact Hsc | exact Hfired].
Qed.

Lemma scanTimeout_timers (s : State) : TimersOk s -> TimersOk (snd (scanTimeout s)).
Proof.
  intros Ht. unfold scanTimeout, clearTimer. js_run.
  destruct (scanTimeoutId s) as [id|] eqn:Eid; [|exact Ht].
  destruct (bool_decide (id ∈ pending s)); [|exact Ht].
  js_run. apply runScanPhase_timers.
  - timers_solve.
  - st. intros t. rewrite Eid. intros [= <-]. set_solver.
Qed.

Lemma countdownTick_timers (s : State) : TimersOk s -> TimersOk (snd (countdownTick s)).
Proof.
  intros Ht. unfold countdownTick, clearTimer. js_run.
  destruct (countdownInterval s) as [c|] eqn:Ec; [|exact Ht].
  destruct (bool_decide (c ∈ pending s)); [|exact Ht].
  js_run. st.
  destruct (Z.max 0 (countdownRemaining s - 1) <=? 0)%Z; js_run; timers_solve.
Qed.

Lemma sweepFrame_timers (frac : Qc) (s : State) :
  TimersOk s -> TimersOk (snd (sweepFrame frac s)).
Proof.
  intros Ht. unfold sweepFrame, clearTimer. js_run.
  destruct (sweepAnimId s) as [a|] eqn:Ea; [|exact Ht].
  destruct (bool_decide (a ∈ pending s)); [|exact Ht].
  js_run. apply sweepStep_timers.
  - timers_solve.
  - st. intros t. rewrite Ea. intros [= <-]. set_solver.
Qed.

Lemma startAutosweep_timers (s : State) :
  TimersOk s -> TimersOk (snd (startAutosweep s)).
Proof.
  intros Ht. unfold startAutosweep. js_run.
  destruct (sweepIsRunning s) eqn:Hr; js_run; [exact Ht|].
  apply sweepStep_timers.
  - timers_solve.
  - st. intros t Ha Hp. unfold TimersOk in Ht. destruct Ht as (_ & _ & H3 & _ & H5).
    destruct (H5 t Hp) as [[Hrun _]|[_ [Hs|Hc]]]; [congruence| |];
      destruct (H3 t Ha); congruence.
Qed.

Lemma stopAutosweep_frame (s : State) :
  let s' := snd (stopAutosweep s) in
  fst (stopAutosweep s) = Ok tt /\
  sweepIsRunning s' = false /\
  audio s' = audio s /\ controls s' = controls s /\ bandKey s' = bandKey s /\
  bandHz s' = bandHz s /\ bestPhaseByBand s' = bestPhaseByBand s /\
  localStorage s' = localStorage s /\ phaseRange s' = phaseRange s /\
  phaseRangeDisabled s' = phaseRangeDisabled s /\ scanning s' = scanning s /\
  scanTier s' = scanTier s /\ scanPhases s' = scanPhases s /\ scanCounts s' = scanCounts s /\
  scanIndex s' = scanIndex s /\ scanTimeoutId s' = scanTimeoutId s /\
  countdownInterval s' = countdownInterval s /\
  countdownRemaining s' = countdownRemaining s /\ nextId s' = nextId s /\
  pending s' = match sweepIsRunning s, sweepAnimId s with
               | true, Some t => pending s ∖ {[t]}
               | _, _ => pending s
               end.
Proof.
  unfold stopAutosweep, clearTimer. js_run.
  destruct (sweepIsRunning s) eqn:Hr; cbn [negb]; js_run.
  - st. destruct (sweepAnimId s) as [a|] eqn:Ea; js_run; st; repeat apply conj; reflexivity.
  - st. repeat apply conj; first [reflexivity | assumption].
Qed.

(** When every pending timer is the animation frame of the sweep,
    stopping the autosweep leaves no timer pending. *)
Lemma stopAutosweep_idle (s : State) :
  (forall t, t ∈ pending s -> sweepIsRunning s = true /\ sweepAnimId s = Some t) ->
  pending (snd (stopAutosweep s)) = ∅.
Proof.
  intros H5. destruct (stopAutosweep_frame s) as (_ & _ & Hframe).
  repeat (destruct Hframe as (_ & Hframe)). rewrite Hframe.
  apply set_eq. intros t. split; [|set_solver].
  destruct (sweepIsRunning s) eqn:Hr.
  - destruct (sweepAnimId s) as [a|] eqn:Ea.
    + intros Hin. set_unfold in Hin. destruct Hin as [Hin Hne].
      destruct (H5 t Hin) as [_ [= ->]]. contradiction.
    + intros Hin. destruct (H5 t Hin) as [_ [=]].
  - intros Hin. destruct (H5 t Hin) as [? _]. congruence.
Qed.

Lemma idle_sweep_held (s : State) :
  TimersOk s -> scanning s = false ->
  forall t, t ∈ pending s -> sweepIsRunning s = true /\ sweepAnimId s = Some t.
Proof.
  intros Ht Hsc t Hin. unfold TimersOk in Ht. destruct Ht as (_ & _ & _ & _ & H5).
  destruct (H5 t Hin) as [H|[Hs _]]; [exact H | congruence].
Qed.

Lemma startTwoTierScan_timers (s : State) :
  TimersOk s -> TimersOk (snd (startTwoTierScan s)).
Proof.
  intros Ht. unfold startTwoTierScan. js_run.
  destruct (scanning s) eqn:Hsc; [exact Ht|].
  unfold startExplore. js_run. rewrite run_bind, liftAudio_run.
  destruct (Audio.startGraph (controls s) (bandHz s) (audio s)) as [[[]|] a']; cbn [fst snd];
    [|timers_solve].
  js_run. rewrite run_bind.
  match goal with |- context [stopAutosweep ?u] => set (u1 := u) end.
  assert (TimersOk u1) as Ht1 by (unfold u1; timers_solve).
  assert (pending (snd (stopAutosweep u1)) = ∅) as Hempty.
  { apply stopAutosweep_idle. intros t Hin. apply (idle_sweep_held s Ht Hsc t). exact Hin. }
  pose proof (stopAutosweep_timers u1 Ht1) as Ht2.
  destruct (stopAutosweep_frame u1) as (Hok & _).
  destruct (stopAutosweep u1) as [r u2]. cbn [fst snd] in *. subst r.
  js_run. apply runScanPhase_timers.
  - timers_solve.
  - st. rewrite Hempty. intros t _. set_solver.
Qed.

(** The part of [stopExplore] that aborts a scan. *)
Lemma abortScan_timers (u : State) :
  TimersOk u ->
  sweepIsRunning u = false ->
  let m := (modify (setScanning false) ;;
            st ← gets scanTimeoutId;
            clearTimer st ;;
            ci ← gets countdownInterval;
            clearTimer ci ;;
            modify (setScanTier 0) ;;
            modify (setScanPhases []) ;;
            modify (setScanCounts ∅) ;;
            modify (setScanIndex 0) ;;
            modify (setPhaseRangeDisabled false)) : Cmd unit in
  TimersOk (snd (m u)) /\ pending (snd (m u)) = ∅.
Proof.
  intros Ht Hrun m. unfold m, clearTimer. js_run. st.
  assert (forall t, t ∈ pending u -> scanTimeoutId u = Some t \/ countdownInterval u = Some t)
    as Hheld.
  { intros t Hin. unfold TimersOk in Ht. destruct Ht as (_ & _ & _ & _ & H5).
    destruct (H5 t Hin) as [[? _]|[_ H]]; [congruence | exact H]. }
  destruct (scanTimeoutId u) as [t1|] eqn:E1; js_run; st;
    destruct (countdownInterval u) as [t2|] eqn:E2; js_run; st.
  all: split; [clear Hheld; timers_solve|].
  all: apply set_eq; intros t; (split; [|set_solver]); intros Hin; exfalso;
    assert (t ∈ pending u) as Hin' by set_solver;
    destruct (Hheld t Hin') as [[=]|[=]]; subst; set_solver.
Qed.

Lemma stopExplore_timers (s : State) :
  TimersOk s ->
  TimersOk (snd (stopExplore s)) /\ pending (snd (stopExplore s)) = ∅.
Proof.
  intros Ht. unfold stopExplore.
  rewrite run_bind, liftAudio_run.
  rewrite (noThrow_run _ _ stopCurrentAudio_noThrow). cbn [fst snd].
  rewrite run_bind.
  match goal with |- context [stopAutosweep ?u] => set (u1 := u) end.
  assert (TimersOk u1) as Ht1 by (unfold u1; timers_solve).
  pose proof (stopAutosweep_timers u1 Ht1) as Ht2.
  pose proof (stopAutosweep_idle u1) as Hidle.
  destruct (stopAutosweep_frame u1)
    as (Hok & Hrun & _ & _ & _ & _ & _ & _ & _ & _ & Hsc & _).
  destruct (stopAutosweep u1) as [r u2]. cbn [fst snd] in *. subst r.
  rewrite run_gets_bind. rewrite Hsc. change (scanning u1) with (scanning s).
  destruct (scanning s) eqn:Hscan.
  - rewrite run_when_true. apply abortScan_timers; assumption.
  - rewrite run_when_false. js_run. split; [exact Ht2|].
    apply Hidle. intros t Hin. apply (idle_sweep_held s Ht Hscan t). exact Hin.
Qed.

Lemma handleMarkStrongest_timers (s : State) :
  TimersOk s -> TimersOk (snd (handleMarkStrongest s)).
Proof.
  intros Ht. rewrite handleMarkStrongest_run. cbn [snd]. cbv zeta.
  destruct (scanning s) eqn:Hsc; timers_solve.
Qed.

Lemma step_timers (s : State) (e : Event) : TimersOk s -> TimersOk (step s e).
Proof.
  intros Ht. unfold step, exec. destruct e; cbn [handle].
  - apply startTwoTierScan_timers; exact Ht.
  - apply stopExplore_timers; exact Ht.
  - apply handleMarkStrongest_timers; exact Ht.
  - apply scanTimeout_timers; exact Ht.
  - apply countdownTick_timers; exact Ht.
  - js_run. destruct (phaseRangeDisabled s); js_run; [exact Ht|]. timers_solve.
  - js_run. destruct (sweepIsRunning s) eqn:Hr.
    + apply stopAutosweep_timers; exact Ht.
    + apply startAutosweep_timers; exact Ht.
  - apply sweepFrame_timers; exact Ht.
  - unfold clearBestPhaseForBand, getExploreBandKey. js_run. timers_solve.
  - unfold handleClearHistory. js_run. timers_solve.
Qed.

(** *** The shape of a scan *)

Lemma runScanPhase_present (s : State) :
  scanning s = true ->
  scanPhases s <> [] ->
  (scanIndex s < length (scanPhases s))%nat ->
  runScanPhase s = presentCandidate s.
Proof.
  intros Hsc Hne Hlt. rewrite runScanPhase_eq, Hsc.
  rewrite computePhases_nonempty by exact Hne.
  apply Nat.leb_gt in Hlt. rewrite Hlt. reflexivity.
Qed.

Lemma runScanPhase_complete (s : State) :
  scanning s = true ->
  scanTier s = 2%Z ->
  scanPhases s <> [] ->
  (length (scanPhases s) <= scanIndex s)%nat ->
  runScanPhase s = completeScan s.
Proof.
  intros Hsc Htier Hne Hle. rewrite runScanPhase_eq, Hsc.
  rewrite computePhases_nonempty by exact Hne.
  apply Nat.leb_le in Hle. rewrite Hle, Htier. reflexivity.
Qed.

Lemma runScanPhase_tier1_start (s : State) :
  scanning s = true ->
  scanTier s = 1%Z ->
  scanIndex s = 0%nat ->
  scanPhases s = [] ->
  runScanPhase s = presentCandidate (setScanPhases tier1Phases s).
Proof.
  intros Hsc Htier Hidx Hph. rewrite runScanPhase_eq.
  assert (computePhases s = setScanPhases tier1Phases s) as ->.
  { unfold computePhases. rewrite Hidx, Hph, Htier. reflexivity. }
  rewrite Hsc. st. rewrite Hidx. reflexivity.
Qed.

(** Presenting a candidate: the slider shows it, the countdown and the
    advance timer are set, and nothing else changes. *)
Lemma presentCandidate_frame (s : State) (target : Qc) :
  scanPhases s !! scanIndex s = Some target ->
  let s' := snd (presentCandidate s) in
  fst (presentCandidate s) = Ok tt /\
  phaseRange s' = JsNum.toFixed0 target /\
  scanning s' = scanning s /\ scanTier s' = scanTier s /\ scanPhases s' = scanPhases s /\
  scanCounts s' = scanCounts s /\ scanIndex s' = scanIndex s /\
  phaseRangeDisabled s' = phaseRangeDisabled s /\
  bestPhaseByBand s' = bestPhaseByBand s /\ localStorage s' = localStorage s /\
  bandKey s' = bandKey s /\ sweepIsRunning s' = sweepIsRunning s /\
  sweepAnimId s' = sweepAnimId s /\
  (exists t, scanTimeoutId s' = Some t /\ t ∈ pending s').
Proof.
  intros Htarget. unfold presentCandidate, startCountdown, setTimer, clearTimer.
  js_run. rewrite Htarget. js_run. st.
  destruct (countdownInterval s) as [c|]; js_unfold; st;
    repeat apply conj; try reflexivity; eexists; (split; [reflexivity|]); set_solver.
Qed.

Lemma completeScan_frame (s : State) :
  scanPhases s <> [] ->
  let s' := snd (completeScan s) in
  fst (completeScan s) = Ok tt /\
  scanning s' = false /\ scanTier s' = 0%Z /\ scanPhases s' = [] /\ scanCounts s' = ∅ /\
  scanIndex s' = 0%nat /\ phaseRangeDisabled s' = false /\
  localStorage s' = bestPhaseByBand s' /\ bandKey s' = bandKey s /\
  sweepIsRunning s' = sweepIsRunning s /\ sweepAnimId s' = sweepAnimId s /\
  (exists i best,
     scanPhases s !! i = Some best /\
     phaseRange s' = JsNum.toFixed0 best /\
     bestPhaseByBand s' =
       <[bandKey s := mkRecord best (match bestPhaseByBand s !! bandKey s with
                                     | Some r => count r
                                     | None => 1%Z
                                     end)]> (bestPhaseByBand s)).
Proof.
  intros Hne.
  destruct (scanResults_head (scanPhases s) (scanCounts s) Hne) as (i & best & Hi & Hhead & _).
  unfold completeScan, savePhaseHistory, getExploreBandKey, clearTimer.
  js_run. rewrite Hhead. cbn [fst]. js_run.
  destruct (bestPhaseByBand s !! bandKey s) as [r|] eqn:Er; js_run; st;
    destruct (countdownInterval s) as [c|]; js_run; st;
    repeat apply conj; try reflexivity; exists i, best; repeat apply conj;
    first [exact Hi | reflexivity].
Qed.

Lemma tier1Phases_length : length tier1Phases = 7%nat.
Proof. reflexivity. Qed.

Lemma scanShape_candidate (s : State) :
  ScanShape s -> scanning s = true ->
  length (scanPhases s) = 7%nat /\ scanPhases s <> [] /\ (scanIndex s < 7)%nat.
Proof.
  unfold ScanShape. intros Hs Hsc. rewrite Hsc in Hs.
  destruct Hs as ([[_ ->]|[_ ->]] & Hidx & _); repeat split; try exact Hidx; discriminate.
Qed.

(** A candidate presented in a scan of the right shape leaves a scan of
    the right shape. *)
Lemma presentCandidate_shape (s : State) :
  scanning s = true ->
  (scanTier s = 1%Z /\ scanPhases s = tier1Phases \/
   scanTier s = 2%Z /\ scanPhases s = replicate 7 (Q2Qc 0)) ->
  (scanIndex s < 7)%nat ->
  phaseRangeDisabled s = true ->
  ScanShape (snd (presentCandidate s)).
Proof.
  intros Hsc Hphases Hidx Hdis.
  assert (exists target, scanPhases s !! scanIndex s = Some target) as [target Htarget].
  { apply lookup_lt_is_Some_2. destruct Hphases as [[_ ->]|[_ ->]]; cbn; lia. }
  destruct (presentCandidate_frame s target Htarget)
    as (_ & _ & F1 & F2 & F3 & _ & F5 & F6 & _ & _ & _ & _ & _ & Ftimer).
  unfold ScanShape. rewrite F1, Hsc, F2, F3, F5, F6.
  repeat apply conj; assumption.
Qed.

Lemma startTwoTierScan_shape (s : State) :
  TimersOk s -> ScanShape s -> ScanShape (snd (startTwoTierScan s)).
Proof.
  intros Ht Hs. unfold startTwoTierScan. js_run.
  destruct (scanning s) eqn:Hsc; [exact Hs|].
  unfold startExplore. js_run. rewrite run_bind, liftAudio_run.
  destruct (Audio.startGraph (controls s) (bandHz s) (audio s)) as [[[]|] a']; cbn [fst snd].
  - js_run. rewrite run_bind.
    match goal with |- context [stopAutosweep ?u] => set (u1 := u) end.
    destruct (stopAutosweep_frame u1)
      as (Hok & _ & _ & _ & _ & _ & _ & _ & _ & _ & F1 & F2 & F3 & _ & F5 & _).
    destruct (stopAutosweep u1) as [r u2]. cbn [fst snd] in *. subst r.
    js_run. rewrite runScanPhase_tier1_start; st; try assumption.
    apply presentCandidate_shape; st; try assumption; try reflexivity.
    + left. split; [exact F2 | reflexivity].
    + rewrite F5. cbn. lia.
  - unfold ScanShape in *. st. rewrite Hsc in *. exact Hs.
Qed.

Lemma stopExplore_shape (s : State) :
  ScanShape s -> ScanShape (snd (stopExplore s)).
Proof.
  intros Hs. unfold stopExplore.
  rewrite run_bind, liftAudio_run.
  rewrite (noThrow_run _ _ stopCurrentAudio_noThrow). cbn [fst snd].
  rewrite run_bind.
  match goal with |- context [stopAutosweep ?u] => set (u1 := u) end.
  destruct (stopAutosweep_frame u1)
    as (Hok & _ & _ & _ & _ & _ & _ & _ & _ & F0 & F1 & F2 & F3 & F4 & F5 & _).
  destruct (stopAutosweep u1) as [r u2]. cbn [fst snd] in *. subst r.
  rewrite run_gets_bind. rewrite F1. change (scanning u1) with (scanning s).
  destruct (scanning s) eqn:Hscan.
  - rewrite run_when_true. unfold clearTimer. js_run. st.
    destruct (scanTimeoutId u2) as [t1|]; js_run; st;
      destruct (countdownInterval u2) as [t2|]; js_run; st;
      unfold ScanShape; st; repeat apply conj; reflexivity.
  - rewrite run_when_false. js_run. cbn [snd].
    unfold ScanShape in *. rewrite F1. change (scanning u1) with (scanning s).
    rewrite Hscan in *. rewrite F0, F2, F3, F4, F5. exact Hs.
Qed.

Lemma handleMarkStrongest_shape (s : State) :
  ScanShape s -> ScanShape (snd (handleMarkStrongest s)).
Proof.
  intros Hs. rewrite handleMarkStrongest_run. cbn [snd]. cbv zeta.
  unfold ScanShape in *. destruct (scanning s) eqn:Hsc; st; rewrite Hsc; exact Hs.
Qed.

(** The advance timer firing: the next candidate, the second tier, or
    the end of the scan. *)
Lemma scanTimeout_shape (s : State) :
  TimersOk s -> ScanShape s -> ScanShape (snd (scanTimeout s)).
Proof.
  intros Ht Hs. unfold scanTimeout, clearTimer. js_run.
  destruct (scanTimeoutId s) as [id|] eqn:Eid; [|exact Hs].
  destruct (bool_decide (id ∈ pending s)) eqn:Hp; [|exact Hs].
  apply bool_decide_eq_true_1 in Hp.
  assert (scanning s = true) as Hsc.
  { unfold TimersOk in Ht. destruct Ht as (_ & _ & H3 & _ & H5).
    destruct (H5 id Hp) as [[_ Ha]|[Hsc _]]; [|exact Hsc].
    destruct (H3 id Ha) as [Hne _]. congruence. }
  js_run.
  match goal with |- context [runScanPhase ?u] => set (u1 := u) end.
  pose proof Hs as Hs'. unfold ScanShape in Hs'. rewrite Hsc in Hs'.
  destruct Hs' as (Hphases & Hidx & Hdis & _).
  destruct (Nat.eq_dec (S (scanIndex s)) 7) as [Hlast|Hmore].
  - destruct Hphases as [[Htier Hph]|[Htier Hph]].
    + rewrite runScanPhase_finished_tier1;
        [| exact Hsc | exact Htier | unfold u1; st; rewrite Hph; discriminate
         | unfold u1; st; rewrite Hph, Hlast; cbn; lia ].
      rewrite runScanPhase_tier2_start; try reflexivity; [|exact Hsc].
      apply presentCandidate_shape; unfold nextTier, u1; st; try assumption.
      * right. split; reflexivity.
      * lia.
    + rewrite runScanPhase_complete;
        [| exact Hsc | exact Htier | unfold u1; st; rewrite Hph; discriminate
         | unfold u1; st; rewrite Hph, Hlast; cbn; lia ].
      destruct (completeScan_frame u1) as (_ & C1 & C2 & C3 & C4 & C5 & C6 & _).
      { unfold u1; st. rewrite Hph. discriminate. }
      unfold ScanShape. rewrite C1. repeat apply conj; assumption.
  - rewrite runScanPhase_present;
      [| exact Hsc
       | unfold u1; st; destruct Hphases as [[_ ->]|[_ ->]]; discriminate
       | unfold u1; st; destruct Hphases as [[_ ->]|[_ ->]]; cbn; lia ].
    apply presentCandidate_shape; unfold u1; st; try assumption. lia.
Qed.

Lemma shape_frame (s s' : State) :
  ScanShape s ->
  scanning s' = scanning s -> scanTier s' = scanTier s -> scanPhases s' = scanPhases s ->
  scanCounts s' = scanCounts s -> scanIndex s' = scanIndex s ->
  phaseRangeDisabled s' = phaseRangeDisabled s ->
  scanTimeoutId s' = scanTimeoutId s ->
  (forall t, scanTimeoutId s = Some t -> t ∈ pending s -> t ∈ pending s') ->
  ScanShape s'.
Proof.
  unfold ScanShape. intros Hs -> -> -> -> -> -> -> Hp.
  destruct (scanning s); [|exact Hs].
  destruct Hs as (H1 & H2 & H3 & t & Ht & Hin).
  repeat apply conj; try assumption. exists t. split; [exact Ht | apply Hp; assumption].
Qed.

Lemma step_shape (s : State) (e : Event) :
  TimersOk s -> ScanShape s -> ScanShape (step s e).
Proof.
  intros Ht Hs. unfold step, exec. destruct e; cbn [handle].
  - apply startTwoTierScan_shape; assumption.
  - apply stopExplore_shape; assumption.
  - apply handleMarkStrongest_shape; assumption.
  - apply scanTimeout_shape; assumption.
  - (* CountdownTick *)
    unfold countdownTick, clearTimer. js_run.
    destruct (countdownInterval s) as [c|] eqn:Ec; [|exact Hs].
    destruct (bool_decide (c ∈ pending s)); [|exact Hs].
    js_run. st.
    destruct (Z.max 0 (countdownRemaining s - 1) <=? 0)%Z; js_run;
      apply (shape_frame s); st; try reflexivity; try exact Hs; try (intros; assumption).
    intros t Hid Hin. unfold TimersOk in Ht. destruct Ht as (_ & _ & _ & H4 & _).
    specialize (H4 t Hid). set_solver.
  - (* PhaseInput *)
    js_run. destruct (phaseRangeDisabled s) eqn:Hd; js_run; [exact Hs|].
    apply (shape_frame s); st; try reflexivity; try exact Hs; try (symmetry; exact Hd).
    intros; assumption.
  - (* SweepToggle *)
    js_run. destruct (sweepIsRunning s) eqn:Hr.
    + destruct (stopAutosweep_frame s)
        as (_ & _ & _ & _ & _ & _ & _ & _ & _ & F0 & F1 & F2 & F3 & F4 & F5 & F6 & _ & _ & _ & Fp).
      apply (shape_frame s); try assumption.
      intros t Hid Hin. rewrite Fp, Hr.
      destruct (sweepAnimId s) as [a|] eqn:Ea; [|exact Hin].
      unfold TimersOk in Ht. destruct Ht as (_ & _ & H3 & _).
      destruct (H3 a Ea) as [Hne _]. set_solver.
    + unfold startAutosweep, sweepStep, setTimer. js_run. rewrite Hr. js_run. st. js_unfold.
      apply (shape_frame s); st; try reflexivity; try exact Hs. intros; set_solver.
  - (* SweepFrame *)
    unfold sweepFrame, clearTimer. js_run.
    destruct (sweepAnimId s) as [a|] eqn:Ea; [|exact Hs].
    destruct (bool_decide (a ∈ pending s)); [|exact Hs].
    js_run. unfold sweepStep, setTimer. js_run. st.
    assert (forall t, scanTimeoutId s = Some t -> t <> a) as Hne.
    { intros t Hid ->. unfold TimersOk in Ht. destruct Ht as (_ & _ & H3 & _).
      destruct (H3 a Ea) as [Hne _]. congruence. }
    destruct (sweepIsRunning s); cbn [negb]; js_run; js_unfold;
      apply (shape_frame s); st; try reflexivity; try exact Hs;
      intros t Hid Hin; specialize (Hne t Hid); set_solver.
  - (* ClearBestPhase *)
    unfold clearBestPhaseForBand, getExploreBandKey. js_run.
    apply (shape_frame s); st; try reflexivity; try exact Hs. intros; assumption.
  - (* ClearHistory *)
    unfold handleClearHistory. js_run.
    apply (shape_frame s); st; try reflexivity; try exact Hs. intros; assumption.
Qed.

(** *** What is in memory is in local storage *)

Lemma runScanPhase_stores (s : State) :
  let s' := snd (runScanPhase s) in
  (bestPhaseByBand s' = bestPhaseByBand s /\ localStorage s' = localStorage s) \/
  localStorage s' = bestPhaseByBand s'.
Proof.
  assert (forall u, (bestPhaseByBand (snd (presentCandidate u)) = bestPhaseByBand u /\
                     localStorage (snd (presentCandidate u)) = localStorage u)) as Hpresent.
  { intros u. destruct (presentCandidate_cases u)
      as [[_ ->] | (target & s' & _ & -> & _ & _ & _ & Hbb & Hll & _)]; cbn [snd]; auto. }
  assert (forall u, (bestPhaseByBand (snd (completeScan u)) = bestPhaseByBand u /\
                     localStorage (snd (completeScan u)) = localStorage u) \/
                    localStorage (snd (completeScan u)) = bestPhaseByBand (snd (completeScan u)))
    as Hcomplete.
  { intros u. destruct (completeScan_cases u)
      as [[_ ->] | (i & best & s' & _ & -> & _ & Hsv & _)]; cbn [snd]; auto. }
  assert (forall u, (scanTier u =? 1)%Z = false ->
                    (bestPhaseByBand (snd (runScanPhase u)) = bestPhaseByBand u /\
                     localStorage (snd (runScanPhase u)) = localStorage u) \/
                    localStorage (snd (runScanPhase u)) = bestPhaseByBand (snd (runScanPhase u)))
    as Haux.
  { intros u Htier. rewrite (runScanPhase_eq u).
    destruct (scanning u); [|left; split; reflexivity].
    rewrite computePhases_tier, Htier.
    destruct (computePhases_set u) as [l ->].
    destruct (length (scanPhases (setScanPhases l u)) <=? scanIndex (setScanPhases l u))%nat.
    - apply (Hcomplete (setScanPhases l u)).
    - left. apply (Hpresent (setScanPhases l u)). }
  cbv zeta. destruct (scanTier s =? 1)%Z eqn:Htier; [|apply Haux; exact Htier].
  rewrite (runScanPhase_eq s).
  destruct (scanning s); [|left; split; reflexivity].
  rewrite computePhases_tier, Htier.
  destruct (computePhases_set s) as [l ->].
  destruct (length (scanPhases (setScanPhases l s)) <=? scanIndex (setScanPhases l s))%nat.
  - apply (Haux (nextTier (setScanPhases l s))). reflexivity.
  - left. apply (Hpresent (setScanPhases l s)).
Qed.

Lemma step_persisted (s : State) (e : Event) : Persisted s -> Persisted (step s e).
Proof.
  unfold Persisted. intros Hp.
  assert (forall s', bestPhaseByBand s' = bestPhaseByBand s -> localStorage s' = localStorage s ->
                     bestPhaseByBand s' ⊆ localStorage s') as Hsame
    by (intros s' -> ->; exact Hp).
  unfold step, exec. destruct e; cbn [handle].
  - (* ExplorePlay *)
    unfold startTwoTierScan. js_run. destruct (scanning s); [exact Hp|].
    unfold startExplore. js_run. rewrite run_bind, liftAudio_run.
    destruct (Audio.startGraph (controls s) (bandHz s) (audio s)) as [[[]|] a']; cbn [fst snd];
      [|exact Hp].
    js_run. rewrite run_bind.
    match goal with |- context [stopAutosweep ?u] => set (u1 := u) end.
    destruct (stopAutosweep_frame u1) as (Hok & _ & _ & _ & _ & _ & Fb & Fl & _).
    destruct (stopAutosweep u1) as [r u2]. cbn [fst snd] in *. subst r. js_run.
    match goal with |- context [runScanPhase ?u] => destruct (runScanPhase_stores u) as [[Hb Hl]|Heq] end.
    + rewrite Hb, Hl. st. rewrite Fb, Fl. exact Hp.
    + rewrite Heq. reflexivity.
  - destruct (stopExplore_run s) as (s' & -> & Hb & Hl & _). apply Hsame; assumption.
  - rewrite handleMarkStrongest_run. cbn [snd]. cbv zeta. st. reflexivity.
  - unfold scanTimeout, clearTimer. js_run.
    destruct (scanTimeoutId s) as [id|]; [|exact Hp].
    destruct (bool_decide (id ∈ pending s)); [|exact Hp].
    js_run.
    match goal with |- context [runScanPhase ?u] => destruct (runScanPhase_stores u) as [[Hb Hl]|Heq] end.
    + rewrite Hb, Hl. exact Hp.
    + rewrite Heq. reflexivity.
  - destruct (countdownTick_run s) as (s' & -> & Hu). destruct Hu as (Hb & Hl & _).
    apply Hsame; assumption.
  - js_run. destruct (phaseRangeDisabled s); js_run; exact Hp.
  - destruct (sweepToggle_run s) as (s' & Hrun & Hb & Hl & _). unfold handle in Hrun.
    rewrite Hrun. apply Hsame; assumption.
  - destruct (sweepFrame_run frac s) as (s' & -> & Hb & Hl & _). apply Hsame; assumption.
  - unfold clearBestPhaseForBand, getExploreBandKey. js_run. st.
    etransitivity; [apply delete_subseteq | exact Hp].
  - unfold handleClearHistory. js_run. st. reflexivity.
Qed.

Lemma step_session (s : State) (e : Event) : Session s -> Session (step s e).
Proof.
  intros (Hp & Ht & Hs). refine (conj _ (conj _ _)).
  - apply step_persisted; exact Hp.
  - apply step_timers; exact Ht.
  - apply step_shape; assumption.
Qed.

Lemma run_session (es : list Event) (s : State) : Session s -> Session (run s es).
Proof.
  revert s. induction es as [|e es IH]; intros s Hs; [exact Hs|].
  change (run s (e :: es)) with (run (step s e) es). apply IH, step_session, Hs.
Qed.

Lemma loaded_session (c : Audio.Controls) (key : string) (hz : Qc)
    (stored : gmap string PhaseRecord) :
  Session (loaded c key hz stored).
Proof.
  unfold loaded, exec, loadOnStartup, loadPhaseHistory. js_run. cbn [snd].
  repeat apply conj.
  - unfold Persisted. st. rewrite (right_id_L ∅ (∪)). reflexivity.
  - intros t. st. set_solver.
  - intros t. st. intros [H|[H|H]]; discriminate.
  - intros t. st. discriminate.
  - intros t. st. discriminate.
  - intros t. st. set_solver.
  - reflexivity.
  - reflexivity.
  - reflexivity.
  - reflexivity.
  - reflexivity.
Qed.

(** *** The course of a scan *)

Lemma toFixed0_zero : JsNum.toFixed0 (Q2Qc 0) = Q2Qc 0.
Proof. apply Qc_this_inj. vm_compute. reflexivity. Qed.

Lemma zeros_lookup (i : nat) (x : Qc) : replicate 7 (Q2Qc 0) !! i = Some x -> x = Q2Qc 0.
Proof. intros H. apply lookup_replicate in H. apply H. Qed.

(** The advance timer firing in a scan: the next candidate, or, after the
    fourteenth, the end of the scan with 0 degrees stored. *)
Lemma scanTimeout_advance (s : State) :
  TimersOk s -> ScanShape s -> scanning s = true ->
  let s' := step s ScanTimeout in
  bandKey s' = bandKey s /\
  ((position s < 13)%nat ->
     scanning s' = true /\ position s' = S (position s) /\
     bestPhaseByBand s' = bestPhaseByBand s /\ localStorage s' = localStorage s) /\
  ((position s < 13)%nat \/
   (scanning s' = false /\ phaseRange s' = Q2Qc 0 /\
    localStorage s' = bestPhaseByBand s' /\
    bestPhaseByBand s' =
      <[bandKey s := mkRecord (Q2Qc 0) (match bestPhaseByBand s !! bandKey s with
                                        | Some r => count r
                                        | None => 1%Z
                                        end)]> (bestPhaseByBand s))).
Proof.
  intros Ht Hs Hsc. pose proof Hs as Hs'. unfold ScanShape in Hs'. rewrite Hsc in Hs'.
  destruct Hs' as (Hphases & Hidx & Hdis & id & Hid & Hp).
  unfold step, exec, handle, scanTimeout, clearTimer. js_run. rewrite Hid.
  rewrite bool_decide_eq_true_2 by exact Hp. js_run.
  match goal with |- context [runScanPhase ?u] => set (u1 := u) end.
  destruct (Nat.eq_dec (S (scanIndex s)) 7) as [Hlast|Hmore].
  - destruct Hphases as [[Htier Hph]|[Htier Hph]].
    + rewrite runScanPhase_finished_tier1;
        [| exact Hsc | exact Htier | unfold u1; st; rewrite Hph; discriminate
         | unfold u1; st; rewrite Hph, Hlast; cbn; lia ].
      rewrite runScanPhase_tier2_start; try reflexivity; [|exact Hsc].
      match goal with |- context [presentCandidate ?u] =>
        destruct (presentCandidate_frame u (Q2Qc 0)) as (_ & _ & F1 & F2 & F3 & _ & F5 & _ & F7 & F8 & F9 & _);
          [reflexivity|]
      end.
      unfold position. rewrite F1, F2, F5, F7, F8, F9. unfold nextTier, u1. st.
      rewrite Htier. change (2 =? 1)%Z with false. change (1 =? 1)%Z with true.
      repeat apply conj; try reflexivity.
      * intros _. repeat apply conj; first [reflexivity | exact Hsc | lia].
      * left. lia.
    + rewrite runScanPhase_complete;
        [| exact Hsc | exact Htier | unfold u1; st; rewrite Hph; discriminate
         | unfold u1; st; rewrite Hph, Hlast; cbn; lia ].
      destruct (completeScan_frame u1)
        as (_ & C1 & _ & _ & _ & _ & _ & C7 & C8 & _ & _ & i & best & Hi & Hlive & Hstore).
      { unfold u1; st. rewrite Hph. discriminate. }
      unfold u1 in Hi. st. rewrite Hph in Hi. apply zeros_lookup in Hi. subst best.
      rewrite toFixed0_zero in Hlive.
      unfold position. rewrite Htier. change (2 =? 1)%Z with false.
      repeat apply conj.
      * exact C8.
      * intros Hlt. lia.
      * right. repeat apply conj; assumption.
  - assert (exists target, scanPhases u1 !! scanIndex u1 = Some target) as [target Htarget].
    { apply lookup_lt_is_Some_2. unfold u1. st. destruct Hphases as [[_ ->]|[_ ->]]; cbn; lia. }
    rewrite runScanPhase_present;
      [| exact Hsc
       | unfold u1; st; destruct Hphases as [[_ ->]|[_ ->]]; discriminate
       | unfold u1; st; destruct Hphases as [[_ ->]|[_ ->]]; cbn; lia ].
    destruct (presentCandidate_frame u1 target Htarget)
      as (_ & _ & F1 & F2 & F3 & _ & F5 & _ & F7 & F8 & F9 & _).
    unfold position. rewrite F1, F2, F5, F7, F8, F9. unfold u1. st.
    repeat apply conj; try reflexivity.
    + intros _. repeat apply conj; first [reflexivity | exact Hsc | lia].
    + left. destruct Hphases as [[-> _]|[-> _]]; cbn; lia.
Qed.

Lemma mark_in_scan (s : State) (r0 : option PhaseRecord) (m : nat) :
  ScanShape s -> scanning s = true ->
  count <$> (bestPhaseByBand s !! bandKey s) = markedCount r0 m ->
  let s' := step s MarkStrongest in
  scanning s' = true /\ position s' = position s /\ bandKey s' = bandKey s /\
  count <$> (bestPhaseByBand s' !! bandKey s') = markedCount r0 (S m).
Proof.
  intros Hs Hsc Hcnt. unfold step, exec, handle. rewrite handleMarkStrongest_run.
  cbn [snd]. cbv zeta. rewrite Hsc. unfold position. st.
  repeat apply conj; try reflexivity; try exact Hsc.
  rewrite lookup_insert_eq. cbn [fmap option_fmap option_map].
  destruct (bestPhaseByBand s !! bandKey s) as [r|] eqn:Er; cbn in Hcnt |- *.
  - destruct r0 as [r0|]; cbn in *.
    + injection Hcnt as ->. f_equal. lia.
    + destruct m as [|m]; [discriminate|]. injection Hcnt as ->. f_equal. lia.
  - destruct r0 as [r0|]; cbn in *; [discriminate|].
    destruct m as [|m]; [reflexivity | discriminate].
Qed.

Lemma run_snoc (s : State) (es : list Event) (e : Event) :
  run s (es ++ [e]) = step (run s es) e.
Proof. unfold run. rewrite fold_left_app. reflexivity. Qed.

(** A scan that is not disturbed, before its fourteenth advance. *)
Lemma run_scan_running (r0 : option PhaseRecord) (es : list Event) (s : State) (m : nat) :
  Session s -> scanning s = true ->
  forallb scanEvent es = true ->
  count <$> (bestPhaseByBand s !! bandKey s) = markedCount r0 m ->
  (position s + advances es < 14)%nat ->
  let s' := run s es in
  Session s' /\ scanning s' = true /\ position s' = (position s + advances es)%nat /\
  bandKey s' = bandKey s /\
  count <$> (bestPhaseByBand s' !! bandKey s') = markedCount r0 (m + marks es).
Proof.
  revert s m. induction es as [|e es IH]; intros s m Hsess Hsc Hev Hcnt Hpos.
  - cbn. unfold advances, marks. cbn. rewrite !Nat.add_0_r.
    split; [exact Hsess|]. repeat apply conj; try assumption; reflexivity.
  - cbn [forallb] in Hev. apply andb_prop in Hev as [He Hes].
    change (run s (e :: es)) with (run (step s e) es).
    pose proof (step_session s e Hsess) as Hsess'.
    destruct Hsess as (_ & Ht & Hshape).
    destruct e; try discriminate He.
    + (* MarkStrongest *)
      destruct (mark_in_scan s r0 m Hshape Hsc Hcnt) as (M1 & M2 & M3 & M4).
      unfold advances, marks in *. cbn [List.filter isAdvance isMark length] in *.
      destruct (IH (step s MarkStrongest) (S m) Hsess' M1 Hes M4) as (I1 & I2 & I3 & I4 & I5).
      { rewrite M2. exact Hpos. }
      cbv zeta. rewrite I5, I3, I4, M2, M3.
      split; [exact I1|]. repeat apply conj; try assumption; try reflexivity. f_equal. lia.
    + (* ScanTimeout *)
      unfold advances, marks in *. cbn [List.filter isAdvance isMark length] in *.
      destruct (scanTimeout_advance s Ht Hshape Hsc) as (A0 & A1 & _).
      destruct A1 as (A1 & A2 & A3 & A4); [lia|].
      destruct (IH (step s ScanTimeout) m Hsess' A1 Hes) as (I1 & I2 & I3 & I4 & I5).
      { rewrite A0, A3. exact Hcnt. }
      { rewrite A2. lia. }
      cbv zeta. rewrite I5, I3, I4, A2, A0.
      split; [exact I1|]. repeat apply conj; try assumption; try reflexivity. lia.
    + (* CountdownTick *)
      unfold advances, marks in *. cbn [List.filter isAdvance isMark length] in *.
      assert (Untouched s (step s CountdownTick)) as Hu.
      { unfold step, exec, handle. destruct (countdownTick_run s) as (s' & -> & Hu). exact Hu. }
      destruct Hu as (U1 & U2 & U3 & U4 & U5 & U6 & U7 & U8 & U9).
      destruct (IH (step s CountdownTick) m Hsess') as (I1 & I2 & I3 & I4 & I5).
      { rewrite U5. exact Hsc. }
      { exact Hes. }
      { rewrite U1, U3. exact Hcnt. }
      { unfold position. rewrite U6, U9. exact Hpos. }
      cbv zeta. rewrite I5, I3, I4. unfold position. rewrite U6, U9, U3.
      split; [exact I1|]. repeat apply conj; try assumption; reflexivity.
Qed.

(** Starting a scan from a page that is not scanning. *)
Lemma startTwoTierScan_begin (s : State) :
  scanning s = false ->
  scanning (step s ExplorePlay) = true ->
  position (step s ExplorePlay) = 0%nat /\
  bandKey (step s ExplorePlay) = bandKey s /\
  bestPhaseByBand (step s ExplorePlay) = bestPhaseByBand s.
Proof.
  intros Hsc. unfold step, exec, handle, startTwoTierScan. js_run. rewrite Hsc.
  unfold startExplore. js_run. rewrite run_bind, liftAudio_run.
  destruct (Audio.startGraph (controls s) (bandHz s) (audio s)) as [[[]|] a']; cbn [fst snd];
    [|st; congruence].
  js_run. rewrite run_bind.
  match goal with |- context [stopAutosweep ?u] => set (u1 := u) end.
  destruct (stopAutosweep_frame u1)
    as (Hok & _ & _ & _ & Fk & _ & Fb & _ & _ & _ & F1 & F2 & F3 & _ & F5 & _).
  destruct (stopAutosweep u1) as [r u2]. cbn [fst snd] in *. subst r.
  js_run. rewrite runScanPhase_tier1_start; st; try assumption.
  match goal with |- context [presentCandidate ?u] =>
    destruct (presentCandidate_frame u (Q2Qc 0)) as (_ & _ & P1 & P2 & P3 & _ & P5 & _ & P7 & _ & P9 & _)
  end.
  { st. rewrite F5. reflexivity. }
  intros _. unfold position. rewrite P2, P5, P7, P9. st. rewrite F2, F5, Fk, Fb.
  repeat apply conj; reflexivity.
Qed.

Lemma stopExplore_sweep (s : State) : sweepIsRunning (snd (stopExplore s)) = false.
Proof.
  unfold stopExplore.
  rewrite run_bind, liftAudio_run.
  rewrite (noThrow_run _ _ stopCurrentAudio_noThrow). cbn [fst snd].
  rewrite run_bind.
  match goal with |- context [stopAutosweep ?u] => set (u1 := u) end.
  destruct (stopAutosweep_frame u1) as (Hok & Hrun & _).
  destruct (stopAutosweep u1) as [r u2]. cbn [fst snd] in *. subst r.
  rewrite run_gets_bind.
  destruct (scanning u2).
  - rewrite run_when_true. unfold clearTimer. js_run. st.
    destruct (scanTimeoutId u2) as [t1|]; js_run; st;
      destruct (countdownInterval u2) as [t2|]; js_run; st; exact Hrun.
  - rewrite run_when_false. js_run. exact Hrun.
Qed.

(** X4: in every state a session can reach from a loaded page, whatever
    the events, each record in memory is in local storage with the same
    value; right after a mark the two tables are equal; and a reload
    fills the memory with exactly what local storage holds.  (Writes to
    local storage are taken to succeed.) *)
Theorem X4_records_in_memory_are_persisted (c : Audio.Controls) (key : string) (hz : Qc)
    (stored : gmap string PhaseRecord) (es : list Event) :
  let s := run (loaded c key hz stored) es in
  (forall k r, bestPhaseByBand s !! k = Some r -> localStorage s !! k = Some r) /\
  localStorage (step s MarkStrongest) = bestPhaseByBand (step s MarkStrongest) /\
  bestPhaseByBand (loaded c key hz (localStorage s)) = localStorage s.
Proof.
  intros s.
  destruct (run_session es _ (loaded_session c key hz stored)) as (Hp & _).
  fold s in Hp. repeat apply conj.
  - intros k r Hk. exact (lookup_weaken _ _ _ _ Hk Hp).
  - unfold step, exec, handle. rewrite handleMarkStrongest_run. reflexivity.
  - unfold loaded, exec, loadOnStartup, loadPhaseHistory. js_run. st.
    apply (right_id_L ∅ (∪)).
Qed.

(** X5: Stop, in any state a session can reach, leaves no timer of the
    page pending (advance timer, countdown, sweep frame), ends the scan
    and the autosweep, enables the slider and resets the scan variables;
    the records and the live phase are as before. *)
Theorem X5_stop_cancels_every_page_timer (c : Audio.Controls) (key : string) (hz : Qc)
    (stored : gmap string PhaseRecord) (es : list Event) :
  let s := run (loaded c key hz stored) es in
  let s' := step s ExploreStop in
  pending s' = ∅ /\
  scanning s' = false /\ sweepIsRunning s' = false /\ phaseRangeDisabled s' = false /\
  scanTier s' = 0%Z /\ scanPhases s' = [] /\ scanCounts s' = ∅ /\ scanIndex s' = 0%nat /\
  bestPhaseByBand s' = bestPhaseByBand s /\ localStorage s' = localStorage s /\
  phaseRange s' = phaseRange s.
Proof.
  intros s s'.
  pose proof (run_session es _ (loaded_session c key hz stored)) as Hsess. fold s in Hsess.
  pose proof (step_session s ExploreStop Hsess) as (_ & _ & Hshape). fold s' in Hshape.
  destruct Hsess as (_ & Ht & _).
  destruct (stopExplore_timers s Ht) as (_ & Hpending).
  destruct (stopExplore_run s) as (u & Hrun & Hb & Hl & _ & Hph & Hsc & _).
  assert (s' = u) as Hs' by (unfold s', step, exec, handle; rewrite Hrun; reflexivity).
  unfold ScanShape in Hshape. rewrite Hs' in *. rewrite Hsc in Hshape.
  destruct Hshape as (S1 & S2 & S3 & S4 & S5).
  repeat apply conj; try assumption.
  - rewrite <- Hs'. exact Hpending.
  - rewrite <- Hs'. apply stopExplore_sweep.
Qed.

(** X6: in every state a session can reach, the phase slider is disabled
    exactly while a scan runs.  A running scan is in tier 1 on the
    candidates 0, 60, 120, 180, 240, 300, 360 or in tier 2 on seven
    candidates that are all 0; its index is below 7 and its advance timer
    is pending, so the scan cannot stall.  Without a scan the tier is 0
    and the candidates and the counts are empty. *)
Theorem X6_scan_keeps_its_shape (c : Audio.Controls) (key : string) (hz : Qc)
    (stored : gmap string PhaseRecord) (es : list Event) :
  let s := run (loaded c key hz stored) es in
  phaseRangeDisabled s = scanning s /\
  (scanning s = true ->
     ((scanTier s = 1%Z /\
       scanPhases s = map JsNum.ofZ [0; 60; 120; 180; 240; 300; 360]%Z) \/
      (scanTier s = 2%Z /\ scanPhases s = replicate 7 (Q2Qc 0))) /\
     (scanIndex s < 7)%nat /\
     (exists t, scanTimeoutId s = Some t /\ t ∈ pending s)) /\
  (scanning s = false ->
     scanTier s = 0%Z /\ scanPhases s = [] /\ scanCounts s = ∅ /\ scanIndex s = 0%nat).
Proof.
  intros s.
  pose proof (run_session es _ (loaded_session c key hz stored)) as (_ & _ & Hshape).
  fold s in Hshape. unfold ScanShape in Hshape.
  destruct (scanning s).
  - destruct Hshape as (H1 & H2 & H3 & H4).
    repeat apply conj; [exact H3 | | discriminate]. intros _. repeat apply conj; assumption.
  - destruct Hshape as (H1 & H2 & H3 & H4 & H5).
    repeat apply conj; [exact H5 | discriminate |]. intros _. repeat apply conj; assumption.
Qed.

(** X7: whenever the advance timer ends a scan, in any state a session
    can reach, the scan was at its fourteenth candidate, and the phase
    stored for the selected band is 0 degrees, with the count the record
    had (1 when there was none); the record is saved and the slider is
    set to 0. *)
Theorem X7_completed_scan_stores_zero (c : Audio.Controls) (key : string) (hz : Qc)
    (stored : gmap string PhaseRecord) (es : list Event) :
  let s := run (loaded c key hz stored) es in
  let s' := step s ScanTimeout in
  scanning s = true ->
  scanning s' = false ->
  position s = 13%nat /\
  bestPhaseByBand s' !! bandKey s =
    Some (mkRecord (Q2Qc 0) (match bestPhaseByBand s !! bandKey s with
                             | Some r => count r
                             | None => 1%Z
                             end)) /\
  localStorage s' = bestPhaseByBand s' /\
  phaseRange s' = Q2Qc 0.
Proof.
  intros s s' Hsc Hend.
  pose proof (run_session es _ (loaded_session c key hz stored)) as (_ & Ht & Hshape).
  fold s in Ht, Hshape.
  destruct (scanTimeout_advance s Ht Hshape Hsc) as (_ & Hrunning & Hdone).
  fold s' in Hrunning, Hdone.
  assert (~ (position s < 13)%nat) as Hlast.
  { intros Hlt. destruct (Hrunning Hlt) as (Hstill & _). congruence. }
  destruct Hdone as [Hlt | (_ & Hlive & Hsaved & Hstore)]; [contradiction|].
  assert (position s < 14)%nat as Hbound.
  { unfold position. unfold ScanShape in Hshape. rewrite Hsc in Hshape.
    destruct Hshape as ([[-> _]|[-> _]] & Hidx & _); cbn; lia. }
  repeat apply conj; try assumption; [lia|].
  rewrite Hstore. apply lookup_insert_eq.
Qed.

(** Thirteen advances into a scan on a page that has a record. *)
Lemma X7_completed_scan_stores_zero_witness :
  position (atLastCandidate threeMarksAt100) = 13%nat /\
  bestPhaseByBand (step (atLastCandidate threeMarksAt100) ScanTimeout)
    !! bandKey (atLastCandidate threeMarksAt100) =
    Some (mkRecord (Q2Qc 0)
            (match bestPhaseByBand (atLastCandidate threeMarksAt100)
                     !! bandKey (atLastCandidate threeMarksAt100) with
             | Some r => count r
             | None => 1%Z
             end)) /\
  localStorage (step (atLastCandidate threeMarksAt100) ScanTimeout) =
    bestPhaseByBand (step (atLastCandidate threeMarksAt100) ScanTimeout) /\
  phaseRange (step (atLastCandidate threeMarksAt100) ScanTimeout) = Q2Qc 0.
Proof.
  apply (X7_completed_scan_stores_zero binauralControls "7.83" (Q2Qc 7.83) threeMarksAt100
           (ExplorePlay :: replicate 13 ScanTimeout)).
  - vm_compute. reflexivity.
  - vm_compute. reflexivity.
Defined.

(** X8: a scan started from a page that is not scanning, and then left to
    marks, countdown ticks and advances, is still running before its
    fourteenth advance; the fourteenth advance ends it, with the slider
    enabled and at 0 and, saved for the selected band, the phase 0 with
    the count of the record before the scan plus the marks of the scan (1
    when there was no record and no mark). *)
Theorem X8_guided_scan_takes_fourteen_advances (c : Audio.Controls) (key : string)
    (hz : Qc) (stored : gmap string PhaseRecord) (es0 es : list Event) :
  let s0 := run (loaded c key hz stored) es0 in
  let s1 := step s0 ExplorePlay in
  scanning s0 = false ->
  scanning s1 = true ->
  forallb scanEvent es = true ->
  ((advances es < 14)%nat -> scanning (run s1 es) = true) /\
  (advances es = 14%nat -> last es = Some ScanTimeout ->
   let s' := run s1 es in
   scanning s' = false /\ phaseRangeDisabled s' = false /\ phaseRange s' = Q2Qc 0 /\
   localStorage s' = bestPhaseByBand s' /\
   bestPhaseByBand s' !! bandKey s0 =
     Some (mkRecord (Q2Qc 0)
                    (default 1%Z (markedCount (bestPhaseByBand s0 !! bandKey s0) (marks es))))).
Proof.
  intros s0 s1 Hidle Hstarted Hev.
  pose proof (run_session es0 _ (loaded_session c key hz stored)) as Hsess0. fold s0 in Hsess0.
  pose proof (step_session s0 ExplorePlay Hsess0) as Hsess1. fold s1 in Hsess1.
  destruct (startTwoTierScan_begin s0 Hidle Hstarted) as (Hpos & Hkey & Hstore).
  fold s1 in Hpos, Hkey, Hstore.
  assert (count <$> (bestPhaseByBand s1 !! bandKey s1) =
          markedCount (bestPhaseByBand s0 !! bandKey s0) 0) as Hcnt.
  { rewrite Hkey, Hstore. destruct (bestPhaseByBand s0 !! bandKey s0) as [r|]; cbn; [|reflexivity].
    f_equal. lia. }
  split.
  - intros Hlt.
    destruct (run_scan_running (bestPhaseByBand s0 !! bandKey s0) es s1 0 Hsess1 Hstarted Hev Hcnt)
      as (_ & Hrun & _); [rewrite Hpos; lia | exact Hrun].
  - intros Hfull Hlast. apply last_Some in Hlast. destruct Hlast as [es' ->].
    rewrite forallb_app in Hev. apply andb_prop in Hev as [Hev' _].
    assert (advances es' = 13%nat /\ marks (es' ++ [ScanTimeout]) = marks es') as [Hadv Hmarks].
    { unfold advances, marks in *. rewrite !List.filter_app, !length_app in *.
      cbn in *. lia. }
    destruct (run_scan_running (bestPhaseByBand s0 !! bandKey s0) es' s1 0 Hsess1 Hstarted Hev' Hcnt)
      as (Hsess & Hrun & Hp & Hk & Hc); [rewrite Hpos; lia|].
    rewrite run_snoc. cbv zeta. set (s13 := run s1 es') in *.
    destruct Hsess as (_ & Ht & Hshape).
    pose proof (step_shape s13 ScanTimeout Ht Hshape) as Hshape'.
    destruct (scanTimeout_advance s13 Ht Hshape Hrun) as (_ & _ & Hdone).
    destruct Hdone as [Hlt | (Hend & Hlive & Hsaved & Hrec)]; [rewrite Hp, Hpos in Hlt; lia|].
    unfold ScanShape in Hshape'. rewrite Hend in Hshape'.
    destruct Hshape' as (_ & _ & _ & _ & Hdis).
    repeat apply conj; try assumption.
    assert (bandKey s0 = bandKey s13) as Hk0 by congruence.
    cbn [Nat.add] in Hc. rewrite Hrec, Hmarks, <- Hc, Hk0, lookup_insert_eq. f_equal. f_equal.
    destruct (bestPhaseByBand s13 !! bandKey s13); reflexivity.
Qed.

(** A scan on a page with nothing stored, marked once in each tier. *)
Lemma X8_guided_scan_takes_fourteen_advances_witness :
  let es := [ScanTimeout; MarkStrongest] ++ replicate 6 ScanTimeout ++
            [CountdownTick; MarkStrongest] ++ replicate 7 ScanTimeout in
  let s' := run (step (page ∅) ExplorePlay) es in
  scanning s' = false /\ phaseRangeDisabled s' = false /\ phaseRange s' = Q2Qc 0 /\
  localStorage s' = bestPhaseByBand s' /\
  bestPhaseByBand s' !! bandKey (page ∅) =
    Some (mkRecord (Q2Qc 0)
                   (default 1%Z (markedCount (bestPhaseByBand (page ∅) !! bandKey (page ∅))
                                             (marks es)))).
Proof.
  cbv zeta.
  apply (X8_guided_scan_takes_fourteen_advances binauralControls "7.83" (Q2Qc 7.83) ∅ []
           ([ScanTimeout; MarkStrongest] ++ replicate 6 ScanTimeout ++
            [CountdownTick; MarkStrongest] ++ replicate 7 ScanTimeout)).
  - reflexivity.
  - vm_compute. reflexivity.
  - reflexivity.
  - reflexivity.
  - reflexivity.
Defined.

End SessionShape.

(** ** The wet gain of the reverb, over all impulse responses *)

Section ReverbBounds.
Import Reverb.
Local Open Scope R_scope.

Lemma wet_of_rms (space : string) (buffer : option AudioBuffer) (x : R) :
  getAudioBufferRms buffer = Finite x -> 0 < x ->
  getCompensatedIrWetGain space buffer =
  Rmax 0.03 (Rmin 0.95 (baseWet space * Rmax 0.05 (Rmin 1.5 (0.12 / x)))).
Proof.
  intros Hx Hpos. unfold getCompensatedIrWetGain. rewrite Hx.
  destruct (Rle_dec x 0) as [Hle|_]; [lra | reflexivity].
Qed.

Lemma baseWet_cases (space : string) : baseWet space = 0.42 \/ baseWet space = 0.58.
Proof. unfold baseWet. destruct (String.eqb space "temple"); auto. Qed.

Lemma comp_bounds (q : R) : 0.05 <= Rmax 0.05 (Rmin 1.5 q) <= 1.5.
Proof.
  unfold Rmax, Rmin. destruct (Rle_dec 1.5 q); destruct (Rle_dec 0.05 _); lra.
Qed.

Lemma comp_antitone (x y : R) :
  0 < x -> x <= y ->
  Rmax 0.05 (Rmin 1.5 (0.12 / y)) <= Rmax 0.05 (Rmin 1.5 (0.12 / x)).
Proof.
  intros Hx Hxy.
  assert (0.12 / y <= 0.12 / x) as Hq.
  { unfold Rdiv. apply Rmult_le_compat_l; [lra|]. apply Rinv_le_contravar; assumption. }
  apply Rle_max_compat_l, Rle_min_compat_l, Hq.
Qed.

(** X9: for every reverb space and every impulse response (missing,
    empty or with samples that are not finite included) the wet gain is
    at least 0.03 and at most 1.5 times the base wet level, that is 0.63
    for the temple and 0.87 otherwise: the upper clamp at 0.95 is never
    reached.  Of two impulse responses with a positive rms, the louder
    one never gets the larger wet gain. *)
Theorem X9_wet_gain_bounds (space : string) (buffer buffer' : option AudioBuffer) :
  0.03 <= getCompensatedIrWetGain space buffer <= 1.5 * baseWet space /\
  getCompensatedIrWetGain space buffer <= 0.87 /\
  (forall x y, getAudioBufferRms buffer = Finite x -> getAudioBufferRms buffer' = Finite y ->
               0 < x -> x <= y ->
               getCompensatedIrWetGain space buffer' <= getCompensatedIrWetGain space buffer).
Proof.
  assert (0.03 <= getCompensatedIrWetGain space buffer <= 1.5 * baseWet space) as Hbounds.
  { destruct (getAudioBufferRms buffer) as [x|] eqn:Hx.
    - destruct (Rle_dec x 0) as [Hle|Hpos].
      + unfold getCompensatedIrWetGain. rewrite Hx.
        destruct (Rle_dec x 0); [|contradiction].
        fold (baseWet space). destruct (baseWet_cases space) as [-> | ->]; lra.
      + rewrite (wet_of_rms space buffer x Hx) by lra.
        pose proof (comp_bounds (0.12 / x)) as Hc.
        set (comp := Rmax 0.05 (Rmin 1.5 (0.12 / x))) in *.
        unfold Rmax, Rmin.
        destruct (baseWet_cases space) as [-> | ->];
          repeat match goal with |- context [Rle_dec ?a ?b] => destruct (Rle_dec a b) end;
          lra.
    - unfold getCompensatedIrWetGain. rewrite Hx. fold (baseWet space).
      destruct (baseWet_cases space) as [-> | ->]; lra. }
  repeat apply conj; try apply Hbounds.
  - destruct Hbounds as [_ Hup]. destruct (baseWet_cases space) as [E | E]; rewrite E in Hup; lra.
  - intros x y Hx Hy Hpos Hxy.
    rewrite (wet_of_rms space buffer x Hx) by lra.
    rewrite (wet_of_rms space buffer' y Hy) by lra.
    pose proof (comp_antitone x y Hpos Hxy) as Hc.
    apply Rle_max_compat_l, Rle_min_compat_l, Rmult_le_compat_l; [|exact Hc].
    destruct (baseWet_cases space) as [-> | ->]; lra.
Qed.

End ReverbBounds.

(** ** The dwell countdown *)

Section CountdownFacts.
Import App Samples.

Ltac st :=
  cbn [audio controls bandKey bandHz bestPhaseByBand localStorage phaseRange
       phaseRangeDisabled sweepIsRunning sweepAnimId scanning scanTier scanPhases
       scanCounts scanIndex scanTimeoutId countdownInterval countdownRemaining pending
       nextId setAudio setBestPhaseByBand setLocalStorage setPhaseRange
       setPhaseRangeDisabled setSweepIsRunning setSweepAnimId setScanning setScanTier
       setScanPhases setScanCounts setScanIndex setScanTimeoutId setCountdownInterval
       setCountdownRemaining setPending fst snd] in *.

Lemma countdownTick_step (s : State) (t : nat) :
  countdownInterval s = Some t ->
  let s' := step s CountdownTick in
  countdownInterval s' = Some t /\
  (t ∈ pending s ->
     countdownRemaining s' = Z.max 0 (countdownRemaining s - 1) /\
     (t ∈ pending s' <-> (0 < Z.max 0 (countdownRemaining s - 1))%Z)) /\
  (t ∉ pending s ->
     countdownRemaining s' = countdownRemaining s /\ t ∉ pending s').
Proof.
  intros Ht. cbv zeta. unfold step, exec, handle, countdownTick, clearTimer. js_run. rewrite Ht.
  destruct (bool_decide (t ∈ pending s)) eqn:Hp.
  - apply bool_decide_eq_true_1 in Hp. js_run. st.
    destruct (Z.leb_spec (Z.max 0 (countdownRemaining s - 1)) 0) as [Hle|Hgt]; js_run; st.
    + split; [exact Ht|]. split; [|intros Hn; contradiction].
      intros _. split; [reflexivity|]. split; [set_solver | lia].
    + split; [exact Ht|]. split; [|intros Hn; contradiction].
      intros _. split; [reflexivity|]. split; [intros _; exact Hgt | intros _; exact Hp].
  - apply bool_decide_eq_false_1 in Hp. cbn [snd].
    split; [exact Ht|]. split; [intros Hn; contradiction|].
    intros _. split; [reflexivity | exact Hp].
Qed.

(** X10: the countdown of a dwell.  Started for [duration] milliseconds it
    shows the whole seconds, rounded up; each tick of its interval takes
    one second off, never going below 0; the interval is pending until the
    tick that brings the display to 0 and is cancelled by that tick, after
    which further ticks change nothing. *)
Theorem X10_countdown_reaches_zero_and_stops (s : State) (duration : Z) (k : nat) :
  let n := ((duration + 999) / 1000)%Z in
  let s' := run (exec (startCountdown duration) s) (replicate k CountdownTick) in
  countdownRemaining s' = (if Nat.eqb k 0 then n else Z.max 0 (n - Z.of_nat k))%Z /\
  countdownInterval s' = Some (nextId s) /\
  (nextId s ∈ pending s' <-> k = 0%nat \/ (Z.of_nat k < n)%Z).
Proof.
  intros n. induction k as [|k IH].
  - cbv zeta. cbn [replicate run fold_left Nat.eqb].
    unfold exec, startCountdown, setTimer, clearTimer. js_run. st.
    destruct (countdownInterval s) as [c|]; js_unfold; st;
      (split; [reflexivity|]); (split; [reflexivity|]);
      (split; [intros _; left; reflexivity | intros _; set_solver]).
  - cbv zeta in *.
    replace (replicate (S k) CountdownTick) with (replicate k CountdownTick ++ [CountdownTick])
      by (rewrite <- replicate_S_end; reflexivity).
    unfold run in *. rewrite fold_left_app. cbn [fold_left].
    match goal with |- context [step ?u CountdownTick] => set (sk := u) in * end.
    destruct IH as (Hr & Hi & Hp).
    destruct (countdownTick_step sk (nextId s) Hi) as (Hi' & Hlive & Hdead).
    cbn [Nat.eqb].
    destruct (decide (nextId s ∈ pending sk)) as [Hin|Hout].
    + destruct (Hlive Hin) as (Hr' & Hp'). rewrite Hr', Hp', Hr.
      apply Hp in Hin.
      split; [|split; [exact Hi'|]].
      * destruct k as [|k]; cbn [Nat.eqb]; lia.
      * destruct k as [|k]; cbn [Nat.eqb]; lia.
    + destruct (Hdead Hout) as (Hr' & Hp'). rewrite Hr', Hr.
      assert (k <> 0%nat /\ ~ (Z.of_nat k < n)%Z) as [Hk Hn] by tauto.
      split; [|split; [exact Hi'|]].
      * destruct k as [|k]; [contradiction|]. cbn [Nat.eqb]. lia.
      * split; [intros H; contradiction | intros [H|H]; [discriminate | lia]].
Qed.

End CountdownFacts.

(** ** The tempo and the case of chord-loop names *)

Section TempoFacts.
Import Chords Samples.

Lemma digits23_sound (s d : string) :
  digits23 s = Some d ->
  exists post, s = (d ++ post)%string /\
               (String.length d = 2 \/ String.length d = 3)%nat /\
               allDigits d = true /\ endOfNumber post = true.
Proof.
  unfold digits23. destruct s as [|a [|b r]]; try discriminate.
  destruct (isDigit a) eqn:Da; [|discriminate].
  destruct (isDigit b) eqn:Db; [|discriminate]. cbn [andb].
  destruct r as [|c r'].
  - intros [= <-]. exists ""%string. unfold allDigits. cbn [forallb list_ascii_of_string append String.length]. rewrite Da, Db. auto.
  - destruct (isDigit c) eqn:Dc; cbn [andb].
    + destruct (endOfNumber r') eqn:E.
      * intros [= <-]. exists r'. unfold allDigits. cbn [forallb list_ascii_of_string append String.length]. rewrite Da, Db, Dc. auto.
      * unfold endOfNumber at 1. rewrite Dc. cbn [negb]. discriminate.
    + unfold endOfNumber at 1. rewrite Dc. cbn [negb].
      intros [= <-]. exists (String c r'). unfold allDigits.
      cbn [forallb list_ascii_of_string append String.length]. rewrite Da, Db.
      unfold endOfNumber. rewrite Dc. auto.
Qed.

Lemma append_cons (c : ascii) (s t : string) :
  (String c s ++ t)%string = String c (s ++ t)%string.
Proof. reflexivity. Qed.

Lemma append_empty (t : string) : (EmptyString ++ t)%string = t.
Proof. reflexivity. Qed.

Lemma digits23_complete (d post : string) :
  (String.length d = 2 \/ String.length d = 3)%nat ->
  allDigits d = true ->
  endOfNumber post = true ->
  digits23 (d ++ post) = Some d.
Proof.
  unfold allDigits. intros Hlen Hd Hpost.
  destruct d as [|a [|b [|c [|e d']]]]; cbn in Hlen; try lia.
  - cbn [forallb list_ascii_of_string] in Hd. apply andb_prop in Hd as [Da Hd]. apply andb_prop in Hd as [Db _].
    rewrite !append_cons, append_empty; unfold digits23. rewrite Da, Db. cbn [andb].
    destruct post as [|c r']; [reflexivity|].
    unfold endOfNumber in Hpost at 1. apply negb_true_iff in Hpost. rewrite Hpost. cbn [andb].
    unfold endOfNumber. rewrite Hpost. reflexivity.
  - cbn [forallb list_ascii_of_string] in Hd. apply andb_prop in Hd as [Da Hd]. apply andb_prop in Hd as [Db Hd].
    apply andb_prop in Hd as [Dc _].
    rewrite !append_cons, append_empty; unfold digits23. rewrite Da, Db, Dc, Hpost. reflexivity.
Qed.

Lemma lastChar_cons (c : ascii) (s : string) :
  s <> ""%string -> lastChar (String c s) = lastChar s.
Proof. destruct s; [congruence | reflexivity]. Qed.

Lemma bpmSearch_sound (s : string) :
  forall atStart d, bpmSearch atStart s = Some d ->
  exists pre post,
    s = (pre ++ d ++ post)%string /\
    (String.length d = 2 \/ String.length d = 3)%nat /\
    allDigits d = true /\
    (forall c, lastChar pre = Some c -> isDigit c = false) /\
    (atStart = false -> pre <> ""%string) /\
    endOfNumber post = true.
Proof.
  induction s as [|c r IH]; intros atStart d.
  - cbn [bpmSearch]. destruct atStart; cbn; discriminate.
  - cbn [bpmSearch].
    destruct (if atStart then digits23 (String c r) else None) as [d0|] eqn:E0.
    + intros [= ->]. destruct atStart; [|discriminate].
      destruct (digits23_sound _ _ E0) as (post & Hs & Hl & Hd & Hp).
      exists ""%string, post. repeat apply conj; try assumption; [discriminate | discriminate].
    + destruct (if isDigit c then None else digits23 r) as [d1|] eqn:E1.
      * intros [= ->]. destruct (isDigit c) eqn:Dc; [discriminate|].
        destruct (digits23_sound _ _ E1) as (post & Hs & Hl & Hd & Hp).
        exists (String c ""), post. repeat apply conj; try assumption.
        -- rewrite Hs. reflexivity.
        -- cbn. intros c' [= <-]. exact Dc.
        -- discriminate.
      * intros Hrec. destruct (IH false d Hrec) as (pre & post & Hs & Hl & Hd & Hlast & Hne & Hp).
        exists (String c pre), post. repeat apply conj; try assumption.
        -- rewrite Hs. reflexivity.
        -- rewrite lastChar_cons by (apply Hne; reflexivity). exact Hlast.
        -- discriminate.
Qed.

Lemma bpmSearch_complete (pre d post : string) :
  (String.length d = 2 \/ String.length d = 3)%nat ->
  allDigits d = true ->
  endOfNumber post = true ->
  (forall c, lastChar pre = Some c -> isDigit c = false) ->
  forall atStart, (atStart = false -> pre <> ""%string) ->
  bpmSearch atStart (pre ++ d ++ post) <> None.
Proof.
  intros Hl Hd Hp. induction pre as [|c pre IH]; intros Hlast atStart Hne.
  - destruct atStart; [|exfalso; apply Hne; reflexivity].
    rewrite append_empty.
    destruct d as [|a d']; [cbn in Hl; lia|].
    rewrite append_cons. cbn [bpmSearch]. rewrite <- append_cons.
    rewrite digits23_complete by assumption. discriminate.
  - rewrite append_cons. cbn [bpmSearch].
    destruct (if atStart then digits23 (String c (pre ++ d ++ post)) else None); [discriminate|].
    destruct pre as [|c' pre'].
    + assert (isDigit c = false) as Dc by (apply Hlast; reflexivity).
      rewrite Dc, append_empty, digits23_complete by assumption. discriminate.
    + destruct (if isDigit c then None else digits23 (String c' pre' ++ d ++ post));
        [discriminate|].
      apply IH; [|discriminate].
      intros x Hx. apply Hlast. rewrite lastChar_cons by discriminate. exact Hx.
Qed.

Lemma parseInt10_bound (d : string) :
  allDigits d = true -> (String.length d <= 3)%nat -> (0 <= parseInt10 d <= 999)%Z.
Proof.
  unfold allDigits, parseInt10, isDigit. intros Hd Hl.
  assert (forall c, (48 <=? nat_of_ascii c)%nat && (nat_of_ascii c <=? 57)%nat = true ->
                    (0 <= Z.of_nat (nat_of_ascii c - 48) <= 9)%Z) as Hdig.
  { intros c Hc. apply andb_prop in Hc as [H1 H2].
    apply Nat.leb_le in H1, H2. lia. }
  destruct d as [|a [|b [|c [|e d']]]]; cbn in Hl; try lia;
    cbn [forallb list_ascii_of_string fold_left] in Hd |- *.
  - lia.
  - apply andb_prop in Hd as [Da _]. pose proof (Hdig a Da). lia.
  - apply andb_prop in Hd as [Da Hd]. apply andb_prop in Hd as [Db _].
    pose proof (Hdig a Da). pose proof (Hdig b Db). lia.
  - apply andb_prop in Hd as [Da Hd]. apply andb_prop in Hd as [Db Hd].
    apply andb_prop in Hd as [Dc _].
    pose proof (Hdig a Da). pose proof (Hdig b Db). pose proof (Hdig c Dc). lia.
Qed.

(** X11: the tempo that [scoreChordLoop] reads off a loop's text.  A
    tempo is found exactly when the text has two or three digits standing
    alone; what is found is such a group (so never a part of a longer
    run of digits), and its value is between 0 and 999. *)
Theorem X11_tempo_is_a_number_standing_alone (text : string) :
  (bpmSearch true text <> None <-> exists d, standsAlone text d) /\
  (forall d, bpmSearch true text = Some d ->
             standsAlone text d /\ (0 <= parseInt10 d <= 999)%Z).
Proof.
  assert (forall d, bpmSearch true text = Some d ->
                    standsAlone text d /\ (0 <= parseInt10 d <= 999)%Z) as Hsound.
  { intros d Hd.
    destruct (bpmSearch_sound text true d Hd) as (pre & post & Hs & Hl & Hdig & Hlast & _ & Hp).
    split.
    - exists pre, post. repeat apply conj; assumption.
    - apply parseInt10_bound; [exact Hdig | lia]. }
  split; [|exact Hsound]. split.
  - intros Hsome. destruct (bpmSearch true text) as [d|] eqn:E; [|congruence].
    exists d. apply (Hsound d). reflexivity.
  - intros (d & pre & post & -> & Hl & Hd & Hlast & Hp).
    apply bpmSearch_complete; try assumption. discriminate.
Qed.

End TempoFacts.

Section CaseFacts.
Import Chords Samples.

Lemma lowerAscii_idem (c : ascii) : lowerAscii (lowerAscii c) = lowerAscii c.
Proof. destruct c as [[] [] [] [] [] [] [] []]; reflexivity. Qed.

Lemma toLowerCase_idem (s : string) : toLowerCase (toLowerCase s) = toLowerCase s.
Proof. induction s as [|c r IH]; cbn [toLowerCase]; [|rewrite lowerAscii_idem, IH]; reflexivity. Qed.

Lemma toLowerCase_app (s t : string) :
  toLowerCase (s ++ t) = (toLowerCase s ++ toLowerCase t)%string.
Proof.
  induction s as [|c r IH]; [reflexivity|].
  rewrite append_cons. cbn [toLowerCase]. rewrite IH. reflexivity.
Qed.

Lemma toLowerCase_empty (k : string) : String.eqb (toLowerCase k) "" = String.eqb k "".
Proof. destruct k; reflexivity. Qed.

Lemma loopText_lower (n f : string) :
  loopText (mkLoop (toLowerCase n) (toLowerCase f)) = loopText (mkLoop n f).
Proof.
  unfold loopText. cbn [name file].
  rewrite !toLowerCase_app, !toLowerCase_idem. reflexivity.
Qed.

Lemma addKeywordMatches_lower (w : Z) (text : string) (keys : list string) :
  forall score,
    addKeywordMatches w text (map toLowerCase keys) score = addKeywordMatches w text keys score.
Proof.
  unfold addKeywordMatches.
  induction keys as [|k keys IH]; intros score; [reflexivity|].
  cbn [map fold_left]. rewrite toLowerCase_empty, toLowerCase_idem. apply IH.
Qed.

Lemma prefArray_lower (prefs : option Preferences) :
  prefArray (lowerKeywords <$> prefs) favoriteKeywords []
    = map toLowerCase (prefArray prefs favoriteKeywords []) /\
  prefArray (lowerKeywords <$> prefs) meditationKeywords []
    = map toLowerCase (prefArray prefs meditationKeywords []) /\
  prefArray (lowerKeywords <$> prefs) avoidKeywords []
    = map toLowerCase (prefArray prefs avoidKeywords []) /\
  prefArray (lowerKeywords <$> prefs) bpmRange [110; 140]%Z
    = prefArray prefs bpmRange [110; 140]%Z.
Proof.
  destruct prefs as [[[fav|] [med|] [av|] [rg|]]|]; repeat split; reflexivity.
Qed.

(** X12: [scoreChordLoop] ignores the case of the ASCII letters, of the
    loop's name and file and of the keywords of the preferences: writing
    all of them in lower case gives the same score. *)
Theorem X12_scoreChordLoop_ignores_case (prefs : option Preferences) (n f : string) :
  scoreChordLoop (lowerKeywords <$> prefs) (mkLoop (toLowerCase n) (toLowerCase f))
    = scoreChordLoop prefs (mkLoop n f).
Proof.
  unfold scoreChordLoop.
  destruct (prefArray_lower prefs) as (-> & -> & -> & ->).
  rewrite loopText_lower, !addKeywordMatches_lower. reflexivity.
Qed.

End CaseFacts.

(** ** The timers of the audio engine *)

Section HoareFacts.
Context {S : Type}.
Import Engine.

Lemma leads_bind {A B : Type} (P Q R : S -> Prop) (m : Js S A) (k : A -> Js S B) :
  Leads P Q m -> (forall a, Leads Q R (k a)) -> (forall s, Q s -> R s) ->
  Leads P R (m ≫= k).
Proof.
  intros Hm Hk HQR s Hs. unfold mbind, Js_bind.
  specialize (Hm s Hs). destruct (m s) as [[a|] s1]; cbn [snd] in *.
  - apply Hk, Hm.
  - apply HQR, Hm.
Qed.

Lemma leads_bind_returning {A B : Type} (P Q R : S -> Prop) (m : Js S A) (k : A -> Js S B) :
  NoThrow m -> Leads P Q m -> (forall a, Leads Q R (k a)) -> Leads P R (m ≫= k).
Proof.
  intros Hn Hm Hk s Hs. unfold mbind, Js_bind.
  specialize (Hm s Hs). destruct (Hn s) as [a Ha].
  destruct (m s) as [[a'|] s1]; cbn [fst snd] in *; [|discriminate].
  apply Hk, Hm.
Qed.

Lemma keeps_bind {A B : Type} (P : S -> Prop) (m : Js S A) (k : A -> Js S B) :
  Leads P P m -> (forall a, Leads P P (k a)) -> Leads P P (m ≫= k).
Proof. intros Hm Hk. apply (leads_bind P P P); auto. Qed.

Lemma keeps_tryCatch (P : S -> Prop) (m h : Js S unit) :
  Leads P P m -> Leads P P h -> Leads P P (tryCatch m h).
Proof.
  intros Hm Hh s Hs. unfold tryCatch. specialize (Hm s Hs).
  destruct (m s) as [[a|] s1]; cbn [snd] in *; [exact Hm | apply Hh, Hm].
Qed.

Lemma keeps_skip (P : S -> Prop) : Leads P P (skip : Js S unit).
Proof. intros s Hs. exact Hs. Qed.

Lemma keeps_ret {A : Type} (P : S -> Prop) (a : A) : Leads P P (mret a : Js S A).
Proof. intros s Hs. exact Hs. Qed.

Lemma keeps_throw {A : Type} (P : S -> Prop) : Leads P P (throw : Js S A).
Proof. intros s Hs. exact Hs. Qed.

Lemma keeps_gets {A : Type} (P : S -> Prop) (f : S -> A) : Leads P P (gets f).
Proof. intros s Hs. exact Hs. Qed.

Lemma keeps_when (P : S -> Prop) (b : bool) (m : Js S unit) :
  Leads P P m -> Leads P P (when b m).
Proof. intros Hm. destruct b; [exact Hm | apply keeps_skip]. Qed.

Lemma keeps_forEach {A : Type} (P : S -> Prop) (l : list A) (f : A -> Js S unit) :
  (forall x, Leads P P (f x)) -> Leads P P (forEach l f).
Proof.
  intros Hf. induction l as [|x l IH]; cbn [forEach].
  - apply keeps_skip.
  - apply keeps_bind; [apply Hf | intros _; exact IH].
Qed.

Lemma leads_weaken {A : Type} (P Q R : S -> Prop) (m : Js S A) :
  Leads P Q m -> (forall s, Q s -> R s) -> Leads P R m.
Proof. intros Hm HQR s Hs. apply HQR, Hm, Hs. Qed.

End HoareFacts.

Section EngineTimers.
Import Audio Engine.

Ltac au :=
  cbn [audioCtx nodes timers nextTimer globals extraNodes motionPanners chordOscs
       chordIndex birdsIsSample wavesIsSample setAudioCtx setNodes setTimers setGlobals
       setExtraNodes setMotionPanners setChordOscs setChordIndex setBirdsIsSample
       setWavesIsSample fst snd] in *.

(** *** Handlers that leave the timers alone *)

Lemma silent_ret {A : Type} (a : A) : Silent (mret a).
Proof. intros s. reflexivity. Qed.

Lemma silent_skip : Silent skip.
Proof. intros s. reflexivity. Qed.

Lemma silent_throw {A : Type} : Silent (throw : Cmd A).
Proof. intros s. reflexivity. Qed.

Lemma silent_gets {A : Type} (f : AudioState -> A) : Silent (gets f).
Proof. intros s. reflexivity. Qed.

Lemma silent_bind {A B : Type} (m : Cmd A) (k : A -> Cmd B) :
  Silent m -> (forall a, Silent (k a)) -> Silent (m ≫= k).
Proof.
  intros Hm Hk s. unfold mbind, Js_bind. specialize (Hm s).
  destruct (m s) as [[a|] s1]; cbn [snd] in *; [|exact Hm].
  rewrite <- Hm. apply Hk.
Qed.

Lemma silent_tryCatch (m h : Cmd unit) : Silent m -> Silent h -> Silent (tryCatch m h).
Proof.
  intros Hm Hh s. unfold tryCatch. specialize (Hm s).
  destruct (m s) as [[a|] s1]; cbn [snd] in *; [exact Hm|].
  rewrite <- Hm. apply Hh.
Qed.

Lemma silent_when (b : bool) (m : Cmd unit) : Silent m -> Silent (when b m).
Proof. intros Hm. destruct b; [exact Hm | apply silent_skip]. Qed.

Lemma silent_forEach {A : Type} (l : list A) (f : A -> Cmd unit) :
  (forall x, Silent (f x)) -> Silent (forEach l f).
Proof.
  intros Hf. induction l as [|x l IH]; cbn [forEach].
  - apply silent_skip.
  - apply silent_bind; [apply Hf | intros _; exact IH].
Qed.

Lemma silent_create (k : NodeKind) (v : Qc) : Silent (create k v).
Proof. intros s. reflexivity. Qed.

Lemma silent_updNode (id : nat) (f : Node -> Node) : Silent (updNode id f).
Proof. intros s. reflexivity. Qed.

Lemma silent_setValue (id : nat) (v : Qc) : Silent (setValue id v).
Proof. apply silent_updNode. Qed.

Lemma silent_play (id : nat) : Silent (play id).
Proof. apply silent_updNode. Qed.

Lemma silent_start (id : nat) : Silent (start id).
Proof.
  intros s. unfold start. destruct (nodes s !! id) as [n|]; [|reflexivity].
  destruct (isScheduledSource (kind n) && negb (started n)); reflexivity.
Qed.

Lemma silent_stop (id : nat) : Silent (stop id).
Proof.
  intros s. unfold stop. destruct (nodes s !! id) as [n|]; [|reflexivity].
  destruct (isScheduledSource (kind n) && started n); reflexivity.
Qed.

Lemma silent_disconnect (id : nat) : Silent (disconnect id).
Proof.
  intros s. unfold disconnect. destruct (nodes s !! id) as [n|]; [|reflexivity].
  destruct (kind n); reflexivity.
Qed.

Lemma silent_modify_extra (f : AudioState -> list nat) :
  Silent (modify (fun s => setExtraNodes (f s) s)).
Proof. intros s. reflexivity. Qed.

Lemma silent_modify_panners (f : AudioState -> list nat) :
  Silent (modify (fun s => setMotionPanners (f s) s)).
Proof. intros s. reflexivity. Qed.

Lemma silent_modify_oscs (f : AudioState -> list nat) :
  Silent (modify (fun s => setChordOscs (f s) s)).
Proof. intros s. reflexivity. Qed.

Lemma silent_modify_index (f : AudioState -> nat) :
  Silent (modify (fun s => setChordIndex (f s) s)).
Proof. intros s. reflexivity. Qed.

Lemma silent_modify_ctx (v : bool) : Silent (modify (setAudioCtx v)).
Proof. intros s. reflexivity. Qed.

Lemma silent_modify_birds (v : bool) : Silent (modify (setBirdsIsSample v)).
Proof. intros s. reflexivity. Qed.

Lemma silent_modify_waves (v : bool) : Silent (modify (setWavesIsSample v)).
Proof. intros s. reflexivity. Qed.

Lemma silent_setG (x : string) (v : option nat) : x ∉ timerNames -> Silent (setG x v).
Proof.
  intros Hx s. unfold setG, modify, timerView. au. f_equal.
  apply map_ext_in. intros y Hy. apply list_elem_of_In in Hy.
  assert (x <> y) as Hne by (intros ->; contradiction).
  destruct v as [id|]; [apply lookup_insert_ne | apply lookup_delete_ne]; exact Hne.
Qed.

Ltac not_a_timer :=
  unfold timerNames, birdsPatternTimer, wavesPatternTimer, chordTimer, scopeAnimId,
         baseOsc, baseGain, masterGain, oceanSource, oceanGain, rainSource, rainGain,
         wavesSource, wavesGain, birdsSource, birdsGain, birdsStreamEl, wavesStreamEl,
         analyser, motionLfo, motionGainNode, chordBufferSource;
  rewrite !elem_of_cons, elem_of_nil; intros H;
  repeat (destruct H as [H|H]; [discriminate H|]); exact H.

Ltac silent_with leaf :=
  repeat first
    [ leaf
    | match goal with
      | |- Silent (_ ≫= _) => apply silent_bind; [|intros ?]
      | |- Silent (forEach _ _) => apply silent_forEach; intros ?
      | |- Silent (tryCatch _ _) => apply silent_tryCatch
      | |- Silent (when _ _) => apply silent_when
      | |- Silent (mret _) => apply silent_ret
      | |- Silent skip => apply silent_skip
      | |- Silent throw => apply silent_throw
      | |- Silent (gets _) => apply silent_gets
      | |- Silent (getG _) => apply silent_gets
      | |- Silent (create _ _) => apply silent_create
      | |- Silent (setValue _ _) => apply silent_setValue
      | |- Silent (play _) => apply silent_play
      | |- Silent (start _) => apply silent_start
      | |- Silent (stop _) => apply silent_stop
      | |- Silent (disconnect _) => apply silent_disconnect
      | |- Silent (updNode _ _) => apply silent_updNode
      | |- Silent (modify _) =>
          first [ apply silent_modify_extra | apply silent_modify_panners
                | apply silent_modify_oscs | apply silent_modify_index
                | apply silent_modify_ctx | apply silent_modify_birds
                | apply silent_modify_waves ]
      | |- Silent (setG _ _) => apply silent_setG; not_a_timer
      | |- Silent (match ?x with _ => _ end) => destruct x
      | |- Silent (if ?b then _ else _) => destruct b
      | |- Silent ?m =>
          match m with
          | context [match ?x with _ => _ end] => is_var x; destruct x
          end
      end ].

Ltac silent0 := silent_with fail.

Lemma silent_stopAndDisconnect (id : nat) : Silent (stopAndDisconnect id).
Proof. unfold stopAndDisconnect. silent0. Qed.

Lemma silent_safeStop (x : string) : Silent (safeStop x).
Proof. unfold safeStop. silent_with ltac:(idtac; match goal with |- Silent (stopAndDisconnect _) => apply silent_stopAndDisconnect end). Qed.

Lemma silent_stopChordBuffer : Silent stopChordBuffer.
Proof. unfold stopChordBuffer. silent_with ltac:(idtac; match goal with |- Silent (stopAndDisconnect _) => apply silent_stopAndDisconnect end). Qed.

Lemma silent_connectTo (x : string) : Silent (connectTo x).
Proof. unfold connectTo. silent0. Qed.

Lemma silent_setValueG (x : string) (v : Qc) : Silent (setValueG x v).
Proof. unfold setValueG. silent0. Qed.

Lemma silent_setValueIfG (x : string) (v : Qc) : Silent (setValueIfG x v).
Proof. unfold setValueIfG. silent0. Qed.

Lemma silent_startG (x : string) : Silent (startG x).
Proof. unfold startG. silent0. Qed.

Lemma silent_pushExtra (ids : list nat) : Silent (pushExtra ids).
Proof. unfold pushExtra. silent0. Qed.

Lemma silent_pushMotionPanner (id : nat) : Silent (pushMotionPanner id).
Proof. unfold pushMotionPanner. silent0. Qed.

Lemma silent_pushChordOscs (ids : list nat) : Silent (pushChordOscs ids).
Proof. unfold pushChordOscs. silent0. Qed.

Lemma silent_ensureAudio : Silent ensureAudio.
Proof. unfold ensureAudio. silent0. Qed.

Ltac silent1 :=
  silent_with ltac:(
    idtac; match goal with
    | |- Silent (stopAndDisconnect _) => apply silent_stopAndDisconnect
    | |- Silent (safeStop _) => apply silent_safeStop
    | |- Silent stopChordBuffer => apply silent_stopChordBuffer
    | |- Silent (connectTo _) => apply silent_connectTo
    | |- Silent (setValueG _ _) => apply silent_setValueG
    | |- Silent (setValueIfG _ _) => apply silent_setValueIfG
    | |- Silent (startG _) => apply silent_startG
    | |- Silent (pushExtra _) => apply silent_pushExtra
    | |- Silent (pushMotionPanner _) => apply silent_pushMotionPanner
    | |- Silent (pushChordOscs _) => apply silent_pushChordOscs
    | |- Silent ensureAudio => apply silent_ensureAudio
    end).

Lemma silent_playChord (c : Controls) (audibleHz : Qc) : Silent (playChord c audibleHz).
Proof. unfold playChord. silent1. Qed.

Lemma silent_startChordLoopLoaded : Silent startChordLoopLoaded.
Proof. unfold startChordLoopLoaded. silent1. Qed.

Lemma silent_createStimulation (c : Controls) (audibleHz freqHz depthVal toneMix : Qc) :
  Silent (createStimulation c audibleHz freqHz depthVal toneMix).
Proof. unfold createStimulation, createBandSplitEchoCluster. silent1. Qed.

Lemma silent_createMediaLoopSource (c : Controls) : Silent (createMediaLoopSource c).
Proof. unfold createMediaLoopSource. silent1. Qed.

Lemma silent_updateVolumeLabel (c : Controls) : Silent (updateVolumeLabel c).
Proof. unfold updateVolumeLabel. silent1. Qed.

Ltac silent :=
  silent_with ltac:(
    idtac; match goal with
    | |- Silent (stopAndDisconnect _) => apply silent_stopAndDisconnect
    | |- Silent (safeStop _) => apply silent_safeStop
    | |- Silent stopChordBuffer => apply silent_stopChordBuffer
    | |- Silent (connectTo _) => apply silent_connectTo
    | |- Silent (setValueG _ _) => apply silent_setValueG
    | |- Silent (setValueIfG _ _) => apply silent_setValueIfG
    | |- Silent (startG _) => apply silent_startG
    | |- Silent (pushExtra _) => apply silent_pushExtra
    | |- Silent (pushMotionPanner _) => apply silent_pushMotionPanner
    | |- Silent (pushChordOscs _) => apply silent_pushChordOscs
    | |- Silent ensureAudio => apply silent_ensureAudio
    | |- Silent (playChord _ _) => apply silent_playChord
    | |- Silent startChordLoopLoaded => apply silent_startChordLoopLoaded
    | |- Silent (createStimulation _ _ _ _ _) => apply silent_createStimulation
    | |- Silent (createMediaLoopSource _) => apply silent_createMediaLoopSource
    | |- Silent (updateVolumeLabel _) => apply silent_updateVolumeLabel
    end).

(** *** Predicates on the timers *)

Lemma timerView_eq (s s' : AudioState) :
  timerView s = timerView s' ->
  timers s = timers s' /\
  forall x, x ∈ timerNames -> globals s !! x = globals s' !! x.
Proof.
  unfold timerView, timerNames. cbn [map]. intros [= Ht H1 H2 H3 H4].
  split; [exact Ht|]. intros x Hx.
  rewrite !elem_of_cons, elem_of_nil in Hx.
  destruct Hx as [->|[->|[->|[->|[]]]]]; assumption.
Qed.

Lemma silent_heldOutside {A : Type} (X : list string) (m : Cmd A) :
  Silent m -> Leads (HeldOutside X) (HeldOutside X) m.
Proof.
  intros Hm s Hs t Ht. destruct (timerView_eq _ _ (Hm s)) as [Ht' Hg].
  rewrite Ht' in Ht. destruct (Hs t Ht) as (x & Hx & HX & Hl).
  exists x. rewrite (Hg x Hx). auto.
Qed.

Lemma heldOutside_weaken (X Y : list string) (s : AudioState) :
  (forall x, x ∈ Y -> x ∈ X) -> HeldOutside X s -> HeldOutside Y s.
Proof.
  intros Hsub Hs t Ht. destruct (Hs t Ht) as (x & Hx & HX & Hl).
  exists x. repeat split; auto.
Qed.

Lemma heldOutside_nil (X : list string) (s : AudioState) :
  HeldOutside X s -> HeldOutside [] s.
Proof. apply heldOutside_weaken. intros x Hx. inversion Hx. Qed.

Lemma heldOutside_all (X : list string) (s : AudioState) :
  (forall x, x ∈ timerNames -> x ∈ X) -> HeldOutside X s -> timers s = ∅.
Proof.
  intros Hall Hs. apply set_eq. intros t. split; [|set_solver].
  intros Ht. destruct (Hs t Ht) as (x & Hx & HX & _). destruct (HX (Hall x Hx)).
Qed.

(** [if (x) { clearInterval(x); x = null; }] takes [x] out of the
    variables that may hold a pending timer. *)
Lemma cancelTimer_leads (x : string) (X : list string) :
  Leads (HeldOutside X) (HeldOutside (x :: X)) (cancelTimer x).
Proof.
  intros s Hs. unfold HeldOutside in *. unfold cancelTimer, getG, clearInterval, setG. js_run.
  destruct (globals s !! x) as [id|] eqn:Hx; js_run; au.
  - intros t Ht. apply elem_of_difference in Ht as [Ht Hne].
    destruct (Hs t Ht) as (y & Hy & HY & Hl).
    assert (y <> x) as Hyx.
    { intros ->. rewrite Hx in Hl. injection Hl as ->. set_solver. }
    exists y. repeat split; [exact Hy | | ].
    + rewrite elem_of_cons. intros [?|?]; [contradiction | contradiction].
    + rewrite lookup_delete_ne by congruence. exact Hl.
  - intros t Ht. destruct (Hs t Ht) as (y & Hy & HY & Hl).
    assert (y <> x) as Hyx by (intros ->; congruence).
    exists y. repeat split; [exact Hy | | exact Hl].
    rewrite elem_of_cons. intros [?|?]; contradiction.
Qed.

(** [x = setInterval(...)], when no pending timer is held in [x] alone. *)
Lemma arm_leads (x : string) :
  x ∈ timerNames ->
  Leads (HeldOutside [x]) (HeldOutside []) (t ← setInterval; setG x (Some t)).
Proof.
  intros Hx s Hs. unfold HeldOutside in *.
  unfold setInterval, setG, modify, mbind, Js_bind. cbn beta iota. au.
  intros t Ht. apply elem_of_union in Ht as [Ht|Ht].
  - apply elem_of_singleton in Ht as ->. exists x. repeat split; [exact Hx | | ].
    + intros H; inversion H.
    + apply lookup_insert_eq.
  - destruct (Hs t Ht) as (y & Hy & HY & Hl). exists y. repeat split; [exact Hy | | ].
    + intros H; inversion H.
    + rewrite lookup_insert_ne; [exact Hl|]. intros ->. apply HY. left.
Qed.

Lemma heldOutside_self (x : string) (s : AudioState) : HeldOutside [x] s -> HeldOutside [] s.
Proof. apply heldOutside_nil. Qed.

Ltac keeps_with leaf :=
  repeat first
    [ leaf
    | match goal with
      | |- Leads _ _ (_ ≫= _) => apply keeps_bind; [|intros ?]
      | |- Leads _ _ (forEach _ _) => apply keeps_forEach; intros ?
      | |- Leads _ _ (tryCatch _ _) => apply keeps_tryCatch
      | |- Leads _ _ (when _ _) => apply keeps_when
      | |- Leads _ _ (match ?x with _ => _ end) => destruct x
      | |- Leads _ _ (if ?b then _ else _) => destruct b
      | |- Leads _ _ _ => apply silent_heldOutside; solve [silent]
      end ].

Lemma cancelTimer_keeps (x : string) : Leads (HeldOutside []) (HeldOutside []) (cancelTimer x).
Proof.
  eapply leads_weaken; [apply cancelTimer_leads | apply heldOutside_nil].
Qed.

Lemma startBirdsPattern_keeps (level : Qc) :
  Leads (HeldOutside []) (HeldOutside []) (startBirdsPattern level).
Proof.
  unfold startBirdsPattern.
  apply (leads_bind _ (HeldOutside [birdsPatternTimer]) _);
    [apply cancelTimer_leads | intros _ | apply heldOutside_nil].
  unfold getG.
  apply (leads_bind _ (HeldOutside [birdsPatternTimer]) _);
    [apply silent_heldOutside; silent | intros ctx | apply heldOutside_nil].
  apply (leads_bind _ (HeldOutside [birdsPatternTimer]) _);
    [apply silent_heldOutside; silent | intros mg | apply heldOutside_nil].
  destruct (negb ctx || negb (bool_decide (is_Some mg)) || bool_decide (level ≤ 0)%Qc).
  - intros s Hs. apply (heldOutside_nil _ _ Hs).
  - apply arm_leads. unfold timerNames. set_solver.
Qed.

Lemma startWavesPattern_keeps (level : Qc) :
  Leads (HeldOutside []) (HeldOutside []) (startWavesPattern level).
Proof.
  unfold startWavesPattern.
  apply (leads_bind _ (HeldOutside [wavesPatternTimer]) _);
    [apply cancelTimer_leads | intros _ | apply heldOutside_nil].
  unfold getG.
  apply (leads_bind _ (HeldOutside [wavesPatternTimer]) _);
    [apply silent_heldOutside; silent | intros ctx | apply heldOutside_nil].
  apply (leads_bind _ (HeldOutside [wavesPatternTimer]) _);
    [apply silent_heldOutside; silent | intros wg | apply heldOutside_nil].
  destruct (negb ctx || negb (bool_decide (is_Some wg)) || bool_decide (level ≤ 0)%Qc).
  - eapply leads_weaken; [apply silent_heldOutside, silent_setValueIfG | apply heldOutside_nil].
  - apply arm_leads. unfold timerNames. set_solver.
Qed.

Lemma updateSoundscapes_keeps (c : Controls) :
  Leads (HeldOutside []) (HeldOutside []) (updateSoundscapes c).
Proof.
  unfold updateSoundscapes.
  keeps_with ltac:(
    idtac; match goal with
    | |- Leads _ _ (startBirdsPattern _) => apply startBirdsPattern_keeps
    | |- Leads _ _ (startWavesPattern _) => apply startWavesPattern_keeps
    | |- Leads _ _ (cancelTimer _) => apply cancelTimer_keeps
    end).
Qed.

Lemma initScope_keeps (c : Controls) : Leads (HeldOutside []) (HeldOutside []) (initScope c).
Proof.
  unfold initScope, getG. destruct (negb (scopeCanvas c)); [apply keeps_skip|].
  apply keeps_bind; [apply keeps_gets | intros an].
  destruct an as [an|]; [|apply keeps_skip].
  intros s Hs. js_run.
  assert (HeldOutside [scopeAnimId]
            (snd ((match globals s !! scopeAnimId with
                   | Some id => clearInterval id
                   | None => skip
                   end) s))) as Hmid.
  { unfold HeldOutside in *. destruct (globals s !! scopeAnimId) as [id|] eqn:Hid.
    - unfold clearInterval, modify. au.
      intros t Ht. apply elem_of_difference in Ht as [Ht Hne].
      destruct (Hs t Ht) as (y & Hy & _ & Hl).
      exists y. repeat split; [exact Hy | | exact Hl].
      rewrite list_elem_of_singleton. intros ->. rewrite Hid in Hl.
      injection Hl as ->. set_solver.
    - cbn [skip mret Js_ret snd]. intros t Ht.
      destruct (Hs t Ht) as (y & Hy & _ & Hl).
      exists y. repeat split; [exact Hy | | exact Hl].
      rewrite list_elem_of_singleton. intros ->. congruence. }
  assert (exists s1, (match globals s !! scopeAnimId with
                      | Some id => clearInterval id
                      | None => skip
                      end) s = (Ok tt, s1)) as [s1 Hs1].
  { destruct (globals s !! scopeAnimId); eexists; reflexivity. }
  rewrite Hs1 in Hmid. cbn [snd] in Hmid.
  unfold mbind at 1, Js_bind at 1. rewrite Hs1.
  apply (arm_leads scopeAnimId); [unfold timerNames; set_solver | exact Hmid].
Qed.

Lemma stopChordProgression_leads (X : list string) :
  Leads (HeldOutside X) (HeldOutside (chordTimer :: X)) stopChordProgression.
Proof.
  unfold stopChordProgression.
  apply (leads_bind _ (HeldOutside (chordTimer :: X)) _);
    [apply cancelTimer_leads | intros _ | auto].
  apply silent_heldOutside. silent.
Qed.

Lemma startChordProgression_keeps (c : Controls) (audibleHz : Qc) :
  Leads (HeldOutside []) (HeldOutside []) (startChordProgression c audibleHz).
Proof.
  unfold startChordProgression.
  apply (leads_bind _ (HeldOutside [chordTimer]) _);
    [apply stopChordProgression_leads | intros _ | apply heldOutside_nil].
  apply (leads_bind _ (HeldOutside [chordTimer]) _);
    [apply silent_heldOutside; silent | intros _ | apply heldOutside_nil].
  apply (leads_bind _ (HeldOutside [chordTimer]) _);
    [apply silent_heldOutside; silent | intros ctx | apply heldOutside_nil].
  destruct (negb ctx || String.eqb (chordInstrument c) "none").
  { intros s Hs. apply (heldOutside_nil _ _ Hs). }
  destruct (chordLoops c && selectedChordLoop c).
  { unfold startChordLoop.
    eapply leads_weaken; [apply silent_heldOutside, silent_stopChordBuffer
                         | apply heldOutside_nil]. }
  apply (leads_bind _ (HeldOutside [chordTimer]) _);
    [apply silent_heldOutside; silent | intros _ | apply heldOutside_nil].
  apply (leads_bind _ (HeldOutside [chordTimer]) _);
    [apply silent_heldOutside, silent_playChord | intros _ | apply heldOutside_nil].
  apply arm_leads. unfold timerNames. set_solver.
Qed.

(** Teardown cancels the four timers. *)
Lemma stopCurrentAudio_clears : Leads (HeldOutside []) (fun s => timers s = ∅) stopCurrentAudio.
Proof.
  eapply leads_weaken with
    (Q := HeldOutside [scopeAnimId; wavesPatternTimer; birdsPatternTimer; chordTimer]).
  2: { intros s. apply heldOutside_all. unfold timerNames. set_solver. }
  unfold stopCurrentAudio.
  repeat first
    [ apply silent_heldOutside; solve [silent]
    | eapply leads_bind_returning;
        [ solve [no_throw; auto using stopCurrentAudio_noThrow with nothrow]
        | first [ apply silent_heldOutside; solve [silent]
                | apply stopChordProgression_leads
                | apply cancelTimer_leads ]
        | intros ? ] ].
Qed.

Lemma stopCurrentAudio_keeps : Leads (HeldOutside []) (HeldOutside []) stopCurrentAudio.
Proof.
  eapply leads_weaken; [apply stopCurrentAudio_clears|].
  intros s Hs t Ht. rewrite Hs in Ht. set_solver.
Qed.

Lemma startGraph_keeps (c : Controls) (freqHz : Qc) :
  Leads (HeldOutside []) (HeldOutside []) (startGraph c freqHz).
Proof.
  unfold startGraph.
  apply keeps_bind; [apply stopCurrentAudio_keeps | intros _].
  keeps_with ltac:(
    idtac; match goal with
    | |- Leads _ _ (updateSoundscapes _) => apply updateSoundscapes_keeps
    | |- Leads _ _ (startChordProgression _ _) => apply startChordProgression_keeps
    | |- Leads _ _ (initScope _) => apply initScope_keeps
    end).
Qed.

Lemma updateCarrierLabel_keeps (c : Controls) (hz band : Qc) :
  Leads (HeldOutside []) (HeldOutside []) (updateCarrierLabel c hz band).
Proof.
  unfold updateCarrierLabel.
  keeps_with ltac:(
    idtac; match goal with
    | |- Leads _ _ (startGraph _ _) => apply startGraph_keeps
    end).
Qed.

Lemma chordTick_keeps (c : Controls) (audibleHz : Qc) :
  Leads (HeldOutside []) (HeldOutside []) (chordTick c audibleHz).
Proof. unfold chordTick. keeps_with fail. Qed.

Lemma drawScope_keeps (ready : bool) :
  Leads (HeldOutside []) (HeldOutside []) (drawScope ready).
Proof.
  unfold drawScope, getG. intros s Hs. js_run.
  destruct (globals s !! scopeAnimId) as [t|] eqn:Ht; [|exact Hs].
  destruct (bool_decide (t ∈ timers s)); [|exact Hs].
  assert (HeldOutside [scopeAnimId] (snd (clearInterval t s))) as Hmid.
  { unfold HeldOutside in *. unfold clearInterval, modify. au.
    intros t' Ht'. apply elem_of_difference in Ht' as [Ht' Hne].
    destruct (Hs t' Ht') as (y & Hy & _ & Hl).
    exists y. repeat split; [exact Hy | | exact Hl].
    rewrite list_elem_of_singleton. intros ->. rewrite Ht in Hl.
    injection Hl as ->. set_solver. }
  unfold clearInterval in *. js_run. unfold modify in Hmid. cbn [snd] in Hmid.
  destruct ready.
  - apply (arm_leads scopeAnimId); [unfold timerNames; set_solver | exact Hmid].
  - apply (heldOutside_nil _ _ Hmid).
Qed.

Lemma engineStep_keeps (s : AudioState) (e : EngineEvent) :
  HeldOutside [] s -> HeldOutside [] (engineStep s e).
Proof.
  intros Hs. unfold engineStep, exec. destruct e; cbn [engineHandle].
  - apply startGraph_keeps, Hs.
  - apply stopCurrentAudio_keeps, Hs.
  - apply updateSoundscapes_keeps, Hs.
  - apply updateCarrierLabel_keeps, Hs.
  - apply (silent_heldOutside [] _ (silent_updateVolumeLabel c)), Hs.
  - apply chordTick_keeps, Hs.
  - apply (silent_heldOutside [] _ silent_startChordLoopLoaded), Hs.
  - apply drawScope_keeps, Hs.
Qed.

Lemma engineRun_keeps (es : list EngineEvent) (s : AudioState) :
  HeldOutside [] s -> HeldOutside [] (engineRun s es).
Proof.
  revert s. induction es as [|e es IH]; intros s Hs; [exact Hs|].
  apply IH, engineStep_keeps, Hs.
Qed.

Lemma initial_held (ctx : bool) : HeldOutside [] (setAudioCtx ctx initial).
Proof. intros t Ht. cbn in Ht. set_solver. Qed.

Lemma omap_length_le {A B : Type} (f : A -> option B) (l : list A) :
  length (omap f l) <= length l.
Proof.
  induction l as [|x l IH]; [reflexivity|].
  cbn [omap list_omap length]. destruct (f x); cbn [length]; fold (omap f l); lia.
Qed.

Lemma size_list_to_set_le (l : list nat) : size (list_to_set l : gset nat) <= length l.
Proof.
  induction l as [|x l IH]; cbn [list_to_set length].
  - rewrite size_empty. lia.
  - rewrite size_union_alt, size_singleton.
    assert (size (list_to_set l ∖ {[x]} : gset nat) <= size (list_to_set l : gset nat))
      by (apply subseteq_size; set_solver).
    lia.
Qed.

(** X13: the timers of the audio engine.  Whatever has happened to the
    engine since the page was loaded, with or without an audio context
    (builds, teardowns, slider moves, chord ticks, decoded loops, scope
    frames, in any order and with any controls, raising or not), every
    pending timer is held in one of [birdsPatternTimer],
    [wavesPatternTimer], [chordTimer] and [scopeAnimId], so at most four
    are pending; and a teardown leaves none pending. *)
Theorem X13_engine_timers_are_held_and_cleared_by_stop (ctx : bool)
    (es : list EngineEvent) :
  let s := engineRun (setAudioCtx ctx initial) es in
  (forall t, t ∈ timers s -> exists x, x ∈ timerNames /\ globals s !! x = Some t) /\
  size (timers s) <= 4 /\
  timers (exec stopCurrentAudio s) = ∅.
Proof.
  intros s.
  pose proof (engineRun_keeps es _ (initial_held ctx)) as Hs. fold s in Hs.
  assert (forall t, t ∈ timers s -> exists x, x ∈ timerNames /\ globals s !! x = Some t) as H1.
  { intros t Ht. destruct (Hs t Ht) as (x & Hx & _ & Hl). eauto. }
  split; [exact H1|]. split; [|apply stopCurrentAudio_clears, Hs].
  transitivity (size (list_to_set (omap (fun x => globals s !! x) timerNames) : gset nat)).
  - apply subseteq_size. intros t Ht. destruct (H1 t Ht) as (x & Hx & Hl).
    apply elem_of_list_to_set, list_elem_of_omap. eauto.
  - etransitivity; [apply size_list_to_set_le|].
    etransitivity; [apply omap_length_le|]. reflexivity.
Qed.

End EngineTimers.

(** ** The journal *)

Section JournalFacts.
Import Journal.

Lemma trimStart_blank (s : string) : trimStart s = ""%string <-> blank s = true.
Proof.
  unfold blank. induction s as [|c r IH]; cbn [trimStart list_ascii_of_string forallb].
  - split; reflexivity.
  - destruct (isSpace c); cbn [andb]; [exact IH | split; discriminate].
Qed.

Lemma trimEnd_blank (s : string) : trimEnd s = ""%string <-> blank s = true.
Proof.
  unfold blank. induction s as [|c r IH]; cbn [trimEnd list_ascii_of_string forallb].
  - split; reflexivity.
  - destruct (trimEnd r) as [|c' r'] eqn:E.
    + destruct (isSpace c); cbn [andb].
      * split; [intros _; apply IH; reflexivity | reflexivity].
      * split; discriminate.
    + split; [discriminate|]. intros H. apply andb_prop in H as [_ H].
      apply IH in H. discriminate.
Qed.

Lemma blank_trimStart (s : string) : blank s = true -> blank (trimStart s) = true.
Proof. intros H. apply trimStart_blank in H. rewrite H. reflexivity. Qed.

Lemma trimStart_not_blank (s : string) : blank s = false -> blank (trimStart s) = false.
Proof.
  unfold blank. induction s as [|c r IH]; cbn [trimStart list_ascii_of_string forallb];
    [discriminate|].
  destruct (isSpace c) eqn:Hc; cbn [andb].
  - exact IH.
  - intros _. cbn [list_ascii_of_string forallb]. rewrite Hc. reflexivity.
Qed.

(** [trim] gives the empty string exactly on white space. *)
Lemma trim_blank (s : string) : trim s = ""%string <-> blank s = true.
Proof.
  unfold trim. rewrite trimEnd_blank. split.
  - intros H. destruct (blank s) eqn:E; [reflexivity|].
    rewrite (trimStart_not_blank s E) in H. discriminate.
  - apply blank_trimStart.
Qed.

Lemma trimEnd_idem (s : string) : trimEnd (trimEnd s) = trimEnd s.
Proof.
  induction s as [|c r IH]; [reflexivity|].
  cbn [trimEnd]. destruct (trimEnd r) as [|c' r'] eqn:E.
  - destruct (isSpace c) eqn:Hc; [reflexivity|]. cbn [trimEnd]. rewrite Hc. reflexivity.
  - cbn [trimEnd] in *. rewrite IH. reflexivity.
Qed.

Lemma trimStart_head (s : string) :
  match trimStart s with
  | EmptyString => True
  | String c _ => isSpace c = false
  end.
Proof.
  induction s as [|c r IH]; cbn [trimStart]; [exact I|].
  destruct (isSpace c) eqn:Hc; [exact IH | exact Hc].
Qed.

Lemma trimEnd_head (s : string) (c : ascii) (r : string) :
  s = String c r -> isSpace c = false -> exists r', trimEnd s = String c r'.
Proof.
  intros -> Hc. cbn [trimEnd]. destruct (trimEnd r); rewrite ?Hc; eauto.
Qed.

Lemma trimStart_fixed (s : string) :
  match s with
  | EmptyString => True
  | String c _ => isSpace c = false
  end -> trimStart s = s.
Proof. destruct s as [|c r]; [reflexivity|]. cbn [trimStart]. intros ->. reflexivity. Qed.

(** [trim] leaves no white space at either end. *)
Lemma trim_trimmed (s : string) : Trimmed (trim s).
Proof.
  unfold Trimmed, trim.
  assert (trimStart (trimEnd (trimStart s)) = trimEnd (trimStart s)) as ->.
  { apply trimStart_fixed. pose proof (trimStart_head s) as Hh.
    destruct (trimStart s) as [|c r] eqn:E; [exact I|].
    destruct (trimEnd_head _ c r eq_refl Hh) as [r' ->]. exact Hh. }
  apply trimEnd_idem.
Qed.

Lemma eqb_empty (s : string) : String.eqb s "" = true <-> s = ""%string.
Proof. apply String.eqb_eq. Qed.

(** The entry that [handleSaveJournalEntry] appends. *)
Lemma saved_entry_ok (now : Z) (i t g n : string) :
  (String.eqb (trim i) "" && String.eqb (trim t) "" && String.eqb (trim g) "" &&
   String.eqb (trim n) "") = false ->
  EntryOk (mkEntry now (trim i) (trim t) (trim g) (trim n)).
Proof.
  intros H. unfold EntryOk. cbn [intention thoughts gratitude integration].
  repeat split; try apply trim_trimmed.
  destruct (String.eqb_spec (trim i) ""); [|auto].
  destruct (String.eqb_spec (trim t) ""); [|auto].
  destruct (String.eqb_spec (trim g) ""); [|auto].
  destruct (String.eqb_spec (trim n) ""); [discriminate H | auto].
Qed.

Lemma render_sync (s : State) : InSync (renderJournalEntries s).
Proof.
  right. unfold renderJournalEntries, loadJournalEntries.
  destruct (journalEntries s) eqn:E; cbn [setContainer journalEntries container];
    rewrite E; reflexivity.
Qed.

Lemma rendered_container (s s' : State) :
  journalEntries s' = journalEntries s ->
  container (renderJournalEntries s') = container (renderJournalEntries s).
Proof.
  intros He. unfold renderJournalEntries, loadJournalEntries. rewrite He.
  destruct (journalEntries s); reflexivity.
Qed.

Lemma inSync_frame (s s' : State) :
  journalEntries s' = journalEntries s -> container s' = container s ->
  InSync s -> InSync s'.
Proof.
  intros He Hc [H|H]; [left | right]; rewrite Hc, H; [reflexivity|].
  symmetry. apply rendered_container, He.
Qed.

Lemma journalStep_ok (s : State) (e : JournalEvent) :
  Forall EntryOk (journalEntries s) -> InSync s ->
  Forall EntryOk (journalEntries (journalStep s e)) /\ InSync (journalStep s e).
Proof.
  intros Hok Hsync. destruct e as [i t g n|now| | |confirmed]; cbn [journalStep].
  - split; [exact Hok|]. apply (inSync_frame s); [reflexivity | reflexivity | exact Hsync].
  - unfold handleSaveJournalEntry.
    destruct (String.eqb (trim (intentionNote s)) "" && String.eqb (trim (thoughtsNote s)) "" &&
              String.eqb (trim (gratitudeNote s)) "" &&
              String.eqb (trim (integrationNote s)) "") eqn:E.
    + split; [exact Hok|].
      apply (inSync_frame s); [reflexivity | reflexivity | exact Hsync].
    + split; [|apply render_sync].
      unfold renderJournalEntries, loadJournalEntries.
      cbn [saveJournalEntries setFields setStatus journalEntries].
      destruct (journalEntries s ++ _) eqn:El; cbn [setContainer journalEntries];
        rewrite <- El; (apply Forall_app; split; [exact Hok|]);
        constructor; [|constructor | |constructor]; apply saved_entry_ok, E.
  - split; [exact Hok|].
    apply (inSync_frame s); [reflexivity | reflexivity | exact Hsync].
  - split; [exact Hok | left; reflexivity].
  - unfold handleClearJournal. destruct confirmed; cbn [negb].
    + split; [constructor | apply render_sync].
    + split; [exact Hok | exact Hsync].
Qed.

Lemma journalRun_ok (es : list JournalEvent) (s : State) :
  Forall EntryOk (journalEntries s) -> InSync s ->
  Forall EntryOk (journalEntries (journalRun s es)) /\ InSync (journalRun s es).
Proof.
  revert s. induction es as [|e es IH]; intros s Hok Hsync; [split; assumption|].
  cbn [journalRun fold_left].
  destruct (journalStep_ok s e Hok Hsync) as [Hok' Hsync']. apply IH; assumption.
Qed.

Lemma all_blank (i t g n : string) :
  (String.eqb (trim i) "" && String.eqb (trim t) "" && String.eqb (trim g) "" &&
   String.eqb (trim n) "") = blank i && blank t && blank g && blank n.
Proof.
  assert (forall s, String.eqb (trim s) "" = blank s) as H.
  { intros s. destruct (blank s) eqn:E.
    - apply String.eqb_eq, trim_blank, E.
    - apply String.eqb_neq. intros Ht. apply trim_blank in Ht. congruence. }
  rewrite !H. reflexivity.
Qed.

(** X14: the journal.  In every state the journal tab can reach from a
    stored list of well-formed entries, every stored entry has trimmed
    fields of which one is not empty, and the container shows the stored
    list as rendered or the note that it is hidden.  Saving with nothing
    but white space in the four fields stores nothing and keeps the fields;
    otherwise it appends one entry with the trimmed fields after the
    entries already stored, empties the fields and shows the whole list.
    No event but a confirmed Clear removes an entry. *)
Theorem X14_journal_appends_trimmed_entries (stored : list Entry) (es : list JournalEvent)
    (now : Z) :
  Forall EntryOk stored ->
  let s := journalRun (opened stored) es in
  let s' := handleSaveJournalEntry now s in
  let e := mkEntry now (trim (intentionNote s)) (trim (thoughtsNote s))
                   (trim (gratitudeNote s)) (trim (integrationNote s)) in
  let allBlank := blank (intentionNote s) && blank (thoughtsNote s) &&
                  blank (gratitudeNote s) && blank (integrationNote s) in
  Forall EntryOk (journalEntries s) /\
  InSync s /\
  (allBlank = true ->
     journalEntries s' = journalEntries s /\ container s' = container s /\
     intentionNote s' = intentionNote s /\ thoughtsNote s' = thoughtsNote s /\
     gratitudeNote s' = gratitudeNote s /\ integrationNote s' = integrationNote s /\
     saveJournalStatus s' = "Please enter at least one field."%string) /\
  (allBlank = false ->
     journalEntries s' = journalEntries s ++ [e] /\ EntryOk e /\
     container s' = Cards (map card (journalEntries s ++ [e])) /\
     intentionNote s' = ""%string /\ thoughtsNote s' = ""%string /\
     gratitudeNote s' = ""%string /\ integrationNote s' = ""%string /\
     saveJournalStatus s' = "Journal entry saved."%string) /\
  (forall ev, ev <> Clear true ->
              exists r, journalEntries (journalStep s ev) = journalEntries s ++ r).
Proof.
  intros Hstored s s' e allBlank.
  assert (Forall EntryOk (journalEntries (opened stored))) as Hok0.
  { unfold opened, renderJournalEntries, loadJournalEntries. cbn [journalEntries].
    destruct stored; exact Hstored. }
  destruct (journalRun_ok es _ Hok0 (render_sync _)) as [Hok Hsync]. fold s in Hok, Hsync.
  split; [exact Hok|]. split; [exact Hsync|].
  pose proof (all_blank (intentionNote s) (thoughtsNote s) (gratitudeNote s)
                        (integrationNote s)) as Hb. fold allBlank in Hb.
  split; [|split].
  - intros Hall. unfold s', handleSaveJournalEntry. rewrite Hb, Hall.
    repeat split; reflexivity.
  - intros Hall. unfold s', handleSaveJournalEntry. rewrite Hb, Hall.
    assert (EntryOk e) as He by (apply saved_entry_ok; rewrite Hb; exact Hall).
    unfold renderJournalEntries, loadJournalEntries.
    cbn [saveJournalEntries setFields setStatus journalEntries].
    fold e. destruct (journalEntries s ++ [e]) as [|x l] eqn:El.
    { destruct (journalEntries s); discriminate El. }
    cbn [setContainer journalEntries container intentionNote thoughtsNote gratitudeNote
         integrationNote saveJournalStatus].
    rewrite <- El.
    split; [reflexivity|]. split; [exact He|]. repeat split; reflexivity.
  - intros ev Hev. destruct ev as [i t g n|now'| | |confirmed]; cbn [journalStep].
    + exists []. rewrite app_nil_r. reflexivity.
    + unfold handleSaveJournalEntry.
      destruct (String.eqb _ "" && _ && _ && _).
      * exists []. rewrite app_nil_r. reflexivity.
      * eexists. unfold renderJournalEntries, loadJournalEntries.
        cbn [saveJournalEntries setFields setStatus journalEntries].
        destruct (journalEntries s ++ _) eqn:El; cbn [setContainer journalEntries];
          rewrite <- El; reflexivity.
    + exists []. rewrite app_nil_r. reflexivity.
    + exists []. rewrite app_nil_r. reflexivity.
    + destruct confirmed; [congruence|]. exists []. rewrite app_nil_r. reflexivity.
Qed.

(** A first entry with a thought, typed with spaces around it. *)
Lemma X14_journal_appends_trimmed_entries_witness :
  journalEntries
    (handleSaveJournalEntry 1700000000000
       (journalRun (opened []) [Type_ "" "  calm  " " " ""])) =
  [mkEntry 1700000000000 "" "calm" "" ""].
Proof.
  destruct (X14_journal_appends_trimmed_entries [] [Type_ "" "  calm  " " " ""] 1700000000000
              (List.Forall_nil EntryOk)) as (_ & _ & _ & Hsave & _).
  destruct (Hsave eq_refl) as (Hentries & _).
  exact Hentries.
Defined.

End JournalFacts.

(** ** The noise buffer *)

Section NoiseFacts.
Import Noise.
Local Open Scope R_scope.

Lemma pole_bound (a g b w : R) :
  0 <= a < 1 -> 0 <= g -> Rabs b * (1 - a) <= g -> -1 <= w <= 1 ->
  Rabs (a * b + w * g) * (1 - a) <= g.
Proof.
  intros Ha Hg Hb Hw.
  assert (Rabs (a * b + w * g) <= a * Rabs b + g) as Hsum.
  { eapply Rle_trans; [apply Rabs_triang|].
    rewrite !Rabs_mult, (Rabs_pos_eq a) by lra.
    assert (Rabs w <= 1) by (apply Rabs_le; lra).
    rewrite (Rabs_pos_eq g) by lra. nra. }
  assert (0 <= Rabs b) by apply Rabs_pos.
  nra.
Qed.

Lemma noiseStep_bounded (f : Filter) (u : R) :
  isRandom u -> Bounded f ->
  Bounded (fst (noiseStep f u)) /\ Rabs (snd (noiseStep f u)) <= 3.8982.
Proof.
  intros Hu (H0 & H1 & H2). unfold isRandom in Hu.
  assert (-1 <= u * 2 - 1 <= 1) as Hw by lra.
  pose proof (pole_bound 0.997 0.029591 (b0 f) (u * 2 - 1)) as P0.
  pose proof (pole_bound 0.985 0.032534 (b1 f) (u * 2 - 1)) as P1.
  pose proof (pole_bound 0.950 0.048056 (b2 f) (u * 2 - 1)) as P2.
  replace (1 - 0.997) with 0.003 in P0 by lra.
  replace (1 - 0.985) with 0.015 in P1 by lra.
  replace (1 - 0.950) with 0.050 in P2 by lra.
  specialize (P0 ltac:(lra) ltac:(lra) H0 Hw).
  specialize (P1 ltac:(lra) ltac:(lra) H1 Hw).
  specialize (P2 ltac:(lra) ltac:(lra) H2 Hw).
  unfold noiseStep. cbn [fst snd b0 b1 b2]. split; [repeat split; assumption|].
  rewrite Rabs_mult, (Rabs_pos_eq 0.3) by lra.
  set (x0 := 0.997 * b0 f + (u * 2 - 1) * 0.029591) in *.
  set (x1 := 0.985 * b1 f + (u * 2 - 1) * 0.032534) in *.
  set (x2 := 0.950 * b2 f + (u * 2 - 1) * 0.048056) in *.
  assert (Rabs (x0 + x1 + x2) <= Rabs x0 + Rabs x1 + Rabs x2) as Ht.
  { eapply Rle_trans; [apply Rabs_triang|].
    apply Rplus_le_compat_r. apply Rabs_triang. }
  lra.
Qed.

Lemma noiseLoop_bounded (randoms : list R) :
  forall f, Bounded f -> Forall isRandom randoms ->
  length (noiseLoop f randoms) = length randoms /\
  Forall (fun x => Rabs x <= 3.8982) (noiseLoop f randoms).
Proof.
  induction randoms as [|u rest IH]; intros f Hf Hr; cbn [noiseLoop].
  - split; [reflexivity | constructor].
  - apply Forall_cons_1 in Hr as [Hu Hrest].
    destruct (noiseStep_bounded f u Hu Hf) as [Hf' Hx].
    destruct (noiseStep f u) as [f' x]. cbn [fst snd] in *.
    destruct (IH f' Hf' Hrest) as [Hlen Hall].
    split; [cbn [length]; rewrite Hlen; reflexivity | constructor; assumption].
Qed.

(** X15: the noise buffer has one sample for each random number drawn,
    and whatever the random numbers are, every sample is within
    3.8982 of zero: each of the three filters stays within the sum of its
    geometric series (9.864, 2.169 and 0.962), and a sample is 0.3 times
    their sum. *)
Theorem X15_noise_samples_are_bounded (randoms : list R) :
  Forall isRandom randoms ->
  let data := createNoiseBuffer None randoms in
  length data = length randoms /\
  Forall (fun x => -3.8982 <= x <= 3.8982) data.
Proof.
  intros Hr data. unfold data, createNoiseBuffer.
  assert (Bounded (mkFilter 0 0 0)) as H0.
  { unfold Bounded. cbn [b0 b1 b2]. rewrite Rabs_R0. lra. }
  destruct (noiseLoop_bounded randoms _ H0 Hr) as [Hlen Hall].
  split; [exact Hlen|].
  eapply List.Forall_impl; [|exact Hall].
  intros x Hx. cbv beta in Hx. unfold Rabs in Hx. destruct (Rcase_abs x); lra.
Qed.

(** Two samples, from the random numbers 0 and 1/2. *)
Lemma X15_noise_samples_are_bounded_witness :
  Forall (fun x => -3.8982 <= x <= 3.8982) (createNoiseBuffer None [0; 1 / 2]).
Proof.
  assert (Forall isRandom [0; 1 / 2]) as Hr.
  { repeat constructor; unfold isRandom; lra. }
  exact (proj2 (X15_noise_samples_are_bounded [0; 1 / 2] Hr)).
Defined.

End NoiseFacts.

(** ** The fine-tune sweep *)

Section FineTuneFacts.
Import App Samples FineTune.

Lemma this_ofZ (k : Z) : (this (JsNum.ofZ k) == inject_Z k)%Q.
Proof. unfold JsNum.ofZ. cbn [this Q2Qc]. apply Qred_correct. Qed.

(** Truncation of a number that is not negative. *)
Lemma trunc_nonneg (x : Qc) :
  (0 <= x)%Qc ->
  (0 <= JsNum.trunc x)%Z /\
  (JsNum.ofZ (JsNum.trunc x) <= x)%Qc /\ (x < JsNum.ofZ (JsNum.trunc x) + 1)%Qc.
Proof.
  intros Hx. unfold JsNum.trunc.
  destruct x as [[n d] Hred]. unfold Qcle in Hx. cbn [this Qnum Qden] in *.
  assert (0 <= n)%Z as Hn.
  { change (this 0%Qc) with 0%Q in Hx. unfold Qle in Hx. cbn [Qnum Qden] in Hx. lia. }
  rewrite Z.quot_div_nonneg by lia.
  pose proof (Z.div_pos n (Zpos d) Hn ltac:(lia)) as Hq.
  pose proof (Z.mul_div_le n (Zpos d) ltac:(lia)) as Hle.
  pose proof (Z.mul_succ_div_gt n (Zpos d) ltac:(lia)) as Hgt.
  split; [exact Hq|]. split.
  - unfold Qcle. rewrite this_ofZ. cbn [this]. unfold Qle. cbn [Qnum Qden inject_Z]. lia.
  - unfold Qclt. cbn [this Qcplus Q2Qc]. rewrite Qred_correct, this_ofZ.
    change (Qred 1) with 1%Q.
    unfold Qlt, Qplus. cbn [Qnum Qden inject_Z]. lia.
Qed.

Ltac to_Q :=
  unfold Qcle, Qclt, Qcminus, Qcopp, Qcplus, Qcmult in *;
  cbn [this Q2Qc] in *;
  rewrite ?Qred_correct in *.

(** [x % 360] for [x] that is not negative. *)
Lemma js_mod_360 (x : Qc) :
  (0 <= x)%Qc ->
  let k := JsNum.trunc (x / Q2Qc 360) in
  (0 <= k)%Z /\
  JsNum.js_mod x (Q2Qc 360) = (x - Q2Qc 360 * JsNum.ofZ k)%Qc /\
  (0 <= JsNum.js_mod x (Q2Qc 360))%Qc /\ (JsNum.js_mod x (Q2Qc 360) < Q2Qc 360)%Qc.
Proof.
  intros Hx k. unfold JsNum.js_mod. fold k.
  assert (Q2Qc 360 <> 0%Qc) as H360 by discriminate.
  assert (x = Q2Qc 360 * (x / Q2Qc 360))%Qc as Hxq by (symmetry; apply Qcmult_div_r, H360).
  set (q := (x / Q2Qc 360)%Qc) in *.
  assert (0 <= q)%Qc as Hq.
  { unfold q, Qcdiv. apply Qcmult_nonneg_nonneg; [exact Hx | discriminate]. }
  destruct (trunc_nonneg q Hq) as (Hk & Hlo & Hhi). fold k in Hk, Hlo, Hhi.
  split; [exact Hk|]. split; [reflexivity|].
  rewrite Hxq at 1 2. clear Hxq Hx.
  generalize dependent (JsNum.ofZ k). intros K Hlo Hhi.
  to_Q. change (Qred 360) with 360%Q in *. change (Qred 0) with 0%Q in *.
  change (Qred 1) with 1%Q in *.
  split; lra.
Qed.

Lemma fineTuneDeg_range (basePhase t : Qc) :
  InRange basePhase -> (0 <= t)%Qc -> (t < 1)%Qc ->
  let deg := fineTuneDeg basePhase t in
  (0 <= deg)%Qc /\ (deg < Q2Qc 360)%Qc /\
  exists k : Z,
    (0 <= k <= 2)%Z /\
    deg = (basePhase + (Q2Qc 60 * t - Q2Qc 30) + Q2Qc 360 - Q2Qc 360 * JsNum.ofZ k)%Qc.
Proof.
  intros [Hlo Hhi] Ht0 Ht1 deg. unfold deg, fineTuneDeg.
  set (x := (basePhase - Q2Qc 30 + Q2Qc 60 * t + Q2Qc 360)%Qc).
  assert (Q2Qc 330 <= x)%Qc as Hx330.
  { unfold x. to_Q. change (Qred 360) with 360%Q in *. change (Qred 0) with 0%Q in *.
    change (Qred 330) with 330%Q. change (Qred 30) with 30%Q. change (Qred 60) with 60%Q.
    change (Qred 1) with 1%Q in *. lra. }
  assert (x < Q2Qc 750)%Qc as Hx750.
  { unfold x. to_Q. change (Qred 360) with 360%Q in *. change (Qred 0) with 0%Q in *.
    change (Qred 750) with 750%Q. change (Qred 30) with 30%Q. change (Qred 60) with 60%Q.
    change (Qred 1) with 1%Q in *. lra. }
  assert (0 <= x)%Qc as Hx0.
  { eapply Qcle_trans; [|exact Hx330]. discriminate. }
  destruct (js_mod_360 x Hx0) as (Hk & Heq & Hm0 & Hm1).
  set (k := JsNum.trunc (x / Q2Qc 360)) in *.
  split; [exact Hm0|]. split; [exact Hm1|].
  exists k. split.
  - split; [exact Hk|].
    destruct (Z_le_gt_dec k 2) as [Hle|Hgt]; [exact Hle | exfalso].
    assert (JsNum.ofZ 3 <= JsNum.ofZ k)%Qc as H3 by (apply ofZ_le; lia).
    rewrite Heq in Hm0. clear Heq Hm1.
    generalize dependent (JsNum.ofZ k). intros K Hm0 H3.
    change (JsNum.ofZ 3) with (Q2Qc 3) in H3.
    to_Q. change (Qred 360) with 360%Q in *. change (Qred 0) with 0%Q in *.
    change (Qred 750) with 750%Q in *. change (Qred 3) with 3%Q in *. lra.
  - rewrite Heq. unfold x. ring.
Qed.

(** X16: the fine-tune sweep.  Without a record for the selected band
    the button does nothing.  With a record whose phase is within 0..360,
    the sweep is running after the click, with the records as before; at
    every fraction of its 20-second period, the first included, the angle
    it computes is in [0, 360) and is the recorded phase plus an offset
    between -30 and 30 degrees, up to whole turns, and the slider is set
    to the nearest whole degree, within 0..360. *)
Theorem X16_fine_tune_sweep_stays_near_best (s : State) (r : PhaseRecord) (t : Qc) :
  bestPhaseByBand s !! bandKey s = Some r ->
  InRange (phase r) ->
  (0 <= t)%Qc -> (t < 1)%Qc ->
  let deg := fineTuneDeg (phase r) t in
  let offset := (Q2Qc 60 * t - Q2Qc 30)%Qc in
  let s0 := exec (startFineTuneSweep t) s in
  ((0 <= deg)%Qc /\ (deg < Q2Qc 360)%Qc) /\
  ((- Q2Qc 30 <= offset)%Qc /\ (offset < Q2Qc 30)%Qc) /\
  (exists k : Z, (0 <= k <= 2)%Z /\
     deg = (phase r + offset + Q2Qc 360 - Q2Qc 360 * JsNum.ofZ k)%Qc) /\
  InRange (JsNum.toFixed0 deg) /\
  sweepIsRunning s0 = true /\
  phaseRange s0 = JsNum.toFixed0 deg /\
  bestPhaseByBand s0 = bestPhaseByBand s /\
  (forall u, sweepIsRunning u = true ->
             phaseRange (exec (fineTuneStep (phase r) t) u) = JsNum.toFixed0 deg) /\
  (forall u, bestPhaseByBand u !! bandKey u = None -> exec (startFineTuneSweep t) u = u).
Proof.
  intros Hrec Hr Ht0 Ht1 deg offset s0.
  destruct (fineTuneDeg_range (phase r) t Hr Ht0 Ht1) as (Hd0 & Hd1 & Hk).
  fold deg in Hd0, Hd1, Hk.
  split; [split; assumption|]. split.
  { unfold offset. clear -Ht0 Ht1. to_Q.
    change (Qred 30) with 30%Q. change (Qred 60) with 60%Q. change (Qred 0) with 0%Q in *.
    change (Qred 1) with 1%Q in *. split; lra. }
  split; [exact Hk|].
  split; [apply toFixed0_range; split; [exact Hd0 | apply Qclt_le_weak, Hd1]|].
  assert (exists u0, stopAutosweep s = (Ok tt, u0) /\
                     bestPhaseByBand u0 = bestPhaseByBand s) as (u0 & Hstop & Hb0).
  { destruct (stopAutosweep_run s) as (u0 & H1 & H2). exists u0. split; [exact H1|].
    apply H2. }
  assert (s0 = exec (fineTuneStep (phase r) t) (setSweepIsRunning true u0)) as Hs0.
  { unfold s0, exec, startFineTuneSweep, getExploreBandKey. js_run. rewrite Hrec.
    unfold mbind at 1, Js_bind at 1. rewrite Hstop. js_run. reflexivity. }
  assert (forall u, sweepIsRunning u = true ->
            let u' := exec (fineTuneStep (phase r) t) u in
            phaseRange u' = JsNum.toFixed0 deg /\
            sweepIsRunning u' = true /\ bestPhaseByBand u' = bestPhaseByBand u) as Hstep.
  { intros u Hu. unfold exec, fineTuneStep, setTimer. js_run. rewrite Hu. cbn [negb].
    js_run. js_unfold. cbn [snd]. repeat split; try reflexivity. exact Hu. }
  destruct (Hstep (setSweepIsRunning true u0) eq_refl) as (P1 & P2 & P3).
  rewrite <- Hs0 in P1, P2, P3.
  split; [exact P2|]. split; [exact P1|]. split; [rewrite P3; exact Hb0|]. split.
  - intros u Hu. destruct (Hstep u Hu) as (Q1 & _ & _). exact Q1.
  - intros u Hu. unfold exec, startFineTuneSweep, getExploreBandKey. js_run. rewrite Hu.
    reflexivity.
Qed.

(** The page of a user who has marked three times at a mean of 100
    degrees, half way through the period of the sweep. *)
Lemma X16_fine_tune_sweep_stays_near_best_witness :
  sweepIsRunning (exec (startFineTuneSweep (Q2Qc (1 # 2))) (page threeMarksAt100)) = true /\
  phaseRange (exec (startFineTuneSweep (Q2Qc (1 # 2))) (page threeMarksAt100)) =
    JsNum.toFixed0 (fineTuneDeg (Q2Qc 100) (Q2Qc (1 # 2))).
Proof.
  assert (bestPhaseByBand (page threeMarksAt100) !! bandKey (page threeMarksAt100)
          = Some (mkRecord (Q2Qc 100) 3)) as Hrec by (vm_compute; reflexivity).
  assert (InRange (phase (mkRecord (Q2Qc 100) 3))) as Hr
      by (split; vm_compute; discriminate).
  assert (0 <= Q2Qc (1 # 2))%Qc as Ht0 by (vm_compute; discriminate).
  assert (Q2Qc (1 # 2) < 1)%Qc as Ht1 by (vm_compute; reflexivity).
  destruct (X16_fine_tune_sweep_stays_near_best (page threeMarksAt100)
              (mkRecord (Q2Qc 100) 3) (Q2Qc (1 # 2)) Hrec Hr Ht0 Ht1)
    as (_ & _ & _ & _ & Hrun & Hphase & _).
  split; [exact Hrun | exact Hphase].
Defined.

End FineTuneFacts.

(** ** Nodes through a teardown *)

Section TeardownFacts.
Import Audio Engine Teardown.

Ltac au :=
  cbn [audioCtx nodes timers nextTimer globals extraNodes motionPanners chordOscs
       chordIndex birdsIsSample wavesIsSample setAudioCtx setNodes setTimers setGlobals
       setExtraNodes setMotionPanners setChordOscs setChordIndex setBirdsIsSample
       setWavesIsSample fst snd] in *.

Lemma mono_refl (s : AudioState) : Mono s s.
Proof. split; [reflexivity|]. intros id n Hn. exists n. auto. Qed.

Lemma mono_trans (s1 s2 s3 : AudioState) : Mono s1 s2 -> Mono s2 s3 -> Mono s1 s3.
Proof.
  intros [L1 H1] [L2 H2]. split; [congruence|].
  intros id n Hn. destruct (H1 id n Hn) as (n2 & Hn2 & K2 & S2 & T2 & D2).
  destruct (H2 id n2 Hn2) as (n3 & Hn3 & K3 & S3 & T3 & D3).
  exists n3. repeat split; [exact Hn3 | congruence | congruence | auto | auto].
Qed.

Lemma mono_same_nodes (s s' : AudioState) : nodes s' = nodes s -> Mono s s'.
Proof.
  intros H. split; [rewrite H; reflexivity|].
  intros id n Hn. exists n. rewrite H. auto.
Qed.

Lemma mono_alter (f : Node -> Node) (id : nat) (s : AudioState) :
  (forall n, kind (f n) = kind n /\ started (f n) = started n /\
             (stopped n = true -> stopped (f n) = true) /\
             (disconnected n = true -> disconnected (f n) = true)) ->
  Mono s (setNodes (alter f id (nodes s)) s).
Proof.
  intros Hf. split; [au; apply length_alter|].
  intros id' n Hn. au. destruct (decide (id = id')) as [->|Hne].
  - exists (f n). rewrite list_lookup_alter_eq, Hn. destruct (Hf n) as (? & ? & ? & ?).
    repeat split; auto.
  - exists n. rewrite list_lookup_alter_ne by exact Hne. repeat split; auto.
Qed.

Lemma monoCmd_ret {A : Type} (a : A) : MonoCmd (mret a).
Proof. intros s. apply mono_refl. Qed.

Lemma monoCmd_skip : MonoCmd skip.
Proof. intros s. apply mono_refl. Qed.

Lemma monoCmd_gets {A : Type} (f : AudioState -> A) : MonoCmd (gets f).
Proof. intros s. apply mono_refl. Qed.

Lemma monoCmd_bind {A B : Type} (m : Cmd A) (k : A -> Cmd B) :
  MonoCmd m -> (forall a, MonoCmd (k a)) -> MonoCmd (m ≫= k).
Proof.
  intros Hm Hk s. unfold mbind, Js_bind. specialize (Hm s).
  destruct (m s) as [[a|] s1]; cbn [snd] in *; [|exact Hm].
  eapply mono_trans; [exact Hm | apply Hk].
Qed.

Lemma monoCmd_tryCatch (m h : Cmd unit) : MonoCmd m -> MonoCmd h -> MonoCmd (tryCatch m h).
Proof.
  intros Hm Hh s. unfold tryCatch. specialize (Hm s).
  destruct (m s) as [[a|] s1]; cbn [snd] in *; [exact Hm|].
  eapply mono_trans; [exact Hm | apply Hh].
Qed.

Lemma monoCmd_forEach {A : Type} (l : list A) (f : A -> Cmd unit) :
  (forall x, MonoCmd (f x)) -> MonoCmd (forEach l f).
Proof.
  intros Hf. induction l as [|x l IH]; cbn [forEach].
  - apply monoCmd_skip.
  - apply monoCmd_bind; [apply Hf | intros _; exact IH].
Qed.

Lemma monoCmd_modify (f : AudioState -> AudioState) :
  (forall s, nodes (f s) = nodes s) -> MonoCmd (modify f).
Proof. intros Hf s. apply mono_same_nodes, Hf. Qed.

Lemma monoCmd_stop (id : nat) : MonoCmd (stop id).
Proof.
  intros s. unfold stop. destruct (nodes s !! id) as [n|]; [|apply mono_refl].
  destruct (isScheduledSource (kind n) && started n); [|apply mono_refl].
  apply mono_alter. intros n'. cbn. auto.
Qed.

Lemma monoCmd_disconnect (id : nat) : MonoCmd (disconnect id).
Proof.
  intros s. unfold disconnect. destruct (nodes s !! id) as [n|]; [|apply mono_refl].
  destruct (kind n); try apply mono_refl; apply mono_alter; intros n'; cbn; auto.
Qed.

Ltac mono_with leaf :=
  repeat first
    [ leaf
    | match goal with
      | |- MonoCmd (_ ≫= _) => apply monoCmd_bind; [|intros ?]
      | |- MonoCmd (forEach _ _) => apply monoCmd_forEach; intros ?
      | |- MonoCmd (tryCatch _ _) => apply monoCmd_tryCatch
      | |- MonoCmd (mret _) => apply monoCmd_ret
      | |- MonoCmd skip => apply monoCmd_skip
      | |- MonoCmd (gets _) => apply monoCmd_gets
      | |- MonoCmd (getG _) => apply monoCmd_gets
      | |- MonoCmd (stop _) => apply monoCmd_stop
      | |- MonoCmd (disconnect _) => apply monoCmd_disconnect
      | |- MonoCmd (modify _) => apply monoCmd_modify; intros ?; reflexivity
      | |- MonoCmd (setG _ _) => apply monoCmd_modify; intros ?; reflexivity
      | |- MonoCmd (clearInterval _) => apply monoCmd_modify; intros ?; reflexivity
      | |- MonoCmd (match ?x with _ => _ end) => destruct x
      end ].

Lemma monoCmd_stopAndDisconnect (id : nat) : MonoCmd (stopAndDisconnect id).
Proof. unfold stopAndDisconnect. mono_with fail. Qed.

Lemma monoCmd_cancelTimer (x : string) : MonoCmd (cancelTimer x).
Proof. unfold cancelTimer. mono_with fail. Qed.

Ltac mono1 :=
  mono_with ltac:(
    idtac; match goal with
    | |- MonoCmd (stopAndDisconnect _) => apply monoCmd_stopAndDisconnect
    | |- MonoCmd (cancelTimer _) => apply monoCmd_cancelTimer
    end).

Lemma monoCmd_safeStop (x : string) : MonoCmd (safeStop x).
Proof. unfold safeStop. mono1. Qed.

Lemma monoCmd_stopChordBuffer : MonoCmd stopChordBuffer.
Proof. unfold stopChordBuffer. mono1. Qed.

Lemma monoCmd_stopChordProgression : MonoCmd stopChordProgression.
Proof. unfold stopChordProgression, stopChordBuffer. mono1. Qed.

Lemma monoCmd_stopCurrentAudio : MonoCmd stopCurrentAudio.
Proof. unfold stopCurrentAudio, stopChordProgression, stopChordBuffer, safeStop. mono1. Qed.

(** *** What [stop()] and [disconnect()] leave of a node *)

Lemma gone_mono (id : nat) (s s' : AudioState) : Mono s s' -> Gone id s -> Gone id s'.
Proof.
  intros [_ Hm] (n & Hn & Hd & Hs).
  destruct (Hm id n Hn) as (n' & Hn' & K & S & T & D).
  exists n'. split; [exact Hn'|]. rewrite K, S. split.
  - intros Hk. apply D, Hd, Hk.
  - intros Hsch Hst. apply T, Hs; assumption.
Qed.

Lemma stopAndDisconnect_gone (id : nat) (s : AudioState) :
  id < length (nodes s) -> Gone id (snd (stopAndDisconnect id s)).
Proof.
  intros Hid. apply lookup_lt_is_Some_2 in Hid as [n Hn].
  unfold stopAndDisconnect, tryCatch, mbind, Js_bind, skip, mret, Js_ret.
  assert (exists n1, nodes (snd (stop id s)) !! id = Some n1 /\ kind n1 = kind n /\
                     started n1 = started n /\
                     (isScheduledSource (kind n) = true -> started n = true ->
                      stopped n1 = true)) as (n1 & Hn1 & K1 & S1 & T1).
  { unfold stop. rewrite Hn.
    destruct (isScheduledSource (kind n) && started n) eqn:E.
    - unfold updNode, modify. au. rewrite list_lookup_alter_eq, Hn. cbn.
      eexists. split; [reflexivity|]. cbn. auto.
    - cbn [snd]. exists n. repeat split; [exact Hn|].
      intros H1 H2. rewrite H1, H2 in E. discriminate. }
  assert (forall r, fst (stop id s) = r ->
            snd (match stop id s with
                 | (Ok a, s') => (Ok a, s')
                 | (Throw, s') => (Ok tt, s')
                 end) = snd (stop id s)) as Hsame.
  { intros r _. destruct (stop id s) as [[a|] s']; reflexivity. }
  set (s1 := snd (stop id s)) in *.
  assert (exists r, match stop id s with
                    | (Ok a, s') => (Ok a, s')
                    | (Throw, s') => (Ok tt, s')
                    end = (Ok r, s1)) as [r Hr].
  { unfold s1. destruct (stop id s) as [[a|] s']; eexists; reflexivity. }
  rewrite Hr.
  unfold disconnect. rewrite Hn1.
  assert (kind n1 = MediaElement \/ kind n1 <> MediaElement) as [Hme|Hme]
      by (destruct (kind n1); auto; right; discriminate).
  - rewrite Hme. cbn [snd]. exists n1. split; [exact Hn1|]. split; [contradiction|].
    rewrite K1, S1. exact T1.
  - assert (snd (match (match kind n1 with
                        | MediaElement => (Throw, s1)
                        | _ => updNode id
                                 (fun n0 => mkNode (kind n0) (value n0) (started n0)
                                                   (stopped n0) true) s1
                        end) with
                 | (Ok a, s') => (Ok a, s')
                 | (Throw, s') => (Ok tt, s')
                 end)
            = setNodes (alter (fun n0 => mkNode (kind n0) (value n0) (started n0)
                                                (stopped n0) true) id (nodes s1)) s1) as ->.
    { destruct (kind n1); try contradiction; reflexivity. }
    unfold Gone. au. rewrite list_lookup_alter_eq, Hn1. cbn. eexists. split; [reflexivity|]. cbn.
    split; [reflexivity|]. rewrite K1, S1. exact T1.
Qed.

(** *** Handlers that leave an observation alone *)

Lemma fixes_ret {A T : Type} (f : AudioState -> T) (a : A) : Fixes f (mret a).
Proof. intros s. reflexivity. Qed.

Lemma fixes_skip {T : Type} (f : AudioState -> T) : Fixes f skip.
Proof. intros s. reflexivity. Qed.

Lemma fixes_gets {A T : Type} (f : AudioState -> T) (g : AudioState -> A) : Fixes f (gets g).
Proof. intros s. reflexivity. Qed.

Lemma fixes_bind {A B T : Type} (f : AudioState -> T) (m : Cmd A) (k : A -> Cmd B) :
  Fixes f m -> (forall a, Fixes f (k a)) -> Fixes f (m ≫= k).
Proof.
  intros Hm Hk s. unfold mbind, Js_bind. specialize (Hm s).
  destruct (m s) as [[a|] s1]; cbn [snd] in *; [|exact Hm].
  rewrite <- Hm. apply Hk.
Qed.

Lemma fixes_tryCatch {T : Type} (f : AudioState -> T) (m h : Cmd unit) :
  Fixes f m -> Fixes f h -> Fixes f (tryCatch m h).
Proof.
  intros Hm Hh s. unfold tryCatch. specialize (Hm s).
  destruct (m s) as [[a|] s1]; cbn [snd] in *; [exact Hm|].
  rewrite <- Hm. apply Hh.
Qed.

Lemma fixes_forEach {A T : Type} (f : AudioState -> T) (l : list A) (g : A -> Cmd unit) :
  (forall x, Fixes f (g x)) -> Fixes f (forEach l g).
Proof.
  intros Hg. induction l as [|x l IH]; cbn [forEach].
  - apply fixes_skip.
  - apply fixes_bind; [apply Hg | intros _; exact IH].
Qed.

Lemma fixes_modify {T : Type} (f : AudioState -> T) (g : AudioState -> AudioState) :
  (forall s, f (g s) = f s) -> Fixes f (modify g).
Proof. intros H s. apply H. Qed.

Lemma fixes_stop {T : Type} (f : AudioState -> T) (id : nat) :
  (forall s l, f (setNodes l s) = f s) -> Fixes f (stop id).
Proof.
  intros H s. unfold stop. destruct (nodes s !! id) as [n|]; [|reflexivity].
  destruct (isScheduledSource (kind n) && started n); [apply H | reflexivity].
Qed.

Lemma fixes_disconnect {T : Type} (f : AudioState -> T) (id : nat) :
  (forall s l, f (setNodes l s) = f s) -> Fixes f (disconnect id).
Proof.
  intros H s. unfold disconnect. destruct (nodes s !! id) as [n|]; [|reflexivity].
  destruct (kind n); first [apply H | reflexivity].
Qed.

Ltac names :=
  unfold birdsPatternTimer, wavesPatternTimer, chordTimer, scopeAnimId,
         baseOsc, baseGain, masterGain, oceanSource, oceanGain, rainSource, rainGain,
         wavesSource, wavesGain, birdsSource, birdsGain, birdsStreamEl, wavesStreamEl,
         analyser, motionLfo, motionGainNode, chordBufferSource in *.

Ltac fixes_leaf :=
  intros; au;
  first [ reflexivity
        | names; rewrite lookup_delete_ne by discriminate; reflexivity
        | names; rewrite lookup_insert_ne by discriminate; reflexivity ].

Ltac fixes_with leaf :=
  repeat first
    [ leaf
    | match goal with
      | |- Fixes _ (_ ≫= _) => apply fixes_bind; [|intros ?]
      | |- Fixes _ (forEach _ _) => apply fixes_forEach; intros ?
      | |- Fixes _ (tryCatch _ _) => apply fixes_tryCatch
      | |- Fixes _ (mret _) => apply fixes_ret
      | |- Fixes _ skip => apply fixes_skip
      | |- Fixes _ (gets _) => apply fixes_gets
      | |- Fixes _ (getG _) => apply fixes_gets
      | |- Fixes _ (stop _) => apply fixes_stop; fixes_leaf
      | |- Fixes _ (disconnect _) => apply fixes_disconnect; fixes_leaf
      | |- Fixes _ (modify _) => apply fixes_modify; fixes_leaf
      | |- Fixes _ (setG _ _) => apply fixes_modify; fixes_leaf
      | |- Fixes _ (clearInterval _) => apply fixes_modify; fixes_leaf
      | |- Fixes _ (match ?x with _ => _ end) => destruct x
      end ].

Ltac fixes :=
  unfold stopChordProgression, stopChordBuffer, safeStop, cancelTimer, stopAndDisconnect;
  fixes_with fail.

Lemma fixes_stopAndDisconnect {T : Type} (f : AudioState -> T) (id : nat) :
  (forall s l, f (setNodes l s) = f s) -> Fixes f (stopAndDisconnect id).
Proof.
  intros H. unfold stopAndDisconnect.
  apply fixes_bind; [|intros _];
    (apply fixes_tryCatch; [|apply fixes_skip]);
    [apply fixes_stop | apply fixes_disconnect]; exact H.
Qed.

(** *** A registered node through the teardown *)

Lemma awaits_keeps {A T : Type} (id : nat) (f : AudioState -> T) (v : T) (m : Cmd A) :
  MonoCmd m -> Fixes f m -> Leads (Awaits id f v) (Awaits id f v) m.
Proof.
  intros Hm Hf s [Hid Hv]. destruct (Hm s) as [Hlen _]. split.
  - rewrite Hlen. exact Hid.
  - rewrite Hf. exact Hv.
Qed.

Lemma gone_keeps {A : Type} (id : nat) (m : Cmd A) :
  MonoCmd m -> Leads (Gone id) (Gone id) m.
Proof. intros Hm s Hs. exact (gone_mono id _ _ (Hm s) Hs). Qed.

Lemma safeStop_gone (id : nat) (x : string) :
  Leads (Awaits id (fun s => globals s !! x) (Some id)) (Gone id) (safeStop x).
Proof.
  intros s [Hid Hx]. unfold safeStop, getG. js_run. rewrite Hx.
  apply stopAndDisconnect_gone, Hid.
Qed.

Lemma forEach_gone (id : nat) (l : list nat) :
  id ∈ l ->
  Leads (fun s => id < length (nodes s)) (Gone id) (forEach l stopAndDisconnect).
Proof.
  induction l as [|x l IH]; intros Hin s Hid; [inversion Hin|].
  cbn [forEach].
  pose proof (noThrow_stopAndDisconnect x s) as [[] Hok].
  unfold mbind, Js_bind.
  destruct (stopAndDisconnect x s) as [r s1] eqn:E. cbn [fst] in Hok. subst r.
  assert (Mono s s1) as Hmono.
  { pose proof (monoCmd_stopAndDisconnect x s) as H. rewrite E in H. exact H. }
  destruct (decide (x = id)) as [->|Hne].
  - apply gone_keeps; [apply monoCmd_forEach; intros ?; apply monoCmd_stopAndDisconnect|].
    pose proof (stopAndDisconnect_gone id s Hid) as H. rewrite E in H. exact H.
  - apply IH.
    + apply elem_of_cons in Hin as [->|Hin]; [congruence | exact Hin].
    + destruct Hmono as [Hlen _]. rewrite Hlen. exact Hid.
Qed.

Lemma leads_gets_bind {A B : Type} (P R : AudioState -> Prop) (f : AudioState -> A)
    (k : A -> Cmd B) :
  (forall v, Leads (fun s => P s /\ f s = v) R (k v)) -> Leads P R (gets f ≫= k).
Proof. intros H s Hs. apply (H (f s)). split; [exact Hs | reflexivity]. Qed.

Ltac mono :=
  unfold stopChordProgression, stopChordBuffer, safeStop, cancelTimer, stopAndDisconnect;
  mono_with fail.

Ltac returning := solve [no_throw; auto using stopCurrentAudio_noThrow].

Ltac walk relevant :=
  repeat first
    [ solve [relevant]
    | eapply (leads_bind_returning _ (Gone _));
        [ returning | solve [relevant] | intros ?; apply gone_keeps; solve [mono] ]
    | eapply leads_bind_returning;
        [ returning | apply awaits_keeps; [solve [mono] | solve [fixes]] | intros ? ] ].

Lemma stopChordBuffer_gone (id : nat) :
  Leads (Awaits id (fun s => globals s !! chordBufferSource) (Some id)) (Gone id)
        stopChordBuffer.
Proof.
  intros s [Hid Hx]. unfold stopChordBuffer, getG. js_run. rewrite Hx.
  pose proof (noThrow_stopAndDisconnect id s) as [[] Hok].
  pose proof (stopAndDisconnect_gone id s Hid) as Hg.
  unfold mbind, Js_bind. destruct (stopAndDisconnect id s) as [r s1]. cbn [fst snd] in *.
  subst r. unfold setG, modify. cbn [snd].
  destruct Hg as (n & Hn & H1 & H2). exists n. au. auto.
Qed.

Lemma stopChordProgression_gone_buffer (id : nat) :
  Leads (Awaits id (fun s => globals s !! chordBufferSource) (Some id)) (Gone id)
        stopChordProgression.
Proof.
  unfold stopChordProgression.
  walk ltac:(apply stopChordBuffer_gone).
Qed.

Lemma stopChordProgression_gone_oscs (id : nat) (l : list nat) :
  id ∈ l -> Leads (Awaits id chordOscs l) (Gone id) stopChordProgression.
Proof.
  intros Hin. unfold stopChordProgression.
  eapply leads_bind_returning;
    [ returning | apply awaits_keeps; [solve [mono] | solve [fixes]] | intros _ ].
  apply leads_gets_bind. intros v.
  eapply (leads_bind_returning _ (Gone id)); [returning | | intros _; apply gone_keeps; mono].
  intros s [[Hid Hl] Hv]. apply forEach_gone; [congruence | exact Hid].
Qed.

Lemma stopCurrentAudio_gone_global (id : nat) (x : string) :
  x ∈ stoppedNames ->
  Leads (Awaits id (fun s => globals s !! x) (Some id)) (Gone id) stopCurrentAudio.
Proof.
  unfold stoppedNames. rewrite !elem_of_cons, elem_of_nil.
  intros [->|[->|[->|[->|[->|[->|[->|[]]]]]]]]; unfold stopCurrentAudio;
    walk ltac:(first [ apply safeStop_gone | apply stopChordProgression_gone_buffer ]).
Qed.

Lemma stopCurrentAudio_gone_extra (id : nat) (l : list nat) :
  id ∈ l -> Leads (Awaits id extraNodes l) (Gone id) stopCurrentAudio.
Proof.
  intros Hin. unfold stopCurrentAudio.
  do 4 (eapply leads_bind_returning;
          [ returning | apply awaits_keeps; [solve [mono] | solve [fixes]] | intros _ ]).
  apply leads_gets_bind. intros v.
  eapply (leads_bind_returning _ (Gone id)); [returning | | intros _; apply gone_keeps; mono].
  intros s [[Hid Hl] Hv]. apply forEach_gone; [congruence | exact Hid].
Qed.

Lemma stopCurrentAudio_gone_oscs (id : nat) (l : list nat) :
  id ∈ l -> Leads (Awaits id chordOscs l) (Gone id) stopCurrentAudio.
Proof.
  intros Hin. unfold stopCurrentAudio.
  walk ltac:(apply stopChordProgression_gone_oscs; exact Hin).
Qed.

(** *** What the teardown resets *)

Lemma obs_keeps {A T : Type} (f : AudioState -> T) (v : T) (m : Cmd A) :
  Fixes f m -> Leads (fun s => f s = v) (fun s => f s = v) m.
Proof. intros Hf s Hs. rewrite Hf. exact Hs. Qed.

Lemma leads_any {A : Type} (m : Cmd A) : Leads (fun _ => True) (fun _ => True) m.
Proof. intros s _. exact I. Qed.

Lemma setG_null (x : string) :
  Leads (fun _ => True) (fun s => globals s !! x = None) (setG x None).
Proof. intros s _. unfold setG, modify. au. apply lookup_delete_eq. Qed.

Lemma stopChordBuffer_null :
  Leads (fun _ => True) (fun s => globals s !! chordBufferSource = None) stopChordBuffer.
Proof.
  intros s _. unfold stopChordBuffer, getG. js_run.
  destruct (globals s !! chordBufferSource) as [id|] eqn:E; [|exact E].
  pose proof (noThrow_stopAndDisconnect id s) as [[] Hok].
  unfold mbind, Js_bind. destruct (stopAndDisconnect id s) as [r s1]. cbn [fst snd] in *.
  subst r. unfold setG, modify. au. apply lookup_delete_eq.
Qed.

Ltac settle f v establish :=
  repeat first
    [ solve [establish]
    | eapply (leads_bind_returning _ (fun s => f s = v));
        [ returning | solve [establish]
        | intros ?; apply (obs_keeps f v); solve [fixes] ]
    | eapply (leads_bind_returning _ (fun _ => True));
        [ returning | apply leads_any | intros ? ] ].

Lemma stopChordProgression_oscs :
  Leads (fun _ => True) (fun s => chordOscs s = []) stopChordProgression.
Proof.
  unfold stopChordProgression.
  settle chordOscs (@nil nat)
         ltac:(idtac; match goal with
               | |- Leads _ _ (modify (setChordOscs [])) => intros ? _; reflexivity
               end).
Qed.

Lemma stopChordProgression_null :
  Leads (fun _ => True) (fun s => globals s !! chordBufferSource = None) stopChordProgression.
Proof.
  unfold stopChordProgression.
  settle (fun s => globals s !! chordBufferSource) (@None nat)
         ltac:(idtac; match goal with
               | |- Leads _ _ stopChordBuffer => apply stopChordBuffer_null
               end).
Qed.

Lemma stopCurrentAudio_extra :
  Leads (fun _ => True) (fun s => extraNodes s = []) stopCurrentAudio.
Proof.
  unfold stopCurrentAudio.
  settle extraNodes (@nil nat)
         ltac:(idtac; match goal with
               | |- Leads _ _ (modify (setExtraNodes [])) => intros ? _; reflexivity
               end).
Qed.

Lemma stopCurrentAudio_panners :
  Leads (fun _ => True) (fun s => motionPanners s = []) stopCurrentAudio.
Proof.
  unfold stopCurrentAudio.
  settle motionPanners (@nil nat)
         ltac:(idtac; match goal with
               | |- Leads _ _ (modify (setMotionPanners [])) => intros ? _; reflexivity
               end).
Qed.

Lemma stopCurrentAudio_oscs :
  Leads (fun _ => True) (fun s => chordOscs s = []) stopCurrentAudio.
Proof.
  unfold stopCurrentAudio.
  settle chordOscs (@nil nat)
         ltac:(idtac; match goal with
               | |- Leads _ _ stopChordProgression => apply stopChordProgression_oscs
               end).
Qed.

Lemma stopCurrentAudio_null (x : string) :
  x ∈ stoppedNames ->
  Leads (fun _ => True) (fun s => globals s !! x = None) stopCurrentAudio.
Proof.
  unfold stoppedNames. rewrite !elem_of_cons, elem_of_nil.
  intros [->|[->|[->|[->|[->|[->|[->|[]]]]]]]]; unfold stopCurrentAudio.
  - settle (fun s => globals s !! baseOsc) (@None nat)
           ltac:(idtac; match goal with
                 | |- Leads _ _ (setG baseOsc None) => apply setG_null
                 end).
  - settle (fun s => globals s !! oceanSource) (@None nat)
           ltac:(idtac; match goal with
                 | |- Leads _ _ (setG oceanSource None) => apply setG_null
                 end).
  - settle (fun s => globals s !! rainSource) (@None nat)
           ltac:(idtac; match goal with
                 | |- Leads _ _ (setG rainSource None) => apply setG_null
                 end).
  - settle (fun s => globals s !! wavesSource) (@None nat)
           ltac:(idtac; match goal with
                 | |- Leads _ _ (setG wavesSource None) => apply setG_null
                 end).
  - settle (fun s => globals s !! motionLfo) (@None nat)
           ltac:(idtac; match goal with
                 | |- Leads _ _ (setG motionLfo None) => apply setG_null
                 end).
  - settle (fun s => globals s !! motionGainNode) (@None nat)
           ltac:(idtac; match goal with
                 | |- Leads _ _ (setG motionGainNode None) => apply setG_null
                 end).
  - settle (fun s => globals s !! chordBufferSource) (@None nat)
           ltac:(idtac; match goal with
                 | |- Leads _ _ stopChordProgression => apply stopChordProgression_null
                 end).
Qed.

Lemma stopCurrentAudio_resets (s : AudioState) :
  let s' := exec stopCurrentAudio s in
  extraNodes s' = [] /\ motionPanners s' = [] /\ chordOscs s' = [] /\
  forall x, x ∈ stoppedNames -> globals s' !! x = None.
Proof.
  cbv zeta. split; [apply stopCurrentAudio_extra; exact I|].
  split; [apply stopCurrentAudio_panners; exact I|].
  split; [apply stopCurrentAudio_oscs; exact I|].
  intros x Hx. apply (stopCurrentAudio_null x Hx). exact I.
Qed.

(** X17: what a teardown does to the nodes.  Whatever the state of the
    engine, a node that is registered (it is in [extraNodes] or
    [chordOscs], or it is held in [baseOsc], [oceanSource], [rainSource],
    [wavesSource], [motionLfo], [motionGainNode] or [chordBufferSource])
    is, after [stopCurrentAudio], disconnected and no longer running
    unless it is an [<audio>] element, and stopped if it is a source that
    had been started; and nothing is registered any more. *)
Theorem X17_teardown_stops_every_registered_node (s : AudioState) (id : nat) (n : Node) :
  nodes s !! id = Some n ->
  Registered s id ->
  let s' := exec stopCurrentAudio s in
  (exists n', nodes s' !! id = Some n' /\ kind n' = kind n /\
     (kind n <> MediaElement -> disconnected n' = true /\ isLive n' = false) /\
     (isScheduledSource (kind n) = true -> started n = true -> stopped n' = true)) /\
  (forall id', ~ Registered s' id').
Proof.
  intros Hn Hreg s'. split.
  - assert (id < length (nodes s)) as Hid by (apply lookup_lt_is_Some_1; eauto).
    assert (Gone id s') as (n1 & Hn1 & Hd & Hs).
    { destruct Hreg as [Hin|[Hin|(x & Hx & Hg)]].
      - apply (stopCurrentAudio_gone_extra id (extraNodes s) Hin). split; [exact Hid|reflexivity].
      - apply (stopCurrentAudio_gone_oscs id (chordOscs s) Hin). split; [exact Hid|reflexivity].
      - apply (stopCurrentAudio_gone_global id x Hx). split; [exact Hid | exact Hg]. }
    destruct (monoCmd_stopCurrentAudio s) as [_ Hm].
    destruct (Hm id n Hn) as (n' & Hn' & K & S & _).
    fold (exec stopCurrentAudio s) in Hn'. fold s' in Hn'.
    rewrite Hn1 in Hn'. injection Hn' as ->.
    exists n'. split; [exact Hn1|]. split; [exact K|]. rewrite <- K, <- S. split.
    + intros Hk. specialize (Hd Hk). split; [exact Hd|].
      unfold isLive. rewrite Hd. destruct (kind n'); try reflexivity;
        rewrite andb_false_r; reflexivity.
    + exact Hs.
  - destruct (stopCurrentAudio_resets s) as (He & _ & Ho & Hg). fold s' in He, Ho, Hg.
    intros id' [Hin|[Hin|(x & Hx & Hl)]].
    + rewrite He in Hin. inversion Hin.
    + rewrite Ho in Hin. inversion Hin.
    + rewrite (Hg x Hx) in Hl. discriminate.
Qed.

(** The carrier of a Binaural build at 7.83 Hz: node 4, held in
    [baseOsc], started. *)
Lemma X17_teardown_stops_every_registered_node_witness :
  exists n', nodes (exec stopCurrentAudio (Samples.built Samples.binauralControls)) !! 4%nat
             = Some n' /\ stopped n' = true.
Proof.
  assert (nodes (Samples.built Samples.binauralControls) !! 4%nat
          = Some (mkNode Oscillator (Q2Qc 223.49) true false false)) as Hn
      by (vm_compute; reflexivity).
  assert (Registered (Samples.built Samples.binauralControls) 4) as Hreg.
  { right. right. exists baseOsc. split; [apply list_elem_of_here | vm_compute; reflexivity]. }
  destruct (X17_teardown_stops_every_registered_node _ 4%nat _ Hn Hreg)
    as ((n' & Hn' & _ & _ & Hstopped) & _).
  exists n'. split; [exact Hn' | exact (Hstopped eq_refl eq_refl)].
Defined.

End TeardownFacts.

(** ** Clear for a band *)

Section ClearFacts.
Import App Samples.

Ltac st :=
  cbn [audio controls bandKey bandHz bestPhaseByBand localStorage phaseRange
       phaseRangeDisabled sweepIsRunning sweepAnimId scanning scanTier scanPhases
       scanCounts scanIndex scanTimeoutId countdownInterval countdownRemaining pending
       nextId setAudio setBestPhaseByBand setLocalStorage setPhaseRange
       setPhaseRangeDisabled setSweepIsRunning setSweepAnimId setScanning setScanTier
       setScanPhases setScanCounts setScanIndex setScanTimeoutId setCountdownInterval
       setCountdownRemaining setPending fst snd] in *.

(** X18: Clear for the selected band is not saved.  In any state a
    session can reach, Clear removes the record of the selected band from
    memory and leaves local storage as it is, where the record still is:
    a reload of the page brings the record back.  The next mark saves the
    memory, and then the stored record of the band is the new mark alone. *)
Theorem X18_clear_for_band_is_not_saved (c : Audio.Controls) (key : string) (hz : Qc)
    (stored : gmap string PhaseRecord) (es : list Event) (r : PhaseRecord) :
  let s := run (loaded c key hz stored) es in
  let s' := step s ClearBestPhase in
  bestPhaseByBand s !! bandKey s = Some r ->
  bestPhaseByBand s' !! bandKey s = None /\
  localStorage s' = localStorage s /\
  localStorage s' !! bandKey s = Some r /\
  bestPhaseByBand (loaded c key hz (localStorage s')) !! bandKey s = Some r /\
  localStorage (step s' MarkStrongest) !! bandKey s = Some (mkRecord (phaseRange s) 1).
Proof.
  intros s s' Hr.
  destruct (run_session es _ (loaded_session c key hz stored)) as (Hp & _).
  fold s in Hp. unfold Persisted in Hp.
  assert (s' = setBestPhaseByBand (delete (bandKey s) (bestPhaseByBand s)) s) as Hs'.
  { unfold s', step, exec, handle, getExploreBandKey, clearBestPhaseForBand. js_run.
    reflexivity. }
  assert (localStorage s !! bandKey s = Some r) as Hl by exact (lookup_weaken _ _ _ _ Hr Hp).
  rewrite Hs'. st. repeat apply conj.
  - apply lookup_delete_eq.
  - reflexivity.
  - exact Hl.
  - unfold loaded, exec, loadOnStartup, loadPhaseHistory. js_run. st.
    rewrite (right_id_L ∅ (∪)). exact Hl.
  - unfold step, exec, handle. rewrite handleMarkStrongest_run. st.
    rewrite lookup_delete_eq. st. apply lookup_insert_eq.
Qed.

(** The page of a user who has marked three times at 100 degrees. *)
Lemma X18_clear_for_band_is_not_saved_witness :
  bestPhaseByBand (step (page threeMarksAt100) ClearBestPhase) !! "7.83"%string = None /\
  localStorage (step (page threeMarksAt100) ClearBestPhase) !! "7.83"%string =
    Some (mkRecord (Q2Qc 100) 3).
Proof.
  assert (bestPhaseByBand (run (loaded binauralControls "7.83" (Q2Qc 7.83) threeMarksAt100) [])
            !! bandKey (run (loaded binauralControls "7.83" (Q2Qc 7.83) threeMarksAt100) [])
          = Some (mkRecord (Q2Qc 100) 3)) as Hr by (vm_compute; reflexivity).
  destruct (X18_clear_for_band_is_not_saved binauralControls "7.83" (Q2Qc 7.83)
              threeMarksAt100 [] (mkRecord (Q2Qc 100) 3) Hr) as (H1 & _ & H3 & _).
  split; [exact H1 | exact H3].
Defined.

End ClearFacts.

(** ** The tones of the Isochronic and Binaural modes *)

Section ToneFacts.
Import Audio Samples.

(** X19: the tones of the Isochronic and the Binaural mode, in any
    state of the graph.  An Isochronic (am) build leaves the carrier gain
    as it is and creates a modulator oscillator at the band frequency, a
    gain and a constant source, both of value [depth * 0.3 * toneMix],
    and starts the oscillator and the source.  A Binaural build sets the
    carrier gain to 0 and creates two oscillators, started, at the
    carrier plus and minus half the band, two gains of value
    [depth * 0.6 * toneMix] and two stereo panners of pan -1 and 1.
    Either build returns and registers all its nodes in [extraNodes].
    The values of the nodes are in exact arithmetic; computed in
    doubles, for a carrier of at most 20 kHz and a band of at most 1 kHz
    either way, the two values the Binaural build assigns to the
    frequencies, [audibleHz + halfDiff] and [audibleHz - halfDiff],
    differ by the band within [10^-9] Hz. *)
Theorem X19_isochronic_and_binaural_tones (c : Controls) (s : AudioState)
    (audibleHz freqHz depthVal toneMixV : Qc) (bg : nat) :
  globals s !! baseGain = Some bg ->
  let build := createStimulation c audibleHz freqHz depthVal toneMixV in
  (stimulationMode c = "am"%string ->
   returns build s = true /\
   nodes (exec build s) =
     nodes s ++
     [ mkNode Oscillator freqHz true false false;
       mkNode Gain (depthVal * Q2Qc 0.3 * toneMixV) false false false;
       mkNode ConstantSource (depthVal * Q2Qc 0.3 * toneMixV) true false false ] /\
   extraNodes (exec build s) = extraNodes s ++ seq (length (nodes s)) 3 /\
   globals (exec build s) = globals s) /\
  (stimulationMode c = "binaural"%string ->
   returns build s = true /\
   nodes (exec build s) =
     alter (withValue 0) bg (nodes s) ++
     [ mkNode Oscillator (audibleHz + freqHz / Q2Qc 2) true false false;
       mkNode Oscillator (audibleHz - freqHz / Q2Qc 2) true false false;
       mkNode Gain (depthVal * Q2Qc 0.6 * toneMixV) false false false;
       mkNode Gain (depthVal * Q2Qc 0.6 * toneMixV) false false false;
       mkNode StereoPanner (-1) false false false;
       mkNode StereoPanner 1 false false false ] /\
   extraNodes (exec build s) = extraNodes s ++ seq (length (nodes s)) 6 /\
   ((- Q2Qc 20000 <= audibleHz)%Qc -> (audibleHz <= Q2Qc 20000)%Qc ->
    (- Q2Qc 1000 <= freqHz)%Qc -> (freqHz <= Q2Qc 1000)%Qc ->
    let beat := (Rounded.leftFrequency audibleHz freqHz
                 - Rounded.rightFrequency audibleHz freqHz)%Qc in
    (- Q2Qc (1 # 1000000000) <= beat - freqHz)%Qc /\
    (beat - freqHz <= Q2Qc (1 # 1000000000))%Qc)).
Proof.
  intros Hbg build. split.
  - intros Hmode. unfold build, createStimulation. rewrite Hmode.
    cbn [String.eqb Ascii.eqb Bool.eqb].
    unfold returns, exec, pushExtra. rewrite !run_create_bind. cbn [nodes setNodes].
    erewrite (run_start_bind _ _ _ ((nodes s ++ [_]) ++ [_]));
      [| cbn [nodes setNodes]; reflexivity
       | reflexivity | reflexivity | reflexivity ].
    erewrite (run_start_bind _ _ _ (nodes s));
      [| cbn [nodes setNodes]; rewrite <- !app_assoc; reflexivity
       | reflexivity | reflexivity | reflexivity ].
    js_run. cbn [fst snd nodes setNodes setExtraNodes extraNodes globals kind value stopped
                 disconnected app].
    repeat apply conj; try reflexivity.
    rewrite !length_app. cbn [length seq]. f_equal. repeat (f_equal; try lia).
  - intros Hmode.
    destruct (binaural_pair_differs_by_band c s audibleHz freqHz depthVal toneMixV bg Hmode Hbg)
      as (_ & Hret & Hnodes & Hextra).
    split; [exact Hret|]. split; [exact Hnodes|]. split; [exact Hextra|].
    intros Ha0 Ha1 Hf0 Hf1. exact (binaural_beat audibleHz freqHz Ha0 Ha1 Hf0 Hf1).
Qed.

(** A Binaural build on a graph that has its carrier. *)
Lemma X19_isochronic_and_binaural_tones_witness :
  extraNodes (exec (createStimulation binauralControls (Q2Qc 223.49) (Q2Qc 7.83)
                                      (Q2Qc 0.7) (Q2Qc 1)) carrierOnly) =
    [3; 4; 5; 6; 7; 8]%nat.
Proof.
  destruct (X19_isochronic_and_binaural_tones binauralControls carrierOnly
              (Q2Qc 223.49) (Q2Qc 7.83) (Q2Qc 0.7) (Q2Qc 1) 2 eq_refl)
    as (_ & Hbin).
  destruct (Hbin eq_refl) as (_ & _ & Hextra & _).
  exact Hextra.
Defined.

End ToneFacts.

(** ** The synthesised chord progression *)

Section ProgressionFacts.
Import Audio Engine Teardown Samples.

Ltac au :=
  cbn [audioCtx nodes timers nextTimer globals extraNodes motionPanners chordOscs
       chordIndex birdsIsSample wavesIsSample setAudioCtx setNodes setTimers setGlobals
       setExtraNodes setMotionPanners setChordOscs setChordIndex setBirdsIsSample
       setWavesIsSample fst snd] in *.

(** One note of a chord: an oscillator and its gain. *)
Lemma chord_note (s : AudioState) (v gv : Qc) (mg : nat) (k : unit -> Cmd unit) :
  globals s !! masterGain = Some mg ->
  ((osc ← create Oscillator v;
    g ← create Gain gv;
    connectTo masterGain ;;
    start osc ;;
    pushChordOscs [osc; g]) ≫= k) s
  = k tt (setChordOscs (chordOscs s ++ [length (nodes s); S (length (nodes s))])
            (setNodes (nodes s ++ [mkNode Oscillator v true false false;
                                   mkNode Gain gv false false false]) s)).
Proof.
  intros Hmg. unfold mbind at 1, Js_bind at 1.
  assert ((osc ← create Oscillator v;
           g ← create Gain gv;
           connectTo masterGain ;;
           start osc ;;
           pushChordOscs [osc; g]) s
          = (Ok tt, setChordOscs (chordOscs s ++ [length (nodes s); S (length (nodes s))])
                      (setNodes (nodes s ++ [mkNode Oscillator v true false false;
                                             mkNode Gain gv false false false]) s))) as ->.
  { rewrite !run_create_bind. unfold connectTo, getG. js_run. au. rewrite Hmg.
    js_run.
    erewrite (run_start_bind _ _ _ (nodes s));
      [| cbn [nodes setNodes]; rewrite <- !app_assoc; reflexivity
       | reflexivity | reflexivity | reflexivity ].
    unfold pushChordOscs, modify. au. cbn [kind value stopped disconnected app].
    rewrite length_app, Nat.add_1_r. reflexivity. }
  reflexivity.
Qed.

Lemma chords_cycle (i : nat) :
  exists m1 m2 m3, chords !! (i `mod` length chords)%nat = Some [m1; m2; m3].
Proof.
  pose proof (Nat.mod_upper_bound i 3 ltac:(lia)) as H.
  change (length chords) with 3%nat.
  destruct (i `mod` 3)%nat as [|[|[|k]]]; [| | |lia]; cbn; eauto.
Qed.

(** X20: a chord of the synthesised progression.  With the master gain
    in place, [playChord] returns; it stops and disconnects the notes of
    the chord before, and adds one panner and three notes, each an
    oscillator that is started and its gain: the oscillators are at the
    carrier times the three ratios of the chord at [chordIndex] modulo 3,
    the gains are the gain of the instrument.  [chordOscs] holds exactly
    the six new nodes, the panner is registered in [extraNodes] and
    [motionPanners], and [chordIndex] goes up by one. *)
Theorem X20_playChord_plays_the_next_chord (c : Controls) (audibleHz : Qc)
    (s : AudioState) (mg : nat) :
  globals s !! masterGain = Some mg ->
  let i := chordIndex s in
  let n := length (nodes s) in
  let gv := chordGainValue (chordInstrument c) in
  let s' := exec (playChord c audibleHz) s in
  returns (playChord c audibleHz) s = true /\
  exists (m1 m2 m3 : Qc) (old : list Node),
    chords !! (i `mod` 3)%nat = Some [m1; m2; m3] /\
    length old = n /\
    nodes s' = old ++ [ mkNode StereoPanner 0 false false false;
                        mkNode Oscillator (audibleHz * m1) true false false;
                        mkNode Gain gv false false false;
                        mkNode Oscillator (audibleHz * m2) true false false;
                        mkNode Gain gv false false false;
                        mkNode Oscillator (audibleHz * m3) true false false;
                        mkNode Gain gv false false false ] /\
    chordOscs s' = seq (S n) 6 /\
    extraNodes s' = extraNodes s ++ [n] /\
    motionPanners s' = motionPanners s ++ [n] /\
    chordIndex s' = S i /\
    (forall id, id ∈ chordOscs s -> id < n -> Gone id s').
Proof.
  intros Hmg i n gv s'.
  destruct (chords_cycle i) as (m1 & m2 & m3 & Hch).
  set (s1 := exec (forEach (chordOscs s) stopAndDisconnect) s).
  assert (forEach (chordOscs s) stopAndDisconnect s = (Ok tt, s1)) as Hrun.
  { apply noThrow_run. apply noThrow_forEach. intros x. apply noThrow_stopAndDisconnect. }
  assert (Mono s s1) as Hmono.
  { unfold s1, exec. apply monoCmd_forEach. intros x. apply monoCmd_stopAndDisconnect. }
  assert (globals s1 = globals s) as Hg.
  { unfold s1, exec. apply (fixes_forEach globals). intros x. apply fixes_stopAndDisconnect. reflexivity. }
  assert (chordIndex s1 = chordIndex s) as Hi.
  { unfold s1, exec. apply (fixes_forEach chordIndex). intros x. apply fixes_stopAndDisconnect. reflexivity. }
  assert (extraNodes s1 = extraNodes s) as He.
  { unfold s1, exec. apply (fixes_forEach extraNodes). intros x. apply fixes_stopAndDisconnect. reflexivity. }
  assert (motionPanners s1 = motionPanners s) as Hp.
  { unfold s1, exec. apply (fixes_forEach motionPanners). intros x. apply fixes_stopAndDisconnect. reflexivity. }
  assert (length (nodes s1) = n) as Hlen by (destruct Hmono as [H _]; exact H).
  assert (forall id, id ∈ chordOscs s -> id < n -> Gone id s1) as Hgone.
  { intros id Hin Hid. unfold s1, exec. apply forEach_gone; assumption. }
  clearbody s1. clear Hmono.
  assert (playChord c audibleHz s =
          (Ok tt,
           setChordIndex (S i)
             (setChordOscs (seq (S n) 6)
                (setExtraNodes (extraNodes s ++ [n])
                   (setMotionPanners (motionPanners s ++ [n])
                      (setNodes (nodes s1 ++
                                 [ mkNode StereoPanner 0 false false false;
                                   mkNode Oscillator (audibleHz * m1) true false false;
                                   mkNode Gain gv false false false;
                                   mkNode Oscillator (audibleHz * m2) true false false;
                                   mkNode Gain gv false false false;
                                   mkNode Oscillator (audibleHz * m3) true false false;
                                   mkNode Gain gv false false false ]) s1)))))) as Hplay.
  { unfold playChord. js_run.
    unfold mbind at 1, Js_bind at 1. rewrite Hrun. js_run.
    rewrite run_create_bind. unfold pushMotionPanner, pushExtra. js_run. au.
    rewrite Hi. fold i. rewrite Hch. cbn [default Datatypes.id forEach].
    rewrite run_bind_assoc. cbn beta.
    erewrite chord_note by (au; rewrite Hg; exact Hmg).
    rewrite run_bind_assoc. cbn beta.
    erewrite chord_note by (au; rewrite Hg; exact Hmg).
    rewrite run_bind_assoc. cbn beta.
    erewrite chord_note by (au; rewrite Hg; exact Hmg).
    js_run. unfold modify. au.
    rewrite !length_app, Hlen, He, Hp, <- !app_assoc. cbn [length app Nat.add seq].
    rewrite !Nat.add_1_r, ?Nat.add_succ_r, ?Nat.add_0_r, ?Hi.
    reflexivity. }
  split; [unfold returns; rewrite Hplay; reflexivity|].
  exists m1, m2, m3, (nodes s1).
  unfold s', exec. rewrite Hplay. au.
  repeat apply conj; try reflexivity; try assumption.
  intros id Hin Hid.
  destruct (Hgone id Hin Hid) as (nd & Hnd & H1 & H2).
  exists nd. split; [|split; assumption].
  au. rewrite lookup_app_l; [exact Hnd|]. rewrite Hlen. exact Hid.
Qed.

(** The first chord on a graph that has its master gain and carrier. *)
Lemma X20_playChord_plays_the_next_chord_witness :
  chordOscs (exec (playChord binauralControls (Q2Qc 223.49)) carrierOnly) =
    [4; 5; 6; 7; 8; 9]%nat /\
  chordIndex (exec (playChord binauralControls (Q2Qc 223.49)) carrierOnly) = 1%nat.
Proof.
  destruct (X20_playChord_plays_the_next_chord binauralControls (Q2Qc 223.49) carrierOnly 0
              eq_refl)
    as (_ & m1 & m2 & m3 & old & _ & _ & _ & Hoscs & _ & _ & Hidx & _).
  split; [exact Hoscs | exact Hidx].
Defined.

End ProgressionFacts.

(** ** The synthetic soundscape patterns *)

Section PatternFacts.
Import Audio Engine Teardown Samples.

Ltac au :=
  cbn [audioCtx nodes timers nextTimer globals extraNodes motionPanners chordOscs
       chordIndex birdsIsSample wavesIsSample setAudioCtx setNodes setTimers setGlobals
       setExtraNodes setMotionPanners setChordOscs setChordIndex setBirdsIsSample
       setWavesIsSample fst snd] in *.

Lemma sameBut_refl (x : string) (s : AudioState) : SameBut x s s.
Proof. repeat split; reflexivity. Qed.

Lemma cancelTimer_run (x : string) (s : AudioState) :
  exists s1, cancelTimer x s = (Ok tt, s1) /\ globals s1 !! x = None /\ SameBut x s s1.
Proof.
  unfold cancelTimer, getG, clearInterval, setG. js_run.
  destruct (globals s !! x) as [id|] eqn:E; js_run; eexists; (split; [reflexivity|]); au.
  - split; [apply lookup_delete_eq|]. repeat split; try reflexivity.
    intros y Hy. apply lookup_delete_ne. congruence.
  - split; [exact E | apply sameBut_refl].
Qed.

Lemma setValueIfG_run (x : string) (v : Qc) (s : AudioState) :
  exists s1, setValueIfG x v s = (Ok tt, s1) /\ globals s1 = globals s /\
             audioCtx s1 = audioCtx s /\ birdsIsSample s1 = birdsIsSample s /\
             wavesIsSample s1 = wavesIsSample s.
Proof.
  unfold setValueIfG, getG, setValue, updNode. js_run.
  destruct (globals s !! x); js_run; eexists; (split; [reflexivity|]); repeat split.
Qed.

Lemma arm_run (x : string) (s0 : AudioState) :
  exists s1, (t ← setInterval; setG x (Some t)) s0 = (Ok tt, s1) /\
             is_Some (globals s1 !! x) /\ SameBut x s0 s1.
Proof.
  exists (setGlobals (<[x := nextTimer s0]> (globals s0))
                     (setTimers ({[nextTimer s0]} ∪ timers s0) (S (nextTimer s0)) s0)).
  split; [reflexivity|]. split.
  - au. eexists. apply lookup_insert_eq.
  - unfold SameBut. au. repeat split.
    intros y Hy. apply lookup_insert_ne. congruence.
Qed.

Lemma sameBut_trans (x : string) (s s0 s1 : AudioState) :
  SameBut x s s0 -> SameBut x s0 s1 -> SameBut x s s1.
Proof.
  intros (A1 & A2 & A3 & A4) (B1 & B2 & B3 & B4).
  repeat split; try congruence. intros y Hy. rewrite B4, A4 by exact Hy. reflexivity.
Qed.

Lemma level_positive (level : Qc) : bool_decide (level ≤ 0)%Qc = false <-> (0 < level)%Qc.
Proof.
  split.
  - intros H. apply bool_decide_eq_false_1 in H. apply Qcnot_le_lt. exact H.
  - intros H. apply bool_decide_eq_false_2. apply Qclt_not_le. exact H.
Qed.

Lemma startBirdsPattern_run (level : Qc) (s : AudioState) :
  exists s1, startBirdsPattern level s = (Ok tt, s1) /\
    (is_Some (globals s1 !! birdsPatternTimer) <->
     audioCtx s = true /\ is_Some (globals s !! masterGain) /\ (0 < level)%Qc) /\
    SameBut birdsPatternTimer s s1.
Proof.
  unfold startBirdsPattern.
  destruct (cancelTimer_run birdsPatternTimer s) as (s0 & Hrun & Hx & Hsame).
  unfold mbind at 1, Js_bind at 1. rewrite Hrun. unfold getG. js_run.
  pose proof Hsame as (H1 & H2 & H3 & H4).
  rewrite H1, (H4 masterGain) by discriminate. clear H1 H2 H3 H4.
  destruct (audioCtx s) eqn:Ectx; cbn [negb orb].
  2: { exists s0. split; [reflexivity|]. split.
       - rewrite Hx. split; [intros [? ?]; discriminate | intros (? & _); discriminate].
       - exact Hsame. }
  destruct (globals s !! masterGain) as [mg|] eqn:Emg.
  2: { rewrite bool_decide_eq_false_2 by (intros [? ?]; discriminate). cbn [negb orb].
       exists s0. split; [reflexivity|]. split.
       - rewrite Hx. split; [intros [? ?]; discriminate | intros (_ & [? ?] & _); discriminate].
       - exact Hsame. }
  rewrite bool_decide_eq_true_2 by eauto. cbn [negb orb].
  destruct (bool_decide (level ≤ 0)%Qc) eqn:El.
  - exists s0. split; [reflexivity|]. split.
    + rewrite Hx. split; [intros [? ?]; discriminate|].
      intros (_ & _ & Hpos). apply level_positive in Hpos. congruence.
    + exact Hsame.
  - destruct (arm_run birdsPatternTimer s0) as (s1 & Harm & Hset & Hsame').
    exists s1. split; [exact Harm|]. split.
    + split; [|intros _; exact Hset]. intros _.
      split; [reflexivity|]. split; [eauto | apply level_positive, El].
    + apply (sameBut_trans _ s s0 s1); [exact Hsame | exact Hsame'].
Qed.

Lemma startWavesPattern_run (level : Qc) (s : AudioState) :
  exists s1, startWavesPattern level s = (Ok tt, s1) /\
    (is_Some (globals s1 !! wavesPatternTimer) <->
     audioCtx s = true /\ is_Some (globals s !! wavesGain) /\ (0 < level)%Qc) /\
    SameBut wavesPatternTimer s s1.
Proof.
  unfold startWavesPattern.
  destruct (cancelTimer_run wavesPatternTimer s) as (s0 & Hrun & Hx & Hsame).
  unfold mbind at 1, Js_bind at 1. rewrite Hrun. unfold getG. js_run.
  pose proof Hsame as (H1 & H2 & H3 & H4).
  rewrite H1, (H4 wavesGain) by discriminate.
  destruct (setValueIfG_run wavesGain 0 s0) as (q & Hq & Q0 & Q1 & Q2 & Q3).
  assert (SameBut wavesPatternTimer s q) as Hsq.
  { repeat split; try congruence. intros y Hy. rewrite Q0. apply H4, Hy. }
  clear H1 H2 H3 H4 Q1 Q2 Q3.
  assert (globals q !! wavesPatternTimer = None) as Hqx by (rewrite Q0; exact Hx).
  destruct (audioCtx s) eqn:Ectx; cbn [negb orb].
  2: { exists q. split; [exact Hq|]. split; [|exact Hsq].
       rewrite Hqx. split; [intros [? ?]; discriminate | intros (? & _); discriminate]. }
  destruct (globals s !! wavesGain) as [wg|] eqn:Ewg.
  2: { rewrite bool_decide_eq_false_2 by (intros [? ?]; discriminate). cbn [negb orb].
       exists q. split; [exact Hq|]. split; [|exact Hsq].
       rewrite Hqx. split; [intros [? ?]; discriminate | intros (_ & [? ?] & _); discriminate]. }
  rewrite bool_decide_eq_true_2 by eauto. cbn [negb orb].
  destruct (bool_decide (level ≤ 0)%Qc) eqn:El.
  - exists q. split; [exact Hq|]. split; [|exact Hsq].
    rewrite Hqx. split; [intros [? ?]; discriminate|].
    intros (_ & _ & Hpos). apply level_positive in Hpos. congruence.
  - destruct (arm_run wavesPatternTimer s0) as (s1 & Harm & Hset & Hsame').
    exists s1. split; [exact Harm|]. split.
    + split; [|intros _; exact Hset]. intros _.
      split; [reflexivity|]. split; [eauto | apply level_positive, El].
    + apply (sameBut_trans _ s s0 s1); [exact Hsame | exact Hsame'].
Qed.

Lemma setValue_cancel_run (x : string) (id : nat) (v : Qc) (s : AudioState) :
  exists s1, (setValue id v ;; cancelTimer x) s = (Ok tt, s1) /\
             globals s1 !! x = None /\ SameBut x s s1.
Proof.
  unfold setValue, updNode. js_run.
  destruct (cancelTimer_run x (setNodes (alter (fun n => mkNode (kind n) v (started n)
                                                           (stopped n) (disconnected n))
                                          id (nodes s)) s))
    as (s1 & Hrun & Hx & Hsame).
  exists s1. split; [exact Hrun|]. split; [exact Hx|]. exact Hsame.
Qed.

(** X21: the synthetic patterns of the soundscapes.  [updateSoundscapes]
    returns in every state, and after it the chirp pattern of the birds
    is scheduled (its timer variable is set) exactly when there is an
    audio context and a master gain, the birds slider is above 0 and the
    birds do not play from a sample; the wave pattern is scheduled
    exactly when there is an audio context and a waves gain, the waves
    slider is above 0 and the waves do not play from a sample.  No other
    variable changes. *)
Theorem X21_patterns_run_only_without_sample (c : Controls) (s : AudioState) :
  let s' := exec (updateSoundscapes c) s in
  returns (updateSoundscapes c) s = true /\
  (is_Some (globals s' !! birdsPatternTimer) <->
   audioCtx s = true /\ is_Some (globals s !! masterGain) /\ (0 < birdsRange c)%Qc /\
   ~ (is_Some (globals s !! birdsGain) /\ birdsIsSample s = true)) /\
  (is_Some (globals s' !! wavesPatternTimer) <->
   audioCtx s = true /\ is_Some (globals s !! wavesGain) /\ (0 < wavesRange c)%Qc /\
   wavesIsSample s = false) /\
  (forall y, y <> birdsPatternTimer -> y <> wavesPatternTimer ->
             globals s' !! y = globals s !! y).
Proof.
  intros s'.
  destruct (setValueIfG_run oceanGain (oceanRange c * Q2Qc 0.6) s)
    as (sa & Ha & A0 & A1 & A2 & A3).
  destruct (setValueIfG_run rainGain (rainRange c * Q2Qc 0.6) sa)
    as (sb & Hb & B0 & B1 & B2 & B3).
  assert (globals sb = globals s) as G0 by congruence.
  assert (audioCtx sb = audioCtx s) as G1 by congruence.
  assert (birdsIsSample sb = birdsIsSample s) as G2 by congruence.
  assert (wavesIsSample sb = wavesIsSample s) as G3 by congruence.
  clear A0 A1 A2 A3 B0 B1 B2 B3.
  (* the birds *)
  assert (exists sc,
            (match globals sb !! birdsGain, birdsIsSample sb with
             | Some id, true => setValue id (birdsRange c * Q2Qc 0.6) ;;
                                cancelTimer birdsPatternTimer
             | _, _ => startBirdsPattern (birdsRange c)
             end) sb = (Ok tt, sc) /\
            (is_Some (globals sc !! birdsPatternTimer) <->
             audioCtx s = true /\ is_Some (globals s !! masterGain) /\
             (0 < birdsRange c)%Qc /\
             ~ (is_Some (globals s !! birdsGain) /\ birdsIsSample s = true)) /\
            SameBut birdsPatternTimer sb sc) as (sc & Hc & Cb & Csame).
  { rewrite G0, G2.
    destruct (globals s !! birdsGain) as [bg|] eqn:Ebg;
      [destruct (birdsIsSample s) eqn:Ebs|].
    - destruct (setValue_cancel_run birdsPatternTimer bg (birdsRange c * Q2Qc 0.6) sb)
        as (sc & Hc & Hx & Hsame).
      exists sc. split; [exact Hc|]. split; [|exact Hsame].
      rewrite Hx. split; [intros [? ?]; discriminate|].
      intros (_ & _ & _ & Hn). exfalso. apply Hn. split; [eauto | reflexivity].
    - destruct (startBirdsPattern_run (birdsRange c) sb) as (sc & Hc & Hiff & Hsame).
      exists sc. split; [exact Hc|]. split; [|exact Hsame].
      rewrite Hiff, G0, G1. split.
      + intros (P1 & P2 & P3). repeat split; try assumption. intros [_ ?]; discriminate.
      + intros (P1 & P2 & P3 & _). repeat split; assumption.
    - destruct (startBirdsPattern_run (birdsRange c) sb) as (sc & Hc & Hiff & Hsame).
      exists sc. split; [exact Hc|]. split; [|exact Hsame].
      rewrite Hiff, G0, G1. split.
      + intros (P1 & P2 & P3). repeat split; try assumption. intros [[? ?] _]; discriminate.
      + intros (P1 & P2 & P3 & _). repeat split; assumption. }
  destruct Csame as (C1 & C2 & C3 & C4).
  (* the waves *)
  assert (exists sd,
            (match globals sc !! wavesGain, wavesIsSample sc with
             | Some id, true => setValue id (wavesRange c * Q2Qc 0.6) ;;
                                cancelTimer wavesPatternTimer
             | _, _ => setValueIfG wavesGain 0 ;; startWavesPattern (wavesRange c)
             end) sc = (Ok tt, sd) /\
            (is_Some (globals sd !! wavesPatternTimer) <->
             audioCtx s = true /\ is_Some (globals s !! wavesGain) /\
             (0 < wavesRange c)%Qc /\ wavesIsSample s = false) /\
            SameBut wavesPatternTimer sc sd) as (sd & Hd & Cw & Dsame).
  { rewrite (C4 wavesGain) by discriminate. rewrite C3, G0, G3.
    assert (forall u, globals u = globals sc -> audioCtx u = audioCtx sc ->
              birdsIsSample u = birdsIsSample sc -> wavesIsSample u = wavesIsSample sc ->
              SameBut wavesPatternTimer sc u) as Hframe.
    { intros u U0 U1 U2 U3. repeat split; try assumption. intros y _. rewrite U0. reflexivity. }
    assert (exists sd, (setValueIfG wavesGain 0 ;; startWavesPattern (wavesRange c)) sc
                       = (Ok tt, sd) /\
              (is_Some (globals sd !! wavesPatternTimer) <->
               audioCtx s = true /\ is_Some (globals s !! wavesGain) /\
               (0 < wavesRange c)%Qc) /\
              SameBut wavesPatternTimer sc sd) as (sd & Hd & Hiff & Hsame).
    { destruct (setValueIfG_run wavesGain 0 sc) as (q & Hq & Q0 & Q1 & Q2 & Q3).
      destruct (startWavesPattern_run (wavesRange c) q) as (sd & Hd & Hiff & Hsame).
      exists sd. split; [unfold mbind, Js_bind; rewrite Hq; exact Hd|]. split.
      - rewrite Hiff, Q0, Q1, C1, G1, (C4 wavesGain), G0 by discriminate. reflexivity.
      - apply (sameBut_trans _ sc q sd); [apply Hframe; assumption | exact Hsame]. }
    destruct (globals s !! wavesGain) as [wg|] eqn:Ewg;
      [destruct (wavesIsSample s) eqn:Ews|].
    - destruct (setValue_cancel_run wavesPatternTimer wg (wavesRange c * Q2Qc 0.6) sc)
        as (sd' & Hd' & Hx & Hsame').
      exists sd'. split; [exact Hd'|]. split; [|exact Hsame'].
      rewrite Hx. split; [intros [? ?]; discriminate|].
      intros (_ & _ & _ & ?). discriminate.
    - exists sd. split; [exact Hd|]. split; [|exact Hsame].
      rewrite Hiff. split.
      + intros (P1 & P2 & P3). repeat split; assumption.
      + intros (P1 & P2 & P3 & _). repeat split; assumption.
    - exists sd. split; [exact Hd|]. split; [|exact Hsame].
      rewrite Hiff. split.
      + intros (_ & [? ?] & _). discriminate.
      + intros (_ & [? ?] & _). discriminate. }
  destruct Dsame as (D1 & D2 & D3 & D4).
  assert (updateSoundscapes c s = (Ok tt, sd)) as Hrun.
  { unfold updateSoundscapes.
    unfold mbind at 1, Js_bind at 1. rewrite Ha.
    unfold mbind at 1, Js_bind at 1. rewrite Hb.
    unfold getG. js_run.
    unfold mbind at 1, Js_bind at 1. rewrite Hc. js_run. exact Hd. }
  unfold s', returns, exec. rewrite Hrun. cbn [fst snd].
  split; [reflexivity|]. split; [|split].
  - rewrite (D4 birdsPatternTimer) by discriminate. exact Cb.
  - exact Cw.
  - intros y Hy1 Hy2. rewrite D4, C4, G0 by assumption. reflexivity.
Qed.

End PatternFacts.

(** ** The session timer of the Meditate tab *)

Section MeditateFacts.
Import App Samples Meditate.

Ltac md :=
  cbn [explore medBandKey medBandHz sessionMinutes medPlayDisabled medTimerId medEndTime
       medTimerDisplay medPending medNextId setPage setMedBand setSessionMinutes
       setMedPlayDisabled
       setMedTimerId setMedEndTime setMedTimerDisplay setMedPending fst snd] in *.

Lemma liftPage_run {A : Type} (m : Cmd A) (s : MedState) :
  liftPage m s = (fst (m (explore s)), setPage (snd (m (explore s))) s).
Proof. reflexivity. Qed.

(** [stopMeditation] returns, stops the session timer and lets the page
    start a session again. *)
Lemma stopMeditation_run (s : MedState) :
  exists p, stopMeditation s =
    (Ok tt,
     setMedPlayDisabled false
       (setMedTimerDisplay Infinity
          (setMedTimerId None
             (setMedPending (match medTimerId s with
                             | Some t => medPending s ∖ {[t]}
                             | None => medPending s
                             end) (medNextId s) (setPage p s))))).
Proof.
  unfold stopMeditation, clearMedTimer.
  assert (exists p1, liftAudio Audio.stopCurrentAudio (explore s) = (Ok tt, p1)) as [p1 H1].
  { rewrite liftAudio_run, (noThrow_run _ _ stopCurrentAudio_noThrow). eauto. }
  destruct (stopAutosweep_run p1) as (p2 & H2 & _).
  exists p2.
  unfold mbind at 1, Js_bind at 1. rewrite liftPage_run, H1. cbn [fst snd].
  unfold mbind at 1, Js_bind at 1. rewrite liftPage_run. md. rewrite H2. cbn [fst snd].
  js_run. md. destruct (medTimerId s) as [t|]; js_run; reflexivity.
Qed.

Lemma medTimerOk_alone (s : MedState) (t : nat) :
  MedTimerOk s -> t ∈ medPending s -> medPending s ∖ {[t]} = ∅.
Proof.
  intros [H _] Ht. apply set_eq. intros x. split; [|set_solver].
  intros Hx. apply elem_of_difference in Hx as [Hx Hn].
  destruct (H _ Ht) as [E1 _], (H _ Hx) as [E2 _].
  rewrite E1 in E2. injection E2 as ->. set_solver.
Qed.

Lemma medTimerOk_idle (s : MedState) :
  MedTimerOk s -> medPlayDisabled s = false -> medPending s = ∅.
Proof.
  intros [H _] Hd. apply set_eq. intros x. split; [|set_solver].
  intros Hx. destruct (H _ Hx) as [_ E]. congruence.
Qed.

Lemma medTimerOk_stopped (s : MedState) :
  MedTimerOk s ->
  match medTimerId s with
  | Some t => medPending s ∖ {[t]}
  | None => medPending s
  end = ∅.
Proof.
  intros H. pose proof H as [H1 _].
  apply set_eq. intros x. split; [|set_solver].
  intros Hx. destruct (medTimerId s) as [t|] eqn:E.
  - apply elem_of_difference in Hx as [Hx Hn]. destruct (H1 _ Hx) as [E1 _].
    injection E1 as ->. set_solver.
  - destruct (H1 _ Hx) as [E1 _]. discriminate E1.
Qed.

(** What a tick of the session timer does, once its timeout is taken
    from the pending ones. *)
Lemma tick_run (s : MedState) (now : Z) :
  medPending s = ∅ ->
  exists s', snd (tick now s) = s' /\ fst (tick now s) = Ok tt /\
    medEndTime s' = medEndTime s /\
    if (medEndTime s - now <=? 0)%Z then
      medPending s' = ∅ /\ medTimerDisplay s' = Infinity /\ medPlayDisabled s' = false /\
      medNextId s' = medNextId s
    else
      medPending s' = {[medNextId s]} /\ medTimerId s' = Some (medNextId s) /\
      medNextId s' = S (medNextId s) /\ medPlayDisabled s' = medPlayDisabled s /\
      medTimerDisplay s' = Clock ((medEndTime s - now) / 1000 / 60)
                                 (((medEndTime s - now) / 1000) mod 60) /\
      explore s' = explore s.
Proof.
  intros He. eexists. split; [reflexivity|].
  unfold tick. js_run. destruct (medEndTime s - now <=? 0)%Z.
  - js_run.
    destruct (stopMeditation_run (setMedTimerDisplay (Clock 0 0) s)) as [p Hp].
    rewrite Hp. md. rewrite He. repeat split; try reflexivity.
    destruct (medTimerId s); set_solver.
  - unfold setMedTimeout. js_run.
    unfold mbind, Js_bind. cbn beta iota. js_run. md. rewrite He.
    repeat split; try reflexivity. set_solver.
Qed.

Lemma medStep_keeps (s : MedState) (e : MedEvent) : MedTimerOk s -> MedTimerOk (medStep s e).
Proof.
  intros H. unfold medStep, exec.
  destruct e as [now now'| |t now|e|key hz|v|]; cbn [medHandle].
  - js_run. destruct (medPlayDisabled s) eqn:Hd; [js_run; exact H|].
    pose proof (medTimerOk_idle _ H Hd) as He.
    unfold startMeditation. js_run.
    rewrite run_bind, liftPage_run.
    destruct (fst (liftAudio (Audio.startGraph (controls (explore s)) (medBandHz s)) (explore s)))
      as [[]|] eqn:Hg; cbn [fst snd].
    2: { split; md; rewrite He; set_solver. }
    set (s1 := setPage _ s).
    assert (H1 : medPending s1 = ∅) by exact He.
    assert (N1 : medNextId s1 = medNextId s) by reflexivity.
    clearbody s1. js_run.
    assert (exists s2, medPending s2 = ∅ /\ medNextId s2 = medNextId s /\
              (match bestPhaseByBand (explore s1) !! medBandKey s1 with
               | Some info => liftPage (modify (setPhaseRange (JsNum.toFixed0 (phase info))))
               | None => skip
               end) s1 = (Ok tt, s2)) as (s2 & H2 & N2 & R2).
    { destruct (bestPhaseByBand (explore s1) !! medBandKey s1).
      - eexists. split; [|split; [|reflexivity]]; md; assumption.
      - exists s1. repeat split; assumption. }
    rewrite run_bind, R2. cbn [fst snd]. js_run.
    unfold startMedTimer. md.
    set (mins := match sessionMinutes s2 with Some 0%Z | None => 20%Z | Some n => n end).
    clearbody mins.
    destruct ((mins =? 0)%Z || (mins <=? 0)%Z).
    + js_run. split; md; rewrite H2; set_solver.
    + js_run.
      destruct (tick_run (setMedEndTime (now + mins * 60 * 1000)
                            (setMedPlayDisabled true s2)) now' H2)
        as (s3 & <- & _ & _ & H3). md.
      destruct (_ <=? 0)%Z.
      * destruct H3 as (P & _). split; rewrite P; set_solver.
      * destruct H3 as (P & I & N & D & _ & _). split; rewrite P; intros t Ht;
          apply elem_of_singleton in Ht; subst t.
        -- rewrite I, D. split; reflexivity.
        -- rewrite N. lia.
  - destruct (stopMeditation_run s) as [p Hp]. rewrite Hp. md.
    rewrite (medTimerOk_stopped _ H). split; md; set_solver.
  - js_run. destruct (bool_decide (t ∈ medPending s)) eqn:Ht; [|js_run; exact H].
    apply bool_decide_eq_true in Ht. js_run.
    pose proof (medTimerOk_alone _ _ H Ht) as He.
    set (s1 := setMedPending _ _ s).
    assert (H1 : medPending s1 = ∅) by exact He.
    assert (D1 : medPlayDisabled s1 = true) by (destruct H as [H _]; exact (proj2 (H _ Ht))).
    destruct (tick_run s1 now H1) as (s3 & <- & _ & _ & H3).
    destruct (_ <=? 0)%Z.
    + destruct H3 as (P & _). split; rewrite P; set_solver.
    + destruct H3 as (P & I & N & D & _ & _). split; rewrite P; intros u Hu;
        apply elem_of_singleton in Hu; subst u.
      * rewrite I, D. split; [reflexivity | exact D1].
      * rewrite N. lia.
  - rewrite liftPage_run. exact H.
  - js_run. exact H.
  - js_run. exact H.
  - rewrite run_bind, liftPage_run. destruct (stopExplore_run (explore s)) as (p1 & -> & _).
    cbn [fst snd]. rewrite run_bind.
    destruct (stopMeditation_run (setPage p1 s)) as [p2 Hp]. rewrite Hp. cbn [fst snd].
    rewrite liftPage_run. md. rewrite (medTimerOk_stopped _ H). split; md; set_solver.
Qed.

Lemma medRun_keeps (es : list MedEvent) (s : MedState) :
  MedTimerOk s -> MedTimerOk (medRun s es).
Proof.
  revert s. induction es as [|e es IH]; intros s H; [exact H|].
  apply IH, medStep_keeps, H.
Qed.

Lemma medLoaded_ok (p : State) (key : string) (hz : Qc) (mins : option Z) :
  MedTimerOk (medLoaded p key hz mins).
Proof. split; cbn; set_solver. Qed.

(** X22.  The session timer of the Meditate tab.  After any sequence of
    clicks on Start and Stop, timeouts firing, Explore events and
    session-length changes, at most one timeout of the session timer is
    pending, and none while Start is enabled.  Stop clears it, shows the
    infinity sign and enables Start again, and so does a timeout firing
    at or after the end time: the 0:00 it writes is replaced at once.  A
    timeout firing before the end time shows the whole seconds left as
    minutes and seconds below sixty, and leaves exactly one new timeout
    pending, the end time unchanged.  A Start whose engine build returns,
    with a session length above 0 (20 when the field reads 0 or is not a
    number) and its second clock reading before the end time, sets the
    end time to the first clock reading plus the length and leaves one
    timeout pending; with a negative length it starts no timer and shows
    the infinity sign; in both cases it moves the phase slider to the
    rounded best phase recorded for the meditation band. *)
Theorem X22_session_timer_is_single_and_ends (p : State) (key : string) (hz : Qc)
    (mins : option Z) (es : list MedEvent) :
  let s := medRun (medLoaded p key hz mins) es in
  (forall t t', t ∈ medPending s -> t' ∈ medPending s -> t = t') /\
  (medPlayDisabled s = false -> medPending s = ∅) /\
  (let s' := medStep s MedStop in
   medPending s' = ∅ /\ medTimerDisplay s' = Infinity /\ medPlayDisabled s' = false) /\
  (forall t now, t ∈ medPending s -> (medEndTime s <= now)%Z ->
     let s' := medStep s (MedTick t now) in
     medPending s' = ∅ /\ medTimerDisplay s' = Infinity /\ medPlayDisabled s' = false) /\
  (forall t now, t ∈ medPending s -> (now < medEndTime s)%Z ->
     let s' := medStep s (MedTick t now) in
     exists m sec t',
       medTimerDisplay s' = Clock m sec /\ (0 <= sec < 60)%Z /\
       (m * 60 + sec = (medEndTime s - now) / 1000)%Z /\
       medPending s' = {[t']} /\ t' ≠ t /\ medPlayDisabled s' = true /\
       medEndTime s' = medEndTime s) /\
  (forall now now',
     medPlayDisabled s = false ->
     fst (medHandle (MedPlay now now') s) = Ok tt ->
     let mins := match sessionMinutes s with
                 | Some 0%Z | None => 20%Z
                 | Some n => n
                 end in
     let s' := medStep s (MedPlay now now') in
     (forall r, bestPhaseByBand (explore s) !! medBandKey s = Some r ->
                (mins < 0 \/ now' < now + mins * 60000)%Z ->
                phaseRange (explore s') = JsNum.toFixed0 (phase r)) /\
     ((mins < 0)%Z ->
      medPlayDisabled s' = true /\ medPending s' = ∅ /\ medTimerDisplay s' = Infinity) /\
     ((0 < mins)%Z -> (now' < now + mins * 60000)%Z ->
      medPlayDisabled s' = true /\ medEndTime s' = (now + mins * 60000)%Z /\
      exists t', medPending s' = {[t']})).
Proof.
  intros s.
  assert (H : MedTimerOk s) by apply medRun_keeps, medLoaded_ok.
  clearbody s. split; [|split; [|split; [|split; [|split]]]].
  - intros t t' Ht Ht'. destruct H as [H _].
    destruct (H _ Ht) as [E _], (H _ Ht') as [E' _]. congruence.
  - apply medTimerOk_idle, H.
  - unfold medStep, exec. cbn [medHandle].
    destruct (stopMeditation_run s) as [q Hq]. rewrite Hq. md.
    rewrite (medTimerOk_stopped _ H). repeat split.
  - intros t now Ht Hnow. unfold medStep, exec. cbn [medHandle]. js_run.
    rewrite (bool_decide_eq_true_2 _ Ht). js_run.
    pose proof (medTimerOk_alone _ _ H Ht) as He.
    set (s1 := setMedPending _ _ s).
    destruct (tick_run s1 now He) as (s3 & <- & _ & _ & H3).
    change (medEndTime s1) with (medEndTime s) in H3.
    destruct (Z.leb_spec (medEndTime s - now) 0); [|lia].
    destruct H3 as (P & D & B & _). auto.
  - intros t now Ht Hnow. unfold medStep, exec. cbn [medHandle]. js_run.
    rewrite (bool_decide_eq_true_2 _ Ht). js_run.
    pose proof (medTimerOk_alone _ _ H Ht) as He.
    set (s1 := setMedPending _ _ s).
    destruct (tick_run s1 now He) as (s3 & <- & _ & E & H3).
    change (medEndTime s1) with (medEndTime s) in H3, E.
    change (medNextId s1) with (medNextId s) in H3.
    change (medPlayDisabled s1) with (medPlayDisabled s) in H3.
    destruct (Z.leb_spec (medEndTime s - now) 0); [lia|].
    destruct H3 as (P & I & N & D & C & _).
    exists ((medEndTime s - now) / 1000 / 60)%Z, (((medEndTime s - now) / 1000) mod 60)%Z,
           (medNextId s).
    split; [exact C|]. split; [apply Z.mod_pos_bound; lia|].
    split; [rewrite Z.mul_comm; symmetry; apply Z.div_mod; lia|].
    split; [exact P|]. split; [|split].
    + destruct H as [_ H]. specialize (H _ Ht). lia.
    + rewrite D. destruct H as [H _]. exact (proj2 (H _ Ht)).
    + exact E.
  - intros now now' Hd. cbv zeta. unfold medStep, exec. cbn [medHandle]. js_run. rewrite Hd.
    pose proof (medTimerOk_idle _ H Hd) as He.
    unfold startMeditation. js_run.
    rewrite !run_bind, liftPage_run.
    destruct (fst (liftAudio (Audio.startGraph (controls (explore s)) (medBandHz s)) (explore s)))
      as [[]|] eqn:Hg; cbn [fst snd]; [|discriminate].
    intros _.
    assert (Hb : bestPhaseByBand
                   (snd (liftAudio (Audio.startGraph (controls (explore s)) (medBandHz s))
                           (explore s))) = bestPhaseByBand (explore s)) by reflexivity.
    set (s1 := setPage _ s).
    assert (H1 : medPending s1 = ∅) by exact He.
    assert (M1 : sessionMinutes s1 = sessionMinutes s) by reflexivity.
    assert (K1 : medBandKey s1 = medBandKey s) by reflexivity.
    assert (B1 : bestPhaseByBand (explore s1) = bestPhaseByBand (explore s)) by exact Hb.
    clearbody s1. clear Hb. js_run.
    assert (exists s2, medPending s2 = ∅ /\ sessionMinutes s2 = sessionMinutes s /\
              (forall r, bestPhaseByBand (explore s) !! medBandKey s = Some r ->
                         phaseRange (explore s2) = JsNum.toFixed0 (phase r)) /\
              (match bestPhaseByBand (explore s1) !! medBandKey s1 with
               | Some info => liftPage (modify (setPhaseRange (JsNum.toFixed0 (phase info))))
               | None => skip
               end) s1 = (Ok tt, s2)) as (s2 & H2 & M2 & P2 & R2).
    { rewrite B1, K1. destruct (bestPhaseByBand (explore s) !! medBandKey s) as [r|].
      - eexists. split; [|split; [|split; [|reflexivity]]]; md; try assumption.
        intros r' [= <-]. reflexivity.
      - exists s1. repeat split; try assumption. intros r [=]. }
    rewrite run_bind, R2. cbn [fst snd]. js_run.
    unfold startMedTimer. md. rewrite M2.
    set (len := match sessionMinutes s with Some 0%Z | None => 20%Z | Some n => n end).
    clearbody len.
    destruct (Z.eqb_spec len 0) as [->|Hm]; cbn [orb].
    { js_run. md. split; [auto|]. split; intros; lia. }
    destruct (Z.leb_spec len 0).
    + js_run. md. split; [auto|]. split; [auto|]. intros; lia.
    + js_run.
      destruct (tick_run (setMedEndTime (now + len * 60 * 1000)
                            (setMedPlayDisabled true s2)) now' H2)
        as (s3 & <- & _ & E & H3). md.
      split; [|split]; [|intros; lia|].
      * intros r Hr [Hneg|Hlt]; [lia|].
        destruct (Z.leb_spec (now + len * 60 * 1000 - now') 0); [lia|].
        destruct H3 as (_ & _ & _ & _ & _ & X). rewrite X. md. auto.
      * intros _ Hlt.
        destruct (Z.leb_spec (now + len * 60 * 1000 - now') 0); [lia|].
        destruct H3 as (P & _ & _ & D & _ & _).
        split; [exact D|]. split; [rewrite E; lia|]. eauto.
Qed.

(** A twenty-minute session on a page with one record for the band. *)
Lemma X22_session_timer_is_single_and_ends_witness :
  let s := medStep (medLoaded (Samples.page threeMarksAt100) "7.83" (Q2Qc 7.83) (Some 0%Z))
                   (MedPlay 5000 5001) in
  medPlayDisabled s = true /\ medEndTime s = 1205000%Z /\
  phaseRange (explore s) = Q2Qc 100.
Proof.
  destruct (X22_session_timer_is_single_and_ends
              (Samples.page threeMarksAt100) "7.83" (Q2Qc 7.83) (Some 0%Z) [])
    as (_ & _ & _ & _ & _ & Hplay).
  destruct (Hplay 5000%Z 5001%Z eq_refl) as (Hphase & _ & Hrun).
  - vm_compute. reflexivity.
  - destruct Hrun as (Hd & He & _); [cbv; reflexivity | cbv; reflexivity |].
    split; [exact Hd|]. split; [exact He|].
    etransitivity; [apply (Hphase (mkRecord (Q2Qc 100) 3))|].
    + vm_compute. reflexivity.
    + right. cbv. reflexivity.
    + apply Qc_is_canon. vm_compute. reflexivity.
Defined.

End MeditateFacts.

(** ** The clock of the sweeps *)

Section SweepFacts.
Import App Samples FineTune Sweep.

Ltac to_Q :=
  unfold Qcle, Qclt, Qcminus, Qcopp, Qcplus, Qcmult in *;
  cbn [this Q2Qc] in *;
  rewrite ?Qred_correct in *.

(** The truncation of a number that is not negative is the one integer
    at or below it and less than one below. *)
Lemma trunc_unique (q : Qc) (k : Z) :
  (JsNum.ofZ k <= q)%Qc -> (q < JsNum.ofZ k + 1)%Qc -> (0 <= k)%Z -> JsNum.trunc q = k.
Proof.
  intros Hlo Hhi Hk.
  assert (0 <= q)%Qc as Hq.
  { eapply Qcle_trans; [|exact Hlo]. change 0%Qc with (JsNum.ofZ 0). apply ofZ_le. exact Hk. }
  destruct (trunc_nonneg q Hq) as (Ht & Tlo & Thi).
  set (t := JsNum.trunc q) in *.
  destruct (Z.lt_trichotomy t k) as [Hlt|[Heq|Hgt]]; [exfalso| exact Heq | exfalso].
  - assert (JsNum.ofZ (t + 1) <= JsNum.ofZ k)%Qc as H by (apply ofZ_le; lia).
    assert (JsNum.ofZ (t + 1) = JsNum.ofZ t + 1)%Qc as E.
    { apply Qc_is_canon. to_Q. rewrite !this_ofZ. rewrite inject_Z_plus.
      change (Qred 1) with 1%Q. reflexivity. }
    rewrite E in H. clear E.
    generalize dependent (JsNum.ofZ t). generalize dependent (JsNum.ofZ k). intros K ? ? T ? ? ?.
    to_Q. change (Qred 1) with 1%Q in *. lra.
  - assert (JsNum.ofZ (k + 1) <= JsNum.ofZ t)%Qc as H by (apply ofZ_le; lia).
    assert (JsNum.ofZ (k + 1) = JsNum.ofZ k + 1)%Qc as E.
    { apply Qc_is_canon. to_Q. rewrite !this_ofZ. rewrite inject_Z_plus.
      change (Qred 1) with 1%Q. reflexivity. }
    rewrite E in H. clear E.
    generalize dependent (JsNum.ofZ t). generalize dependent (JsNum.ofZ k). intros K ? ? T ? ? ?.
    to_Q. change (Qred 1) with 1%Q in *. lra.
Qed.

Lemma ofZ_succ (k : Z) : (JsNum.ofZ (k + 1) = JsNum.ofZ k + 1)%Qc.
Proof.
  apply Qc_is_canon. to_Q. rewrite !this_ofZ. rewrite inject_Z_plus.
  change (Qred 1) with 1%Q. reflexivity.
Qed.

Lemma ofZ_plus (a b : Z) : (JsNum.ofZ (a + b) = JsNum.ofZ a + JsNum.ofZ b)%Qc.
Proof.
  apply Qc_is_canon. to_Q. rewrite !this_ofZ. rewrite inject_Z_plus. reflexivity.
Qed.

(** The fraction of the period is the fractional part of the periods
    elapsed. *)
Lemma sweepFraction_eq (startTime now duration : Qc) :
  (0 < duration)%Qc -> (startTime <= now)%Qc ->
  let q := ((now - startTime) / Q2Qc 1000 / duration)%Qc in
  (0 <= q)%Qc /\
  sweepFraction startTime now duration = (q - JsNum.ofZ (JsNum.trunc q))%Qc.
Proof.
  intros Hd Hnow q.
  assert (duration <> 0%Qc) as Hne.
  { intros ->. apply (Qclt_not_eq _ _ Hd). reflexivity. }
  split.
  - unfold q, Qcdiv. apply Qcmult_nonneg_nonneg.
    + apply Qcmult_nonneg_nonneg; [|discriminate].
      clear q Hne Hd. to_Q. change (this 0%Qc) with 0%Q. lra.
    + apply Qclt_le_weak. apply Qcinv_pos. exact Hd.
  - unfold sweepFraction, JsNum.js_mod. cbv zeta. fold q. unfold q. field; repeat split; (exact Hne || discriminate).
Qed.

Lemma sweepFraction_range (startTime now duration : Qc) :
  (0 < duration)%Qc -> (startTime <= now)%Qc ->
  (0 <= sweepFraction startTime now duration)%Qc /\
  (sweepFraction startTime now duration < 1)%Qc.
Proof.
  intros Hd Hnow. destruct (sweepFraction_eq _ _ _ Hd Hnow) as (Hq & ->).
  destruct (trunc_nonneg _ Hq) as (_ & Hlo & Hhi).
  generalize dependent (JsNum.ofZ (JsNum.trunc ((now - startTime) / Q2Qc 1000 / duration))).
  generalize dependent ((now - startTime) / Q2Qc 1000 / duration)%Qc.
  intros q _ K Hlo Hhi. to_Q. change (Qred 1) with 1%Q in *. change (this 1%Qc) with 1%Q.
  change (this 0%Qc) with 0%Q. split; lra.
Qed.

(** X23.  The clock of the sweeps, in exact arithmetic.  For a sweep
    period above 0 and a frame at or after the start of the sweep, the
    fraction [(elapsed % duration) / duration] is the fractional part of
    the number of periods elapsed: it is at least 0 and below 1, and it
    is the same a whole number of periods later.  The autosweep then
    writes a whole number of degrees from 0 to 360 to the phase slider,
    0 at its first frame, and the fine-tune sweep, whose period is 20
    seconds, computes an angle in [0, 360) from a recorded phase within
    0..360. *)
Theorem X23_sweep_fraction_is_periodic (startTime now duration : Qc) :
  (0 < duration)%Qc -> (startTime <= now)%Qc ->
  let frac := sweepFraction startTime now duration in
  validEvent (SweepFrame frac) /\
  (exists k : Z,
     (0 <= k)%Z /\
     frac = ((now - startTime) / Q2Qc 1000 / duration - JsNum.ofZ k)%Qc) /\
  (forall n : Z, (0 <= n)%Z ->
     sweepFraction startTime (now + Q2Qc 1000 * duration * JsNum.ofZ n) duration = frac) /\
  InRange (autosweepPhase startTime now duration) /\
  (exists z : Z, autosweepPhase startTime now duration = JsNum.ofZ z) /\
  autosweepPhase startTime startTime duration = Q2Qc 0 /\
  (forall basePhase, InRange basePhase ->
     let deg := fineTuneDeg basePhase (sweepFraction startTime now (Q2Qc 20)) in
     (0 <= deg)%Qc /\ (deg < Q2Qc 360)%Qc).
Proof.
  intros Hd Hnow frac.
  assert (duration <> 0%Qc) as Hne.
  { intros ->. apply (Qclt_not_eq _ _ Hd). reflexivity. }
  destruct (sweepFraction_range _ _ _ Hd Hnow) as (F0 & F1). fold frac in F0, F1.
  destruct (sweepFraction_eq _ _ _ Hd Hnow) as (Hq & Heq). fold frac in Heq.
  set (q := ((now - startTime) / Q2Qc 1000 / duration)%Qc) in *.
  destruct (trunc_nonneg q Hq) as (Hk & Hlo & Hhi).
  split; [|split; [|split; [|split; [|split; [|split]]]]].
  - split; assumption.
  - exists (JsNum.trunc q). split; [exact Hk | exact Heq].
  - intros n Hn.
    assert (startTime <= now + Q2Qc 1000 * duration * JsNum.ofZ n)%Qc as Hnow'.
    { assert (0 <= Q2Qc 1000 * duration * JsNum.ofZ n)%Qc as Hpos.
      { apply Qcmult_nonneg_nonneg.
        - apply Qcmult_nonneg_nonneg; [discriminate | apply Qclt_le_weak, Hd].
        - change 0%Qc with (JsNum.ofZ 0). apply ofZ_le, Hn. }
      clear - Hnow Hpos. generalize dependent (Q2Qc 1000 * duration * JsNum.ofZ n)%Qc.
      intros x Hx. to_Q. change (this 0%Qc) with 0%Q in *. lra. }
    destruct (sweepFraction_eq _ _ _ Hd Hnow') as (Hq' & ->).
    assert (((now + Q2Qc 1000 * duration * JsNum.ofZ n - startTime) / Q2Qc 1000 / duration
             = q + JsNum.ofZ n)%Qc) as E.
    { unfold q. field; repeat split; (exact Hne || discriminate). }
    rewrite E.
    assert (JsNum.trunc (q + JsNum.ofZ n) = (JsNum.trunc q + n)%Z) as T.
    { apply trunc_unique; [| |lia]; rewrite ofZ_plus.
      - clear - Hlo. generalize dependent (JsNum.ofZ (JsNum.trunc q)).
        generalize (JsNum.ofZ n). intros N K Hlo. to_Q. lra.
      - clear - Hhi. generalize dependent (JsNum.ofZ (JsNum.trunc q)).
        generalize (JsNum.ofZ n). intros N K Hhi. to_Q. change (Qred 1) with 1%Q in *. lra. }
    rewrite T, ofZ_plus, Heq. ring.
  - unfold autosweepPhase. cbv zeta. fold frac. apply toFixed0_range. split.
    + change (Q2Qc 0) with (0 * Q2Qc 360)%Qc. apply Qcmult_le_compat_r; [exact F0|discriminate].
    + change (Q2Qc 360) with (1 * Q2Qc 360)%Qc at 2.
      apply Qcmult_le_compat_r; [apply Qclt_le_weak, F1|discriminate].
  - unfold autosweepPhase, JsNum.toFixed0. cbv zeta.
    destruct (decide _); eexists; reflexivity.
  - unfold autosweepPhase, sweepFraction, JsNum.js_mod. cbv zeta.
    replace ((startTime - startTime) / Q2Qc 1000)%Qc with 0%Qc by (field; repeat split; (exact Hne || discriminate)).
    replace (0 / duration)%Qc with 0%Qc by (field; repeat split; (exact Hne || discriminate)).
    change (JsNum.trunc 0) with 0%Z. change (JsNum.ofZ 0) with 0%Qc.
    replace ((0 - duration * 0) / duration * Q2Qc 360)%Qc with (Q2Qc 0) by (field; repeat split; (exact Hne || discriminate)).
    apply toFixed0_zero.
  - intros basePhase Hbase.
    destruct (sweepFraction_range startTime now (Q2Qc 20) eq_refl Hnow) as (T0 & T1).
    destruct (fineTuneDeg_range basePhase _ Hbase T0 T1) as (D0 & D1 & _).
    split; assumption.
Qed.

(** Halfway through the second period of a 30-second sweep. *)
Lemma X23_sweep_fraction_is_periodic_witness :
  sweepFraction (Q2Qc 500) (Q2Qc 45500) (Q2Qc 30) = Q2Qc (1 # 2) /\
  InRange (autosweepPhase (Q2Qc 500) (Q2Qc 45500) (Q2Qc 30)).
Proof.
  assert (H := X23_sweep_fraction_is_periodic (Q2Qc 500) (Q2Qc 45500) (Q2Qc 30)
                 eq_refl ltac:(discriminate)).
  cbv zeta in H. destruct H as (_ & _ & _ & Hrange & _ & _ & _).
  split; [apply Qc_is_canon; vm_compute; reflexivity | exact Hrange].
Defined.

End SweepFacts.
